(** * CacheTokens: the pre-tokenized-header (PTH) writer

    A shallow embedding of [Driver/CacheTokens.cpp]: the little-endian
    emit helpers, the on-disk chained hash table generator, the
    identifier interner, the literal spelling pool, the per-file token
    lexing loop with its preprocessor-conditional table, and the driver.

    Conventions.  A [uint32_t] is a [Z] reduced with [u32] wherever the
    C++ arithmetic wraps.  A [raw_ostream] that is only appended to is
    the list of bytes written so far, so that [tell] is its length.  An
    [assert] that fails, and an access the C++ standard leaves undefined,
    end the computation with a [Fault]. *)

From stdpp Require Import gmap list sorting.
From Stdlib Require Import ZArith Lia.

Open Scope Z_scope.

(** ** Machine integers *)

Definition u8  (V : Z) : Z := V mod 2 ^ 8.
Definition u32 (V : Z) : Z := V mod 2 ^ 32.
Definition u64 (V : Z) : Z := V mod 2 ^ 64.

(** ** Results of fallible code *)

(** [OutOfFuel] is not a behaviour of the program: it marks a bounded
    loop of the embedding that used up its bound. *)
Inductive Fault := AssertionFailed | UndefinedBehaviour | OutOfFuel.

Inductive Res (A : Type) : Type :=
| Ok (a : A)
| Err (f : Fault).
Arguments Ok {A} a.
Arguments Err {A} f.

Global Instance Res_ret : MRet Res := @Ok.

Global Instance Res_bind : MBind Res := fun A B k r =>
  match r with
  | Ok a => k a
  | Err f => Err f
  end.

Definition assert (b : bool) : Res unit :=
  if b then Ok tt else Err AssertionFailed.

(** ** The byte sink and the emit helpers *)

Definition raw_ostream := list Z.

Definition tell (Out : raw_ostream) : Z := Z.of_nat (length Out).

Definition Emit8 (Out : raw_ostream) (V : Z) : raw_ostream :=
  Out ++ [u8 V].

Definition Emit16 (Out : raw_ostream) (V : Z) : Res raw_ostream :=
  let V := u32 V in
  let Out := Out ++ [u8 V] in
  let Out := Out ++ [u8 (V ≫ 8)] in
  _ ← assert (V ≫ 16 =? 0);
  Ok Out.

Definition Emit32 (Out : raw_ostream) (V : Z) : raw_ostream :=
  let V := u32 V in
  Out ++ [u8 V; u8 (V ≫ 8); u8 (V ≫ 16); u8 (V ≫ 24)].

Definition Emit64 (Out : raw_ostream) (V : Z) : raw_ostream :=
  let V := u64 V in
  Out ++ [u8 V; u8 (V ≫ 8); u8 (V ≫ 16); u8 (V ≫ 24);
          u8 (V ≫ 32); u8 (V ≫ 40); u8 (V ≫ 48); u8 (V ≫ 56)].

(** [Pad]: [off + A - 1] is computed on 32 bits, the mask on the width of
    [uintptr_t], and the count [n] is stored in a [uint32_t]. *)
Definition Pad (Out : raw_ostream) (A : Z) : raw_ostream :=
  let off := u32 (tell Out) in
  let n := u32 (Z.land (u32 (off + A - 1)) (Z.lnot (A - 1)) - off) in
  Out ++ replicate (Z.to_nat n) (u8 0).

(** A [const char*] is the memory it points to, up to and including the
    terminating NUL; [c_str s] is the C string whose characters are [s]. *)
Definition c_str (s : list Z) : list Z := s ++ [0].

Fixpoint strlen (x : list Z) : Z :=
  match x with
  | [] => 0
  | c :: x' => if c =? 0 then 0 else 1 + strlen x'
  end.

(** A plain [char] is signed on the targets of the driver: a byte above
    127 is a negative summand. *)
Definition char_value (c : Z) : Z := if c <? 128 then c else c - 256.

Fixpoint BernsteinLoop (x : list Z) (R : Z) : Z :=
  match x with
  | [] => R
  | c :: x' =>
      if c =? 0 then R else BernsteinLoop x' (u32 (R * 33 + char_value c))
  end.

Definition BernsteinHash (x : list Z) : Z :=
  let R := BernsteinLoop x 0 in
  u32 (R + (R ≫ 5)).

(** ** On-disk chained hash table generator *)

(** The trait [Info].  [Mem] is the memory the keys point into: the
    identifier trait's [EmitKey] writes through its key. *)
Class Info (key_type data_type Mem : Type) := {
  ComputeHash : Mem → key_type → Z;
  EmitKeyDataLength :
    raw_ostream → Mem → key_type → data_type → Res (raw_ostream * (Z * Z));
  EmitKey : raw_ostream → Mem → key_type → Z → raw_ostream * Mem;
  EmitData : raw_ostream → Mem → key_type → data_type → Z → Res raw_ostream
}.

Module OnDiskChainedHashTableGenerator.
Section Generator.
Context {key_type data_type Mem : Type} `{!Info key_type data_type Mem}.

Record Item := mkItem {
  key : key_type;
  data : data_type;
  hash : Z
}.

(** A bucket's chain is the list of its items from [head] on. *)
Record Bucket := mkBucket {
  B_off : Z;
  B_head : list Item;
  B_length : Z
}.

Record Table := mkTable {
  NumBuckets : Z;
  NumEntries : Z;
  Buckets : list Bucket
}.

(** [calloc] returns zeroed buckets. *)
Definition calloc (n : Z) : list Bucket :=
  replicate (Z.to_nat n) (mkBucket 0 [] 0).

Definition new_Item (m : Mem) (k : key_type) (d : data_type) : Item :=
  mkItem k d (u32 (ComputeHash m k)).

(** The private [insert] on a bucket array of a given size. *)
Definition insert_bucket (b : list Bucket) (size : Z) (E : Item)
  : Res (list Bucket) :=
  let idx := u32 (Z.land (hash E) (u64 (size - 1))) in
  match b !! Z.to_nat idx with
  | Some B =>
      Ok (<[Z.to_nat idx :=
             mkBucket (B_off B) (E :: B_head B) (u32 (B_length B + 1))]> b)
  | None => Err UndefinedBehaviour
  end.

Fixpoint rehash_chain (chain : list Item) (newBuckets : list Bucket)
    (newsize : Z) : Res (list Bucket) :=
  match chain with
  | [] => Ok newBuckets
  | E :: N =>
      newBuckets ← insert_bucket newBuckets newsize E;
      rehash_chain N newBuckets newsize
  end.

Fixpoint rehash_buckets (old : list Bucket) (newBuckets : list Bucket)
    (newsize : Z) : Res (list Bucket) :=
  match old with
  | [] => Ok newBuckets
  | B :: old' =>
      newBuckets ← rehash_chain (B_head B) newBuckets newsize;
      rehash_buckets old' newBuckets newsize
  end.

Definition resize (newsize : Z) (T : Table) : Res Table :=
  let newBuckets := calloc newsize in
  newBuckets ← rehash_buckets (Buckets T) newBuckets newsize;
  Ok (mkTable (u32 newsize) (NumEntries T) newBuckets).

Definition insert (m : Mem) (k : key_type) (d : data_type) (T : Table)
  : Res Table :=
  let T := mkTable (NumBuckets T) (u32 (NumEntries T + 1)) (Buckets T) in
  T ← (if u32 (4 * NumEntries T) >=? u32 (3 * NumBuckets T)
       then resize (u32 (NumBuckets T * 2)) T
       else Ok T);
  b ← insert_bucket (Buckets T) (NumBuckets T) (new_Item m k d);
  Ok (mkTable (NumBuckets T) (NumEntries T) b).

(** The constructor. *)
Definition empty_table : Table := mkTable 64 0 (calloc 64).

Fixpoint insert_all (m : Mem) (kds : list (key_type * data_type))
    (T : Table) : Res Table :=
  match kds with
  | [] => Ok T
  | (k, d) :: kds' =>
      T ← insert m k d T;
      insert_all m kds' T
  end.

(** *** Emit *)

Fixpoint EmitChain (Out : raw_ostream) (m : Mem) (chain : list Item)
  : Res (raw_ostream * Mem) :=
  match chain with
  | [] => Ok (Out, m)
  | E :: next =>
      let Out := Emit32 Out (hash E) in
      '(Out, Len) ← EmitKeyDataLength Out m (key E) (data E);
      let '(Out, m) := EmitKey Out m (key E) Len.1 in
      Out ← EmitData Out m (key E) (data E) Len.2;
      EmitChain Out m next
  end.

Fixpoint EmitPayload (Out : raw_ostream) (m : Mem) (bs : list Bucket)
  : Res (list Bucket * (raw_ostream * Mem)) :=
  match bs with
  | [] => Ok ([], (Out, m))
  | B :: bs' =>
      match B_head B with
      | [] =>
          '(bs', Outm) ← EmitPayload Out m bs';
          Ok (B :: bs', Outm)
      | _ :: _ =>
          let B := mkBucket (u32 (tell Out)) (B_head B) (B_length B) in
          Out ← Emit16 Out (B_length B);
          '(Out, m) ← EmitChain Out m (B_head B);
          '(bs', Outm) ← EmitPayload Out m bs';
          Ok (B :: bs', Outm)
      end
  end.

Fixpoint EmitOffsets (Out : raw_ostream) (bs : list Bucket) : raw_ostream :=
  match bs with
  | [] => Out
  | B :: bs' => EmitOffsets (Emit32 Out (B_off B)) bs'
  end.

Definition Emit (Out : raw_ostream) (m : Mem) (T : Table)
  : Res (Z * (Table * (raw_ostream * Mem))) :=
  '(bs, (Out, m)) ← EmitPayload Out m (Buckets T);
  let Out := Pad Out 4 in
  let TableOff := u32 (tell Out) in
  let Out := Emit32 Out (NumBuckets T) in
  let Out := Emit32 Out (NumEntries T) in
  let Out := EmitOffsets Out bs in
  Ok (TableOff, (mkTable (NumBuckets T) (NumEntries T) bs, (Out, m))).

End Generator.
End OnDiskChainedHashTableGenerator.

Module HT := OnDiskChainedHashTableGenerator.

(** ** PTH-specific data *)

Record PTHEntry := mkPTHEntry {
  TokenData : Z;
  PPCondData : Z
}.

Definition getTokenOffset (E : PTHEntry) : Z := TokenData E.
Definition getPPCondTableOffset (E : PTHEntry) : Z := PPCondData E.

(** Modelled from the spec: [FileEntry] and [DirectoryEntry], declared by
    the file manager and not in this file.  An entry carries its name and
    the metadata inode, device, mode, modification time and size; a name
    is kept as its characters and handed out as a C string. *)
Record FileEntry := mkFileEntry {
  FE_Name : list Z;
  Inode : Z;
  Device : Z;
  FileMode : Z;
  ModificationTime : Z;
  FileSize : Z
}.

Record DirectoryEntry := mkDirectoryEntry {
  DE_Name : list Z
}.

(** The union with its [Kind] tag. *)
Inductive PTHEntryKeyVariant :=
| IsFE (FE : FileEntry)
| IsDE (DE : DirectoryEntry)
| IsNoExist (Path : list Z).

Definition getFile (V : PTHEntryKeyVariant) : option FileEntry :=
  match V with IsFE FE => Some FE | _ => None end.

Definition getCString (V : PTHEntryKeyVariant) : list Z :=
  match V with
  | IsFE FE => c_str (FE_Name FE)
  | IsDE DE => c_str (DE_Name DE)
  | IsNoExist Path => c_str Path
  end.

Definition getKind (V : PTHEntryKeyVariant) : Z :=
  match V with
  | IsFE _ => 1
  | IsDE _ => 2
  | IsNoExist _ => 0
  end.

Definition KeyVariant_EmitData (Out : raw_ostream) (V : PTHEntryKeyVariant)
  : Res raw_ostream :=
  match V with
  | IsFE FE =>
      let Out := Emit32 Out (Inode FE) in
      let Out := Emit32 Out (Device FE) in
      Out ← Emit16 Out (FileMode FE);
      let Out := Emit64 Out (ModificationTime FE) in
      let Out := Emit64 Out (FileSize FE) in
      Ok Out
  | IsDE _ => Ok Out
  | IsNoExist _ => Ok Out
  end.

Definition getRepresentationLength (V : PTHEntryKeyVariant) : Z :=
  match V with
  | IsFE _ => 4 + 4 + 2 + 8 + 8
  | IsDE _ => 0
  | IsNoExist _ => 0
  end.

(** [Out.write(p, n)]: the first [n] bytes at [p]. *)
Definition write (Out : raw_ostream) (p : list Z) (n : Z) : raw_ostream :=
  Out ++ take (Z.to_nat n) p.

Module FileEntryPTHEntryInfo.

Definition ComputeHash (V : PTHEntryKeyVariant) : Z :=
  BernsteinHash (getCString V).

Definition EmitKeyDataLength (Out : raw_ostream) (V : PTHEntryKeyVariant)
    (E : PTHEntry) : Res (raw_ostream * (Z * Z)) :=
  let n := u32 (strlen (getCString V) + 1 + 1) in
  Out ← Emit16 Out n;
  let m := u32 (getRepresentationLength V
                + (if getFile V is Some _ then 4 + 4 else 0)) in
  let Out := Emit8 Out m in
  Ok (Out, (n, m)).

Definition EmitKey (Out : raw_ostream) (V : PTHEntryKeyVariant) (n : Z)
  : raw_ostream :=
  let Out := Emit8 Out (getKind V) in
  write Out (getCString V) (u32 (n - 1)).

Definition EmitData (Out : raw_ostream) (V : PTHEntryKeyVariant)
    (E : PTHEntry) (_ : Z) : Res raw_ostream :=
  let Out :=
    if getFile V is Some _
    then Emit32 (Emit32 Out (getTokenOffset E)) (getPPCondTableOffset E)
    else Out in
  KeyVariant_EmitData Out V.

End FileEntryPTHEntryInfo.

Global Instance FileEntryPTHEntryInfo_Info
  : Info PTHEntryKeyVariant PTHEntry unit := {|
  ComputeHash _ V := FileEntryPTHEntryInfo.ComputeHash V;
  EmitKeyDataLength Out _ V E := FileEntryPTHEntryInfo.EmitKeyDataLength Out V E;
  EmitKey Out m V n := (FileEntryPTHEntryInfo.EmitKey Out V n, m);
  EmitData Out _ V E n := FileEntryPTHEntryInfo.EmitData Out V E n
|}.

Record OffsetOpt := mkOffsetOpt {
  valid : bool;
  off : Z
}.

Definition OffsetOpt_new : OffsetOpt := mkOffsetOpt false 0.
Definition hasOffset (o : OffsetOpt) : bool := valid o.
Definition getOffset (o : OffsetOpt) : Res Z :=
  _ ← assert (valid o); Ok (off o).
Definition setOffset (o : Z) : OffsetOpt := mkOffsetOpt true o.

Abbreviation PTHMap := (@HT.Table PTHEntryKeyVariant PTHEntry).
Abbreviation IDMap := (gmap N Z).
Abbreviation CachedStrsTy := (gmap (list Z) OffsetOpt).

(** ** Tokens, as the lexer hands them over *)

(** Modelled from the spec: the token kinds and the preprocessor keywords,
    enumerated in headers of the lexer.  Only the kinds this file tests
    are named; [tok_other] stands for each of the others.  Their numbers
    are left to [KindValue] below. *)
Inductive TokenKind :=
| tok_unknown | tok_eof | tok_eom | tok_comment | tok_identifier
| tok_numeric_constant | tok_char_constant | tok_string_literal
| tok_wide_string_literal | tok_angle_string_literal | tok_hash
| tok_other (code : Z).

Global Instance TokenKind_eq_dec : EqDecision TokenKind.
Proof. solve_decision. Defined.

Inductive PPKeywordKind :=
| pp_not_keyword
| pp_if | pp_ifdef | pp_ifndef | pp_elif | pp_else | pp_endif | pp_defined
| pp_include | pp_define | pp_undef | pp_line | pp_error | pp_pragma
| pp_import | pp_include_next | pp_warning | pp_ident | pp_sccs
| pp_assert | pp_unassert.

Global Instance PPKeywordKind_eq_dec : EqDecision PPKeywordKind.
Proof. solve_decision. Defined.

(** An [IdentifierInfo*]; 0 is the null pointer. *)
Abbreviation IdentifierInfoPtr := N.

(** Modelled from the spec: the [Token] of the lexer, declared in a header
    of the lexer: a kind, a set of flags, a length in source bytes, an
    identifier, null when there is none, and a source location. *)
Record Token := mkToken {
  Kind : TokenKind;
  Flags : Z;
  Length : Z;
  IdentInfo : IdentifierInfoPtr;
  Loc : Z
}.

Definition Tok_is (T : Token) (K : TokenKind) : bool := bool_decide (Kind T = K).
Definition Tok_isNot (T : Token) (K : TokenKind) : bool := negb (Tok_is T K).

Definition setKind (T : Token) (K : TokenKind) : Token :=
  mkToken K (Flags T) (Length T) (IdentInfo T) (Loc T).
Definition setIdentifierInfo (T : Token) (II : IdentifierInfoPtr) : Token :=
  mkToken (Kind T) (Flags T) (Length T) II (Loc T).
Definition clearFlag (T : Token) (Flag : Z) : Token :=
  mkToken (Kind T) (Z.land (Flags T) (Z.lnot Flag)) (Length T)
          (IdentInfo T) (Loc T).

(** Modelled from the spec: [Token::isLiteral], a numeric, character or
    string constant, the strings in each of their three kinds. *)
Definition isLiteral (T : Token) : bool :=
  Tok_is T tok_numeric_constant || Tok_is T tok_char_constant
  || Tok_is T tok_string_literal || Tok_is T tok_wide_string_literal
  || Tok_is T tok_angle_string_literal.

(** What the writer consumes from the preprocessor, the identifier table,
    the source manager and the headers that number the token kinds and
    flags.  None of it is defined in [CacheTokens.cpp]. *)
Record Preprocessor := mkPreprocessor {
  KindValue : TokenKind → Z;
  StartOfLine : Z;
  getSpelling : Token → list Z;
  LookUpIdentifierInfo : Token → IdentifierInfoPtr;
  getPPKeywordID : IdentifierInfoPtr → PPKeywordKind;
  getName : IdentifierInfoPtr → list Z;
  getFileOffset : Z → Z;
  isAbsolute : list Z → bool;
  Version : Z
}.

(** Modelled from the spec: the raw-lexing interface of [Lexer].  A raw
    lexer over one buffer is the tokens it has yet to return, and the
    end-of-file token it returns once they are used up. *)
Record Lexer := mkLexer {
  Pending : list Token;
  BufferEnd : Z
}.

Definition eof_token (L : Lexer) : Token :=
  mkToken tok_eof 0 0 0%N (BufferEnd L).

Definition LexFromRawLexer (L : Lexer) : Token * Lexer :=
  match Pending L with
  | [] => (eof_token L, L)
  | T :: rest => (T, mkLexer rest (BufferEnd L))
  end.

(** Modelled from the spec: [Lexer::LexIncludeFilename] lexes the header
    name as one token, here the lexer's next one. *)
Definition LexIncludeFilename (L : Lexer) : Token * Lexer :=
  LexFromRawLexer L.

(** ** The writer *)

Record PTHWriter := mkPTHWriter {
  IM : IDMap;
  Out : raw_ostream;
  idcount : Z;
  PM : PTHMap;
  CachedStrs : CachedStrsTy;
  CurStrOffset : Z;
  StrEntries : list (list Z)
}.

(** The constructor: [idcount(0), CurStrOffset(0)] on a fresh stream. *)
Definition new_PTHWriter (out : raw_ostream) : PTHWriter :=
  mkPTHWriter ∅ out 0 HT.empty_table ∅ 0 [].

Definition set_Out (W : PTHWriter) (o : raw_ostream) : PTHWriter :=
  mkPTHWriter (IM W) o (idcount W) (PM W) (CachedStrs W) (CurStrOffset W)
              (StrEntries W).

Definition set_PM (W : PTHWriter) (pm : PTHMap) : PTHWriter :=
  mkPTHWriter (IM W) (Out W) (idcount W) pm (CachedStrs W) (CurStrOffset W)
              (StrEntries W).

Definition W_Emit8 (W : PTHWriter) (V : Z) : PTHWriter :=
  set_Out W (Emit8 (Out W) V).
Definition W_Emit32 (W : PTHWriter) (V : Z) : PTHWriter :=
  set_Out W (Emit32 (Out W) V).

Definition EmitBuf (W : PTHWriter) (buf : list Z) : PTHWriter :=
  set_Out W (Out W ++ buf).

(** [StringMap::GetOrCreateValue]: the entry of the key, created with a
    default value when the key is new. *)
Definition GetOrCreateValue (key : list Z) (M : CachedStrsTy)
  : OffsetOpt * CachedStrsTy :=
  match M !! key with
  | Some v => (v, M)
  | None => (OffsetOpt_new, <[key := OffsetOpt_new]> M)
  end.

(** The loop state of [LexTokens].  [PPStartCond] is used as a stack only
    and is kept with its back in front. *)
Record LexState := mkLexState {
  PPCond : list (Z * Z);
  PPStartCond : list Z;
  ParsingPreprocessorDirective : bool
}.

(** Where control goes after the loop body: to the label [NextToken] with
    a token in hand, or to the loop condition. *)
Inductive Next :=
| GotoNextToken (Tok : Token) (L : Lexer)
| LoopCondition (Tok : Token) (L : Lexer).

(** [do L.LexFromRawLexer(Tok); while (!Tok.is(tok::eof) &&
    !Tok.isAtStartOfLine())]. *)
Fixpoint skip_to_line_start (sol : Token → bool) (toks : list Token)
  : option (Token * list Token) :=
  match toks with
  | [] => None
  | T :: rest =>
      if negb (Tok_is T tok_eof) && negb (sol T)
      then skip_to_line_start sol rest
      else Some (T, rest)
  end.

(** A key of the identifier table: the identifier and, once its name is
    written, the offset of the name in the file. *)
Record PTHIdKey := mkPTHIdKey {
  IdKey_II : IdentifierInfoPtr;
  IdKey_FileOffset : Z
}.

Global Instance PTHIdKey_inhabited : Inhabited PTHIdKey :=
  populate (mkPTHIdKey 0%N 0).

(** Modelled from the spec: an entry of the source manager's file table.
    The buffer, when there is one, is given as the raw lexer at its
    start. *)
Record ContentCache := mkContentCache {
  Entry : FileEntry;
  getBuffer : option Lexer
}.

(** The bytes of ["cfe-pth"] and of ["PTH error: "]. *)
Definition cfe_pth : list Z := [99; 102; 101; 45; 112; 116; 104].

(** [Out.seek(pos)] followed by the writing of [bytes]. *)
Definition seek_write (Out : raw_ostream) (pos : Z) (bytes : list Z)
  : raw_ostream :=
  take (Z.to_nat pos) Out ++ bytes
  ++ drop (Z.to_nat pos + length bytes)%nat Out.


Section Writer.
Variable PP : Preprocessor.

Definition isAtStartOfLine (T : Token) : bool :=
  negb (Z.land (Flags T) (StartOfLine PP) =? 0).

Definition ResolveID (II : IdentifierInfoPtr) (W : PTHWriter)
  : Z * PTHWriter :=
  if (II =? 0)%N then (0, W)
  else
    match IM W !! II with
    | None =>
        let idcount' := u32 (idcount W + 1) in
        (idcount',
         mkPTHWriter (<[II := idcount']> (IM W)) (Out W) idcount' (PM W)
                     (CachedStrs W) (CurStrOffset W) (StrEntries W))
    | Some id => (id, W)
    end.

Definition EmitToken (T : Token) (W : PTHWriter) : Res PTHWriter :=
  let W := W_Emit32 W (Z.lor (Z.lor (u32 (KindValue PP (Kind T)))
                                    (u32 (u32 (Flags T) ≪ 8)))
                             (u32 (u32 (Length T) ≪ 16))) in
  W ← (if isLiteral T then
         let spelling := getSpelling PP T in
         let '(E, CS) := GetOrCreateValue spelling (CachedStrs W) in
         let '(E, W) :=
           if negb (hasOffset E) then
             let E := setOffset (CurStrOffset W) in
             (E, mkPTHWriter (IM W) (Out W) (idcount W) (PM W)
                   (<[spelling := E]> CS)
                   (u32 (CurStrOffset W + Z.of_nat (length spelling) + 1))
                   (StrEntries W ++ [spelling]))
           else
             (E, mkPTHWriter (IM W) (Out W) (idcount W) (PM W) CS
                   (CurStrOffset W) (StrEntries W)) in
         o ← getOffset E;
         Ok (W_Emit32 W o)
       else
         let '(id, W) := ResolveID (IdentInfo T) W in
         Ok (W_Emit32 W id));
  Ok (W_Emit32 W (getFileOffset PP (Loc T))).

(** The first steps shared by [#endif], [#elif] and [#else]: the
    assertions, then the back-patch of the entry on top of the stack. *)
Definition Backpatch (St : LexState) (index : Z) : Res LexState :=
  match PPStartCond St with
  | [] => Err AssertionFailed
  | back :: stack =>
      _ ← assert (back <? Z.of_nat (length (PPCond St)));
      match PPCond St !! Z.to_nat back with
      | None => Err UndefinedBehaviour
      | Some (HashOff, second) =>
          _ ← assert (second =? 0);
          Ok (mkLexState
                (<[Z.to_nat back := (HashOff, index)]> (PPCond St))
                stack
                (ParsingPreprocessorDirective St))
      end
  end.

(** The first statement at [NextToken]: at the first token after a
    directive's line, an [eom] token is put into the cache. *)
Definition InsertEOM (Tok : Token) (St : LexState) (W : PTHWriter)
  : Res (LexState * PTHWriter) :=
  if (isAtStartOfLine Tok || Tok_is Tok tok_eof)
     && ParsingPreprocessorDirective St
  then
    let Tmp := Tok in
    let Tmp := setKind Tmp tok_eom in
    let Tmp := clearFlag Tmp (StartOfLine PP) in
    let Tmp := setIdentifierInfo Tmp 0%N in
    W ← EmitToken Tmp W;
    Ok (mkLexState (PPCond St) (PPStartCond St) false, W)
  else Ok (St, W).

(** The body of the loop of [LexTokens], from [NextToken] on. *)
Definition LexBody (Tok : Token) (L : Lexer) (St : LexState) (W : PTHWriter)
  : Res (Next * (LexState * PTHWriter)) :=
  '(St, W) ← InsertEOM Tok St W;
  if Tok_is Tok tok_identifier then
    let Tok := setIdentifierInfo Tok (LookUpIdentifierInfo PP Tok) in
    W ← EmitToken Tok W;
    Ok (LoopCondition Tok L, (St, W))
  else if Tok_is Tok tok_hash && isAtStartOfLine Tok then
    _ ← assert (negb (ParsingPreprocessorDirective St));
    let HashOff := u32 (tell (Out W)) in
    W ← EmitToken Tok W;
    let '(Tok, L) := LexFromRawLexer L in
    _ ← assert (negb (isAtStartOfLine Tok));
    if negb (Tok_is Tok tok_identifier) then
      W ← EmitToken Tok W;
      Ok (LoopCondition Tok L, (St, W))
    else
      let II := LookUpIdentifierInfo PP Tok in
      let Tok := setIdentifierInfo Tok II in
      let K := getPPKeywordID PP II in
      _ ← assert (negb (bool_decide (K = pp_not_keyword)));
      let St := mkLexState (PPCond St) (PPStartCond St) true in
      match K with
      | pp_include | pp_import | pp_include_next =>
          W ← EmitToken Tok W;
          let '(Tok, L) := LexIncludeFilename L in
          _ ← assert (negb (isAtStartOfLine Tok));
          let Tok :=
            if Tok_is Tok tok_identifier
            then setIdentifierInfo Tok (LookUpIdentifierInfo PP Tok)
            else Tok in
          W ← EmitToken Tok W;
          Ok (LoopCondition Tok L, (St, W))
      | pp_if | pp_ifdef | pp_ifndef =>
          let size := u32 (Z.of_nat (length (PPCond St))) in
          let St := mkLexState (PPCond St ++ [(HashOff, 0)])
                              (size :: PPStartCond St)
                              (ParsingPreprocessorDirective St) in
          W ← EmitToken Tok W;
          Ok (LoopCondition Tok L, (St, W))
      | pp_endif =>
          let index := u32 (Z.of_nat (length (PPCond St))) in
          St ← Backpatch St index;
          let St := mkLexState (PPCond St ++ [(HashOff, index)])
                              (PPStartCond St)
                              (ParsingPreprocessorDirective St) in
          W ← EmitToken Tok W;
          let '(Tok, L) :=
            match skip_to_line_start isAtStartOfLine (Pending L) with
            | Some (Tok, rest) => (Tok, mkLexer rest (BufferEnd L))
            | None => (eof_token L, mkLexer [] (BufferEnd L))
            end in
          Ok (GotoNextToken Tok L, (St, W))
      | pp_elif | pp_else =>
          let index := u32 (Z.of_nat (length (PPCond St))) in
          St ← Backpatch St index;
          let St := mkLexState (PPCond St ++ [(HashOff, 0)])
                              (index :: PPStartCond St)
                              (ParsingPreprocessorDirective St) in
          W ← EmitToken Tok W;
          Ok (LoopCondition Tok L, (St, W))
      | _ =>
          W ← EmitToken Tok W;
          Ok (LoopCondition Tok L, (St, W))
      end
  else
    W ← EmitToken Tok W;
    Ok (LoopCondition Tok L, (St, W)).

(** The [do ... while (Tok.isNot(tok::eof))] loop, entered at
    [NextToken].  Every turn uses up a pending token or ends the loop;
    [fuel] bounds the number of turns. *)
Fixpoint LexLoop (fuel : nat) (Tok : Token) (L : Lexer) (St : LexState)
    (W : PTHWriter) : Res (LexState * PTHWriter) :=
  match fuel with
  | O => Err OutOfFuel
  | S fuel =>
      '(next, (St, W)) ← LexBody Tok L St W;
      match next with
      | GotoNextToken Tok L => LexLoop fuel Tok L St W
      | LoopCondition Tok L =>
          if Tok_isNot Tok tok_eof then
            let '(Tok, L) := LexFromRawLexer L in
            LexLoop fuel Tok L St W
          else Ok (St, W)
      end
  end.

(** The emission of the [PPCond] table, entry [i] onwards. *)
Fixpoint EmitPPCond (W : PTHWriter) (off : Z) (i : Z)
    (entries : list (Z * Z)) : Res PTHWriter :=
  match entries with
  | [] => Ok W
  | (first, second) :: entries' =>
      let W := W_Emit32 W (u32 (first - off)) in
      let x := second in
      _ ← assert (negb (x =? 0));
      let W := W_Emit32 W (if x =? i then 0 else x) in
      EmitPPCond W off (u32 (i + 1)) entries'
  end.

Definition LexTokens_fuel (L : Lexer) : nat :=
  S (S (length (Pending L))).

Definition LexTokens (L : Lexer) (W : PTHWriter)
  : Res (PTHEntry * PTHWriter) :=
  let W := set_Out W (Pad (Out W) 4) in
  let off := u32 (tell (Out W)) in
  let St := mkLexState [] [] false in
  let '(Tok, L') := LexFromRawLexer L in
  '(St, W) ← LexLoop (LexTokens_fuel L) Tok L' St W;
  _ ← assert (bool_decide (PPStartCond St = []));
  let PPCondOff := u32 (tell (Out W)) in
  let W := W_Emit32 W (Z.of_nat (length (PPCond St))) in
  W ← EmitPPCond W off 0 (PPCond St);
  Ok (mkPTHEntry off PPCondOff, W).

Fixpoint EmitSpellings (W : PTHWriter) (entries : list (list Z))
  : PTHWriter :=
  match entries with
  | [] => W
  | data :: entries' =>
      let W := EmitBuf W data in
      let W := W_Emit8 W 0 in
      EmitSpellings W entries'
  end.

Definition EmitCachedSpellings (W : PTHWriter) : Z * PTHWriter :=
  let SpellingsOff := u32 (tell (Out W)) in
  (SpellingsOff, EmitSpellings W (StrEntries W)).

(** *** The identifier table *)

Definition PTHIdKey_name (m : list PTHIdKey) (key : nat) : list Z :=
  c_str (getName PP (IdKey_II (m !!! key))).

Definition PTHIdentifierTableTrait_ComputeHash (m : list PTHIdKey)
    (key : nat) : Z :=
  BernsteinHash (PTHIdKey_name m key).

Definition PTHIdentifierTableTrait_EmitKeyDataLength (Out : raw_ostream)
    (m : list PTHIdKey) (key : nat) (_ : Z)
  : Res (raw_ostream * (Z * Z)) :=
  let n := u32 (strlen (PTHIdKey_name m key) + 1) in
  Out ← Emit16 Out n;
  Ok (Out, (n, 4)).

Definition PTHIdentifierTableTrait_EmitKey (Out : raw_ostream)
    (m : list PTHIdKey) (key : nat) (n : Z) : raw_ostream * list PTHIdKey :=
  let m' := <[key := mkPTHIdKey (IdKey_II (m !!! key)) (u32 (tell Out))]> m in
  (write Out (PTHIdKey_name m key) n, m').

Definition PTHIdentifierTableTrait_EmitData (Out : raw_ostream)
    (_ : list PTHIdKey) (_ : nat) (pID : Z) (_ : Z) : Res raw_ostream :=
  Ok (Emit32 Out pID).

Local Instance PTHIdentifierTableTrait : Info nat Z (list PTHIdKey) := {|
  ComputeHash := PTHIdentifierTableTrait_ComputeHash;
  EmitKeyDataLength := PTHIdentifierTableTrait_EmitKeyDataLength;
  EmitKey := PTHIdentifierTableTrait_EmitKey;
  EmitData := PTHIdentifierTableTrait_EmitData
|}.

(** The loop over [IM] that fills the inverse map and the hash table. *)
Fixpoint FillIdentifierMaps (entries : list (IdentifierInfoPtr * Z))
    (idc : Z) (IIDMap : list PTHIdKey) (IIOffMap : @HT.Table nat Z)
  : Res (list PTHIdKey * @HT.Table nat Z) :=
  match entries with
  | [] => Ok (IIDMap, IIOffMap)
  | (first, second) :: entries' =>
      _ ← assert (0 <? second);
      _ ← assert (u32 (second - 1) <? idc);
      let idx := Z.to_nat (u32 (second - 1)) in
      match IIDMap !! idx with
      | None => Err UndefinedBehaviour
      | Some k =>
          let IIDMap := <[idx := mkPTHIdKey first (IdKey_FileOffset k)]> IIDMap in
          IIOffMap ← HT.insert IIDMap idx second IIOffMap;
          FillIdentifierMaps entries' idc IIDMap IIOffMap
      end
  end.

Fixpoint EmitFileOffsets (W : PTHWriter) (IIDMap : list PTHIdKey)
  : PTHWriter :=
  match IIDMap with
  | [] => W
  | k :: rest => EmitFileOffsets (W_Emit32 W (IdKey_FileOffset k)) rest
  end.

(** [IM] is walked in the order of the map's own enumeration. *)
Definition EmitIdentifierTable (W : PTHWriter) : Res ((Z * Z) * PTHWriter) :=
  let IIDMap := replicate (Z.to_nat (idcount W)) (mkPTHIdKey 0%N 0) in
  '(IIDMap, IIOffMap) ←
    FillIdentifierMaps (map_to_list (IM W)) (idcount W) IIDMap
                       HT.empty_table;
  '(StringTableOffset, (_, (out, IIDMap))) ← HT.Emit (Out W) IIDMap IIOffMap;
  let W := set_Out W out in
  let IDOff := u32 (tell (Out W)) in
  let W := W_Emit32 W (idcount W) in
  let W := EmitFileOffsets W IIDMap in
  Ok ((IDOff, StringTableOffset), W).

Definition EmitFileTable (W : PTHWriter) : Res (Z * PTHWriter) :=
  '(TableOff, (pm, (out, _))) ← HT.Emit (Out W) tt (PM W);
  Ok (TableOff, set_PM (set_Out W out) pm).

(** *** Assembly *)

(** The loop of [GeneratePTH] over the files of the source manager. *)
Fixpoint CacheFiles (files : list ContentCache) (W : PTHWriter)
  : Res PTHWriter :=
  match files with
  | [] => Ok W
  | C :: files' =>
      let FE := Entry C in
      if negb (isAbsolute PP (c_str (FE_Name FE))) then CacheFiles files' W
      else
        match getBuffer C with
        | None => CacheFiles files' W
        | Some L =>
            '(E, W) ← LexTokens L W;
            pm ← HT.insert tt (IsFE FE) E (PM W);
            CacheFiles files' (set_PM W pm)
        end
  end.

Definition GeneratePTH (SM : list ContentCache) (W : PTHWriter)
  : Res PTHWriter :=
  let W := set_Out W (Out W ++ cfe_pth) in
  let W := W_Emit32 W (Version PP) in
  let PrologueOffset := tell (Out W) in
  let W := set_Out W (Out W ++ replicate (Z.to_nat (u32 (4 * 4))) (u8 0)) in
  W ← CacheFiles SM W;
  '(IdTableOff, W) ← EmitIdentifierTable W;
  let '(SpellingOff, W) := EmitCachedSpellings W in
  '(FileTableOff, W) ← EmitFileTable W;
  let prologue :=
    Emit32 (Emit32 (Emit32 (Emit32 [] IdTableOff.1) IdTableOff.2)
                   FileTableOff) SpellingOff in
  Ok (set_Out W (seek_write (Out W) PrologueOffset prologue)).


End Writer.

(** ** Notions used to state the properties *)

(** The four bytes [Emit32] writes for a value. *)
Definition le32 (V : Z) : list Z := Emit32 [] V.

(** The two bytes [Emit16] writes for a value. *)
Definition le16 (V : Z) : list Z := [u8 (u32 V); u8 (u32 V ≫ 8)].

(** The eight bytes [Emit64] writes for a value. *)
Definition le64 (V : Z) : list Z := Emit64 [] V.

(** The first word of a token record, as [EmitToken] computes it. *)
Definition Token_word0 (PP : Preprocessor) (T : Token) : Z :=
  Z.lor (Z.lor (u32 (KindValue PP (Kind T))) (u32 (u32 (Flags T) ≪ 8)))
        (u32 (u32 (Length T) ≪ 16)).

(** The second word of the record of [T], written from the state [W]:
    the offset of the spelling in the pool, or the persistent ID. *)
Definition word1_of (PP : Preprocessor) (T : Token) (W : PTHWriter) : Z :=
  if isLiteral T then
    match CachedStrs W !! getSpelling PP T with
    | Some v => if valid v then off v else CurStrOffset W
    | None => CurStrOffset W
    end
  else (ResolveID (IdentInfo T) W).1.

(** A run of [ResolveID] over the identifiers of a token sequence. *)
Fixpoint ResolveAll (IIs : list IdentifierInfoPtr) (W : PTHWriter)
  : list Z * PTHWriter :=
  match IIs with
  | [] => ([], W)
  | II :: IIs' =>
      let '(id, W) := ResolveID II W in
      let '(ids, W) := ResolveAll IIs' W in
      (id :: ids, W)
  end.

(** The distinct non-null identifiers of a sequence. *)
Definition handles_seen (IIs : list IdentifierInfoPtr) : gset N :=
  list_to_set (filter (λ II, II ≠ 0%N) IIs).

(** The invariant of the interner: [IM] maps non-null identifiers
    one-to-one onto the IDs from 1 to [idcount]. *)
Definition interner_inv (W : PTHWriter) : Prop :=
  (∀ II id, IM W !! II = Some id → II ≠ 0%N ∧ 1 ≤ id ≤ idcount W) ∧
  (∀ II II' id, IM W !! II = Some id → IM W !! II' = Some id → II = II') ∧
  Z.of_nat (size (IM W)) = idcount W.

(** A run of [EmitToken] over a token sequence. *)
Fixpoint EmitTokens (PP : Preprocessor) (Ts : list Token) (W : PTHWriter)
  : Res PTHWriter :=
  match Ts with
  | [] => Ok W
  | T :: Ts' => W ← EmitToken PP T W; EmitTokens PP Ts' W
  end.

(** The size and the bytes of the spelling section for a list of
    entries. *)
Fixpoint pool_size (entries : list (list Z)) : Z :=
  match entries with
  | [] => 0
  | s :: entries' => Z.of_nat (length s) + 1 + pool_size entries'
  end.

Fixpoint pool_image (entries : list (list Z)) : list Z :=
  match entries with
  | [] => []
  | s :: entries' => s ++ [0] ++ pool_image entries'
  end.

(** An upper bound of what a token sequence adds to the pool. *)
Fixpoint spelling_bytes (PP : Preprocessor) (Ts : list Token) : Z :=
  match Ts with
  | [] => 0
  | T :: Ts' =>
      (if isLiteral T then Z.of_nat (length (getSpelling PP T)) + 1 else 0)
      + spelling_bytes PP Ts'
  end.

(** The invariant of the pool: the cursor is the size of the section, and
    every cached spelling has the offset at which its entry starts. *)
Definition pool_inv (W : PTHWriter) : Prop :=
  CurStrOffset W = pool_size (StrEntries W) ∧
  ∀ s v, CachedStrs W !! s = Some v →
    valid v = true ∧
    ∃ j : nat, StrEntries W !! j = Some s ∧
               off v = pool_size (take j (StrEntries W)).

(** The characters of the key string of a file-map key. *)
Definition key_chars (V : PTHEntryKeyVariant) : list Z :=
  match V with
  | IsFE FE => FE_Name FE
  | IsDE DE => DE_Name DE
  | IsNoExist Path => Path
  end.

(** The data bytes of a file-map item. *)
Definition file_data_bytes (V : PTHEntryKeyVariant) (E : PTHEntry) : list Z :=
  match V with
  | IsFE FE =>
      le32 (TokenData E) ++ le32 (PPCondData E) ++ le32 (Inode FE)
      ++ le32 (Device FE) ++ le16 (FileMode FE)
      ++ le64 (ModificationTime FE) ++ le64 (FileSize FE)
  | _ => []
  end.

(** The bytes of a file-map item: hash, key length, data length, kind
    tag, the key string with its terminator, data. *)
Definition file_item_bytes (It : @HT.Item PTHEntryKeyVariant PTHEntry)
  : list Z :=
  let cs := getCString (HT.key It) in
  le32 (HT.hash It) ++ le16 (strlen cs + 2)
  ++ [Z.of_nat (length (file_data_bytes (HT.key It) (HT.data It)))]
  ++ [getKind (HT.key It)]
  ++ take (Z.to_nat (strlen cs)) cs ++ [0]
  ++ file_data_bytes (HT.key It) (HT.data It).

(** What [Emit16] asserts for a file-map key: the key length and, for a
    file, the mode fit 16 bits. *)
Definition file_key_ok (V : PTHEntryKeyVariant) : Prop :=
  strlen (getCString V) + 2 < 65536 ∧
  match V with IsFE FE => u32 (FileMode FE) < 65536 | _ => True end.

(** The files [GeneratePTH] caches: absolute path, buffer present. *)
Definition cached_file (PP : Preprocessor) (C : ContentCache) : bool :=
  isAbsolute PP (c_str (FE_Name (Entry C)))
  && (if getBuffer C is Some _ then true else false).

(** *** The conditional directives of a file *)

Definition IsPPConditional (K : PPKeywordKind) : bool :=
  match K with
  | pp_if | pp_ifdef | pp_ifndef | pp_elif | pp_else | pp_endif => true
  | _ => false
  end.


(** The walk of [LexTokens] through the tokens, keeping only what decides
    which tokens are directive names: for a token in hand, where the
    loop goes next and the conditional directive it has met, if any. *)
Definition ScanBody (PP : Preprocessor) (Tok : Token) (L : Lexer)
  : Res (Next * option PPKeywordKind) :=
  if Tok_is Tok tok_identifier then
    Ok (LoopCondition
          (setIdentifierInfo Tok (LookUpIdentifierInfo PP Tok)) L, None)
  else if Tok_is Tok tok_hash && isAtStartOfLine PP Tok then
    let '(Tok, L) := LexFromRawLexer L in
    _ ← assert (negb (isAtStartOfLine PP Tok));
    if negb (Tok_is Tok tok_identifier) then Ok (LoopCondition Tok L, None)
    else
      let II := LookUpIdentifierInfo PP Tok in
      let Tok := setIdentifierInfo Tok II in
      let K := getPPKeywordID PP II in
      _ ← assert (negb (bool_decide (K = pp_not_keyword)));
      match K with
      | pp_include | pp_import | pp_include_next =>
          let '(Tok, L) := LexIncludeFilename L in
          _ ← assert (negb (isAtStartOfLine PP Tok));
          let Tok :=
            if Tok_is Tok tok_identifier
            then setIdentifierInfo Tok (LookUpIdentifierInfo PP Tok)
            else Tok in
          Ok (LoopCondition Tok L, None)
      | pp_endif =>
          let '(Tok, L) :=
            match skip_to_line_start (isAtStartOfLine PP) (Pending L) with
            | Some (Tok, rest) => (Tok, mkLexer rest (BufferEnd L))
            | None => (eof_token L, mkLexer [] (BufferEnd L))
            end in
          Ok (GotoNextToken Tok L, Some K)
      | pp_if | pp_ifdef | pp_ifndef | pp_elif | pp_else =>
          Ok (LoopCondition Tok L, Some K)
      | _ => Ok (LoopCondition Tok L, None)
      end
  else Ok (LoopCondition Tok L, None).

Fixpoint ScanLoop (PP : Preprocessor) (fuel : nat) (Tok : Token) (L : Lexer)
  : Res (list PPKeywordKind) :=
  match fuel with
  | O => Err OutOfFuel
  | S fuel =>
      '(next, d) ← ScanBody PP Tok L;
      rest ← match next with
             | GotoNextToken Tok L => ScanLoop PP fuel Tok L
             | LoopCondition Tok L =>
                 if Tok_isNot Tok tok_eof then
                   let '(Tok, L) := LexFromRawLexer L in
                   ScanLoop PP fuel Tok L
                 else Ok []
             end;
      Ok (option_list d ++ rest)
  end.

(** The conditional directives of the file, in order.  The result is an
    error when the file has a directive on which [LexTokens] asserts:
    a [#] that ends its line, a name that is no directive. *)
Definition PPDirectives (PP : Preprocessor) (L : Lexer)
  : Res (list PPKeywordKind) :=
  let '(Tok, L') := LexFromRawLexer L in
  ScanLoop PP (LexTokens_fuel L) Tok L'.

(** Balanced conditionals: every [#endif], [#elif] and [#else] has an
    open conditional, and none is left open. *)
Fixpoint balanced_from (depth : nat) (ds : list PPKeywordKind) : bool :=
  match ds with
  | [] => bool_decide (depth = 0%nat)
  | K :: ds' =>
      match K with
      | pp_if | pp_ifdef | pp_ifndef => balanced_from (S depth) ds'
      | pp_endif =>
          match depth with
          | O => false
          | S depth' => balanced_from depth' ds'
          end
      | pp_elif | pp_else =>
          match depth with
          | O => false
          | S _ => balanced_from depth ds'
          end
      | _ => balanced_from depth ds'
      end
  end.

Definition balanced (ds : list PPKeywordKind) : bool := balanced_from 0 ds.

(** The search for the next peer of an entry among the directives that
    follow it: the first [#elif], [#else] or [#endif] at its own depth. *)
Inductive PeerScan :=
| PeerAt (j : Z)
| PeerPending (depth : nat).

Fixpoint scan_peer (ds : list PPKeywordKind) (depth : nat) (j : Z)
  : PeerScan :=
  match ds with
  | [] => PeerPending depth
  | K :: ds' =>
      match K with
      | pp_if | pp_ifdef | pp_ifndef => scan_peer ds' (S depth) (j + 1)
      | pp_endif =>
          match depth with
          | O => PeerAt j
          | S depth' => scan_peer ds' depth' (j + 1)
          end
      | pp_elif | pp_else =>
          match depth with
          | O => PeerAt j
          | S _ => scan_peer ds' depth (j + 1)
          end
      | _ => scan_peer ds' depth (j + 1)
      end
  end.

Definition next_peer (ds : list PPKeywordKind) (i : nat) : option Z :=
  match scan_peer (drop (S i) ds) 0 (Z.of_nat i + 1) with
  | PeerAt j => Some j
  | PeerPending _ => None
  end.

(** What the [switch] of [LexTokens] does to the table and to the stack
    for a conditional directive whose [#] was written at [HashOff]. *)
Definition PPCondStep (K : PPKeywordKind) (HashOff : Z) (St : LexState)
  : Res LexState :=
  match K with
  | pp_if | pp_ifdef | pp_ifndef =>
      Ok (mkLexState (PPCond St ++ [(HashOff, 0)])
                     (u32 (Z.of_nat (length (PPCond St))) :: PPStartCond St)
                     (ParsingPreprocessorDirective St))
  | pp_endif =>
      let index := u32 (Z.of_nat (length (PPCond St))) in
      St ← Backpatch St index;
      Ok (mkLexState (PPCond St ++ [(HashOff, index)]) (PPStartCond St)
                     (ParsingPreprocessorDirective St))
  | pp_elif | pp_else =>
      let index := u32 (Z.of_nat (length (PPCond St))) in
      St ← Backpatch St index;
      Ok (mkLexState (PPCond St ++ [(HashOff, 0)]) (index :: PPStartCond St)
                     (ParsingPreprocessorDirective St))
  | _ => Ok St
  end.

(** The invariant of the table and the stack once the directives [p]
    have been met. *)
Definition ppcond_inv (p : list PPKeywordKind) (St : LexState) : Prop :=
  Z.of_nat (length p) < 2 ^ 32 ∧
  length (PPCond St) = length p ∧
  Forall (λ K, IsPPConditional K = true) p ∧
  (∀ (k : nat) i, PPStartCond St !! k = Some i →
     ∃ j : nat, i = Z.of_nat j ∧ (j < length p)%nat ∧
       p !! j ≠ Some pp_endif ∧
       scan_peer (drop (S j) p) 0 (Z.of_nat j + 1) = PeerPending k) ∧
  p !! 0%nat ≠ Some pp_endif ∧
  (∀ (j : nat) K, p !! j = Some K →
     ∃ h t, PPCond St !! j = Some (h, t) ∧
       if decide (K = pp_endif) then t = Z.of_nat j
       else match scan_peer (drop (S j) p) 0 (Z.of_nat j + 1) with
            | PeerAt t' => t = t' ∧ Z.of_nat j < t' < Z.of_nat (length p)
            | PeerPending k => t = 0 ∧ PPStartCond St !! k = Some (Z.of_nat j)
            end).

(** The bytes of the table on disk. *)
Definition PPCond_entry_bytes (off : Z) (i : nat) (e : Z * Z) : list Z :=
  le32 (e.1 - off)
  ++ le32 (if e.2 =? Z.of_nat i then 0 else e.2).

Definition PPCond_bytes (off : Z) (tbl : list (Z * Z)) : list Z :=
  le32 (Z.of_nat (length tbl)) ++ concat (imap (PPCond_entry_bytes off) tbl).

(** The depth of open conditionals after a directive. *)
Definition depth_after (d : option PPKeywordKind) (depth : nat) : nat :=
  match d with
  | Some (pp_if | pp_ifdef | pp_ifndef) => S depth
  | Some pp_endif => pred depth
  | _ => depth
  end.

Definition is_pow2 (x : Z) : Prop := ∃ k, 0 ≤ k ∧ x = 2 ^ k.

(** [NB] is the smallest power of two, at least 64, with [4n < 3 NB]. *)
Definition load_factor_law (n NB : Z) : Prop :=
  is_pow2 NB ∧ 64 ≤ NB ∧ 4 * n < 3 * NB ∧
  ∀ m, is_pow2 m → 64 ≤ m → 4 * n < 3 * m → NB ≤ m.

Section TableNotions.
Context {key_type data_type : Type}.

(** All the items of a bucket array, bucket after bucket. *)
Definition all_items (bs : list (@HT.Bucket key_type data_type))
  : list (@HT.Item key_type data_type) :=
  concat (HT.B_head <$> bs).

(** Every item sits in the bucket its hash selects among [NB] buckets. *)
Definition rehashed (NB : Z) (bs : list (@HT.Bucket key_type data_type))
  : Prop :=
  ∀ (i : nat) B E, bs !! i = Some B → E ∈ HT.B_head B →
    Z.land (HT.hash E) (NB - 1) = Z.of_nat i.

(** The invariant of a table that holds [n] entries. *)
Definition table_inv (n : Z) (T : @HT.Table key_type data_type) : Prop :=
  HT.NumEntries T = n ∧
  length (HT.Buckets T) = Z.to_nat (HT.NumBuckets T) ∧
  (∃ k, 6 ≤ k ≤ 31 ∧ HT.NumBuckets T = 2 ^ k) ∧
  4 * n < 3 * HT.NumBuckets T ∧
  (HT.NumBuckets T = 64 ∨ 3 * HT.NumBuckets T ≤ 8 * n) ∧
  rehashed (HT.NumBuckets T) (HT.Buckets T).

(** The bytes of a bucket's payload when item [E] is written as [ib E]:
    nothing for an empty bucket, otherwise the length of the chain on 16
    bits and the items from the head of the chain on. *)
Definition bucket_bytes (ib : @HT.Item key_type data_type → list Z)
    (B : @HT.Bucket key_type data_type) : list Z :=
  match HT.B_head B with
  | [] => []
  | _ :: _ => le16 (HT.B_length B) ++ concat (ib <$> HT.B_head B)
  end.

Definition payload_bytes (ib : @HT.Item key_type data_type → list Z)
    (bs : list (@HT.Bucket key_type data_type)) : list Z :=
  concat (bucket_bytes ib <$> bs).

(** The bucket after [Emit], when its payload starts at offset [pos]. *)
Definition emitted_bucket (pos : Z) (B : @HT.Bucket key_type data_type)
  : @HT.Bucket key_type data_type :=
  match HT.B_head B with
  | [] => B
  | _ :: _ => HT.mkBucket (u32 pos) (HT.B_head B) (HT.B_length B)
  end.

(** Buckets as [insert] and [resize] leave them: no offset yet, and the
    length field counts the chain. *)
Definition buckets_fresh (bs : list (@HT.Bucket key_type data_type)) : Prop :=
  ∀ (i : nat) B, bs !! i = Some B →
    HT.B_off B = 0 ∧ HT.B_length B = u32 (Z.of_nat (length (HT.B_head B))).

(** The items that hash to bucket [i] among [NB] buckets. *)
Definition chain_of (NB : Z) (i : nat)
    (items : list (@HT.Item key_type data_type))
  : list (@HT.Item key_type data_type) :=
  filter (λ E, Z.land (HT.hash E) (NB - 1) = Z.of_nat i) items.

End TableNotions.

(** ** Sample inputs *)

(** File number [i] of a sample source manager: the header
    ["/xy.h"] whose two letters spell [i] in base 26. *)
Definition sample_file (i : nat) : FileEntry :=
  mkFileEntry
    [47; 97 + Z.of_nat (i / 26); 97 + Z.of_nat (i mod 26); 46; 104]
    (Z.of_nat i) 1 33188 0 0.

Definition sample_entries (n : nat)
  : list (PTHEntryKeyVariant * PTHEntry) :=
  (λ i, (IsFE (sample_file i), mkPTHEntry 0 0)) <$> seq 0 n.

(** A preprocessor for the samples.  Its identifier table is a fixed
    list; the handle of an identifier is its position in the list, from
    1 on, and the text of a token is looked up by its location in [src].
    Token kinds are numbered as an [enum] that starts with the kinds
    named here, [hash] being number 56. *)
Definition sample_identifiers : list (list Z * PPKeywordKind) :=
  [ ([105; 102], pp_if);                              (* if *)
    ([101; 110; 100; 105; 102], pp_endif);            (* endif *)
    ([101; 108; 115; 101], pp_else);                  (* else *)
    ([105; 110; 99; 108; 117; 100; 101], pp_include); (* include *)
    ([65], pp_not_keyword);                           (* A *)
    ([66], pp_not_keyword);                           (* B *)
    ([102; 111; 111], pp_not_keyword);                (* foo *)
    ([98; 97; 114], pp_not_keyword) ].                (* bar *)

Definition sample_KindValue (K : TokenKind) : Z :=
  match K with
  | tok_unknown => 0
  | tok_eof => 1
  | tok_eom => 2
  | tok_comment => 3
  | tok_identifier => 4
  | tok_numeric_constant => 5
  | tok_char_constant => 6
  | tok_string_literal => 7
  | tok_wide_string_literal => 8
  | tok_angle_string_literal => 9
  | tok_hash => 56
  | tok_other code => code
  end.

Definition sample_spelling (src : list (Z * list Z)) (T : Token) : list Z :=
  match list_find (λ e, e.1 = Loc T) src with
  | Some (_, e) => e.2
  | None => []
  end.

Definition sample_lookup (src : list (Z * list Z)) (T : Token)
  : IdentifierInfoPtr :=
  match list_find (λ e, e.1 = sample_spelling src T) sample_identifiers with
  | Some (i, _) => N.of_nat (S i)
  | None => N.of_nat (S (length sample_identifiers))
  end.

Definition sample_entry (II : IdentifierInfoPtr)
  : list Z * PPKeywordKind :=
  default ([], pp_not_keyword)
          (sample_identifiers !! pred (N.to_nat II)).

Definition sample_PP (src : list (Z * list Z)) : Preprocessor :=
  mkPreprocessor sample_KindValue 1 (sample_spelling src)
    (sample_lookup src) (λ II, (sample_entry II).2)
    (λ II, (sample_entry II).1) (λ loc, loc)
    (λ path, bool_decide (head path = Some 47)) 1.

(** The file [#if A], [#if B], [#endif], [#endif], one directive a line:
    its tokens, with their flags, lengths and offsets, and the text of
    its identifiers. *)
Definition nested_tokens : list Token :=
  [ mkToken tok_hash 1 1 0%N 0; mkToken tok_identifier 0 2 0%N 1;
    mkToken tok_identifier 2 1 0%N 4;
    mkToken tok_hash 1 1 0%N 6; mkToken tok_identifier 0 2 0%N 7;
    mkToken tok_identifier 2 1 0%N 10;
    mkToken tok_hash 1 1 0%N 12; mkToken tok_identifier 0 5 0%N 13;
    mkToken tok_hash 1 1 0%N 19; mkToken tok_identifier 0 5 0%N 20 ].

Definition nested_src : list (Z * list Z) :=
  [ (1, [105; 102]); (4, [65]); (7, [105; 102]); (10, [66]);
    (13, [101; 110; 100; 105; 102]); (20, [101; 110; 100; 105; 102]) ].

Definition nested_example : Lexer := mkLexer nested_tokens 26.


(** ** The rest of the writer's helpers *)

(** [PTHWriter::Emit16] and [PTHWriter::Emit24]. *)
Definition W_Emit16 (W : PTHWriter) (V : Z) : Res PTHWriter :=
  out ← Emit16 (Out W) V;
  Ok (set_Out W out).

Definition W_Emit24 (W : PTHWriter) (V : Z) : Res PTHWriter :=
  let V := u32 V in
  let out := Out W ++ [u8 V] in
  let out := out ++ [u8 (V ≫ 8)] in
  let out := out ++ [u8 (V ≫ 16)] in
  _ ← assert (V ≫ 24 =? 0);
  Ok (set_Out W out).

(** The other two accessors of the key variant. *)
Definition getDir (V : PTHEntryKeyVariant) : option DirectoryEntry :=
  match V with IsDE DE => Some DE | _ => None end.

Definition getNameOfNonExistantFile (V : PTHEntryKeyVariant)
  : option (list Z) :=
  match V with IsNoExist Path => Some (c_str Path) | _ => None end.

(** ** Further notions *)

(** The number a sequence of bytes stands for, least significant byte
    first. *)
Fixpoint le_value (bs : list Z) : Z :=
  match bs with
  | [] => 0
  | b :: bs' => b + 256 * le_value bs'
  end.

(** The three bytes [Emit24] writes for a value. *)
Definition le24 (V : Z) : list Z :=
  [u8 (u32 V); u8 (u32 V ≫ 8); u8 (u32 V ≫ 16)].

(** The sum the loop of [BernsteinHash] computes, without wrap-around. *)
Definition Bernstein_sum (s : list Z) : Z :=
  fold_left (λ R c, R * 33 + char_value c) s 0.

(** What a stretch of the loop of [LexTokens] has done between the
    writer [W] with the loop state [St] and the writer [W'] with the
    loop state [St']: it has written the records of the tokens [Ts], and
    the entries it has added to the table carry the offsets of the
    records number [js], each the record of a [#] that starts a line. *)
Definition stretch (PP : Preprocessor) (Ts : list Token) (js : list nat)
    (W : PTHWriter) (St : LexState) (W' : PTHWriter) (St' : LexState)
  : Prop :=
  EmitTokens PP Ts W = Ok W' ∧
  (PPCond St').*1
  = (PPCond St).*1
    ++ ((λ j : nat, u32 (tell (Out W) + 12 * Z.of_nat j)) <$> js) ∧
  Forall (λ j, ∃ T, Ts !! j = Some T ∧ Tok_is T tok_hash = true ∧
                    isAtStartOfLine PP T = true) js ∧
  StronglySorted Nat.lt js.

(** A token as the loop of [LexTokens] hands it to [EmitToken] outside
    of directives: an identifier has its entry of the identifier table
    looked up. *)
Definition looked_up (PP : Preprocessor) (T : Token) : Token :=
  if Tok_is T tok_identifier
  then setIdentifierInfo T (LookUpIdentifierInfo PP T)
  else T.

(** Neither the end of the file nor a [#] that starts a line. *)
Definition plain_token (PP : Preprocessor) (T : Token) : bool :=
  negb (Tok_is T tok_eof)
  && negb (Tok_is T tok_hash && isAtStartOfLine PP T).

(** The [n] bytes of a stream from the offset [o] on. *)
Definition bytes_at (Out : raw_ostream) (o : Z) (n : nat) : list Z :=
  take n (drop (Z.to_nat o) Out).

(** The name of an identifier as the identifier table holds it: its
    characters up to the first NUL, and the NUL. *)
Definition name_bytes (name : list Z) : list Z :=
  take (Z.to_nat (strlen (c_str name) + 1)) (c_str name).

(** The bytes of an item of the identifier table: hash, key length on 16
    bits, the name with its terminator, the persistent ID. *)
Definition id_item_bytes (name : list Z) (pID h : Z) : list Z :=
  le32 h ++ le16 (strlen (c_str name) + 1) ++ name_bytes name ++ le32 pID.

(** The item [EmitIdentifierTable] inserts for an entry of [IM]: the key
    is the slot of the inverse map, the data the persistent ID. *)
Definition id_item (PP : Preprocessor) (e : IdentifierInfoPtr * Z)
  : @HT.Item nat Z :=
  HT.mkItem (Z.to_nat (e.2 - 1)) e.2
            (u32 (BernsteinHash (c_str (getName PP e.1)))).

(** The bytes of the item of the identifier table for an entry of
    [IM]. *)
Definition id_entry_bytes (PP : Preprocessor) (e : IdentifierInfoPtr * Z)
  : list Z :=
  id_item_bytes (getName PP e.1) e.2 (HT.hash (id_item PP e)).

(** The second word of the record of a token as the tables of [W] give
    it: for a literal the offset the pool holds for its spelling, and
    otherwise the persistent ID the interner holds for its identifier, 0
    for none. *)
Definition table_word1 (PP : Preprocessor) (W : PTHWriter) (T : Token) : Z :=
  if isLiteral T then
    match CachedStrs W !! getSpelling PP T with
    | Some v => off v
    | None => 0
    end
  else if (IdentInfo T =? 0)%N then 0
  else default 0 (IM W !! IdentInfo T).

Definition token_record (PP : Preprocessor) (W : PTHWriter) (T : Token)
  : list Z :=
  le32 (Token_word0 PP T) ++ le32 (table_word1 PP W T)
  ++ le32 (getFileOffset PP (Loc T)).

(** The tables of [W] know the token: the pool holds the spelling of a
    literal, the interner the identifier of another token that has
    one. *)
Definition known_token (PP : Preprocessor) (W : PTHWriter) (T : Token)
  : Prop :=
  if isLiteral T then is_Some (CachedStrs W !! getSpelling PP T)
  else IdentInfo T ≠ 0%N → is_Some (IM W !! IdentInfo T).

(** The second word [w] of the record of the token [T] is resolved by
    the tables of the file [out], whose table of identifier offsets is at
    [IDOff] and whose spellings are at [SO]: for a literal the spelling
    and a NUL stand at [SO + w]; for a token without identifier [w] is 0;
    otherwise slot [w - 1] of the table holds the offset of the name of
    the identifier, which stands there with its NUL. *)
Definition resolves (PP : Preprocessor) (out : raw_ostream) (IDOff SO : Z)
    (T : Token) (w : Z) : Prop :=
  if isLiteral T then
    bytes_at out (SO + w) (length (getSpelling PP T) + 1)
    = getSpelling PP T ++ [0]
  else if (IdentInfo T =? 0)%N then w = 0
  else
    1 ≤ w ∧
    ∃ o, bytes_at out (IDOff + 4 * w) 4 = le32 o ∧
         bytes_at out o (length (name_bytes (getName PP (IdentInfo T))))
         = name_bytes (getName PP (IdentInfo T)).

(** The directives that are neither inclusions nor conditionals: the
    [default] of the [switch] in [LexTokens]. *)
Definition plain_directive (K : PPKeywordKind) : bool :=
  match K with
  | pp_defined | pp_define | pp_undef | pp_line | pp_error | pp_pragma
  | pp_warning | pp_ident | pp_sccs | pp_assert | pp_unassert => true
  | _ => false
  end.

(** The conditional directives of a file as its text shows them,
    whatever [LexTokens] does with the file: up to the end of the file,
    the keyword of every [#] that starts a line and is followed on its
    line by the name of a conditional directive. *)
Fixpoint file_conditionals (PP : Preprocessor) (toks : list Token)
  : list PPKeywordKind :=
  match toks with
  | [] => []
  | T :: rest =>
      if Tok_is T tok_eof then []
      else
        (if Tok_is T tok_hash && isAtStartOfLine PP T then
           match rest with
           | T2 :: _ =>
               let K := getPPKeywordID PP (LookUpIdentifierInfo PP T2) in
               if Tok_is T2 tok_identifier && negb (isAtStartOfLine PP T2)
                  && IsPPConditional K
               then [K] else []
           | [] => []
           end
         else [])
        ++ file_conditionals PP rest
  end.

(** A stretch of the loop of [LexTokens] with the directives it has
    met: it has written the records of the tokens [Ts], and for every
    conditional directive, with keyword [K], it has added to the table an
    entry that carries the offset of record number [j], the record of
    the [#] of the directive, which starts a line; the record after it
    is that of the name of the directive. *)
Definition directive_stretch (PP : Preprocessor) (Ts : list Token)
    (jks : list (nat * PPKeywordKind))
    (W : PTHWriter) (St : LexState) (W' : PTHWriter) (St' : LexState)
  : Prop :=
  EmitTokens PP Ts W = Ok W' ∧
  (PPCond St').*1
  = (PPCond St).*1
    ++ ((λ jk : nat * PPKeywordKind,
           u32 (tell (Out W) + 12 * Z.of_nat jk.1)) <$> jks) ∧
  Forall (λ jk, ∃ T T2,
            Ts !! jk.1 = Some T ∧ Tok_is T tok_hash = true ∧
            isAtStartOfLine PP T = true ∧
            Ts !! S jk.1 = Some T2 ∧ Tok_is T2 tok_identifier = true ∧
            getPPKeywordID PP (IdentInfo T2) = jk.2) jks ∧
  StronglySorted Nat.lt jks.*1.

(** The turns of the loop of [GeneratePTH] over the files, from the
    writer [W] to the writer [W']: a file without an absolute path or
    without buffer leaves the writer as it is; any other file is lexed,
    and the pair [LexTokens] returns is put in the file map under the
    entry of the file.  [Es] holds the pairs [LexTokens] has returned,
    in the order of the files. *)
Inductive lexed_files (PP : Preprocessor)
  : list ContentCache → PTHWriter → list PTHEntry → PTHWriter → Prop :=
| lexed_files_nil W : lexed_files PP [] W [] W
| lexed_files_skip C files W Es W' :
    cached_file PP C = false →
    lexed_files PP files W Es W' →
    lexed_files PP (C :: files) W Es W'
| lexed_files_cons C L files W E W1 pm Es W' :
    cached_file PP C = true → getBuffer C = Some L →
    LexTokens PP L W = Ok (E, W1) →
    HT.insert tt (IsFE (Entry C)) E (PM W1) = Ok pm →
    lexed_files PP files (set_PM W1 pm) Es W' →
    lexed_files PP (C :: files) W (E :: Es) W'.

(** ** Further sample inputs *)

(** The file [#endif], a directive without an open conditional. *)
Definition lone_endif : Lexer :=
  mkLexer [mkToken tok_hash 1 1 0%N 0; mkToken tok_identifier 0 5 0%N 1] 6.

Definition lone_endif_src : list (Z * list Z) :=
  [ (1, [101; 110; 100; 105; 102]) ].

(** The file [foo 42]. *)
Definition plain_example : Lexer :=
  mkLexer [mkToken tok_identifier 1 3 0%N 0;
           mkToken tok_numeric_constant 2 2 0%N 4] 6.

Definition plain_src : list (Z * list Z) :=
  [ (0, [102; 111; 111]); (4, [52; 50]) ].

(** The line [#endif A] and the token [B] on the next line, as the loop
    body sees them after the [#], inside an open conditional. *)
Definition endif_rest : Lexer :=
  mkLexer [mkToken tok_identifier 0 5 0%N 1; mkToken tok_identifier 2 1 0%N 7;
           mkToken tok_identifier 1 1 0%N 9] 10.

Definition endif_src : list (Z * list Z) :=
  [ (1, [101; 110; 100; 105; 102]); (7, [65]); (9, [66]) ].

Definition endif_step : Next * (LexState * PTHWriter) :=
  match LexBody (sample_PP endif_src) (mkToken tok_hash 1 1 0%N 0) endif_rest
                (mkLexState [(0, 0)] [0] false) (new_PTHWriter []) with
  | Ok r => r
  | Err _ => (LoopCondition (mkToken tok_hash 1 1 0%N 0) endif_rest,
              (mkLexState [(0, 0)] [0] false, new_PTHWriter []))
  end.

(** What [LexTokens] returns on the nested example, and what the loop
    over the files and [GeneratePTH] leave for a source manager that
    holds it as its one file. *)
Definition nested_lexed : PTHEntry * PTHWriter :=
  match LexTokens (sample_PP nested_src) nested_example (new_PTHWriter []) with
  | Ok r => r
  | Err _ => (mkPTHEntry 0 0, new_PTHWriter [])
  end.

Definition nested_SM : list ContentCache :=
  [ mkContentCache (sample_file 0) (Some nested_example) ].

Definition nested_cached : PTHWriter :=
  match CacheFiles (sample_PP nested_src) nested_SM (new_PTHWriter []) with
  | Ok W => W
  | Err _ => new_PTHWriter []
  end.

Definition nested_generated : PTHWriter :=
  match GeneratePTH (sample_PP nested_src) nested_SM (new_PTHWriter []) with
  | Ok W => W
  | Err _ => new_PTHWriter []
  end.

(** A preprocessor for which every identifier is the keyword [define],
    and the tokens that follow the [#] of the line [#define A]. *)
Definition define_PP : Preprocessor :=
  mkPreprocessor sample_KindValue 1 (λ _, [100; 101; 102; 105; 110; 101])
    (λ _, 1%N) (λ _, pp_define) (λ _, [100; 101; 102; 105; 110; 101])
    (λ loc, loc) (λ path, bool_decide (head path = Some 47)) 1.

Definition define_rest : Lexer :=
  mkLexer [mkToken tok_identifier 0 6 0%N 1; mkToken tok_identifier 2 1 0%N 8]
          9.

(** The file [#if A], [#foo], [#endif], one directive a line: its
    conditionals are balanced, and [foo] is no directive. *)
Definition stray_tokens : list Token :=
  [ mkToken tok_hash 1 1 0%N 0; mkToken tok_identifier 0 2 0%N 1;
    mkToken tok_identifier 2 1 0%N 4;
    mkToken tok_hash 1 1 0%N 6; mkToken tok_identifier 0 3 0%N 7;
    mkToken tok_hash 1 1 0%N 11; mkToken tok_identifier 0 5 0%N 12 ].

Definition stray_src : list (Z * list Z) :=
  [ (1, [105; 102]); (4, [65]); (7, [102; 111; 111]);
    (12, [101; 110; 100; 105; 102]) ].

Definition stray_example : Lexer := mkLexer stray_tokens 18.

(** * Properties *)


Lemma u32_small x : 0 ≤ x < 2 ^ 32 → u32 x = x.
Proof. intros. unfold u32. by apply Z.mod_small. Qed.

Lemma u64_small x : 0 ≤ x < 2 ^ 64 → u64 x = x.
Proof. intros. unfold u64. by apply Z.mod_small. Qed.

Lemma u32_range x : 0 ≤ u32 x < 2 ^ 32.
Proof. unfold u32. apply Z.mod_pos_bound. lia. Qed.

Lemma pow2_le_pow2 a b : 0 ≤ a → 0 ≤ b → 2 ^ a ≤ 2 ^ b → a ≤ b.
Proof.
  intros Ha Hb Hle. destruct (Z_lt_le_dec b a) as [Hlt|]; [|done].
  pose proof (Z.pow_lt_mono_r 2 b a). lia.
Qed.

Lemma pow2_lt_double a b : 0 ≤ a → 0 ≤ b → 2 ^ a < 2 ^ b → 2 * 2 ^ a ≤ 2 ^ b.
Proof.
  intros Ha Hb Hlt.
  assert (a < b).
  { destruct (Z_lt_le_dec a b); [done|].
    pose proof (Z.pow_le_mono_r 2 b a). lia. }
  replace (2 * 2 ^ a) with (2 ^ (a + 1)) by (rewrite Z.pow_add_r; lia).
  apply Z.pow_le_mono_r; lia.
Qed.

Section HT.
Context {key_type data_type Mem : Type} `{!Info key_type data_type Mem}.
Implicit Types (b bs : list (@HT.Bucket key_type data_type)).
Implicit Types (E : @HT.Item key_type data_type).

Lemma land_mask h k : 0 ≤ k → Z.land h (2 ^ k - 1) = h mod 2 ^ k.
Proof.
  intros. rewrite <- Z.land_ones by done. f_equal.
  rewrite Z.ones_equiv. lia.
Qed.

Lemma insert_bucket_ok b size E k :
  0 ≤ k ≤ 32 → size = 2 ^ k → length b = Z.to_nat size →
  ∃ B, b !! Z.to_nat (Z.land (HT.hash E) (size - 1)) = Some B ∧
    HT.insert_bucket b size E =
      Ok (<[Z.to_nat (Z.land (HT.hash E) (size - 1)) :=
            HT.mkBucket (HT.B_off B) (E :: HT.B_head B) (u32 (HT.B_length B + 1))]> b).
Proof.
  intros Hk -> Hlen.
  assert (Hp : 0 < 2 ^ k) by (apply Z.pow_pos_nonneg; lia).
  assert (Hp32 : 2 ^ k ≤ 2 ^ 32) by (apply Z.pow_le_mono_r; lia).
  pose proof (Z.mod_pos_bound (HT.hash E) (2 ^ k) Hp) as Hm.
  unfold HT.insert_bucket.
  rewrite (u64_small (2 ^ k - 1)) by lia.
  rewrite land_mask by lia.
  rewrite u32_small by lia.
  destruct (lookup_lt_is_Some_2 b (Z.to_nat (HT.hash E mod 2 ^ k))) as [B HB];
    [lia|].
  exists B. rewrite HB. done.
Qed.

Lemma all_items_insert b (i : nat) B B' :
  b !! i = Some B →
  all_items (<[i := B']> b) ≡ₚ
    HT.B_head B' ++ all_items (take i b ++ drop (S i) b).
Proof.
  intros HB. unfold all_items.
  rewrite insert_take_drop by (by eapply lookup_lt_Some).
  rewrite !fmap_app, fmap_cons, !concat_app, concat_cons.
  by rewrite Permutation_app_swap_app.
Qed.

Lemma all_items_split b (i : nat) B :
  b !! i = Some B →
  all_items b ≡ₚ HT.B_head B ++ all_items (take i b ++ drop (S i) b).
Proof.
  intros HB. rewrite <- (all_items_insert b i B B HB).
  by rewrite list_insert_id.
Qed.

Lemma all_items_insert_cons b (i : nat) B o l E :
  b !! i = Some B →
  all_items (<[i := HT.mkBucket o (E :: HT.B_head B) l]> b) ≡ₚ E :: all_items b.
Proof.
  intros HB. rewrite (all_items_insert _ _ B), (all_items_split b i B) by done.
  done.
Qed.

Lemma rehashed_insert NB k b E B o l :
  0 ≤ k → NB = 2 ^ k → rehashed NB b →
  b !! Z.to_nat (Z.land (HT.hash E) (NB - 1)) = Some B →
  rehashed NB (<[Z.to_nat (Z.land (HT.hash E) (NB - 1)) :=
                 HT.mkBucket o (E :: HT.B_head B) l]> b).
Proof.
  intros Hk -> Hr HB i B' E' Hi HE'.
  assert (0 ≤ Z.land (HT.hash E) (2 ^ k - 1)).
  { rewrite land_mask by done. apply Z.mod_pos_bound, Z.pow_pos_nonneg; lia. }
  destruct (decide (i = Z.to_nat (Z.land (HT.hash E) (2 ^ k - 1)))) as [->|Hne].
  - rewrite list_lookup_insert_eq in Hi by (by eapply lookup_lt_Some).
    injection Hi as <-. simpl in HE'.
    apply elem_of_cons in HE' as [->|HE']; [lia|].
    eapply Hr; eauto.
  - rewrite list_lookup_insert_ne in Hi by done. eapply Hr; eauto.
Qed.

Lemma rehash_chain_ok chain : ∀ b size k,
  0 ≤ k ≤ 32 → size = 2 ^ k → length b = Z.to_nat size → rehashed size b →
  ∃ b', HT.rehash_chain chain b size = Ok b' ∧ length b' = Z.to_nat size ∧
        rehashed size b' ∧ all_items b' ≡ₚ chain ++ all_items b.
Proof.
  induction chain as [|E N IH]; intros b size k Hk Hsz Hlen Hr.
  - exists b. done.
  - destruct (insert_bucket_ok b size E k Hk Hsz Hlen) as (B & HB & Hins).
    simpl. rewrite Hins. simpl.
    edestruct (IH (<[Z.to_nat (Z.land (HT.hash E) (size - 1)) :=
            HT.mkBucket (HT.B_off B) (E :: HT.B_head B) (u32 (HT.B_length B + 1))]> b))
      as (b' & Hb' & Hlen' & Hr' & Hp); eauto.
    { by rewrite length_insert. }
    { eapply rehashed_insert; eauto. lia. }
    exists b'. split_and!; try done.
    rewrite Hp, all_items_insert_cons by done.
    by rewrite Permutation_middle.
Qed.

Lemma rehash_buckets_ok old : ∀ b size k,
  0 ≤ k ≤ 32 → size = 2 ^ k → length b = Z.to_nat size → rehashed size b →
  ∃ b', HT.rehash_buckets old b size = Ok b' ∧ length b' = Z.to_nat size ∧
        rehashed size b' ∧ all_items b' ≡ₚ all_items old ++ all_items b.
Proof.
  induction old as [|B old IH]; intros b size k Hk Hsz Hlen Hr.
  - exists b. done.
  - destruct (rehash_chain_ok (HT.B_head B) b size k) as (b1 & H1 & Hl1 & Hr1 & Hp1);
      try done.
    simpl. rewrite H1. simpl.
    destruct (IH b1 size k) as (b' & Hb' & Hlen' & Hr' & Hp); try done.
    exists b'. split_and!; try done.
    rewrite Hp, Hp1. unfold all_items at 3. simpl.
    rewrite <- !app_assoc. apply Permutation_app_swap_app.
Qed.

Lemma all_items_calloc n :
  all_items (HT.calloc n : list (@HT.Bucket key_type data_type)) = [].
Proof.
  unfold all_items, HT.calloc.
  induction (Z.to_nat n) as [|n' IH]; simpl; done.
Qed.

Lemma rehashed_calloc NB n :
  rehashed NB (HT.calloc n : list (@HT.Bucket key_type data_type)).
Proof.
  intros i B E Hi HE. unfold HT.calloc in Hi.
  apply lookup_replicate in Hi as [-> _]. simpl in HE. by apply elem_of_nil in HE.
Qed.

Lemma resize_ok (T : @HT.Table key_type data_type) newsize k :
  0 ≤ k ≤ 31 → newsize = 2 ^ k →
  ∃ b', HT.resize newsize T = Ok (HT.mkTable newsize (HT.NumEntries T) b') ∧
        length b' = Z.to_nat newsize ∧ rehashed newsize b' ∧
        all_items b' ≡ₚ all_items (HT.Buckets T).
Proof.
  intros Hk Hsz.
  destruct (rehash_buckets_ok (HT.Buckets T) (HT.calloc newsize) newsize k)
    as (b' & Hb' & Hlen' & Hr' & Hp); try done; try lia.
  { unfold HT.calloc. by rewrite length_replicate. }
  { apply rehashed_calloc. }
  exists b'. unfold HT.resize. rewrite Hb'. simpl.
  rewrite all_items_calloc, app_nil_r in Hp.
  rewrite u32_small; [done|].
  subst. split; [apply Z.pow_nonneg; lia|].
  apply Z.pow_lt_mono_r; lia.
Qed.


Lemma table_inv_law n (T : @HT.Table key_type data_type) :
  table_inv n T → load_factor_law n (HT.NumBuckets T).
Proof.
  intros (_ & _ & (k & Hk & HNB) & Hlt & Hmin & _).
  split_and!; try done.
  - exists k. split; [lia|done].
  - rewrite HNB. change 64 with (2 ^ 6). apply Z.pow_le_mono_r; lia.
  - intros m (a & Ha & ->) H64 Hm.
    destruct Hmin as [->|Hmin]; [done|].
    destruct (Z_lt_le_dec (2 ^ a) (HT.NumBuckets T)) as [Hlt'|]; [|done].
    rewrite HNB in Hlt', Hmin.
    pose proof (pow2_lt_double a k). lia.
Qed.

Lemma table_inv_empty :
  table_inv 0 (HT.empty_table : @HT.Table key_type data_type).
Proof.
  split_and!; simpl; try done; try lia.
  - exists 6. split; [lia|done].
  - apply rehashed_calloc.
Qed.

Lemma insert_ok m kk d (T : @HT.Table key_type data_type) n :
  table_inv n T → 0 ≤ n < 805306368 →
  ∃ T', HT.insert m kk d T = Ok T' ∧ table_inv (n + 1) T' ∧
    HT.NumBuckets T' =
      (if 4 * (n + 1) >=? 3 * HT.NumBuckets T
       then 2 * HT.NumBuckets T else HT.NumBuckets T) ∧
    all_items (HT.Buckets T') ≡ₚ HT.new_Item m kk d :: all_items (HT.Buckets T) ∧
    ∃ B rest,
      HT.Buckets T' !! Z.to_nat (Z.land (HT.hash (HT.new_Item m kk d))
                                        (HT.NumBuckets T' - 1)) = Some B ∧
      HT.B_head B = HT.new_Item m kk d :: rest.
Proof.
  intros (HNE & Hlen & (k & Hk & HNB) & Hlt & Hmin & Hr) Hn.
  assert (H64 : 64 ≤ HT.NumBuckets T).
  { rewrite HNB. change 64 with (2 ^ 6). apply Z.pow_le_mono_r; lia. }
  assert (Hk30 : k ≤ 30).
  { assert (2 ^ k < 2 ^ 31).
    { rewrite <- HNB. change (2 ^ 31) with 2147483648. destruct Hmin; lia. }
    destruct (Z_lt_le_dec k 31) as [|Hge]; [lia|].
    pose proof (Z.pow_le_mono_r 2 31 k). lia. }
  assert (HNB30 : HT.NumBuckets T ≤ 2 ^ 30).
  { rewrite HNB. apply Z.pow_le_mono_r; lia. }
  unfold HT.insert. simpl. rewrite HNE.
  rewrite (u32_small (n + 1)) by lia.
  rewrite (u32_small (4 * (n + 1))) by lia.
  rewrite (u32_small (3 * HT.NumBuckets T)) by lia.
  rewrite (u32_small (HT.NumBuckets T * 2)) by lia.
  destruct (4 * (n + 1) >=? 3 * HT.NumBuckets T) eqn:Hcmp.
  - apply Z.geb_le in Hcmp.
    destruct (resize_ok (HT.mkTable (HT.NumBuckets T) (n + 1) (HT.Buckets T))
                (HT.NumBuckets T * 2) (k + 1)) as (b' & Hres & Hlen' & Hr' & Hp).
    { lia. } { rewrite Z.pow_add_r by lia. lia. }
    rewrite Hres. simpl.
    destruct (insert_bucket_ok b' (HT.NumBuckets T * 2) (HT.new_Item m kk d) (k + 1))
      as (B & HB & Hins); [lia| rewrite Z.pow_add_r by lia; lia | done |].
    rewrite Hins. cbn [mbind Res_bind]. eexists. split; [done|]. unfold table_inv.
    cbn [HT.NumBuckets HT.NumEntries HT.Buckets].
    split_and!.
    + done.
    + by rewrite length_insert.
    + exists (k + 1). split; [lia|]. rewrite Z.pow_add_r by lia. lia.
    + lia.
    + right. lia.
    + apply (rehashed_insert _ (k + 1)); [lia| |done..].
      rewrite Z.pow_add_r by lia. lia.
    + lia.
    + rewrite all_items_insert_cons by done. by rewrite Hp.
    + eexists _, _. rewrite list_lookup_insert_eq by (by eapply lookup_lt_Some).
      split; [done|]. done.
  - assert (Hcmp' : 4 * (n + 1) < 3 * HT.NumBuckets T).
    { destruct (Z.geb_spec (4 * (n + 1)) (3 * HT.NumBuckets T)); [done|lia]. }
    simpl.
    destruct (insert_bucket_ok (HT.Buckets T) (HT.NumBuckets T) (HT.new_Item m kk d) k)
      as (B & HB & Hins); [lia| done | done |].
    rewrite Hins. cbn [mbind Res_bind]. eexists. split; [done|]. unfold table_inv.
    cbn [HT.NumBuckets HT.NumEntries HT.Buckets].
    split_and!.
    + done.
    + by rewrite length_insert.
    + exists k. split; [lia|]. done.
    + lia.
    + destruct Hmin; [by left|right; lia].
    + apply (rehashed_insert _ k); [lia|done..].
    + done.
    + by rewrite all_items_insert_cons.
    + eexists _, _. rewrite list_lookup_insert_eq by (by eapply lookup_lt_Some).
      split; [done|]. done.
Qed.

Lemma insert_all_ok m kds : ∀ (T : @HT.Table key_type data_type) n,
  table_inv n T → 0 ≤ n → n + Z.of_nat (length kds) ≤ 805306368 →
  ∃ T', HT.insert_all m kds T = Ok T' ∧
        table_inv (n + Z.of_nat (length kds)) T'.
Proof.
  induction kds as [|[kk d] kds IH]; intros T n Hinv Hn Hle.
  - exists T. simpl. split; [done|]. by rewrite Z.add_0_r.
  - simpl length in *.
    destruct (insert_ok m kk d T n Hinv) as (T1 & H1 & Hinv1 & _); [lia|].
    simpl. rewrite H1. simpl.
    destruct (IH T1 (n + 1) Hinv1) as (T' & HT' & Hinv'); [lia..|].
    exists T'. split; [done|].
    by replace (n + Z.of_nat (S (length kds))) with (n + 1 + Z.of_nat (length kds)) by lia.
Qed.

(** Claim C4.  After [n] insertions into a fresh table the number of
    buckets is the smallest power of two, at least 64, with
    [4 n < 3 NumBuckets]; this holds before and after one more
    insertion.  An insertion that brings [4 NumEntries] to
    [3 NumBuckets] or more doubles the number of buckets, and otherwise
    leaves it; afterwards every item sits in the bucket
    [hash & (NumBuckets - 1)], the items are those held before and the
    new one, and the new one is at the head of its chain.  The number of
    entries stays in the range where the 32-bit products do not wrap. *)
Theorem load_factor_law_holds m (kds : list (key_type * data_type)) kk d :
  Z.of_nat (length kds) < 805306368 →
  ∃ T T',
    HT.insert_all m kds HT.empty_table = Ok T ∧
    HT.insert m kk d T = Ok T' ∧
    HT.NumEntries T = Z.of_nat (length kds) ∧
    load_factor_law (Z.of_nat (length kds)) (HT.NumBuckets T) ∧
    HT.NumEntries T' = Z.of_nat (length kds) + 1 ∧
    load_factor_law (Z.of_nat (length kds) + 1) (HT.NumBuckets T') ∧
    HT.NumBuckets T' =
      (if 4 * HT.NumEntries T' >=? 3 * HT.NumBuckets T
       then 2 * HT.NumBuckets T else HT.NumBuckets T) ∧
    rehashed (HT.NumBuckets T') (HT.Buckets T') ∧
    all_items (HT.Buckets T') ≡ₚ HT.new_Item m kk d :: all_items (HT.Buckets T) ∧
    ∃ B rest,
      HT.Buckets T' !! Z.to_nat (Z.land (HT.hash (HT.new_Item m kk d))
                                        (HT.NumBuckets T' - 1)) = Some B ∧
      HT.B_head B = HT.new_Item m kk d :: rest.
Proof.
  intros Hn.
  destruct (insert_all_ok m kds HT.empty_table 0 table_inv_empty) as (T & HT & Hinv);
    [lia..|].
  rewrite Z.add_0_l in Hinv.
  destruct (insert_ok m kk d T _ Hinv) as (T' & HT' & Hinv' & HNB & Hp & Hhead); [lia|].
  exists T, T'. split_and!; try done.
  - apply Hinv.
  - by apply table_inv_law.
  - apply Hinv'.
  - by apply table_inv_law.
  - destruct Hinv' as (-> & _). done.
  - apply Hinv'.
Qed.

End HT.


(** * Emit helpers *)

Lemma Emit32_le32 Out V : Emit32 Out V = Out ++ le32 V.
Proof. reflexivity. Qed.

Lemma length_le32 V : length (le32 V) = 4%nat.
Proof. reflexivity. Qed.

Lemma W_Emit32_Out W V : Out (W_Emit32 W V) = Out W ++ le32 V.
Proof. reflexivity. Qed.

Lemma testbit_small a k n : 0 ≤ a < 2 ^ k → k ≤ n → Z.testbit a n = false.
Proof.
  intros Ha Hn. destruct (Z.eq_dec a 0) as [->|]; [apply Z.bits_0|].
  apply Z.bits_above_log2; [lia|].
  assert (Z.log2 a < k); [|lia].
  apply Z.log2_lt_pow2; lia.
Qed.

Lemma lor_disjoint_add a b k :
  0 ≤ k → 0 ≤ a < 2 ^ k → 0 ≤ b → Z.lor a (b * 2 ^ k) = a + b * 2 ^ k.
Proof.
  intros Hk Ha Hb.
  rewrite <- Z.lxor_lor, <- Z.add_nocarry_lxor; try done.
  all: apply Z.bits_inj'; intros n Hn; rewrite Z.land_spec, Z.bits_0.
  all: destruct (Z_lt_le_dec n k);
    [rewrite <- Z.shiftl_mul_pow2, Z.shiftl_spec_low by lia; apply andb_false_r
    |rewrite (testbit_small a k n) by lia; done].
Qed.

Lemma pack_word0 kind flags len :
  0 ≤ kind ≤ 255 → 0 ≤ flags ≤ 255 → 0 ≤ len ≤ 65535 →
  Z.lor (Z.lor (u32 kind) (u32 (u32 flags ≪ 8))) (u32 (u32 len ≪ 16))
  = kind + flags * 2 ^ 8 + len * 2 ^ 16.
Proof.
  intros Hk Hf Hl. unfold u32.
  rewrite (Z.mod_small kind), (Z.mod_small flags), (Z.mod_small len) by lia.
  rewrite !Z.shiftl_mul_pow2 by lia.
  rewrite (Z.mod_small (flags * 2 ^ 8)), (Z.mod_small (len * 2 ^ 16)) by lia.
  rewrite (lor_disjoint_add kind flags 8) by lia.
  replace (len * 2 ^ 16) with (len * 2 ^ 16) by done.
  rewrite (lor_disjoint_add _ len 16) by lia. done.
Qed.

Ltac solve_out := unfold Emit32, le32; rewrite <- ?app_assoc; reflexivity.

Section Tok.
Variable PP : Preprocessor.

Lemma EmitToken_total T W :
  ∃ W', EmitToken PP T W = Ok W' ∧
    Out W' = Out W ++ le32 (Token_word0 PP T) ++ le32 (word1_of PP T W)
                   ++ le32 (getFileOffset PP (Loc T)) ∧
    PM W' = PM W ∧
    (isLiteral T = true →
       IM W' = IM W ∧ idcount W' = idcount W ∧
       CachedStrs W' !! getSpelling PP T = Some (setOffset (word1_of PP T W))) ∧
    (isLiteral T = false →
       CachedStrs W' = CachedStrs W ∧ CurStrOffset W' = CurStrOffset W ∧
       StrEntries W' = StrEntries W ∧
       IM W' = IM (ResolveID (IdentInfo T) W).2 ∧
       idcount W' = idcount (ResolveID (IdentInfo T) W).2).
Proof.
  unfold EmitToken, word1_of. fold (Token_word0 PP T).
  destruct (isLiteral T) eqn:Hlit.
  - unfold GetOrCreateValue.
    destruct (CachedStrs (W_Emit32 W (Token_word0 PP T)) !! getSpelling PP T)
      as [v|] eqn:Hv; cbn [CachedStrs W_Emit32 set_Out] in Hv; rewrite Hv.
    + destruct v as [[] o]; cbn; (eexists; split; [done|]); cbn;
        (split_and!; try done; try solve_out);
        intros _; split_and!; try done; by rewrite lookup_insert_eq.
    + cbn. eexists. split; [done|]. cbn.
      split_and!; try done; try solve_out.
      intros _. split_and!; try done. by rewrite lookup_insert_eq.
  - destruct (ResolveID (IdentInfo T) (W_Emit32 W (Token_word0 PP T)))
      as [id W1] eqn:HR.
    cbn. eexists. split; [done|].
    unfold ResolveID in *. cbn in *.
    destruct (IdentInfo T =? 0)%N.
    + injection HR as <- <-. cbn. split_and!; try done; solve_out.
    + destruct (IM W !! IdentInfo T); injection HR as <- <-; cbn;
        split_and!; try done; solve_out.
Qed.


Lemma EmitToken_Out T W W' :
  EmitToken PP T W = Ok W' →
  ∃ w0 w1, Out W' = Out W ++ le32 w0 ++ le32 w1
                          ++ le32 (getFileOffset PP (Loc T)).
Proof.
  intros H. destruct (EmitToken_total T W) as (W1 & H1 & HO & _).
  rewrite H in H1. injection H1 as ->. eauto.
Qed.

(** Claim C3, amended.  [EmitToken] never fails and appends exactly 12
    bytes: the word [kind | flags << 8 | length << 16] computed on 32
    bits, which is [kind + 256 flags + 65536 length] when kind and
    flags are at most 255 and the length at most 65535; then the
    offset of the spelling in the pool for a literal, and otherwise the
    persistent ID of the identifier, 0 for none; then the file offset of
    the token. *)
Theorem EmitToken_record T W :
  ∃ W',
    EmitToken PP T W = Ok W' ∧
    Out W' = Out W ++ le32 (Token_word0 PP T) ++ le32 (word1_of PP T W)
                   ++ le32 (getFileOffset PP (Loc T)) ∧
    length (Out W') = (length (Out W) + 12)%nat ∧
    (isLiteral T = true →
       CachedStrs W' !! getSpelling PP T = Some (setOffset (word1_of PP T W))) ∧
    (isLiteral T = false →
       word1_of PP T W = (ResolveID (IdentInfo T) W).1 ∧
       (IdentInfo T = 0%N → word1_of PP T W = 0)) ∧
    (0 ≤ KindValue PP (Kind T) ≤ 255 → 0 ≤ Flags T ≤ 255 →
     0 ≤ Length T ≤ 65535 →
       Token_word0 PP T
       = KindValue PP (Kind T) + Flags T * 2 ^ 8 + Length T * 2 ^ 16).
Proof.
  destruct (EmitToken_total T W) as (W' & HE & HO & _ & Hlit & Hnl).
  exists W'. split_and!; try done.
  - rewrite HO, !length_app, !length_le32. lia.
  - intros Hl. by apply Hlit.
  - intros Hl. unfold word1_of. rewrite Hl. split; [done|].
    intros ->. done.
  - intros. by apply pack_word0.
Qed.

Lemma InsertEOM_skip Tok St W :
  (isAtStartOfLine PP Tok || Tok_is Tok tok_eof)
  && ParsingPreprocessorDirective St = false →
  InsertEOM PP Tok St W = Ok (St, W).
Proof. intros H. unfold InsertEOM. by rewrite H. Qed.



Ltac emit_step H :=
  match type of H with
  | context [EmitToken PP ?T ?W] =>
      let W' := fresh "W" in
      let E := fresh "E" in
      let HO := fresh "HO" in
      destruct (EmitToken_total T W) as (W' & E & HO & _);
      rewrite E in H; cbn [mbind Res_bind] in H
  | context [assert ?b] =>
      destruct b; cbn [assert mbind Res_bind] in H; [|discriminate H]
  | context [Backpatch ?St ?i] =>
      destruct (Backpatch St i); cbn [mbind Res_bind] in H; [|discriminate H]
  | context [LexFromRawLexer ?L] =>
      destruct (LexFromRawLexer L) as [? ?]
  | context [LexIncludeFilename ?L] =>
      destruct (LexIncludeFilename L) as [? ?]
  end.

Lemma LexBody_first_record Tok L St St1 W W1 r :
  InsertEOM PP Tok St W = Ok (St1, W1) →
  LexBody PP Tok L St W = Ok r →
  ∃ w0 w1 rest,
    Out r.2.2 = Out W1 ++ le32 w0 ++ le32 w1
                       ++ le32 (getFileOffset PP (Loc Tok)) ++ rest.
Proof.
  intros HI H. unfold LexBody in H. rewrite HI in H. cbn [mbind Res_bind] in H.
  destruct (Tok_is Tok tok_identifier).
  { emit_step H. injection H as <-. cbn [snd]. rewrite HO.
    eexists _, _, []. by rewrite !app_nil_r. }
  destruct (Tok_is Tok tok_hash && isAtStartOfLine PP Tok).
  2:{ emit_step H. injection H as <-. cbn [snd]. rewrite HO.
      eexists _, _, []. by rewrite !app_nil_r. }
  do 4 emit_step H.
  destruct (negb (Tok_is t tok_identifier)).
  { emit_step H. injection H as <-. cbn [snd]. rewrite HO0, HO.
    eexists _, _, _. rewrite <- !app_assoc. done. }
  emit_step H.
  destruct (getPPKeywordID PP (LookUpIdentifierInfo PP t));
    repeat emit_step H;
    try (destruct (skip_to_line_start _ _) as [[? ?]|]);
    injection H as <-; cbn [snd];
    repeat match goal with HH : Out _ = _ |- _ => rewrite HH; clear HH end;
    eexists _, _, _; rewrite <- !app_assoc; done.
Qed.

(** Claim C9.  The [eom] token put in after a directive is written
    with the StartOfLine flag cleared, with 0 as second word and, as
    third word, with the file offset of the token in hand, the first
    token after the directive's line; the interner and the pool are
    left as they were, and the record of that token, with the same
    third word, is the next one written. *)
Theorem eom_token Tok St W :
  (isAtStartOfLine PP Tok || Tok_is Tok tok_eof)
  && ParsingPreprocessorDirective St = true →
  let Tmp := setIdentifierInfo
               (clearFlag (setKind Tok tok_eom) (StartOfLine PP)) 0%N in
  ∃ W',
    InsertEOM PP Tok St W
      = Ok (mkLexState (PPCond St) (PPStartCond St) false, W') ∧
    Out W' = Out W ++ le32 (Token_word0 PP Tmp) ++ le32 0
                   ++ le32 (getFileOffset PP (Loc Tok)) ∧
    Kind Tmp = tok_eom ∧
    Length Tmp = Length Tok ∧
    Flags Tmp = Z.land (Flags Tok) (Z.lnot (StartOfLine PP)) ∧
    Z.land (Flags Tmp) (StartOfLine PP) = 0 ∧
    IM W' = IM W ∧ idcount W' = idcount W ∧
    CachedStrs W' = CachedStrs W ∧ StrEntries W' = StrEntries W ∧
    ∀ L r, LexBody PP Tok L St W = Ok r →
      ∃ w0 w1 rest,
        Out r.2.2 = Out W' ++ le32 w0 ++ le32 w1
                          ++ le32 (getFileOffset PP (Loc Tok)) ++ rest.
Proof.
  intros Hc Tmp.
  destruct (EmitToken_total Tmp W) as (W' & HE & HO & _ & _ & Hnl).
  assert (HI : InsertEOM PP Tok St W
               = Ok (mkLexState (PPCond St) (PPStartCond St) false, W')).
  { unfold InsertEOM. rewrite Hc. fold Tmp. rewrite HE. done. }
  destruct Hnl as (HCS & _ & HSE & HIM & Hid); [done|].
  exists W'. split_and!; try done.
  - cbn. rewrite <- Z.land_assoc, (Z.land_comm (Z.lnot _)), Z.land_lnot_diag.
    apply Z.land_0_r.
  - intros L r Hr. eapply LexBody_first_record; eauto.
Qed.

End Tok.




Lemma handles_seen_nil : handles_seen [] = ∅.
Proof. done. Qed.

Lemma handles_seen_cons II IIs :
  handles_seen (II :: IIs)
  = (if decide (II = 0%N) then ∅ else {[II]}) ∪ handles_seen IIs.
Proof.
  unfold handles_seen. rewrite filter_cons.
  destruct (decide (II ≠ 0%N)) as [Hne|He]; destruct (decide (II = 0%N)); try done.
  by rewrite union_empty_l_L.
Qed.

Lemma handles_seen_app l1 l2 :
  handles_seen (l1 ++ l2) = handles_seen l1 ∪ handles_seen l2.
Proof.
  unfold handles_seen. by rewrite filter_app, list_to_set_app_L.
Qed.

Lemma elem_of_handles_seen II IIs :
  II ∈ handles_seen IIs ↔ II ≠ 0%N ∧ II ∈ IIs.
Proof.
  unfold handles_seen. rewrite elem_of_list_to_set, list_elem_of_filter. done.
Qed.

Lemma interner_inv_new out : interner_inv (new_PTHWriter out).
Proof.
  split_and!; cbn.
  - intros II id H. by rewrite lookup_empty in H.
  - intros II II' id H. by rewrite lookup_empty in H.
  - by rewrite map_size_empty.
Qed.

Lemma ResolveID_null W : ResolveID 0%N W = (0, W).
Proof. done. Qed.

Lemma ResolveID_step II W :
  interner_inv W → idcount W + 1 < 2 ^ 32 →
  let r := ResolveID II W in
  interner_inv r.2 ∧ IM W ⊆ IM r.2 ∧
  dom (IM r.2) = dom (IM W) ∪ (if decide (II = 0%N) then ∅ else {[II]}) ∧
  (II = 0%N → r.1 = 0) ∧
  (II ≠ 0%N → IM r.2 !! II = Some r.1) ∧
  (II ≠ 0%N → II ∉ dom (IM W) → r.1 = idcount W + 1) ∧
  idcount W ≤ idcount r.2 ≤ idcount W + 1.
Proof.
  intros (Hr & Hinj & Hsz) Hb. unfold ResolveID.
  destruct (N.eqb_spec II 0) as [->|Hne].
  { cbn. rewrite decide_True by done. split_and!; try done; try lia.
    by rewrite union_empty_r_L. }
  rewrite decide_False by done.
  destruct (IM W !! II) as [id|] eqn:HII; cbn.
  - split_and!; try done; try lia.
    + apply elem_of_dom_2 in HII. set_solver.
    + intros _ Hn. apply not_elem_of_dom in Hn. congruence.
  - assert (Hid : 0 ≤ idcount W) by lia.
    rewrite (u32_small (idcount W + 1)) by lia.
    split_and!; try done; try lia.
    + split_and!; cbn.
      * intros II' id. rewrite lookup_insert.
        destruct (decide (II = II')) as [<-|]; [intros [= <-]; split; [done|lia]|].
        intros H. destruct (Hr _ _ H). split; [done|lia].
      * intros II1 II2 id. rewrite !lookup_insert.
        destruct (decide (II = II1)) as [<-|], (decide (II = II2)) as [<-|];
          try done.
        -- intros [= <-] H. destruct (Hr _ _ H). lia.
        -- intros H [= <-]. destruct (Hr _ _ H). lia.
        -- apply Hinj.
      * rewrite map_size_insert_None by done. lia.
    + by apply insert_subseteq.
    + rewrite dom_insert_L. set_solver.
    + intros _. by rewrite lookup_insert_eq.
Qed.

Lemma ResolveAll_app l1 l2 W :
  ResolveAll (l1 ++ l2) W =
    ((ResolveAll l1 W).1 ++ (ResolveAll l2 (ResolveAll l1 W).2).1,
     (ResolveAll l2 (ResolveAll l1 W).2).2).
Proof.
  revert W. induction l1 as [|II l1 IH]; intros W; cbn.
  - by destruct (ResolveAll l2 W).
  - destruct (ResolveID II W) as [id W1]. rewrite IH.
    destruct (ResolveAll l1 W1) as [ids1 W2]. cbn.
    by destruct (ResolveAll l2 W2).
Qed.

Lemma ResolveAll_run IIs : ∀ W,
  interner_inv W → idcount W + Z.of_nat (length IIs) < 2 ^ 32 →
  let r := ResolveAll IIs W in
  interner_inv r.2 ∧ IM W ⊆ IM r.2 ∧
  dom (IM r.2) = dom (IM W) ∪ handles_seen IIs ∧
  length r.1 = length IIs ∧
  idcount r.2 ≤ idcount W + Z.of_nat (length IIs) ∧
  ∀ (i : nat) II, IIs !! i = Some II →
    r.1 !! i = Some (if decide (II = 0%N) then 0 else default 0 (IM r.2 !! II)).
Proof.
  induction IIs as [|II IIs IH]; intros W HJ Hb.
  - cbn [ResolveAll fst snd length]. split_and!; try done; try lia.
    rewrite handles_seen_nil. set_solver.
  - cbn [ResolveAll]. cbn [length] in Hb.
    assert (H0 : 0 ≤ idcount W) by (destruct HJ as (_ & _ & <-); lia).
    destruct (ResolveID_step II W HJ) as (HJ1 & Hsub1 & Hdom1 & Hz & Hnz & _ & Hc1);
      [lia|].
    destruct (ResolveID II W) as [id W1]. cbn [fst snd] in *.
    destruct (IH W1 HJ1) as (HJ2 & Hsub2 & Hdom2 & Hlen & Hc2 & Hids); [lia|].
    destruct (ResolveAll IIs W1) as [ids W2]. cbn [fst snd] in *.
    split_and!; try done.
    + by etrans.
    + rewrite Hdom2, Hdom1, handles_seen_cons. set_solver.
    + cbn. by rewrite Hlen.
    + cbn [length]. lia.
    + intros [|i] II' Hi; cbn in *.
      * injection Hi as <-. destruct (decide (II = 0%N)) as [He|Hne].
        -- by rewrite Hz.
        -- rewrite (lookup_weaken _ _ _ _ (Hnz Hne) Hsub2). done.
      * by apply Hids.
Qed.

(** Claim C6.  [ResolveID] returns 0 for the null identifier.  Over a
    sequence of calls a non-null identifier gets the same ID each time;
    at its first appearance it gets one more than the number of
    distinct identifiers seen before, so the IDs are 1, 2, ... in the
    order of first appearance; two identifiers never share an ID; and
    [idcount] ends as the number of distinct identifiers.  The sequence
    foo, bar, foo gives 1, 2, 1 and [idcount = 2]. *)
Theorem ResolveID_first_seen (IIs : list IdentifierInfoPtr) (out : raw_ostream) :
  Z.of_nat (length IIs) < 2 ^ 32 →
  let ids := (ResolveAll IIs (new_PTHWriter out)).1 in
  let W := (ResolveAll IIs (new_PTHWriter out)).2 in
  (∀ W0, ResolveID 0%N W0 = (0, W0)) ∧
  length ids = length IIs ∧
  (∀ (i : nat), IIs !! i = Some 0%N → ids !! i = Some 0) ∧
  (∀ (i j : nat) II, IIs !! i = Some II → IIs !! j = Some II →
     ids !! i = ids !! j) ∧
  (∀ (i : nat) II, IIs !! i = Some II → II ≠ 0%N → II ∉ take i IIs →
     ids !! i = Some (Z.of_nat (size (handles_seen (take i IIs))) + 1)) ∧
  (∀ (i j : nat) II II' id, IIs !! i = Some II → IIs !! j = Some II' →
     II ≠ 0%N → II' ≠ 0%N → ids !! i = Some id → ids !! j = Some id →
     II = II') ∧
  (∀ (i : nat) II id, IIs !! i = Some II → II ≠ 0%N → ids !! i = Some id →
     1 ≤ id ≤ idcount W) ∧
  idcount W = Z.of_nat (size (handles_seen IIs)) ∧
  ResolveAll [5%N; 9%N; 5%N] (new_PTHWriter out)
  = ([1; 2; 1], mkPTHWriter {[5%N := 1; 9%N := 2]} out 2 HT.empty_table ∅ 0 []).
Proof.
  intros Hlen ids W.
  destruct (ResolveAll_run IIs (new_PTHWriter out) (interner_inv_new out))
    as (HJ & _ & Hdom & Hl & _ & Hids); [cbn; lia|].
  fold ids W in HJ, Hdom, Hl, Hids.
  assert (Hcount : idcount W = Z.of_nat (size (handles_seen IIs))).
  { destruct HJ as (_ & _ & <-). rewrite <- size_dom, Hdom.
    cbn. by rewrite dom_empty_L, union_empty_l_L. }
  assert (Hin : ∀ (i : nat) II, IIs !! i = Some II → II ≠ 0%N →
            ∃ id, ids !! i = Some id ∧ IM W !! II = Some id).
  { intros i II Hi Hne. rewrite (Hids i II Hi), decide_False by done.
    assert (II ∈ dom (IM W)) as [id Hid]%elem_of_dom.
    { rewrite Hdom. apply elem_of_union_r, elem_of_handles_seen.
      split; [done|]. by eapply list_elem_of_lookup_2. }
    exists id. by rewrite Hid. }
  split_and!; try done.
  - intros i Hi. by rewrite (Hids i _ Hi).
  - intros i j II Hi Hj. by rewrite (Hids i _ Hi), (Hids j _ Hj).
  - intros i II Hi Hne Hfresh.
    pose proof (take_drop_middle IIs i II Hi) as Hsplit.
    assert (Hli : length (take i IIs) = i).
    { rewrite length_take. apply lookup_lt_Some in Hi. lia. }
    assert (Hb1 : Z.of_nat (length (take i IIs)) < 2 ^ 32).
    { rewrite length_take. lia. }
    destruct (ResolveAll_run (take i IIs) (new_PTHWriter out)
                (interner_inv_new out))
      as (HJ1 & _ & Hdom1 & Hl1 & Hc1 & _); [cbn; lia|].
    unfold ids. rewrite <- Hsplit at 1. rewrite ResolveAll_app. cbn [fst].
    rewrite lookup_app_r by lia. rewrite Hl1, Hli, Nat.sub_diag.
    cbn [ResolveAll].
    set (W1 := (ResolveAll (take i IIs) (new_PTHWriter out)).2) in *.
    destruct (ResolveID_step II W1 HJ1) as (_ & _ & _ & _ & _ & Hnew & _).
    { cbn [idcount new_PTHWriter] in Hc1. apply lookup_lt_Some in Hi. lia. }
    destruct (ResolveID II W1) as [id W2]. cbn [fst snd] in *.
    destruct (ResolveAll (drop (S i) IIs) W2) as [ids2 W3]. cbn.
    f_equal. rewrite Hnew; [|done|].
    + destruct HJ1 as (_ & _ & <-). rewrite <- size_dom, Hdom1.
      cbn. by rewrite dom_empty_L, union_empty_l_L.
    + rewrite Hdom1. cbn. rewrite dom_empty_L, union_empty_l_L.
      rewrite elem_of_handles_seen. tauto.
  - intros i j II II' id Hi Hj Hne Hne' Hidi Hidj.
    destruct (Hin i II Hi Hne) as (id1 & H1 & HM1).
    destruct (Hin j II' Hj Hne') as (id2 & H2 & HM2).
    destruct HJ as (_ & Hinj & _). eapply Hinj; [exact HM1|]. congruence.
  - intros i II id Hi Hne Hid.
    destruct (Hin i II Hi Hne) as (id1 & H1 & HM1).
    destruct HJ as (Hr & _). destruct (Hr _ _ HM1). congruence.
Qed.


Lemma pool_size_nonneg entries : 0 ≤ pool_size entries.
Proof. induction entries; cbn; lia. Qed.

Lemma pool_size_app l1 l2 : pool_size (l1 ++ l2) = pool_size l1 + pool_size l2.
Proof. induction l1; cbn; lia. Qed.

Lemma pool_image_app l1 l2 :
  pool_image (l1 ++ l2) = pool_image l1 ++ pool_image l2.
Proof.
  induction l1 as [|s l1 IH]; cbn; [done|]. by rewrite IH, <- !app_assoc.
Qed.

Lemma length_pool_image l : Z.of_nat (length (pool_image l)) = pool_size l.
Proof.
  induction l as [|s l IH]; cbn; [done|]. rewrite length_app. cbn. lia.
Qed.

Lemma spelling_bytes_nonneg PP Ts : 0 ≤ spelling_bytes PP Ts.
Proof. induction Ts as [|T Ts IH]; cbn; [lia|]. destruct (isLiteral T); lia. Qed.

Lemma spelling_bytes_app PP l1 l2 :
  spelling_bytes PP (l1 ++ l2) = spelling_bytes PP l1 + spelling_bytes PP l2.
Proof. induction l1; cbn; lia. Qed.

Lemma EmitSpellings_Out entries : ∀ W,
  Out (EmitSpellings W entries) = Out W ++ pool_image entries ∧
  CachedStrs (EmitSpellings W entries) = CachedStrs W ∧
  StrEntries (EmitSpellings W entries) = StrEntries W.
Proof.
  induction entries as [|s entries IH]; intros W; cbn.
  - by rewrite app_nil_r.
  - destruct (IH (W_Emit8 (EmitBuf W s) 0)) as (-> & -> & ->). cbn.
    by rewrite <- !app_assoc.
Qed.

Lemma pool_inv_new out : pool_inv (new_PTHWriter out).
Proof. split; cbn; [done|]. intros s v H. by rewrite lookup_empty in H. Qed.

Section Pool.
Variable PP : Preprocessor.

(** What a literal token does to the pool. *)
Lemma EmitToken_literal T W W' :
  isLiteral T = true → pool_inv W → EmitToken PP T W = Ok W' →
  let s := getSpelling PP T in
  match CachedStrs W !! s with
  | None =>
      word1_of PP T W = CurStrOffset W ∧
      CachedStrs W' = <[s := setOffset (CurStrOffset W)]> (CachedStrs W) ∧
      CurStrOffset W' = u32 (CurStrOffset W + Z.of_nat (length s) + 1) ∧
      StrEntries W' = StrEntries W ++ [s]
  | Some v =>
      word1_of PP T W = off v ∧
      CachedStrs W' = CachedStrs W ∧
      CurStrOffset W' = CurStrOffset W ∧
      StrEntries W' = StrEntries W
  end.
Proof.
  intros Hlit (_ & Hinv) HE s. unfold EmitToken, word1_of in *.
  rewrite Hlit in *. unfold GetOrCreateValue in HE.
  cbn [CachedStrs W_Emit32 set_Out] in HE. fold s in HE |- *.
  destruct (CachedStrs W !! s) as [v|] eqn:Hv.
  - destruct (Hinv s v Hv) as (Hval & _).
    destruct v as [vv o]. cbn in Hval. subst vv. cbn in HE.
    injection HE as <-. repeat split.
  - cbn in HE. injection HE as <-. repeat split.
    cbn. by rewrite insert_insert_eq.
Qed.

Lemma EmitToken_pool_inv T W W' :
  pool_inv W → EmitToken PP T W = Ok W' →
  CurStrOffset W
  + (if isLiteral T then Z.of_nat (length (getSpelling PP T)) + 1 else 0)
  < 2 ^ 32 →
  pool_inv W' ∧
  (∀ s v, CachedStrs W !! s = Some v → CachedStrs W' !! s = Some v) ∧
  CurStrOffset W ≤ CurStrOffset W' ≤
    CurStrOffset W
    + (if isLiteral T then Z.of_nat (length (getSpelling PP T)) + 1 else 0).
Proof.
  intros Hinv HE Hb.
  pose proof (pool_size_nonneg (StrEntries W)) as Hnn.
  destruct (isLiteral T) eqn:Hlit.
  - pose proof (EmitToken_literal T W W' Hlit Hinv HE) as Hl. cbn zeta in Hl.
    destruct Hinv as (Hcur & Hinv).
    destruct (CachedStrs W !! getSpelling PP T) as [v|] eqn:Hv.
    + destruct Hl as (_ & HCS & HCur & HSE).
      split_and!; [split|..]; rewrite ?HCS, ?HCur, ?HSE; try done; lia.
    + destruct Hl as (_ & HCS & HCur & HSE).
      rewrite u32_small in HCur by lia.
      split_and!; [split|..]; rewrite ?HCS, ?HCur, ?HSE; try lia.
      * rewrite pool_size_app. cbn. lia.
      * intros s v. rewrite lookup_insert.
        destruct (decide (getSpelling PP T = s)) as [<-|Hne].
        -- intros [= <-]. split; [done|].
           exists (length (StrEntries W)). cbn.
           rewrite lookup_app_r, Nat.sub_diag by lia.
           split; [done|]. rewrite take_app_length. done.
        -- intros Hs. destruct (Hinv s v Hs) as (Hval & j & Hj & Hoff).
           split; [done|]. exists j.
           rewrite lookup_app_l by (by eapply lookup_lt_Some).
           split; [done|]. rewrite take_app_le; [done|].
           apply lookup_lt_Some in Hj. lia.
      * intros s v Hs. rewrite lookup_insert_ne; [done|]. congruence.
  - destruct (EmitToken_total PP T W) as (W1 & HE1 & _ & _ & _ & Hnl).
    rewrite HE in HE1. injection HE1 as <-.
    destruct (Hnl Hlit) as (HCS & HCur & HSE & _).
    destruct Hinv as (Hcur & Hinv).
    split_and!; [split|..]; rewrite ?HCS, ?HCur, ?HSE; try done; lia.
Qed.

Lemma EmitTokens_pool Ts : ∀ W,
  pool_inv W → CurStrOffset W + spelling_bytes PP Ts < 2 ^ 32 →
  ∃ W', EmitTokens PP Ts W = Ok W' ∧ pool_inv W' ∧
        CurStrOffset W' ≤ CurStrOffset W + spelling_bytes PP Ts.
Proof.
  induction Ts as [|T Ts IH]; intros W Hinv Hb; cbn in *.
  - exists W. split_and!; try done. lia.
  - pose proof (spelling_bytes_nonneg PP Ts).
    destruct (EmitToken_total PP T W) as (W1 & HE & _).
    destruct (EmitToken_pool_inv T W W1 Hinv HE) as (Hinv1 & _ & Hc); [lia|].
    destruct (IH W1 Hinv1) as (W' & HE' & Hinv' & Hc'); [lia|].
    exists W'. rewrite HE. cbn. split_and!; try done. lia.
Qed.

Lemma EmitCachedSpellings_bytes W :
  pool_inv W → tell (Out W) < 2 ^ 32 →
  let r := EmitCachedSpellings W in
  r.1 = tell (Out W) ∧
  Out r.2 = Out W ++ pool_image (StrEntries W) ∧
  ∀ s v, CachedStrs W !! s = Some v →
    take (length s + 1) (drop (Z.to_nat (r.1 + off v)) (Out r.2)) = s ++ [0].
Proof.
  intros (Hcur & Hinv) Hb r. unfold r, EmitCachedSpellings. cbn [fst snd].
  destruct (EmitSpellings_Out (StrEntries W) W) as (HO & _).
  rewrite u32_small by (unfold tell in *; lia).
  split_and!; try done.
  intros s v Hs. destruct (Hinv s v Hs) as (_ & j & Hj & Hoff).
  rewrite HO, Hoff.
  rewrite <- (take_drop_middle _ _ _ Hj) at 2.
  rewrite pool_image_app. cbn [pool_image].
  rewrite <- length_pool_image. unfold tell.
  rewrite <- Nat2Z.inj_add, Nat2Z.id, <- length_app.
  rewrite app_assoc, drop_app_length.
  replace (length s + 1)%nat with (length (s ++ [0])) by (rewrite length_app; done).
  rewrite app_assoc, take_app_length. done.
Qed.

(** Claim C5.  After any run of [EmitToken], a literal token whose
    spelling is not yet in the pool is given the offset [CurStrOffset],
    which then advances by the length of the spelling plus one; a
    spelling already in the pool keeps its offset, and no entry of the
    pool ever changes.  After [EmitCachedSpellings] the bytes at
    the offset it returns plus the offset of a spelling are the
    spelling followed by a NUL. *)
Theorem spelling_pool (Ts : list Token) (T : Token) (out : raw_ostream) :
  spelling_bytes PP (Ts ++ [T]) < 2 ^ 32 → tell out < 2 ^ 32 →
  ∃ W W',
    EmitTokens PP Ts (new_PTHWriter []) = Ok W ∧
    EmitToken PP T W = Ok W' ∧
    (isLiteral T = true →
       let s := getSpelling PP T in
       CachedStrs W' !! s = Some (setOffset (word1_of PP T W)) ∧
       match CachedStrs W !! s with
       | None =>
           word1_of PP T W = CurStrOffset W ∧
           CurStrOffset W' = CurStrOffset W + Z.of_nat (length s) + 1 ∧
           StrEntries W' = StrEntries W ++ [s]
       | Some v =>
           word1_of PP T W = off v ∧
           CurStrOffset W' = CurStrOffset W ∧
           StrEntries W' = StrEntries W
       end) ∧
    (∀ s v, CachedStrs W !! s = Some v → CachedStrs W' !! s = Some v) ∧
    let r := EmitCachedSpellings (set_Out W' out) in
    r.1 = tell out ∧
    Out r.2 = out ++ pool_image (StrEntries W') ∧
    ∀ s v, CachedStrs W' !! s = Some v →
      valid v = true ∧
      take (length s + 1) (drop (Z.to_nat (r.1 + off v)) (Out r.2)) = s ++ [0].
Proof.
  intros Hb Hout. rewrite spelling_bytes_app in Hb. cbn [spelling_bytes] in Hb.
  pose proof (spelling_bytes_nonneg PP Ts) as Hnn.
  assert (Hlt : 0 ≤ (if isLiteral T
                     then Z.of_nat (length (getSpelling PP T)) + 1 else 0))
    by (destruct (isLiteral T); lia).
  destruct (EmitTokens_pool Ts (new_PTHWriter []) (pool_inv_new []))
    as (W & HW & Hinv & Hc); [cbn [CurStrOffset new_PTHWriter]; lia|].
  cbn [CurStrOffset new_PTHWriter] in Hc.
  destruct (EmitToken_total PP T W) as (W' & HE & _ & _ & Hlit & _).
  destruct (EmitToken_pool_inv T W W' Hinv HE) as (Hinv' & Hfrozen & Hc');
    [destruct (isLiteral T); lia|].
  exists W, W'. split_and!; try done.
  - intros Hl s. split; [by apply Hlit|].
    pose proof (EmitToken_literal T W W' Hl Hinv HE) as HL. cbn zeta in HL.
    fold s in HL. destruct (CachedStrs W !! s); [tauto|].
    destruct HL as (? & _ & HCur & ?). split_and!; try done.
    rewrite HCur. apply u32_small. rewrite Hl in *.
    destruct Hinv as (Hcur & _).
    pose proof (pool_size_nonneg (StrEntries W)). cbv iota in Hb.
    fold s in Hb. lia.
  - assert (Hinv'' : pool_inv (set_Out W' out)) by done.
    destruct (EmitCachedSpellings_bytes (set_Out W' out) Hinv'' Hout)
      as (H1 & H2 & H3).
    cbn zeta. split_and!; try done.
    intros s v Hs. split; [|by apply H3].
    destruct Hinv' as (_ & Hi). by destruct (Hi s v Hs).
Qed.

End Pool.


Lemma Emit16_ok Out V :
  u32 V < 65536 → Emit16 Out V = Ok (Out ++ le16 V).
Proof.
  intros HV. unfold Emit16, le16.
  pose proof (u32_range V) as Hr.
  assert (u32 V ≫ 16 = 0) as ->.
  { rewrite Z.shiftr_div_pow2 by lia. apply Z.div_small.
    change (2 ^ 16) with 65536. lia. }
  cbn. by rewrite <- app_assoc.
Qed.

Lemma Emit16_fail Out V :
  65536 ≤ u32 V → Emit16 Out V = Err AssertionFailed.
Proof.
  intros HV. unfold Emit16.
  destruct (Z.eqb_spec (u32 V ≫ 16) 0) as [He|]; [|done].
  rewrite Z.shiftr_div_pow2 in He by lia. change (2 ^ 16) with 65536 in He.
  pose proof (Z.div_le_lower_bound (u32 V) 65536 1). lia.
Qed.

Lemma land_lnot3 x : Z.land x (Z.lnot 3) = 4 * (x / 4).
Proof.
  rewrite <- Z.ldiff_land. change 3 with (Z.ones 2).
  rewrite Z.ldiff_ones_r by lia.
  rewrite Z.shiftl_mul_pow2, Z.shiftr_div_pow2 by lia.
  change (2 ^ 2) with 4. lia.
Qed.

Lemma Pad4 Out :
  ∃ k : nat, (k < 4)%nat ∧ Pad Out 4 = Out ++ replicate k 0 ∧
             (tell Out + Z.of_nat k) mod 4 = 0.
Proof.
  unfold Pad. change (4 - 1) with 3. change (u8 0) with 0.
  set (t := tell Out). set (o := u32 t).
  assert (Ht : t mod 4 = o mod 4).
  { unfold o, u32. change (2 ^ 32) with (4 * 1073741824).
    rewrite Z.rem_mul_r by lia. rewrite Z.mul_comm, Z_mod_plus_full.
    by rewrite Z.mod_mod by lia. }
  pose proof (u32_range t) as Ho. fold o in Ho.
  change (2 ^ 32) with 4294967296 in Ho.
  set (n := u32 (Z.land (u32 (o + 4 - 1)) (Z.lnot 3) - o)).
  assert (Hn : 0 ≤ n < 4 ∧ (o + n) mod 4 = 0).
  { unfold n. rewrite land_lnot3.
    destruct (Z_lt_le_dec (o + 3) 4294967296) as [Hlt|Hge].
    - rewrite (u32_small (o + 4 - 1)) by (change (2 ^ 32) with 4294967296; lia).
      replace (o + 4 - 1) with (o + 3) by lia.
      pose proof (Z.div_mod (o + 3) 4). pose proof (Z.mod_pos_bound (o + 3) 4).
      rewrite u32_small by (change (2 ^ 32) with 4294967296; lia).
      split; [lia|].
      replace (o + (4 * ((o + 3) / 4) - o)) with (((o + 3) / 4) * 4) by lia.
      apply Z_mod_mult.
    - assert (o = 4294967293 ∨ o = 4294967294 ∨ o = 4294967295) as [->|[->| ->]]
        by lia; vm_compute; done. }
  exists (Z.to_nat n). split; [lia|]. split; [done|].
  rewrite Z2Nat.id by lia.
  rewrite Z.add_mod, Ht, <- Z.add_mod by lia. tauto.
Qed.

Section Emit.
Context {key_type data_type Mem : Type} `{!Info key_type data_type Mem}.
Implicit Types (bs : list (@HT.Bucket key_type data_type)).
Implicit Types (E : @HT.Item key_type data_type).
Implicit Types (ib : @HT.Item key_type data_type → list Z).

Lemma EmitChain_cons Out m E next :
  HT.EmitChain Out m (E :: next)
  = '(Out1, m1) ← HT.EmitChain Out m [E]; HT.EmitChain Out1 m1 next.
Proof.
  cbn [HT.EmitChain].
  destruct (EmitKeyDataLength _ _ _ _) as [[Out1 Len]|]; [|done].
  cbn [mbind Res_bind].
  destruct (EmitKey _ _ _ _) as [Out2 m1].
  destruct (EmitData _ _ _ _ _) as [Out3|]; done.
Qed.

Lemma EmitChain_pure ib chain : ∀ Out m,
  (∀ E, E ∈ chain → ∀ Out m, ∃ m', HT.EmitChain Out m [E] = Ok (Out ++ ib E, m')) →
  ∃ m', HT.EmitChain Out m chain = Ok (Out ++ concat (ib <$> chain), m').
Proof.
  induction chain as [|E next IH]; intros Out m Hp.
  - exists m. cbn. by rewrite app_nil_r.
  - destruct (Hp E (list_elem_of_here _ _) Out m) as (m1 & H1).
    destruct (IH (Out ++ ib E) m1) as (m' & H').
    { intros E' HE'. apply Hp. by apply list_elem_of_further. }
    exists m'. rewrite EmitChain_cons, H1. cbn [mbind Res_bind].
    rewrite H'. cbn. by rewrite <- app_assoc.
Qed.

Lemma EmitOffsets_app bs : ∀ Out,
  HT.EmitOffsets Out bs = Out ++ concat ((λ B, le32 (HT.B_off B)) <$> bs).
Proof.
  induction bs as [|B bs IH]; intros Out; cbn.
  - by rewrite app_nil_r.
  - rewrite IH. unfold Emit32, le32. by rewrite <- app_assoc.
Qed.

Lemma payload_bytes_cons ib B bs :
  payload_bytes ib (B :: bs) = bucket_bytes ib B ++ payload_bytes ib bs.
Proof. done. Qed.

Lemma EmitPayload_pure ib bs : ∀ Out m,
  (∀ E, E ∈ all_items bs →
     ∀ Out m, ∃ m', HT.EmitChain Out m [E] = Ok (Out ++ ib E, m')) →
  (∀ (i : nat) B, bs !! i = Some B → u32 (HT.B_length B) < 65536) →
  ∃ bs' m',
    HT.EmitPayload Out m bs = Ok (bs', (Out ++ payload_bytes ib bs, m')) ∧
    length bs' = length bs ∧
    ∀ (i : nat) B, bs !! i = Some B →
      bs' !! i = Some (emitted_bucket
              (tell Out + Z.of_nat (length (payload_bytes ib (take i bs)))) B).
Proof.
  induction bs as [|B bs IH]; intros Out m Hp Hl.
  - exists [], m. cbn. rewrite app_nil_r. done.
  - assert (Hp' : ∀ E, E ∈ all_items bs →
       ∀ Out m, ∃ m', HT.EmitChain Out m [E] = Ok (Out ++ ib E, m')).
    { intros E HE. apply Hp. unfold all_items. cbn.
      apply elem_of_app. by right. }
    assert (Hl' : ∀ (i : nat) B, bs !! i = Some B → u32 (HT.B_length B) < 65536).
    { intros i B' Hi. by apply (Hl (S i)). }
    cbn [HT.EmitPayload]. rewrite payload_bytes_cons.
    unfold bucket_bytes at 1.
    destruct (HT.B_head B) as [|E chain] eqn:Hh.
    + destruct (IH Out m Hp' Hl') as (bs' & m' & HE & Hlen & Hlk).
      rewrite HE. cbn. exists (B :: bs'), m'. split_and!; try done.
      * cbn. by rewrite Hlen.
      * intros [|i] B' Hi.
        -- injection Hi as <-. cbn. unfold emitted_bucket. by rewrite Hh.
        -- change ((B :: bs') !! S i) with (bs' !! i).
           change ((B :: bs) !! S i) with (bs !! i) in Hi.
           rewrite (Hlk i B' Hi). cbn [take]. rewrite payload_bytes_cons.
           unfold bucket_bytes at 1. rewrite Hh. reflexivity.
    + cbn zeta. cbn [HT.B_length HT.B_head].
      rewrite Emit16_ok by (by apply (Hl 0%nat B)). cbn [mbind Res_bind].
      destruct (EmitChain_pure ib (E :: chain) (Out ++ le16 (HT.B_length B)) m)
        as (m1 & H1).
      { intros E' HE'. apply Hp. unfold all_items. cbn. rewrite Hh.
        apply elem_of_app. by left. }
      rewrite H1. cbn [mbind Res_bind].
      destruct (IH ((Out ++ le16 (HT.B_length B)) ++ concat (ib <$> E :: chain))
                  m1 Hp' Hl') as (bs' & m' & HE & Hlen & Hlk).
      rewrite HE. cbn [mbind Res_bind].
      eexists _, m'. split_and!.
      * rewrite <- !app_assoc. done.
      * cbn. by rewrite Hlen.
      * intros [|i] B' Hi.
        -- injection Hi as <-. cbn. unfold emitted_bucket. rewrite Hh.
           by rewrite Z.add_0_r.
        -- change ((?x :: bs') !! S i) with (bs' !! i).
           change ((B :: bs) !! S i) with (bs !! i) in Hi.
           rewrite (Hlk i B' Hi). cbn [take]. rewrite payload_bytes_cons.
           unfold bucket_bytes.
           rewrite Hh. unfold tell. rewrite !length_app.
           do 2 f_equal. lia.
Qed.

Lemma Emit_pure ib Out m (T : @HT.Table key_type data_type) :
  (∀ E, E ∈ all_items (HT.Buckets T) →
     ∀ Out m, ∃ m', HT.EmitChain Out m [E] = Ok (Out ++ ib E, m')) →
  (∀ (i : nat) B, HT.Buckets T !! i = Some B → u32 (HT.B_length B) < 65536) →
  ∃ bs' m' (k : nat),
    let payload := payload_bytes ib (HT.Buckets T) in
    HT.Emit Out m T
    = Ok (u32 (tell (Out ++ payload ++ replicate k 0)),
          (HT.mkTable (HT.NumBuckets T) (HT.NumEntries T) bs',
           (Out ++ payload ++ replicate k 0
                ++ le32 (HT.NumBuckets T) ++ le32 (HT.NumEntries T)
                ++ concat ((λ B, le32 (HT.B_off B)) <$> bs'), m'))) ∧
    (k < 4)%nat ∧
    tell (Out ++ payload ++ replicate k 0) mod 4 = 0 ∧
    length bs' = length (HT.Buckets T) ∧
    ∀ (i : nat) B, HT.Buckets T !! i = Some B →
      bs' !! i = Some (emitted_bucket
        (tell Out + Z.of_nat (length (payload_bytes ib (take i (HT.Buckets T)))))
        B).
Proof.
  intros Hp Hl.
  destruct (EmitPayload_pure ib (HT.Buckets T) Out m Hp Hl)
    as (bs' & m' & HE & Hlen & Hlk).
  destruct (Pad4 (Out ++ payload_bytes ib (HT.Buckets T))) as (k & Hk & HP & Hal).
  exists bs', m', k. cbn zeta. unfold HT.Emit. rewrite HE. cbn [mbind Res_bind].
  rewrite HP, EmitOffsets_app, !Emit32_le32.
  split_and!; try done.
  - rewrite <- !app_assoc. done.
  - unfold tell in *. rewrite !length_app, length_replicate in *.
    rewrite <- Hal. f_equal. lia.
Qed.

End Emit.


Lemma strlen_bounds x : 0 ≤ strlen x ≤ Z.of_nat (length x).
Proof.
  induction x as [|c x IH]; cbn [strlen length]; [lia|].
  destruct (c =? 0); lia.
Qed.

Lemma strlen_prefix x : Forall (λ c, c ≠ 0) (take (Z.to_nat (strlen x)) x).
Proof.
  induction x as [|c x IH]; cbn [strlen]; [by constructor|].
  pose proof (strlen_bounds x).
  destruct (Z.eqb_spec c 0); [by constructor|].
  rewrite Z2Nat.inj_add, Nat.add_1_l by lia. cbn. by constructor.
Qed.

Lemma strlen_take_succ x :
  strlen x < Z.of_nat (length x) →
  take (Z.to_nat (strlen x + 1)) x = take (Z.to_nat (strlen x)) x ++ [0].
Proof.
  induction x as [|c x IH]; cbn [strlen length]; [lia|].
  pose proof (strlen_bounds x).
  destruct (Z.eqb_spec c 0) as [->|]; [done|]. intros Hlt.
  replace (Z.to_nat (1 + strlen x + 1)) with (S (Z.to_nat (strlen x + 1))) by lia.
  replace (Z.to_nat (1 + strlen x)) with (S (Z.to_nat (strlen x))) by lia.
  cbn [take app]. f_equal. apply IH. lia.
Qed.

Lemma strlen_c_str_lt s : strlen (c_str s) < Z.of_nat (length (c_str s)).
Proof.
  unfold c_str. induction s as [|c s IH]; cbn [strlen app length]; [done|].
  destruct (c =? 0); lia.
Qed.

Lemma strlen_c_str s :
  take (Z.to_nat (strlen (c_str s) + 1)) (c_str s)
  = take (Z.to_nat (strlen (c_str s))) (c_str s) ++ [0].
Proof. apply strlen_take_succ, strlen_c_str_lt. Qed.

Lemma strlen_nul_free s :
  Forall (λ c, c ≠ 0) s → strlen (c_str s) = Z.of_nat (length s).
Proof.
  unfold c_str. induction 1 as [|c s Hc Hs IH]; cbn [strlen app length]; [done|].
  destruct (Z.eqb_spec c 0); [done|]. lia.
Qed.

Lemma getCString_key_chars V : getCString V = c_str (key_chars V).
Proof. by destruct V. Qed.

Lemma u8_small x : 0 ≤ x < 256 → u8 x = x.
Proof. intros. unfold u8. by apply Z.mod_small. Qed.

Lemma KeyVariant_EmitData_ok Out V E :
  file_key_ok V →
  FileEntryPTHEntryInfo.EmitData Out V E
    (Z.of_nat (length (file_data_bytes V E)))
  = Ok (Out ++ file_data_bytes V E).
Proof.
  intros (_ & Hm). unfold FileEntryPTHEntryInfo.EmitData.
  destruct V as [FE|DE|P]; cbn [getFile KeyVariant_EmitData file_data_bytes].
  - rewrite Emit16_ok by done. cbn [mbind Res_bind].
    unfold Emit32, Emit64, le32, le64, getTokenOffset, getPPCondTableOffset.
    rewrite <- !app_assoc. done.
  - by rewrite app_nil_r.
  - by rewrite app_nil_r.
Qed.

Lemma file_item_pure (It : @HT.Item PTHEntryKeyVariant PTHEntry) :
  file_key_ok (HT.key It) →
  ∀ Out m, ∃ m', HT.EmitChain Out m [It] = Ok (Out ++ file_item_bytes It, m').
Proof.
  intros Hok Out []. exists tt.
  pose proof Hok as (Hn & _).
  pose proof (strlen_bounds (getCString (HT.key It))) as Hs.
  cbn [HT.EmitChain EmitKeyDataLength EmitKey EmitData
       FileEntryPTHEntryInfo_Info].
  unfold FileEntryPTHEntryInfo.EmitKeyDataLength.
  replace (strlen (getCString (HT.key It)) + 1 + 1)
    with (strlen (getCString (HT.key It)) + 2) by lia.
  rewrite (u32_small (strlen _ + 2)) by lia.
  rewrite Emit16_ok by (rewrite u32_small; lia).
  cbn [mbind Res_bind fst snd].
  assert (Hm : u32 (getRepresentationLength (HT.key It)
                 + (if getFile (HT.key It) is Some _ then 4 + 4 else 0))
               = Z.of_nat (length (file_data_bytes (HT.key It) (HT.data It)))).
  { destruct (HT.key It); done. }
  rewrite Hm, KeyVariant_EmitData_ok by done. cbn [mbind Res_bind].
  unfold FileEntryPTHEntryInfo.EmitKey, write, Emit8, file_item_bytes.
  replace (strlen (getCString (HT.key It)) + 2 - 1)
    with (strlen (getCString (HT.key It)) + 1) by lia.
  rewrite (u32_small (strlen _ + 1)) by lia.
  rewrite getCString_key_chars, strlen_c_str.
  rewrite (u8_small (getKind _)) by (destruct (HT.key It); cbn; lia).
  rewrite (u8_small (Z.of_nat _)) by (destruct (HT.key It); cbn; lia).
  rewrite Emit32_le32, <- !app_assoc. done.
Qed.

(** Claim C2, amended.  A file-map item is written as its hash, the key
    length [strlen(path) + 2] on 16 bits, the data length on 8 bits,
    the kind tag, the [strlen(path)] bytes of the path and the NUL that
    ends it, then the data.  Tag, path and NUL are the
    [strlen(path) + 2] bytes the key length announces. *)
Theorem file_key_emission (V : PTHEntryKeyVariant) (E : PTHEntry) (h : Z)
    (Out : raw_ostream) :
  strlen (getCString V) + 2 < 65536 →
  (∀ FE, V = IsFE FE → u32 (FileMode FE) < 65536) →
  let len := strlen (getCString V) in
  let name := take (Z.to_nat len) (getCString V) in
  let data := file_data_bytes V E in
  HT.EmitChain Out tt [HT.mkItem V E h]
  = Ok (Out ++ le32 h ++ le16 (len + 2) ++ [Z.of_nat (length data)]
            ++ [getKind V] ++ name ++ [0] ++ data, tt) ∧
  Z.of_nat (length name) = len ∧
  Forall (λ c, c ≠ 0) name ∧
  Z.of_nat (length ([getKind V] ++ name ++ [0])) = len + 2 ∧
  (Forall (λ c, c ≠ 0) (key_chars V) → name = key_chars V) ∧
  Z.of_nat (length data)
  = getRepresentationLength V + (if getFile V is Some _ then 8 else 0).
Proof.
  intros Hn Hm len name data.
  pose proof (strlen_bounds (getCString V)) as Hs. fold len in Hs.
  assert (Hok : file_key_ok V).
  { split; [done|]. destruct V; try done. by apply Hm. }
  destruct (file_item_pure (HT.mkItem V E h) Hok Out tt) as ([] & HE).
  assert (Hlen : Z.of_nat (length name) = len).
  { unfold name. rewrite length_take. lia. }
  split_and!; try done.
  - apply strlen_prefix.
  - rewrite !length_app. cbn [length]. lia.
  - intros Hnf. unfold name, len. rewrite getCString_key_chars.
    rewrite strlen_nul_free, Nat2Z.id by done.
    unfold c_str. by rewrite take_app_length.
  - unfold data. destruct V; done.
Qed.

(** Against claim C2 as first stated: for the path ["/a"] the kind tag
    is followed by three bytes, the last one the NUL. *)
Lemma file_key_has_terminator :
  FileEntryPTHEntryInfo.EmitKey [] (IsNoExist [47; 97])
    (strlen (c_str [47; 97]) + 2)
  = [0; 47; 97; 0] ∧
  strlen (c_str [47; 97]) = 2.
Proof. split; reflexivity. Qed.


Section Fresh.
Context {key_type data_type Mem : Type} `{!Info key_type data_type Mem}.
Implicit Types (b bs : list (@HT.Bucket key_type data_type)).
Implicit Types (E : @HT.Item key_type data_type).

Lemma u32_succ_u32 x : u32 (u32 x + 1) = u32 (x + 1).
Proof. unfold u32. by rewrite Zplus_mod_idemp_l. Qed.

Lemma insert_bucket_fresh b size E b' :
  HT.insert_bucket b size E = Ok b' → buckets_fresh b → buckets_fresh b'.
Proof.
  unfold HT.insert_bucket. intros Hi Hf.
  destruct (b !! Z.to_nat _) as [B|] eqn:HB; [|done]. injection Hi as <-.
  intros i B' Hi. destruct (decide (i = Z.to_nat (u32 (Z.land (HT.hash E) (u64 (size - 1))))))
    as [->|Hne].
  - rewrite list_lookup_insert_eq in Hi by (by eapply lookup_lt_Some).
    injection Hi as <-. destruct (Hf _ _ HB) as (Ho & Hl). cbn. split; [done|].
    rewrite Hl, u32_succ_u32. f_equal. lia.
  - rewrite list_lookup_insert_ne in Hi by done. by eapply Hf.
Qed.

Lemma rehash_chain_fresh chain : ∀ b size b',
  HT.rehash_chain chain b size = Ok b' → buckets_fresh b → buckets_fresh b'.
Proof.
  induction chain as [|E N IH]; intros b size b' H Hf; cbn in H.
  - by injection H as <-.
  - destruct (HT.insert_bucket b size E) as [b1|] eqn:H1; [|done].
    eapply IH; [exact H|]. by eapply insert_bucket_fresh.
Qed.

Lemma rehash_buckets_fresh old : ∀ b size b',
  HT.rehash_buckets old b size = Ok b' → buckets_fresh b → buckets_fresh b'.
Proof.
  induction old as [|B old IH]; intros b size b' H Hf; cbn in H.
  - by injection H as <-.
  - destruct (HT.rehash_chain (HT.B_head B) b size) as [b1|] eqn:H1; [|done].
    eapply IH; [exact H|]. by eapply rehash_chain_fresh.
Qed.

Lemma calloc_fresh n :
  buckets_fresh (HT.calloc n : list (@HT.Bucket key_type data_type)).
Proof.
  intros i B Hi. apply lookup_replicate in Hi as [-> _]. done.
Qed.

Lemma insert_fresh m k d (T T' : @HT.Table key_type data_type) :
  HT.insert m k d T = Ok T' → buckets_fresh (HT.Buckets T) →
  buckets_fresh (HT.Buckets T').
Proof.
  unfold HT.insert. intros H Hf. cbn [HT.NumEntries HT.NumBuckets] in H.
  destruct (_ >=? _).
  - unfold HT.resize in H. cbn [HT.Buckets] in H.
    destruct (HT.rehash_buckets _ _ _) as [b1|] eqn:H1; [|done].
    cbn [mbind Res_bind HT.Buckets HT.NumBuckets] in H.
    destruct (HT.insert_bucket b1 _ _) as [b2|] eqn:H2; [|done].
    injection H as <-. cbn.
    eapply insert_bucket_fresh; [exact H2|].
    eapply rehash_buckets_fresh; [exact H1|]. apply calloc_fresh.
  - cbn [mbind Res_bind HT.Buckets HT.NumBuckets] in H.
    destruct (HT.insert_bucket _ _ _) as [b2|] eqn:H2; [|done].
    injection H as <-. cbn. by eapply insert_bucket_fresh.
Qed.

Lemma insert_all_fresh m kds : ∀ (T T' : @HT.Table key_type data_type),
  HT.insert_all m kds T = Ok T' → buckets_fresh (HT.Buckets T) →
  buckets_fresh (HT.Buckets T').
Proof.
  induction kds as [|[k d] kds IH]; intros T T' H Hf; cbn in H.
  - by injection H as <-.
  - destruct (HT.insert m k d T) as [T1|] eqn:H1; [|done].
    eapply IH; [exact H|]. by eapply insert_fresh.
Qed.

(** An insertion that does not resize puts the item at the head of its
    chain and leaves the other chains alone. *)
Lemma insert_head m k d (T : @HT.Table key_type data_type) n :
  table_inv n T → 0 ≤ n → 4 * (n + 1) < 3 * HT.NumBuckets T →
  HT.NumBuckets T ≤ 1073741824 →
  ∃ T', HT.insert m k d T = Ok T' ∧ HT.NumBuckets T' = HT.NumBuckets T ∧
    ∀ (i : nat) B', HT.Buckets T' !! i = Some B' →
      ∃ B, HT.Buckets T !! i = Some B ∧
        HT.B_head B' = chain_of (HT.NumBuckets T) i [HT.new_Item m k d]
                       ++ HT.B_head B.
Proof.
  intros Hinv Hn Hlt HNB30.
  pose proof Hinv as (HNE & Hlen & (kk & Hk & HNB) & _).
  assert (H64 : 64 ≤ HT.NumBuckets T).
  { rewrite HNB. change 64 with (2 ^ 6). apply Z.pow_le_mono_r; lia. }
  unfold HT.insert. cbn [HT.NumEntries HT.NumBuckets HT.Buckets]. rewrite HNE.
  rewrite (u32_small (n + 1)) by (change (2 ^ 32) with 4294967296; lia).
  rewrite (u32_small (4 * (n + 1))) by (change (2 ^ 32) with 4294967296; lia).
  rewrite (u32_small (3 * HT.NumBuckets T)) by (change (2 ^ 32) with 4294967296; lia).
  destruct (Z.geb_spec (4 * (n + 1)) (3 * HT.NumBuckets T)) as [|_]; [lia|].
  cbn [mbind Res_bind HT.NumEntries HT.NumBuckets HT.Buckets].
  destruct (insert_bucket_ok (HT.Buckets T) (HT.NumBuckets T)
              (HT.new_Item m k d) kk) as (B & HB & Hins); [lia|done|done|].
  rewrite Hins. cbn [mbind Res_bind]. eexists. split; [done|].
  cbn [HT.NumBuckets HT.Buckets]. split; [done|].
  intros i B' Hi. unfold chain_of. rewrite filter_cons, filter_nil.
  assert (Hnn : 0 ≤ Z.land (HT.hash (HT.new_Item m k d)) (HT.NumBuckets T - 1)).
  { rewrite HNB, land_mask by lia. apply Z.mod_pos_bound, Z.pow_pos_nonneg; lia. }
  destruct (decide (i = Z.to_nat (Z.land (HT.hash (HT.new_Item m k d))
                                         (HT.NumBuckets T - 1)))) as [->|Hne].
  - rewrite list_lookup_insert_eq in Hi by (by eapply lookup_lt_Some).
    injection Hi as <-. exists B. split; [done|].
    rewrite decide_True by lia. done.
  - rewrite list_lookup_insert_ne in Hi by done. exists B'. split; [done|].
    rewrite decide_False by lia. done.
Qed.

Lemma insert_all_heads m kds : ∀ (T : @HT.Table key_type data_type) n,
  table_inv n T → 0 ≤ n →
  4 * (n + Z.of_nat (length kds)) < 3 * HT.NumBuckets T →
  HT.NumBuckets T ≤ 1073741824 →
  ∃ T', HT.insert_all m kds T = Ok T' ∧ HT.NumBuckets T' = HT.NumBuckets T ∧
    ∀ (i : nat) B', HT.Buckets T' !! i = Some B' →
      ∃ B, HT.Buckets T !! i = Some B ∧
        HT.B_head B' =
          rev (chain_of (HT.NumBuckets T) i
                 ((λ kd, HT.new_Item m kd.1 kd.2) <$> kds))
          ++ HT.B_head B.
Proof.
  induction kds as [|[k d] kds IH]; intros T n Hinv Hn Hlt HNB30.
  - exists T. split_and!; try done. intros i B' Hi. exists B'. done.
  - cbn [length] in Hlt.
    destruct (insert_head m k d T n Hinv Hn) as (T1 & H1 & HNB1 & Hh1); [lia..|].
    destruct (insert_ok m k d T n Hinv) as (T1' & H1' & Hinv1 & _); [lia|].
    rewrite H1 in H1'. injection H1' as <-.
    destruct (IH T1 (n + 1) Hinv1) as (T' & HT' & HNB' & Hh');
      [lia|rewrite HNB1; lia|rewrite HNB1; lia|].
    exists T'. cbn [HT.insert_all]. rewrite H1. cbn [mbind Res_bind].
    split_and!; [done|congruence|].
    intros i B' Hi. destruct (Hh' i B' Hi) as (B1 & HB1 & ->).
    destruct (Hh1 i B1 HB1) as (B & HB & ->).
    exists B. split; [done|]. rewrite HNB1.
    rewrite fmap_cons. unfold chain_of at 3. rewrite filter_cons.
    unfold chain_of. rewrite filter_cons, filter_nil. cbn [fst snd].
    destruct (decide _); cbn [rev]; rewrite <- ?app_assoc; done.
Qed.

Lemma insert_all_items m kds : ∀ (T : @HT.Table key_type data_type) n,
  table_inv n T → 0 ≤ n → n + Z.of_nat (length kds) ≤ 805306368 →
  ∀ T', HT.insert_all m kds T = Ok T' →
  all_items (HT.Buckets T')
  ≡ₚ rev ((λ kd, HT.new_Item m kd.1 kd.2) <$> kds)
     ++ all_items (HT.Buckets T).
Proof.
  induction kds as [|[k d] kds IH]; intros T n Hinv Hn Hb T' HT'.
  - injection HT' as <-. done.
  - cbn [length] in Hb. cbn [HT.insert_all] in HT'.
    destruct (insert_ok m k d T n Hinv) as (T1 & H1 & Hinv1 & _ & Hp & _); [lia|].
    rewrite H1 in HT'. cbn [mbind Res_bind] in HT'.
    rewrite (IH T1 (n + 1) Hinv1 ltac:(lia) ltac:(lia) T' HT'), Hp.
    rewrite fmap_cons. cbn [rev fst snd]. rewrite <- app_assoc. done.
Qed.

End Fresh.

Section Protocol.
Context {key_type data_type Mem : Type} `{!Info key_type data_type Mem}.

(** Claim C7, amended.  For the table built from the keys [kds], whose
    items are written as the bytes [ib], [Emit] writes the payload of
    the non-empty buckets in the order of their indices, each as the
    length of its chain on 16 bits followed by its items from the head
    of the chain on; then zero bytes up to a multiple of 4; then, at the
    offset it returns, [NumBuckets], [NumEntries] and one 32-bit offset
    per bucket, 0 for an empty bucket and the offset of its payload
    otherwise.  As long as the table has not been resized (fewer than
    48 keys) a chain holds its items latest first. *)
Theorem Emit_protocol (m : Mem) (kds : list (key_type * data_type))
    (ib : @HT.Item key_type data_type → list Z) (Out : raw_ostream) :
  Z.of_nat (length kds) ≤ 805306368 →
  (∀ kd, kd ∈ kds → ∀ Out m', ∃ m'',
     HT.EmitChain Out m' [HT.new_Item m kd.1 kd.2]
     = Ok (Out ++ ib (HT.new_Item m kd.1 kd.2), m'')) →
  ∃ T,
    HT.insert_all m kds HT.empty_table = Ok T ∧
    HT.NumEntries T = Z.of_nat (length kds) ∧
    length (HT.Buckets T) = Z.to_nat (HT.NumBuckets T) ∧
    buckets_fresh (HT.Buckets T) ∧
    (Z.of_nat (length kds) < 48 →
       HT.NumBuckets T = 64 ∧
       ∀ (i : nat) B, HT.Buckets T !! i = Some B →
         HT.B_head B
         = rev (chain_of 64 i ((λ kd, HT.new_Item m kd.1 kd.2) <$> kds))) ∧
    ((∀ (i : nat) B, HT.Buckets T !! i = Some B →
        Z.of_nat (length (HT.B_head B)) < 65536) →
     ∃ bs' m' (k : nat),
       let payload := payload_bytes ib (HT.Buckets T) in
       HT.Emit Out m T
       = Ok (u32 (tell (Out ++ payload ++ replicate k 0)),
             (HT.mkTable (HT.NumBuckets T) (HT.NumEntries T) bs',
              (Out ++ payload ++ replicate k 0
                   ++ le32 (HT.NumBuckets T) ++ le32 (HT.NumEntries T)
                   ++ concat ((λ B, le32 (HT.B_off B)) <$> bs'), m'))) ∧
       (k < 4)%nat ∧
       tell (Out ++ payload ++ replicate k 0) mod 4 = 0 ∧
       length bs' = Z.to_nat (HT.NumBuckets T) ∧
       ∀ (i : nat) B, HT.Buckets T !! i = Some B →
         ∃ B', bs' !! i = Some B' ∧
           HT.B_head B' = HT.B_head B ∧
           HT.B_off B' =
             match HT.B_head B with
             | [] => 0
             | _ :: _ =>
                 u32 (tell Out + Z.of_nat (length
                        (payload_bytes ib (take i (HT.Buckets T)))))
             end).
Proof.
  intros Hn Hpure.
  destruct (insert_all_ok m kds HT.empty_table 0 table_inv_empty)
    as (T & HT & Hinv); [lia..|].
  rewrite Z.add_0_l in Hinv.
  assert (Hp : ∀ E, E ∈ all_items (HT.Buckets T) →
     ∀ Out m', ∃ m'', HT.EmitChain Out m' [E] = Ok (Out ++ ib E, m'')).
  { intros E HE.
    rewrite (insert_all_items m kds HT.empty_table 0 table_inv_empty
               ltac:(lia) ltac:(lia) T HT) in HE.
    cbn [HT.empty_table HT.Buckets] in HE.
    rewrite all_items_calloc, app_nil_r in HE.
    apply list_elem_of_In, in_rev, list_elem_of_In in HE.
    apply list_elem_of_fmap in HE as (kd & -> & Hkd). by apply Hpure. }
  assert (Hf : buckets_fresh (HT.Buckets T)).
  { eapply insert_all_fresh; [exact HT|]. apply calloc_fresh. }
  exists T. split_and!; try done; try apply Hinv.
  - intros H48.
    destruct (insert_all_heads m kds HT.empty_table 0 table_inv_empty)
      as (T' & HT' & HNB & Hh); [lia|cbn; lia|cbn; lia|].
    rewrite HT in HT'. injection HT' as <-. split; [done|].
    intros i B Hi. destruct (Hh i B Hi) as (B0 & HB0 & ->).
    apply lookup_replicate in HB0 as [-> _].
    cbn [HT.B_head HT.NumBuckets HT.empty_table]. apply app_nil_r.
  - intros Hl.
    destruct (Emit_pure ib Out m T Hp) as (bs' & m' & k & HE & Hk & Hal & Hlen & Hlk).
    { intros i B Hi. destruct (Hf i B Hi) as (_ & ->).
      specialize (Hl i B Hi). rewrite !u32_small; try lia.
      rewrite u32_small; lia. }
    exists bs', m', k. cbn zeta in *. split_and!; try done.
    + rewrite Hlen. apply Hinv.
    + intros i B Hi. rewrite (Hlk i B Hi). eexists. split; [done|].
      destruct (Hf i B Hi) as (Ho & _).
      unfold emitted_bucket. destruct (HT.B_head B) eqn:Hh; cbn; by rewrite ?Hh.
Qed.

End Protocol.

(** Against claim C7 as first stated: with 48 files the table has been
    resized, and bucket 2 holds file 0 before file 46, in the chain and
    in the bytes written: the item inserted earlier comes first. *)
Lemma resize_reverses_chain :
  ∃ T B r,
    HT.insert_all tt (sample_entries 48) HT.empty_table = Ok T ∧
    HT.Buckets T !! 2%nat = Some B ∧
    HT.key <$> HT.B_head B = [IsFE (sample_file 0); IsFE (sample_file 46)] ∧
    HT.Emit [] tt T = Ok r ∧
    take 98 r.2.2.1
    = le16 2 ++ concat (file_item_bytes <$> HT.B_head B).
Proof.
  eexists _, _, _. split_and!.
  - vm_compute. reflexivity.
  - vm_compute. reflexivity.
  - vm_compute. reflexivity.
  - vm_compute. reflexivity.
  - vm_compute. reflexivity.
Qed.


Section Driver.
Variable PP : Preprocessor.

Lemma CacheFiles_skip C files W :
  cached_file PP C = false →
  CacheFiles PP (C :: files) W = CacheFiles PP files W.
Proof.
  unfold cached_file. intros H. cbn [CacheFiles].
  destruct (isAbsolute PP _); [|done]. cbn [negb].
  destruct (getBuffer C); done.
Qed.

Lemma CacheFiles_cached C L files W :
  isAbsolute PP (c_str (FE_Name (Entry C))) = true → getBuffer C = Some L →
  CacheFiles PP (C :: files) W =
    '(E, W1) ← LexTokens PP L W;
    pm ← HT.insert tt (IsFE (Entry C)) E (PM W1);
    CacheFiles PP files (set_PM W1 pm).
Proof. intros Ha Hb. cbn [CacheFiles]. by rewrite Ha, Hb. Qed.



End Driver.


(** * The table of conditionals *)

Lemma scan_peer_snoc l K : ∀ d j,
  scan_peer (l ++ [K]) d j =
    match scan_peer l d j with
    | PeerAt t => PeerAt t
    | PeerPending k => scan_peer [K] k (j + Z.of_nat (length l))
    end.
Proof.
  induction l as [|K0 l IH]; intros d j.
  - cbn [app length scan_peer]. by rewrite Z.add_0_r.
  - cbn [app length]. rewrite Nat2Z.inj_succ.
    replace (j + Z.succ (Z.of_nat (length l)))
      with (j + 1 + Z.of_nat (length l)) by lia.
    destruct K0, d; cbn [scan_peer]; try done; apply IH.
Qed.

Lemma drop_snoc_lt {A} (l : list A) x (n : nat) :
  (n ≤ length l)%nat → drop n (l ++ [x]) = drop n l ++ [x].
Proof. intros. by rewrite drop_app_le. Qed.

Lemma scan_peer_drop_snoc p K (j : nat) :
  (j < length p)%nat →
  scan_peer (drop (S j) (p ++ [K])) 0 (Z.of_nat j + 1) =
    match scan_peer (drop (S j) p) 0 (Z.of_nat j + 1) with
    | PeerAt t => PeerAt t
    | PeerPending k => scan_peer [K] k (Z.of_nat (length p))
    end.
Proof.
  intros Hj. rewrite drop_snoc_lt by lia. rewrite scan_peer_snoc.
  destruct (scan_peer (drop (S j) p) 0 (Z.of_nat j + 1)); [done|].
  f_equal. rewrite length_drop. lia.
Qed.

Lemma scan_peer_drop_last p K :
  scan_peer (drop (S (length p)) (p ++ [K])) 0 (Z.of_nat (length p) + 1)
  = PeerPending 0.
Proof. rewrite drop_ge; [done|]. rewrite length_app. cbn. lia. Qed.

Lemma Backpatch_ok St (j : nat) stack h index :
  PPStartCond St = Z.of_nat j :: stack →
  PPCond St !! j = Some (h, 0) →
  Backpatch St index =
    Ok (mkLexState (<[j := (h, index)]> (PPCond St)) stack
                   (ParsingPreprocessorDirective St)).
Proof.
  intros Hs Hj. unfold Backpatch. rewrite Hs.
  apply lookup_lt_Some in Hj as Hlt.
  destruct (Z.ltb_spec (Z.of_nat j) (Z.of_nat (length (PPCond St)))); [|lia].
  cbn [assert mbind Res_bind]. rewrite Nat2Z.id, Hj. done.
Qed.

(** The entry on top of the stack is in the table, with a zero target. *)
Lemma ppcond_inv_top p St i stack :
  ppcond_inv p St → PPStartCond St = i :: stack →
  ∃ (j : nat) h, i = Z.of_nat j ∧ (j < length p)%nat ∧
    PPCond St !! j = Some (h, 0) ∧
    scan_peer (drop (S j) p) 0 (Z.of_nat j + 1) = PeerPending 0 ∧
    p !! j ≠ Some pp_endif.
Proof.
  intros (_ & _ & _ & Hstk & _ & Htbl) Hs.
  destruct (Hstk 0%nat i) as (j & -> & Hj & Hne & Hsc); [by rewrite Hs|].
  destruct (lookup_lt_is_Some_2 p j Hj) as [K HK].
  destruct (Htbl j K HK) as (h & t & Ht & Hcase).
  destruct (decide (K = pp_endif)) as [->|_]; [done|].
  rewrite Hsc in Hcase. destruct Hcase as (-> & _).
  exists j, h. split_and!; done.
Qed.

Lemma scan_peer_single_open K k j :
  K = pp_if ∨ K = pp_ifdef ∨ K = pp_ifndef →
  scan_peer [K] k j = PeerPending (S k).
Proof. by intros [->|[->| ->]]. Qed.

Lemma scan_peer_single_endif k j :
  scan_peer [pp_endif] k j
  = match k with O => PeerAt j | S k' => PeerPending k' end.
Proof. by destruct k. Qed.

Lemma scan_peer_single_else K k j :
  K = pp_elif ∨ K = pp_else →
  scan_peer [K] k j
  = match k with O => PeerAt j | S _ => PeerPending k end.
Proof. by intros [->| ->]; destruct k. Qed.

Lemma lookup_snoc_Some {A} (l : list A) x (j : nat) y :
  (l ++ [x]) !! j = Some y →
  ((j < length l)%nat ∧ l !! j = Some y) ∨ (j = length l ∧ y = x).
Proof.
  intros H. destruct (decide (j < length l)%nat) as [Hlt|Hge].
  - left. by rewrite lookup_app_l in H.
  - right. rewrite lookup_app_r in H by lia.
    destruct (j - length l)%nat as [|n] eqn:Hn; [|done].
    injection H as <-. split; [lia|done].
Qed.

Lemma PPCondStep_open p St K h :
  K = pp_if ∨ K = pp_ifdef ∨ K = pp_ifndef →
  ppcond_inv p St → Z.of_nat (length p) + 1 < 2 ^ 32 →
  ∃ St', PPCondStep K h St = Ok St' ∧ ppcond_inv (p ++ [K]) St' ∧
    ParsingPreprocessorDirective St' = ParsingPreprocessorDirective St ∧
    length (PPStartCond St') = S (length (PPStartCond St)).
Proof.
  intros HK (Hb & Hlen & Hall & Hstk & Hfirst & Htbl) Hb'.
  assert (Hne : K ≠ pp_endif) by (destruct HK as [->|[->| ->]]; done).
  eexists. split.
  { destruct HK as [->|[->| ->]]; reflexivity. }
  rewrite Hlen, u32_small by lia.
  split_and!; [unfold ppcond_inv; split_and!|done|done];
    cbn [PPCond PPStartCond ParsingPreprocessorDirective]; try done.
  - rewrite length_app. cbn. lia.
  - rewrite !length_app. cbn. lia.
  - apply Forall_app. split; [done|]. constructor; [|done].
    destruct HK as [->|[->| ->]]; done.
  - intros [|k] i Hi.
    + injection Hi as <-. exists (length p). split_and!; try done.
      * rewrite length_app. cbn. lia.
      * rewrite lookup_app_r, Nat.sub_diag by lia. cbn. congruence.
      * apply scan_peer_drop_last.
    + destruct (Hstk k i Hi) as (j & -> & Hj & Hnj & Hsc).
      exists j. split_and!; try done.
      * rewrite length_app. lia.
      * by rewrite lookup_app_l.
      * rewrite scan_peer_drop_snoc, Hsc by done.
        by apply scan_peer_single_open.
  - destruct p; cbn; [congruence|done].
  - intros j K' Hj. apply lookup_snoc_Some in Hj as [[Hlt Hj]|[-> ->]].
    + destruct (Htbl j K' Hj) as (h' & t & Ht & Hcase).
      exists h', t. rewrite lookup_app_l by lia. split; [done|].
      destruct (decide (K' = pp_endif)); [done|].
      rewrite scan_peer_drop_snoc by done.
      destruct (scan_peer (drop (S j) p) 0 (Z.of_nat j + 1)) as [t'|k].
      * rewrite length_app. cbn. lia.
      * rewrite scan_peer_single_open by done. done.
    + exists h, 0. rewrite lookup_app_r, Hlen, Nat.sub_diag by lia.
      split; [done|]. rewrite decide_False by done.
      rewrite scan_peer_drop_last. done.
Qed.

Lemma stack_injective p St (k1 k2 : nat) i :
  ppcond_inv p St →
  PPStartCond St !! k1 = Some i → PPStartCond St !! k2 = Some i → k1 = k2.
Proof.
  intros (_ & _ & _ & Hstk & _ & _) H1 H2.
  destruct (Hstk k1 i H1) as (j1 & -> & _ & _ & Hs1).
  destruct (Hstk k2 _ H2) as (j2 & Hj & _ & _ & Hs2).
  apply Nat2Z.inj in Hj. subst j2. congruence.
Qed.

Lemma PPCondStep_close p St K h :
  K = pp_endif ∨ K = pp_elif ∨ K = pp_else →
  ppcond_inv p St → Z.of_nat (length p) + 1 < 2 ^ 32 →
  PPStartCond St ≠ [] →
  ∃ St', PPCondStep K h St = Ok St' ∧ ppcond_inv (p ++ [K]) St' ∧
    ParsingPreprocessorDirective St' = ParsingPreprocessorDirective St ∧
    length (PPStartCond St') =
      (if decide (K = pp_endif) then pred (length (PPStartCond St))
       else length (PPStartCond St)).
Proof.
  intros HK Hinv Hb' Hne.
  destruct (PPStartCond St) as [|i stack] eqn:Hs; [done|]. clear Hne.
  destruct (ppcond_inv_top p St i stack Hinv Hs)
    as (jt & ht & -> & Hjt & Htop & Hsct & Hnet).
  pose proof Hinv as (Hb & Hlen & Hall & Hstk & Hfirst & Htbl).
  set (n := length p).
  assert (Hstep : PPCondStep K h St =
    Ok (mkLexState (<[jt := (ht, Z.of_nat n)]> (PPCond St)
                    ++ [(h, if decide (K = pp_endif) then Z.of_nat n else 0)])
                   (if decide (K = pp_endif) then stack
                    else Z.of_nat n :: stack)
                   (ParsingPreprocessorDirective St))).
  { destruct HK as [->|[->| ->]]; cbn [PPCondStep];
      rewrite Hlen, (u32_small (Z.of_nat (length p))) by lia;
      rewrite (Backpatch_ok St jt stack ht) by done; done. }
  eexists. split; [exact Hstep|]. rewrite Hs in Hstk, Htbl.
  assert (Hstack_tail : ∀ (k : nat) i', stack !! k = Some i' →
    ∃ j : nat, i' = Z.of_nat j ∧ (j < n)%nat ∧ j ≠ jt ∧ p !! j ≠ Some pp_endif ∧
      scan_peer (drop (S j) p) 0 (Z.of_nat j + 1) = PeerPending (S k)).
  { intros k i' Hi'. destruct (Hstk (S k) i' Hi') as (j & -> & Hj & Hnj & Hsc).
    exists j. split_and!; try done. intros ->. congruence. }
  split_and!; [unfold ppcond_inv; split_and!|done|];
    cbn [PPCond PPStartCond ParsingPreprocessorDirective]; try done.
  - rewrite length_app. cbn. lia.
  - rewrite !length_app, length_insert. cbn. lia.
  - apply Forall_app. split; [done|]. constructor; [|done].
    destruct HK as [->|[->| ->]]; done.
  - intros k i' Hi'.
    destruct (decide (K = pp_endif)) as [->|HnK].
    + destruct (Hstack_tail k i' Hi') as (j & -> & Hj & _ & Hnj & Hsc).
      exists j. split_and!; try done.
      * rewrite length_app. lia.
      * by rewrite lookup_app_l.
      * by rewrite scan_peer_drop_snoc, Hsc, scan_peer_single_endif.
    + destruct k as [|k].
      * injection Hi' as <-. exists n. split_and!; try done.
        -- rewrite length_app. cbn. lia.
        -- rewrite lookup_app_r, Nat.sub_diag by lia. cbn. congruence.
        -- apply scan_peer_drop_last.
      * destruct (Hstack_tail k i' Hi') as (j & -> & Hj & _ & Hnj & Hsc).
        exists j. split_and!; try done.
        -- rewrite length_app. lia.
        -- by rewrite lookup_app_l.
        -- rewrite scan_peer_drop_snoc, Hsc by done.
           rewrite scan_peer_single_else by (destruct HK as [|[|]]; tauto).
           done.
  - destruct p; [cbn in Hjt; lia|done].
  - intros j K' Hj. apply lookup_snoc_Some in Hj as [[Hlt Hj]|[-> ->]].
    + destruct (Htbl j K' Hj) as (h' & t & Ht & Hcase).
      rewrite lookup_app_l by (rewrite length_insert; lia).
      destruct (decide (j = jt)) as [->|Hnjt].
      * rewrite list_lookup_insert_eq by lia.
        exists ht, (Z.of_nat n). split; [done|].
        rewrite Htop in Ht. injection Ht as <- <-.
        destruct (decide (K' = pp_endif)) as [->|]; [done|].
        rewrite scan_peer_drop_snoc, Hsct by done.
        assert (scan_peer [K] 0 (Z.of_nat (length p)) = PeerAt (Z.of_nat n)) as ->.
        { destruct HK as [->|[->| ->]]; done. }
        rewrite length_app. cbn. lia.
      * rewrite list_lookup_insert_ne by done.
        exists h', t. split; [done|].
        destruct (decide (K' = pp_endif)); [done|].
        rewrite scan_peer_drop_snoc by done.
        destruct (scan_peer (drop (S j) p) 0 (Z.of_nat j + 1)) as [t'|k] eqn:Hsc.
        -- rewrite length_app. cbn. lia.
        -- destruct Hcase as (-> & Hk).
           destruct k as [|k].
           { cbn in Hk. injection Hk as Hk. apply Nat2Z.inj in Hk. done. }
           change ((Z.of_nat jt :: stack) !! S k) with (stack !! k) in Hk.
           destruct HK as [->|HK].
           ++ rewrite scan_peer_single_endif. rewrite decide_True by done. done.
           ++ rewrite scan_peer_single_else by done.
              rewrite decide_False by (destruct HK as [->| ->]; done). done.
    + rewrite lookup_app_r by (rewrite length_insert; lia).
      rewrite length_insert, Hlen, Nat.sub_diag.
      eexists _, _. split; [done|].
      destruct (decide (K = pp_endif)); [done|].
      rewrite scan_peer_drop_last. done.
  - destruct (decide (K = pp_endif)); done.
Qed.

Lemma ppcond_inv_ext p St St' :
  PPCond St' = PPCond St → PPStartCond St' = PPStartCond St →
  ppcond_inv p St → ppcond_inv p St'.
Proof. unfold ppcond_inv. by intros -> ->. Qed.

Lemma ppcond_inv_nil : ppcond_inv [] (mkLexState [] [] false).
Proof.
  split_and!; try done.
Qed.

(** With the stack empty, every entry has its final target. *)
Lemma ppcond_inv_final ds St (j : nat) K :
  ppcond_inv ds St → PPStartCond St = [] → ds !! j = Some K →
  ∃ h t, PPCond St !! j = Some (h, t) ∧ t ≠ 0 ∧
    (K = pp_endif → t = Z.of_nat j) ∧
    (K ≠ pp_endif →
       next_peer ds j = Some t ∧ Z.of_nat j < t < Z.of_nat (length ds)).
Proof.
  intros (_ & _ & _ & _ & Hfirst & Htbl) Hs Hj.
  destruct (Htbl j K Hj) as (h & t & Ht & Hcase).
  exists h, t. split; [done|]. rewrite Hs in Hcase. unfold next_peer.
  destruct (decide (K = pp_endif)) as [->|Hne].
  - split_and!; try done. subst t. destruct j; [done|lia].
  - destruct (scan_peer (drop (S j) ds) 0 (Z.of_nat j + 1)) as [t'|k].
    + destruct Hcase as (-> & Hr). split_and!; try done. lia.
    + by destruct Hcase as (_ & ?).
Qed.

Section Lex.
Variable PP : Preprocessor.

Lemma InsertEOM_cases Tok St W :
  ∃ St1 W1,
    InsertEOM PP Tok St W = Ok (St1, W1) ∧
    PPCond St1 = PPCond St ∧ PPStartCond St1 = PPStartCond St ∧
    (isAtStartOfLine PP Tok = true →
       ParsingPreprocessorDirective St1 = false).
Proof.
  unfold InsertEOM.
  destruct ((isAtStartOfLine PP Tok || Tok_is Tok tok_eof)
            && ParsingPreprocessorDirective St) eqn:Hc.
  - destruct (EmitToken_total PP
                (setIdentifierInfo
                   (clearFlag (setKind Tok tok_eom) (StartOfLine PP)) 0%N) W)
      as (W1 & -> & _).
    eexists _, _. split; [done|]. done.
  - eexists _, _. split; [done|]. split_and!; try done.
    intros Hsol. rewrite Hsol in Hc. by destruct (ParsingPreprocessorDirective St).
Qed.

Ltac emit_goal :=
  match goal with
  | |- context [EmitToken PP ?T ?W] =>
      let W' := fresh "W" in
      destruct (EmitToken_total PP T W) as (W' & -> & _);
      cbn [mbind Res_bind]
  end.

Lemma LexBody_scan Tok L St W next d p :
  ScanBody PP Tok L = Ok (next, d) →
  ppcond_inv p St →
  Z.of_nat (length p) + 1 < 2 ^ 32 →
  (∀ K, d = Some K → K = pp_endif ∨ K = pp_elif ∨ K = pp_else →
        PPStartCond St ≠ []) →
  ∃ St' W',
    LexBody PP Tok L St W = Ok (next, (St', W')) ∧
    ppcond_inv (p ++ option_list d) St' ∧
    length (PPStartCond St') = depth_after d (length (PPStartCond St)).
Proof.
  intros HS Hinv Hb Hal.
  destruct (InsertEOM_cases Tok St W) as (St1 & W1 & HI & HP1 & HS1 & HPD).
  assert (Hinv1 : ppcond_inv p St1) by (eapply ppcond_inv_ext; eauto).
  unfold LexBody. rewrite HI. cbn [mbind Res_bind]. unfold ScanBody in HS.
  rewrite <- HS1 in *. clear HI HP1 HS1 Hinv St W.
  destruct (Tok_is Tok tok_identifier).
  { injection HS as <- <-. emit_goal. eexists _, _. split; [done|].
    rewrite app_nil_r. done. }
  destruct (Tok_is Tok tok_hash && isAtStartOfLine PP Tok) eqn:Hh.
  2:{ injection HS as <- <-. emit_goal. eexists _, _. split; [done|].
      rewrite app_nil_r. done. }
  apply andb_prop in Hh as [_ Hsol]. rewrite (HPD Hsol).
  cbn [negb assert mbind Res_bind]. emit_goal.
  destruct (LexFromRawLexer L) as [Tok2 L2].
  destruct (isAtStartOfLine PP Tok2); cbn [negb assert mbind Res_bind] in *;
    [done|].
  destruct (Tok_is Tok2 tok_identifier); cbn [negb] in *.
  2:{ injection HS as <- <-. emit_goal. eexists _, _. split; [done|].
      rewrite app_nil_r. done. }
  set (St2 := mkLexState (PPCond St1) (PPStartCond St1) true).
  assert (Hinv2 : ppcond_inv p St2) by (by eapply ppcond_inv_ext).
  set (h := u32 (tell (Out W1))).
  destruct (getPPKeywordID PP (LookUpIdentifierInfo PP Tok2)) eqn:HK;
    rewrite ?bool_decide_eq_false_2, ?bool_decide_eq_true_2 in HS |- * by done;
    cbn [negb assert mbind Res_bind] in HS |- *;
    try discriminate HS.
  all: try (injection HS as <- <-;
            repeat emit_goal;
            eexists _, _; split; [reflexivity|];
            rewrite app_nil_r; done).
  all: try (destruct (LexIncludeFilename L2) as [Tok3 L3];
            emit_goal;
            destruct (isAtStartOfLine PP Tok3);
            cbn [negb assert mbind Res_bind] in HS |- *; [discriminate HS|];
            injection HS as <- <-; emit_goal;
            eexists _, _; split; [reflexivity|];
            rewrite app_nil_r; done).
  all: try (injection HS as <- <-;
            match type of HK with
            | _ = ?K =>
                destruct (PPCondStep_open p St2 K h
                        ltac:(first [by left | by right; left | by right; right])
                        Hinv2 Hb)
                  as (St' & HSt & Hinv' & _ & Hlen')
            end;
            cbn [PPCondStep] in HSt; injection HSt as <-;
            emit_goal; eexists _, _; split; [reflexivity|];
            split; [exact Hinv'|exact Hlen']).
  all: try (injection HS as <- <-;
            match type of HK with
            | _ = ?K =>
                destruct (PPCondStep_close p St2 K h
                        ltac:(first [by left | by right; left | by right; right])
                        Hinv2 Hb)
                  as (St' & HSt & Hinv' & _ & Hlen')
            end;
            [eapply Hal; [reflexivity|tauto]|];
            cbn [PPCondStep] in HSt;
            destruct (Backpatch St2 _) as [Stb|]; [|discriminate HSt];
            cbn [mbind Res_bind] in HSt |- *; injection HSt as <-;
            emit_goal; eexists _, _; split; [reflexivity|];
            split; [exact Hinv'|exact Hlen']).
  (* #endif: the rest of the line is skipped *)
  destruct (skip_to_line_start _ _) as [[Tok3 rest]|];
    injection HS as <- <-;
    destruct (PPCondStep_close p St2 pp_endif h ltac:(by left) Hinv2 Hb)
      as (St' & HSt & Hinv' & _ & Hlen');
    try (eapply Hal; [reflexivity|tauto]);
    cbn [PPCondStep] in HSt;
    (destruct (Backpatch St2 _) as [Stb|]; [|discriminate HSt]);
    cbn [mbind Res_bind] in HSt |- *; injection HSt as <-;
    emit_goal; eexists _, _; (split; [reflexivity|]);
    (split; [exact Hinv'|exact Hlen']).
Qed.

Lemma balanced_step d depth rest :
  balanced_from depth (option_list d ++ rest) = true →
  (∀ K, d = Some K → K = pp_endif ∨ K = pp_elif ∨ K = pp_else →
        depth ≠ 0%nat) ∧
  balanced_from (depth_after d depth) rest = true.
Proof.
  destruct d as [K|]; cbn [option_list app]; [|done].
  intros Hbal. split.
  - intros K' [= <-] [->|[->| ->]]; by destruct depth.
  - destruct K, depth; done.
Qed.

Lemma LexLoop_scan fuel : ∀ Tok L St W p ds,
  ScanLoop PP fuel Tok L = Ok ds →
  ppcond_inv p St →
  Z.of_nat (length p) + Z.of_nat (length ds) + 1 < 2 ^ 32 →
  balanced_from (length (PPStartCond St)) ds = true →
  ∃ St' W',
    LexLoop PP fuel Tok L St W = Ok (St', W') ∧
    ppcond_inv (p ++ ds) St' ∧ PPStartCond St' = [].
Proof.
  induction fuel as [|fuel IH]; intros Tok L St W p ds HS Hinv Hb Hbal;
    [done|].
  cbn [ScanLoop] in HS.
  destruct (ScanBody PP Tok L) as [[next d]|] eqn:HB; [|done].
  cbn [mbind Res_bind] in HS.
  match type of HS with
  | mbind _ ?r = _ => destruct r as [rest|] eqn:Hrest; [|done]
  end.
  cbn [mbind Res_bind] in HS. injection HS as <-.
  rewrite length_app in Hb.
  destruct (balanced_step _ _ _ Hbal) as (Hal & Hbal').
  destruct (LexBody_scan Tok L St W next d p HB Hinv) as (St1 & W1 & HL & Hinv1 & Hlen1).
  { lia. }
  { intros K HK Hc Hnil. eapply Hal; eauto. by rewrite Hnil. }
  rewrite <- Hlen1 in Hbal'.
  cbn [LexLoop]. rewrite HL. cbn [mbind Res_bind].
  rewrite app_assoc.
  assert (Hb1 : Z.of_nat (length (p ++ option_list d))
                + Z.of_nat (length rest) + 1 < 2 ^ 32).
  { rewrite length_app. lia. }
  destruct next as [Tok' L'|Tok' L'].
  - by apply IH.
  - destruct (Tok_isNot Tok' tok_eof).
    + destruct (LexFromRawLexer L') as [Tok2 L2]. by apply IH.
    + injection Hrest as <-. rewrite app_nil_r. eexists _, _.
      split_and!; try done.
      cbn in Hbal'. apply bool_decide_eq_true in Hbal'.
      by apply length_zero_iff_nil.
Qed.

Lemma le32_u32 V : le32 (u32 V) = le32 V.
Proof.
  unfold le32, Emit32, u32. by rewrite Zmod_mod.
Qed.

Lemma EmitPPCond_ok tbl : ∀ W off (i0 : nat),
  (∀ (j : nat) e, tbl !! j = Some e → e.2 ≠ 0) →
  Z.of_nat (i0 + length tbl) < 2 ^ 32 →
  ∃ W',
    EmitPPCond W off (Z.of_nat i0) tbl = Ok W' ∧
    Out W' = Out W
             ++ concat (imap (λ j, PPCond_entry_bytes off (i0 + j)) tbl).
Proof.
  induction tbl as [|[first second] tbl IH]; intros W off i0 Hnz Hb.
  - exists W. cbn. by rewrite app_nil_r.
  - cbn [EmitPPCond].
    assert (second ≠ 0) by (apply (Hnz 0%nat (first, second)); done).
    destruct (Z.eqb_spec second 0); [done|].
    cbn [negb assert mbind Res_bind]. cbn [length] in Hb.
    rewrite (u32_small (Z.of_nat i0 + 1)) by lia.
    replace (Z.of_nat i0 + 1) with (Z.of_nat (S i0)) by lia.
    edestruct (IH (W_Emit32 (W_Emit32 W (u32 (first - off)))
                     (if second =? Z.of_nat i0 then 0 else second)) off (S i0))
      as (W' & HW' & HO).
    { intros j e Hj. by apply (Hnz (S j)). }
    { lia. }
    exists W'. split; [done|]. rewrite HO, !W_Emit32_Out, le32_u32.
    rewrite imap_cons. cbn [concat]. unfold PPCond_entry_bytes at 2.
    cbn [fst snd]. rewrite Nat.add_0_r, <- !app_assoc.
    do 4 f_equal. apply imap_ext. intros j e _. unfold compose.
    replace (S i0 + j)%nat with (i0 + S j)%nat by lia. done.
Qed.

(** Take a file whose conditional directives [ds], as [LexTokens] meets
    them, are balanced.  Then [LexTokens] returns, the start-stack is
    empty at the end and the table has one entry per directive: the
    entry of an [#endif] has its own index as target, the entry of an
    [#if], [#ifdef], [#ifndef], [#elif] or [#else] has the index of its
    next peer, a later entry.  The table is written after the tokens as
    its length, then for each entry an offset relative to the start of
    the token stream and the target, an [#endif] being written with
    target 0.  The file [#if A], [#if B], [#endif], [#endif] gives 4
    entries with the targets 3, 2, 0, 0 on disk. *)
Lemma LexTokens_table_run (L : Lexer) (W : PTHWriter) (ds : list PPKeywordKind) :
  PPDirectives PP L = Ok ds → balanced ds = true →
  Z.of_nat (length ds) + 1 < 2 ^ 32 →
  let W0 := set_Out W (Pad (Out W) 4) in
  (∃ St W1 E W',
    LexLoop PP (LexTokens_fuel L) (LexFromRawLexer L).1 (LexFromRawLexer L).2
            (mkLexState [] [] false) W0 = Ok (St, W1) ∧
    PPStartCond St = [] ∧
    length (PPCond St) = length ds ∧
    (∀ (i : nat) K, ds !! i = Some K →
       ∃ h t, PPCond St !! i = Some (h, t) ∧
         (K = pp_endif → t = Z.of_nat i) ∧
         (K ≠ pp_endif →
            next_peer ds i = Some t ∧
            Z.of_nat i < t < Z.of_nat (length ds)) ∧
         PPCond_entry_bytes (TokenData E) i (h, t)
         = le32 (h - TokenData E)
           ++ le32 (if decide (K = pp_endif) then 0 else t)) ∧
    LexTokens PP L W = Ok (E, W') ∧
    TokenData E = u32 (tell (Out W0)) ∧
    PPCondData E = u32 (tell (Out W1)) ∧
    Out W' = Out W1 ++ PPCond_bytes (TokenData E) (PPCond St)) ∧
  (∃ E W',
    PPDirectives (sample_PP nested_src) nested_example
      = Ok [pp_if; pp_if; pp_endif; pp_endif] ∧
    LexTokens (sample_PP nested_src) nested_example (new_PTHWriter [])
      = Ok (E, W') ∧
    drop (Z.to_nat (PPCondData E)) (Out W')
      = le32 4 ++ le32 0 ++ le32 3 ++ le32 48 ++ le32 2
              ++ le32 96 ++ le32 0 ++ le32 132 ++ le32 0).
Proof.
  intros HD Hbal Hb W0. split; [|by vm_compute; eexists _, _].
  unfold PPDirectives in HD.
  unfold LexTokens. fold W0.
  destruct (LexFromRawLexer L) as [Tok L'] eqn:HLex. cbn [fst snd].
  destruct (LexLoop_scan (LexTokens_fuel L) Tok L' (mkLexState [] [] false)
              W0 [] ds HD ppcond_inv_nil) as (St & W1 & HL & Hinv & Hstk).
  { cbn [length]. lia. }
  { exact Hbal. }
  cbn [app] in Hinv. rewrite HL. cbn [mbind Res_bind].
  rewrite Hstk. cbn [bool_decide decide_rel assert mbind Res_bind].
  rewrite bool_decide_eq_true_2 by done. cbn [assert mbind Res_bind].
  pose proof Hinv as (_ & Hlen & _).
  destruct (EmitPPCond_ok (PPCond St)
              (W_Emit32 W1 (Z.of_nat (length (PPCond St))))
              (u32 (tell (Out W0))) 0) as (W' & HE & HO).
  { intros j [h t] Hj. cbn.
    destruct (lookup_lt_is_Some_2 ds j) as [K HK].
    { rewrite <- Hlen. by eapply lookup_lt_Some. }
    destruct (ppcond_inv_final ds St j K Hinv Hstk HK) as (h' & t' & Ht & Hnz & _).
    congruence. }
  { rewrite Hlen. lia. }
  change (Z.of_nat 0) with 0 in HE. rewrite HE. cbn [mbind Res_bind].
  exists St, W1, (mkPTHEntry (u32 (tell (Out W0))) (u32 (tell (Out W1)))), W'.
  cbn [TokenData PPCondData]. split_and!; try done.
  - intros i K HK.
    destruct (ppcond_inv_final ds St i K Hinv Hstk HK) as (h & t & Ht & Hnz & He & Hne).
    exists h, t. split_and!; try done.
    unfold PPCond_entry_bytes. cbn [fst snd]. f_equal.
    destruct (decide (K = pp_endif)) as [HK'|HK'].
    + rewrite (He HK'), Z.eqb_refl. done.
    + destruct (Hne HK') as (_ & Hr).
      destruct (Z.eqb_spec t (Z.of_nat i)); [lia|done].
  - rewrite HO, W_Emit32_Out, <- app_assoc. done.
Qed.

End Lex.


(** * The bound of the lexing loop is never used up *)

Lemma skip_to_line_start_shorter sol toks T rest :
  skip_to_line_start sol toks = Some (T, rest) →
  (length rest < length toks)%nat.
Proof.
  induction toks as [|T0 toks IH]; cbn; [done|].
  destruct (negb (Tok_is T0 tok_eof) && negb (sol T0)).
  - intros H. specialize (IH H). lia.
  - intros [= <- <-]. lia.
Qed.

Lemma LexFromRawLexer_cases L Tok L' :
  LexFromRawLexer L = (Tok, L') →
  (Tok_is Tok tok_eof = true ∧ L' = L ∧ Pending L = []) ∨
  (S (length (Pending L')) = length (Pending L)).
Proof.
  unfold LexFromRawLexer. destruct (Pending L) as [|T rest] eqn:HP.
  - intros [= <- <-]. by left.
  - intros [= <- <-]. right. done.
Qed.

Section Fuel.
Variable PP : Preprocessor.

Ltac emit_hyp H :=
  match type of H with
  | context [EmitToken PP ?T ?W] =>
      let W' := fresh "W" in
      let E := fresh "E" in
      destruct (EmitToken_total PP T W) as (W' & E & _);
      rewrite E in H; cbn [mbind Res_bind] in H
  | context [assert ?b] =>
      destruct b eqn:?; cbn [assert mbind Res_bind] in H; [|discriminate H]
  | context [Backpatch ?St ?i] =>
      destruct (Backpatch St i); cbn [mbind Res_bind] in H; [|discriminate H]
  | context [InsertEOM PP ?T ?St ?W] =>
      destruct (InsertEOM PP T St W) as [[? ?]|];
      cbn [mbind Res_bind] in H; [|discriminate H]
  end.

Lemma LexBody_next Tok L St W next r :
  LexBody PP Tok L St W = Ok (next, r) →
  match next with
  | LoopCondition Tok' L' =>
      (length (Pending L') ≤ length (Pending L))%nat ∧
      (Tok_is Tok tok_eof = true → Tok_is Tok' tok_eof = true)
  | GotoNextToken Tok' L' =>
      Tok_is Tok tok_eof = false ∧
      (Tok_is Tok' tok_eof = true ∨
       (length (Pending L') + 2 ≤ length (Pending L))%nat)
  end.
Proof.
  intros H. unfold LexBody in H. emit_hyp H.
  destruct (Tok_is Tok tok_identifier) eqn:Hid.
  { emit_hyp H. injection H as <- <-. done. }
  destruct (Tok_is Tok tok_hash && isAtStartOfLine PP Tok) eqn:Hh.
  2:{ emit_hyp H. injection H as <- <-. done. }
  assert (Heof : Tok_is Tok tok_eof = false).
  { apply andb_prop in Hh as [Hh _]. unfold Tok_is in *.
    apply bool_decide_eq_true in Hh. rewrite Hh. done. }
  do 2 emit_hyp H.
  destruct (LexFromRawLexer L) as [Tok2 L2] eqn:HL2.
  apply LexFromRawLexer_cases in HL2.
  emit_hyp H.
  destruct (Tok_is Tok2 tok_identifier) eqn:Hid2; cbn [negb] in H.
  2:{ emit_hyp H. injection H as <- <-. split; [|congruence].
      destruct HL2 as [(_ & -> & _)|]; lia. }
  assert (HL2' : S (length (Pending L2)) = length (Pending L)).
  { destruct HL2 as [(He & _)|]; [|done]. unfold Tok_is in *.
    apply bool_decide_eq_true in He. rewrite He in Hid2. done. }
  emit_hyp H.
  destruct (getPPKeywordID PP (LookUpIdentifierInfo PP Tok2));
    repeat emit_hyp H.
  all: try (injection H as <- <-; split; [lia|congruence]).
  - (* endif *)
    destruct (skip_to_line_start _ _) as [[Tok3 rest]|] eqn:Hskip;
      injection H as <- <-; (split; [done|]).
    + right. apply skip_to_line_start_shorter in Hskip. cbn. lia.
    + by left.
  - destruct (LexIncludeFilename L2) as [Tok3 L3] eqn:HL3.
    apply LexFromRawLexer_cases in HL3.
    repeat emit_hyp H. injection H as <- <-. split; [|congruence].
    destruct HL3 as [(_ & -> & _)|]; lia.
  - destruct (LexIncludeFilename L2) as [Tok3 L3] eqn:HL3.
    apply LexFromRawLexer_cases in HL3.
    repeat emit_hyp H. injection H as <- <-. split; [|congruence].
    destruct HL3 as [(_ & -> & _)|]; lia.
  - destruct (LexIncludeFilename L2) as [Tok3 L3] eqn:HL3.
    apply LexFromRawLexer_cases in HL3.
    repeat emit_hyp H. injection H as <- <-. split; [|congruence].
    destruct HL3 as [(_ & -> & _)|]; lia.
Qed.

Lemma Backpatch_not_fuel St index : Backpatch St index ≠ Err OutOfFuel.
Proof.
  unfold Backpatch. destruct (PPStartCond St) as [|back stack]; [done|].
  destruct (back <? _); cbn; [|done].
  destruct (PPCond St !! Z.to_nat back) as [[h second]|]; [|done].
  destruct (second =? 0); done.
Qed.

Ltac fuel_hyp H :=
  match type of H with
  | context [EmitToken PP ?T ?W] =>
      let W' := fresh "W" in
      let E := fresh "E" in
      destruct (EmitToken_total PP T W) as (W' & E & _);
      rewrite E in H; cbn [mbind Res_bind] in H
  | context [assert ?b] =>
      destruct b eqn:?; cbn [assert mbind Res_bind] in H; [|discriminate H]
  | context [Backpatch ?St ?i] =>
      let HB := fresh "HB" in
      pose proof (Backpatch_not_fuel St i) as HB;
      destruct (Backpatch St i); cbn [mbind Res_bind] in H; [|congruence]
  end.

Lemma LexBody_not_fuel Tok L St W : LexBody PP Tok L St W ≠ Err OutOfFuel.
Proof.
  intros H. unfold LexBody in H.
  destruct (InsertEOM_cases PP Tok St W) as (St1 & W1 & HI & _).
  rewrite HI in H. cbn [mbind Res_bind] in H.
  destruct (Tok_is Tok tok_identifier) eqn:Hid.
  { fuel_hyp H. done. }
  destruct (Tok_is Tok tok_hash && isAtStartOfLine PP Tok) eqn:Hh.
  2:{ fuel_hyp H. done. }
  do 2 fuel_hyp H.
  destruct (LexFromRawLexer L) as [Tok2 L2] eqn:HL2.
  fuel_hyp H.
  destruct (Tok_is Tok2 tok_identifier) eqn:Hid2; cbn [negb] in H.
  2:{ fuel_hyp H. done. }
  fuel_hyp H.
  destruct (getPPKeywordID PP (LookUpIdentifierInfo PP Tok2));
    repeat fuel_hyp H; try done.
  all: try (destruct (skip_to_line_start _ _) as [[? ?]|]; done).
  all: destruct (LexIncludeFilename L2) as [Tok3 L3];
    repeat fuel_hyp H; done.
Qed.

Lemma LexLoop_fuel fuel : ∀ Tok L St W,
  ((if Tok_is Tok tok_eof then 1 else length (Pending L) + 2) ≤ fuel)%nat →
  LexLoop PP fuel Tok L St W ≠ Err OutOfFuel.
Proof.
  induction fuel as [|fuel IH]; intros Tok L St W Hf.
  { destruct (Tok_is Tok tok_eof); lia. }
  cbn [LexLoop].
  destruct (LexBody PP Tok L St W) as [[next [St1 W1]]|f] eqn:HB.
  2:{ cbn. intros [= ->]. by apply LexBody_not_fuel in HB. }
  cbn [mbind Res_bind]. apply LexBody_next in HB.
  destruct next as [Tok' L'|Tok' L'].
  - destruct HB as (Heof & HB). rewrite Heof in Hf. apply IH.
    destruct (Tok_is Tok' tok_eof); [lia|]. destruct HB; [done|lia].
  - destruct HB as (Hlen & Heof). unfold Tok_isNot.
    destruct (Tok_is Tok' tok_eof) eqn:He'; cbn [negb]; [done|].
    destruct (Tok_is Tok tok_eof); [by specialize (Heof eq_refl)|].
    destruct (LexFromRawLexer L') as [Tok2 L2] eqn:HL2.
    apply LexFromRawLexer_cases in HL2. apply IH.
    destruct HL2 as [(-> & _)|HL2]; [lia|].
    destruct (Tok_is Tok2 tok_eof); lia.
Qed.

Lemma EmitPPCond_not_fuel tbl : ∀ W off i,
  EmitPPCond W off i tbl ≠ Err OutOfFuel.
Proof.
  induction tbl as [|[a b] tbl IH]; intros W off i; cbn; [done|].
  destruct (negb (b =? 0)); cbn; [apply IH|done].
Qed.

Lemma LexTokens_total L W : LexTokens PP L W ≠ Err OutOfFuel.
Proof.
  unfold LexTokens.
  destruct (LexFromRawLexer L) as [Tok L'] eqn:HL.
  apply LexFromRawLexer_cases in HL.
  destruct (LexLoop PP _ Tok L' _ _) as [[St W1]|f] eqn:HLoop.
  - cbn [mbind Res_bind]. destruct (bool_decide _); cbn; [|done].
    pose proof (EmitPPCond_not_fuel (PPCond St)
                  (W_Emit32 W1 (Z.of_nat (length (PPCond St))))
                  (u32 (tell (Out (set_Out W (Pad (Out W) 4))))) 0) as HE.
    destruct (EmitPPCond _ _ _ _); cbn; [done|congruence].
  - cbn [mbind Res_bind]. intros [= ->]. revert HLoop. apply LexLoop_fuel.
    unfold LexTokens_fuel.
    destruct HL as [(_ & -> & _)|HL]; destruct (Tok_is Tok tok_eof); lia.
Qed.

End Fuel.


(** * The theorems at sample inputs *)

Lemma file_key_emission_witness :
  strlen (getCString (IsFE (sample_file 0))) + 2 < 65536 ∧
  (∀ FE, IsFE (sample_file 0) = IsFE FE → u32 (FileMode FE) < 65536) ∧
  HT.EmitChain [] tt [HT.mkItem (IsFE (sample_file 0)) (mkPTHEntry 28 100) 7]
  = Ok ([7; 0; 0; 0; 7; 0; 34; 1; 47; 97; 97; 46; 104; 0;
         28; 0; 0; 0; 100; 0; 0; 0; 0; 0; 0; 0; 1; 0; 0; 0; 164; 129;
         0; 0; 0; 0; 0; 0; 0; 0; 0; 0; 0; 0; 0; 0; 0; 0], tt).
Proof.
  assert (H1 : strlen (getCString (IsFE (sample_file 0))) + 2 < 65536)
    by (vm_compute; reflexivity).
  assert (H2 : ∀ FE, IsFE (sample_file 0) = IsFE FE → u32 (FileMode FE) < 65536).
  { intros FE HFE. injection HFE as <-. vm_compute. reflexivity. }
  split; [exact H1|]. split; [exact H2|].
  exact (proj1 (file_key_emission (IsFE (sample_file 0)) (mkPTHEntry 28 100)
                  7 [] H1 H2)).
Defined.

Lemma EmitToken_record_witness :
  0 ≤ 4 ≤ 255 ∧ 0 ≤ 2 ≤ 255 ∧ 0 ≤ 5 ≤ 65535 ∧
  Token_word0 (sample_PP nested_src) (mkToken tok_identifier 2 5 0%N 13)
  = 4 + 2 * 2 ^ 8 + 5 * 2 ^ 16.
Proof.
  split; [lia|]. split; [lia|]. split; [lia|].
  destruct (EmitToken_record (sample_PP nested_src)
              (mkToken tok_identifier 2 5 0%N 13) (new_PTHWriter []))
    as (W' & _ & _ & _ & _ & _ & Hpack).
  apply Hpack; simpl; lia.
Defined.

Lemma load_factor_law_witness :
  Z.of_nat (length (sample_entries 47)) < 805306368 ∧
  ∃ T T',
    HT.insert_all tt (sample_entries 47) HT.empty_table = Ok T ∧
    HT.insert tt (IsFE (sample_file 47)) (mkPTHEntry 0 0) T = Ok T' ∧
    load_factor_law 47 (HT.NumBuckets T) ∧
    load_factor_law 48 (HT.NumBuckets T').
Proof.
  split; [vm_compute; reflexivity|].
  destruct (load_factor_law_holds tt (sample_entries 47)
              (IsFE (sample_file 47)) (mkPTHEntry 0 0))
    as (T & T' & H1 & H2 & _ & H3 & _ & H4 & _).
  - vm_compute; reflexivity.
  - exists T, T'. split; [exact H1|]. split; [exact H2|].
    split; [exact H3|exact H4].
Defined.

Lemma spelling_pool_witness :
  let PP := sample_PP [(0, [52; 50]); (3, [52; 50])] in
  let T1 := mkToken tok_numeric_constant 1 2 0%N 0 in
  let T2 := mkToken tok_numeric_constant 2 2 0%N 3 in
  spelling_bytes PP ([T1] ++ [T2]) < 2 ^ 32 ∧ tell [] < 2 ^ 32 ∧
  ∃ W W',
    EmitTokens PP [T1] (new_PTHWriter []) = Ok W ∧
    EmitToken PP T2 W = Ok W' ∧
    (EmitCachedSpellings (set_Out W' [])).1 = tell [].
Proof.
  intros PP T1 T2.
  split; [vm_compute; reflexivity|]. split; [vm_compute; reflexivity|].
  destruct (spelling_pool PP [T1] T2 [])
    as (W & W' & H1 & H2 & _ & _ & H3 & _).
  - vm_compute; reflexivity.
  - vm_compute; reflexivity.
  - exists W, W'. split; [exact H1|]. split; [exact H2|exact H3].
Defined.

Lemma ResolveID_first_seen_witness :
  Z.of_nat (length [5%N; 9%N; 5%N]) < 2 ^ 32 ∧
  idcount (ResolveAll [5%N; 9%N; 5%N] (new_PTHWriter [])).2
  = Z.of_nat (size (handles_seen [5%N; 9%N; 5%N])).
Proof.
  split; [vm_compute; reflexivity|].
  destruct (ResolveID_first_seen [5%N; 9%N; 5%N] [])
    as (_ & _ & _ & _ & _ & _ & _ & H & _).
  - vm_compute; reflexivity.
  - exact H.
Defined.


Lemma eom_token_witness :
  let Tok := mkToken tok_hash 1 1 0%N 6 in
  let St := mkLexState [(0, 0)] [0] true in
  (isAtStartOfLine (sample_PP nested_src) Tok || Tok_is Tok tok_eof)
  && ParsingPreprocessorDirective St = true ∧
  ∃ W',
    InsertEOM (sample_PP nested_src) Tok St (new_PTHWriter [])
    = Ok (mkLexState [(0, 0)] [0] false, W') ∧
    Out W' = [2; 0; 1; 0; 0; 0; 0; 0; 6; 0; 0; 0].
Proof.
  intros Tok St. split; [reflexivity|].
  destruct (eom_token (sample_PP nested_src) Tok St (new_PTHWriter []))
    as (W' & H1 & H2 & _).
  - reflexivity.
  - exists W'. split; [exact H1|exact H2].
Defined.


Lemma sample_entries_pure n (kd : PTHEntryKeyVariant * PTHEntry) :
  (n ≤ 676)%nat → kd ∈ sample_entries n →
  ∀ Out m', ∃ m'',
    HT.EmitChain Out m' [HT.new_Item tt kd.1 kd.2]
    = Ok (Out ++ file_item_bytes (HT.new_Item tt kd.1 kd.2), m'').
Proof.
  intros Hn Hkd. apply file_item_pure. unfold sample_entries in Hkd.
  apply list_elem_of_fmap in Hkd as (i & -> & Hi).
  apply elem_of_seq in Hi. cbn [HT.new_Item HT.key fst].
  split; [|vm_compute; reflexivity].
  rewrite getCString_key_chars, strlen_nul_free; [vm_compute; reflexivity|].
  cbn [key_chars sample_file FE_Name].
  assert (0 ≤ Z.of_nat (i / 26)) by lia.
  assert (0 ≤ Z.of_nat (i mod 26)) by lia.
  repeat constructor; lia.
Qed.

Lemma Emit_protocol_witness :
  Z.of_nat (length (sample_entries 3)) ≤ 805306368 ∧
  Z.of_nat (length (sample_entries 3)) < 48 ∧
  ∃ T r,
    HT.insert_all tt (sample_entries 3) HT.empty_table = Ok T ∧
    HT.NumBuckets T = 64 ∧
    HT.Emit [] tt T = Ok r.
Proof.
  assert (H1 : Z.of_nat (length (sample_entries 3)) ≤ 805306368)
    by (vm_compute; discriminate).
  assert (H2 : Z.of_nat (length (sample_entries 3)) < 48)
    by (vm_compute; reflexivity).
  split; [exact H1|]. split; [exact H2|].
  destruct (Emit_protocol tt (sample_entries 3) file_item_bytes [] H1)
    as (T & HT & _ & _ & _ & H48 & HE).
  - intros kd Hkd. apply (sample_entries_pure 3); [lia|exact Hkd].
  - destruct (H48 H2) as (HNB & Hchains).
    destruct HE as (bs' & m' & k & HE & _).
    + intros i B Hi. rewrite (Hchains i B Hi).
      rewrite length_rev. unfold chain_of.
      pose proof (length_filter
        (λ E : @HT.Item PTHEntryKeyVariant PTHEntry,
           Z.land (HT.hash E) (64 - 1) = Z.of_nat i)
        ((λ kd, HT.new_Item tt kd.1 kd.2) <$> sample_entries 3)) as Hl.
      rewrite length_fmap in Hl. change (length (sample_entries 3)) with 3%nat in Hl.
      lia.
    + exists T. eexists. split; [exact HT|]. split; [exact HNB|exact HE].
Defined.

(** Against claim C3 as first stated: a token of length 65536 is
    written without any assertion, and its first word keeps nothing of
    the length. *)
Lemma EmitToken_oversized_length :
  let T := mkToken tok_identifier 0 65536 0%N 0 in
  65535 < Length T ∧
  ∃ W', EmitToken (sample_PP []) T (new_PTHWriter []) = Ok W' ∧
        Out W' = [4; 0; 0; 0; 0; 0; 0; 0; 0; 0; 0; 0].
Proof.
  intros T. split; [reflexivity|]. eexists. split; vm_compute; reflexivity.
Qed.


(** * The emit helpers *)

Lemma land_lnot_pow2 x k :
  0 ≤ k → Z.land x (Z.lnot (2 ^ k - 1)) = 2 ^ k * (x / 2 ^ k).
Proof.
  intros Hk. rewrite <- Z.ldiff_land.
  replace (2 ^ k - 1) with (Z.ones k) by (rewrite Z.ones_equiv; lia).
  rewrite Z.ldiff_ones_r by done.
  rewrite Z.shiftl_mul_pow2, Z.shiftr_div_pow2 by done. lia.
Qed.

(** X1.  [Pad] with a power of two [A] appends zero bytes only, fewer
    than [A] of them and none when the offset is a multiple of [A]
    already, and leaves the stream at a multiple of [A]. *)
Theorem Pad_aligns (Out : raw_ostream) (k : Z) :
  0 ≤ k ≤ 31 → tell Out + 2 ^ k ≤ 2 ^ 32 →
  ∃ n : nat,
    Pad Out (2 ^ k) = Out ++ replicate n 0 ∧
    Z.of_nat n = (- tell Out) mod 2 ^ k ∧
    Z.of_nat n < 2 ^ k ∧
    tell (Pad Out (2 ^ k)) mod 2 ^ k = 0.
Proof.
  intros Hk Hb. unfold Pad.
  assert (Hp : 0 < 2 ^ k) by (apply Z.pow_pos_nonneg; lia).
  assert (Ht : 0 ≤ tell Out) by (unfold tell; lia).
  rewrite (u32_small (tell Out)) by lia.
  rewrite (u32_small (tell Out + 2 ^ k - 1)) by lia.
  rewrite land_lnot_pow2 by lia.
  set (t := tell Out) in *.
  assert (Hn : 2 ^ k * ((t + 2 ^ k - 1) / 2 ^ k) - t = (- t) mod 2 ^ k).
  { pose proof (Z.div_mod (t + 2 ^ k - 1) (2 ^ k) ltac:(lia)) as Hd.
    pose proof (Z.mod_pos_bound (t + 2 ^ k - 1) (2 ^ k) Hp) as Hm.
    apply (Z.mod_unique_pos _ _ (- ((t + 2 ^ k - 1) / 2 ^ k))); lia. }
  pose proof (Z.mod_pos_bound (- t) (2 ^ k) Hp) as Hm.
  rewrite Hn, (u32_small ((- t) mod 2 ^ k)) by lia.
  exists (Z.to_nat ((- t) mod 2 ^ k)). split_and!.
  - done.
  - lia.
  - lia.
  - unfold tell. rewrite length_app, length_replicate.
    rewrite Nat2Z.inj_add, Z2Nat.id by lia.
    change (Z.of_nat (length Out)) with t.
    rewrite Z.add_mod_idemp_r by lia.
    replace (t + - t) with 0 by lia. apply Z.mod_0_l; lia.
Qed.

Lemma le_value_bytes4 x :
  0 ≤ x < 2 ^ 32 →
  le_value [u8 x; u8 (x ≫ 8); u8 (x ≫ 16); u8 (x ≫ 24)] = x.
Proof.
  intros Hx. change (2 ^ 32) with 4294967296 in Hx.
  unfold u8. rewrite !Z.shiftr_div_pow2 by lia. cbn [le_value].
  change (2 ^ 8) with 256. change (2 ^ 16) with 65536.
  change (2 ^ 24) with 16777216.
  Z.div_mod_to_equations. lia.
Qed.

Lemma le_value_bytes8 x :
  0 ≤ x < 2 ^ 64 →
  le_value [u8 x; u8 (x ≫ 8); u8 (x ≫ 16); u8 (x ≫ 24);
            u8 (x ≫ 32); u8 (x ≫ 40); u8 (x ≫ 48); u8 (x ≫ 56)] = x.
Proof.
  intros Hx. change (2 ^ 64) with 18446744073709551616 in Hx.
  unfold u8. rewrite !Z.shiftr_div_pow2 by lia. cbn [le_value].
  change (2 ^ 8) with 256. change (2 ^ 16) with 65536.
  change (2 ^ 24) with 16777216. change (2 ^ 32) with 4294967296.
  change (2 ^ 40) with 1099511627776.
  change (2 ^ 48) with 281474976710656.
  change (2 ^ 56) with 72057594037927936.
  Z.div_mod_to_equations. lia.
Qed.

Lemma u8_range x : 0 ≤ u8 x < 256.
Proof. unfold u8. change (2 ^ 8) with 256. apply Z.mod_pos_bound. lia. Qed.

Lemma u64_range x : 0 ≤ u64 x < 2 ^ 64.
Proof. unfold u64. apply Z.mod_pos_bound. lia. Qed.

(** X2.  [Emit8], [Emit32] and [Emit64] append one, four and eight
    bytes, each from 0 to 255, which read least significant byte first
    are the value reduced to 8, 32 and 64 bits. *)
Theorem Emit_little_endian (Out : raw_ostream) (V : Z) :
  (∃ b, Emit8 Out V = Out ++ [b] ∧ 0 ≤ b < 256 ∧ b = V mod 2 ^ 8) ∧
  (∃ bs, Emit32 Out V = Out ++ bs ∧ length bs = 4%nat ∧
         Forall (λ b, 0 ≤ b < 256) bs ∧ le_value bs = V mod 2 ^ 32) ∧
  (∃ bs, Emit64 Out V = Out ++ bs ∧ length bs = 8%nat ∧
         Forall (λ b, 0 ≤ b < 256) bs ∧ le_value bs = V mod 2 ^ 64).
Proof.
  split_and!.
  - exists (u8 V). split_and!; [done|apply u8_range..|done].
  - eexists. split; [reflexivity|]. split_and!.
    + done.
    + repeat constructor; apply u8_range.
    + apply (le_value_bytes4 (u32 V)), u32_range.
  - eexists. split; [reflexivity|]. split_and!.
    + done.
    + repeat constructor; apply u8_range.
    + apply (le_value_bytes8 (u64 V)), u64_range.
Qed.

(** X3.  [Emit16] succeeds exactly when its argument, as a [uint32_t],
    is below [2^16], and [PTHWriter::Emit24] exactly when it is below
    [2^24]; then the two or three bytes written read back as the
    argument.  Otherwise the assertion fails. *)
Theorem Emit16_Emit24_assert (W : PTHWriter) (V : Z) :
  Emit16 (Out W) V
  = (if u32 V <? 2 ^ 16 then Ok (Out W ++ le16 V) else Err AssertionFailed) ∧
  W_Emit16 W V
  = (if u32 V <? 2 ^ 16 then Ok (set_Out W (Out W ++ le16 V))
     else Err AssertionFailed) ∧
  W_Emit24 W V
  = (if u32 V <? 2 ^ 24 then Ok (set_Out W (Out W ++ le24 V))
     else Err AssertionFailed) ∧
  (if u32 V <? 2 ^ 16 then le_value (le16 V) = u32 V else True) ∧
  (if u32 V <? 2 ^ 24 then le_value (le24 V) = u32 V else True).
Proof.
  pose proof (u32_range V) as Hr. change (2 ^ 32) with 4294967296 in Hr.
  change (2 ^ 16) with 65536. change (2 ^ 24) with 16777216.
  assert (H16 : Emit16 (Out W) V
    = (if u32 V <? 65536 then Ok (Out W ++ le16 V) else Err AssertionFailed)).
  { destruct (Z.ltb_spec (u32 V) 65536).
    - rewrite Emit16_ok by lia. done.
    - rewrite Emit16_fail by lia. done. }
  split_and!.
  - done.
  - unfold W_Emit16. rewrite H16. by destruct (u32 V <? 65536).
  - unfold W_Emit24, le24.
    assert (Hs : (u32 V ≫ 24 =? 0) = (u32 V <? 16777216)).
    { rewrite Z.shiftr_div_pow2 by lia. change (2 ^ 24) with 16777216.
      destruct (Z.ltb_spec (u32 V) 16777216), (Z.eqb_spec (u32 V / 16777216) 0);
        try done; exfalso; Z.div_mod_to_equations; lia. }
    rewrite Hs. destruct (u32 V <? 16777216); cbn; [|done].
    by rewrite <- !app_assoc.
  - destruct (Z.ltb_spec (u32 V) 65536); [|done].
    unfold le16, u8. rewrite Z.shiftr_div_pow2 by lia. cbn [le_value].
    change (2 ^ 8) with 256. Z.div_mod_to_equations. lia.
  - destruct (Z.ltb_spec (u32 V) 16777216); [|done].
    unfold le24, u8. rewrite !Z.shiftr_div_pow2 by lia. cbn [le_value].
    change (2 ^ 8) with 256. change (2 ^ 16) with 65536.
    Z.div_mod_to_equations. lia.
Qed.

(** ** The hash function *)

Lemma u32_idem x : u32 (u32 x) = u32 x.
Proof. unfold u32. apply Z.mod_mod. lia. Qed.

Lemma Bernstein_fold_congr s : ∀ a b,
  u32 a = u32 b →
  u32 (fold_left (λ R c, R * 33 + char_value c) s a)
  = u32 (fold_left (λ R c, R * 33 + char_value c) s b).
Proof.
  induction s as [|c s IH]; intros a b Hab; cbn [fold_left]; [done|].
  apply IH. unfold u32 in *.
  rewrite (Z.add_mod (a * 33)), (Z.add_mod (b * 33)) by lia.
  rewrite (Z.mul_mod a), (Z.mul_mod b) by lia. by rewrite Hab.
Qed.

Lemma BernsteinLoop_fold s t : ∀ R,
  Forall (λ c, c ≠ 0) s →
  u32 (BernsteinLoop (s ++ 0 :: t) R)
  = u32 (fold_left (λ R c, R * 33 + char_value c) s R).
Proof.
  induction s as [|c s IH]; intros R Hs; cbn [app BernsteinLoop fold_left].
  - done.
  - inversion Hs as [|? ? Hc Hs']; subst.
    destruct (Z.eqb_spec c 0); [done|].
    rewrite IH by done. apply Bernstein_fold_congr, u32_idem.
Qed.

Lemma BernsteinLoop_range x : ∀ R,
  0 ≤ R < 2 ^ 32 → 0 ≤ BernsteinLoop x R < 2 ^ 32.
Proof.
  induction x as [|c x IH]; intros R HR; cbn [BernsteinLoop]; [done|].
  destruct (c =? 0); [done|]. apply IH, u32_range.
Qed.

(** X4.  [BernsteinHash] reads its argument up to the first NUL and no
    further.  With [R] the sum of the characters [c] weighted by the
    powers of 33, reduced once to 32 bits, the hash is [R + (R >> 5)]
    on 32 bits: reducing at every step of the loop gives the same. *)
Theorem BernsteinHash_value (s t : list Z) :
  Forall (λ c, c ≠ 0) s →
  let R := u32 (Bernstein_sum s) in
  BernsteinHash (s ++ 0 :: t) = u32 (R + (R ≫ 5)) ∧
  BernsteinHash (s ++ 0 :: t) = BernsteinHash (c_str s) ∧
  0 ≤ BernsteinHash (s ++ 0 :: t) < 2 ^ 32.
Proof.
  intros Hs R.
  assert (HR : ∀ t', BernsteinLoop (s ++ 0 :: t') 0 = R).
  { intros t'.
    rewrite <- (u32_small (BernsteinLoop _ 0))
      by (apply BernsteinLoop_range; lia).
    by rewrite BernsteinLoop_fold. }
  unfold BernsteinHash, c_str. rewrite !HR.
  split_and!; [done|done|apply u32_range..].
Qed.


(** * More on the hash table generator *)

Section Order.
Context {key_type data_type Mem : Type} `{!Info key_type data_type Mem}.

Implicit Types (E : @HT.Item key_type data_type).
Implicit Types (b : list (@HT.Bucket key_type data_type)).

Lemma insert_bucket_heads b size E k :
  0 ≤ k ≤ 32 → size = 2 ^ k → length b = Z.to_nat size →
  ∃ b', HT.insert_bucket b size E = Ok b' ∧ length b' = length b ∧
    ∀ (i : nat) B', b' !! i = Some B' →
      ∃ B, b !! i = Some B ∧
        HT.B_head B' = chain_of size i [E] ++ HT.B_head B.
Proof.
  intros Hk Hsz Hlen.
  destruct (insert_bucket_ok b size E k Hk Hsz Hlen) as (B & HB & ->).
  eexists. split; [done|]. split; [by rewrite length_insert|].
  intros i B' Hi. unfold chain_of. rewrite filter_cons, filter_nil.
  assert (Hnn : 0 ≤ Z.land (HT.hash E) (size - 1)).
  { rewrite Hsz, land_mask by lia.
    apply Z.mod_pos_bound, Z.pow_pos_nonneg; lia. }
  destruct (decide (i = Z.to_nat (Z.land (HT.hash E) (size - 1)))) as [->|Hne].
  - rewrite list_lookup_insert_eq in Hi by (by eapply lookup_lt_Some).
    injection Hi as <-. exists B. split; [done|].
    rewrite decide_True by lia. done.
  - rewrite list_lookup_insert_ne in Hi by done. exists B'. split; [done|].
    rewrite decide_False by lia. done.
Qed.

Lemma rehash_chain_heads chain : ∀ b size k,
  0 ≤ k ≤ 32 → size = 2 ^ k → length b = Z.to_nat size →
  ∃ b', HT.rehash_chain chain b size = Ok b' ∧ length b' = length b ∧
    ∀ (i : nat) B', b' !! i = Some B' →
      ∃ B, b !! i = Some B ∧
        HT.B_head B' = rev (chain_of size i chain) ++ HT.B_head B.
Proof.
  induction chain as [|E chain IH]; intros b size k Hk Hsz Hlen.
  - exists b. split_and!; try done. intros i B' Hi. by exists B'.
  - destruct (insert_bucket_heads b size E k Hk Hsz Hlen)
      as (b1 & H1 & Hl1 & Hh1).
    destruct (IH b1 size k Hk Hsz) as (b' & H' & Hl' & Hh'); [congruence|].
    exists b'. cbn [HT.rehash_chain]. rewrite H1. cbn [mbind Res_bind].
    split_and!; [done|congruence|].
    intros i B' Hi. destruct (Hh' i B' Hi) as (B1 & HB1 & ->).
    destruct (Hh1 i B1 HB1) as (B & HB & ->). exists B. split; [done|].
    unfold chain_of. rewrite (filter_cons _ E chain), filter_cons, filter_nil.
    destruct (decide _); cbn [rev]; rewrite <- ?app_assoc; done.
Qed.

Lemma rehash_buckets_heads old : ∀ b size k,
  0 ≤ k ≤ 32 → size = 2 ^ k → length b = Z.to_nat size →
  ∃ b', HT.rehash_buckets old b size = Ok b' ∧ length b' = length b ∧
    ∀ (i : nat) B', b' !! i = Some B' →
      ∃ B, b !! i = Some B ∧
        HT.B_head B' = rev (chain_of size i (all_items old)) ++ HT.B_head B.
Proof.
  induction old as [|B0 old IH]; intros b size k Hk Hsz Hlen.
  - exists b. split_and!; try done. intros i B' Hi. by exists B'.
  - destruct (rehash_chain_heads (HT.B_head B0) b size k Hk Hsz Hlen)
      as (b1 & H1 & Hl1 & Hh1).
    destruct (IH b1 size k Hk Hsz) as (b' & H' & Hl' & Hh'); [congruence|].
    exists b'. cbn [HT.rehash_buckets]. rewrite H1. cbn [mbind Res_bind].
    split_and!; [done|congruence|].
    intros i B' Hi. destruct (Hh' i B' Hi) as (B1 & HB1 & ->).
    destruct (Hh1 i B1 HB1) as (B & HB & ->). exists B. split; [done|].
    unfold all_items, chain_of. rewrite fmap_cons. cbn [concat].
    rewrite filter_app, rev_app_distr, <- app_assoc. done.
Qed.

(** X6.  [resize] to a power of two makes that many buckets and puts in
    bucket [i] the items whose hash selects [i], in the reverse of the
    order in which the old buckets, one after the other and each from
    its head, held them.  It keeps [NumEntries], leaves every offset 0
    and sets every length field to the length of the chain. *)
Theorem resize_order (T : @HT.Table key_type data_type) (k : Z) :
  0 ≤ k ≤ 31 →
  ∃ T', HT.resize (2 ^ k) T = Ok T' ∧
    HT.NumBuckets T' = 2 ^ k ∧
    HT.NumEntries T' = HT.NumEntries T ∧
    length (HT.Buckets T') = Z.to_nat (2 ^ k) ∧
    ∀ (i : nat) B, HT.Buckets T' !! i = Some B →
      HT.B_head B = rev (chain_of (2 ^ k) i (all_items (HT.Buckets T))) ∧
      HT.B_off B = 0 ∧
      HT.B_length B = u32 (Z.of_nat (length (HT.B_head B))).
Proof.
  intros Hk.
  assert (Hp32 : 0 < 2 ^ k < 2 ^ 32).
  { split; [apply Z.pow_pos_nonneg; lia|apply Z.pow_lt_mono_r; lia]. }
  assert (Hlc : length (HT.calloc (2 ^ k) : list (@HT.Bucket key_type data_type))
                = Z.to_nat (2 ^ k)) by apply length_replicate.
  destruct (rehash_buckets_heads (HT.Buckets T) (HT.calloc (2 ^ k)) (2 ^ k) k)
    as (b' & Hb' & Hl' & Hh'); [lia|done|done|].
  exists (HT.mkTable (2 ^ k) (HT.NumEntries T) b').
  unfold HT.resize. rewrite Hb'. cbn [mbind Res_bind].
  rewrite u32_small by lia.
  cbn [HT.Buckets HT.NumBuckets HT.NumEntries].
  split_and!; try done; [congruence|].
  intros i B Hi.
  destruct (Hh' i B Hi) as (B0 & HB0 & HhB).
  apply lookup_replicate in HB0 as [-> _]. cbn [HT.B_head] in HhB.
  rewrite app_nil_r in HhB.
  pose proof (rehash_buckets_fresh _ _ _ _ Hb' (calloc_fresh _) i B Hi)
    as (Hoff & HlenB).
  done.
Qed.

(** X5.  A table filled from empty by [insert] holds as many buckets as
    [NumBuckets] says and as many entries as were inserted; its chains
    hold the inserted items, each once; every bucket has offset 0, a
    length field equal to the length of its chain, and only items whose
    hash selects it. *)
Theorem insert_all_table (m : Mem) (kds : list (key_type * data_type)) :
  Z.of_nat (length kds) < 805306368 →
  ∃ T, HT.insert_all m kds HT.empty_table = Ok T ∧
    HT.NumEntries T = Z.of_nat (length kds) ∧
    length (HT.Buckets T) = Z.to_nat (HT.NumBuckets T) ∧
    all_items (HT.Buckets T) ≡ₚ (λ kd, HT.new_Item m kd.1 kd.2) <$> kds ∧
    ∀ (i : nat) B, HT.Buckets T !! i = Some B →
      HT.B_off B = 0 ∧
      HT.B_length B = Z.of_nat (length (HT.B_head B)) ∧
      Forall (λ E, Z.land (HT.hash E) (HT.NumBuckets T - 1) = Z.of_nat i)
             (HT.B_head B).
Proof.
  intros Hn.
  destruct (insert_all_ok m kds HT.empty_table 0 table_inv_empty)
    as (T & HT' & Hinv); [lia..|].
  pose proof (insert_all_items m kds HT.empty_table 0 table_inv_empty
                ltac:(lia) ltac:(lia) T HT') as Hperm.
  assert (Hnil : all_items (HT.Buckets (HT.empty_table
                   : @HT.Table key_type data_type)) = []).
  { apply all_items_calloc. }
  rewrite Hnil, app_nil_r in Hperm.
  assert (Hperm' : all_items (HT.Buckets T)
                   ≡ₚ (λ kd, HT.new_Item m kd.1 kd.2) <$> kds).
  { rewrite Hperm. symmetry. apply Permutation_rev. }
  pose proof (insert_all_fresh m kds _ _ HT' (calloc_fresh _)) as Hfresh.
  destruct Hinv as (HNE & Hlen & _ & _ & _ & Hre).
  exists T. split_and!; try done; try lia.
  intros i B Hi. destruct (Hfresh i B Hi) as (Hoff & HlB).
  split_and!; [done| |].
  - rewrite HlB. apply u32_small.
    assert (Hsub : (length (HT.B_head B) ≤ length (all_items (HT.Buckets T)))%nat).
    { unfold all_items.
      rewrite <- (take_drop_middle _ _ _ Hi), fmap_app, fmap_cons.
      rewrite concat_app, length_app. cbn [concat]. rewrite length_app. lia. }
    rewrite Hperm', length_fmap in Hsub.
    change (2 ^ 32) with 4294967296. lia.
  - apply Forall_forall. intros E HE. by eapply Hre.
Qed.

End Order.

(** * The assertions on a file-map item *)

(** X7.  The writing of a file-map item fails, by the assertion of
    [Emit16], exactly when the key length [strlen(path) + 2] does not
    fit 16 bits or the entry is a file whose mode does not; otherwise
    the item is written whole. *)
Theorem file_item_assert (V : PTHEntryKeyVariant) (E : PTHEntry) (h : Z)
    (Out : raw_ostream) :
  strlen (getCString V) + 2 < 2 ^ 32 →
  HT.EmitChain Out tt [HT.mkItem V E h]
  = if (strlen (getCString V) + 2 <? 65536)
       && (if V is IsFE FE then u32 (FileMode FE) <? 65536 else true)
    then Ok (Out ++ file_item_bytes (HT.mkItem V E h), tt)
    else Err AssertionFailed.
Proof.
  intros Hn. pose proof (strlen_bounds (getCString V)) as Hs.
  destruct (Z.ltb_spec (strlen (getCString V) + 2) 65536) as [Hk|Hk];
    cbn [andb].
  - destruct (if V is IsFE FE then u32 (FileMode FE) <? 65536 else true)
      eqn:Hm.
    + assert (Hok : file_key_ok (HT.mkItem V E h).(HT.key)).
      { split; [done|]. destruct V; try done. cbn. by apply Z.ltb_lt. }
      destruct (file_item_pure (HT.mkItem V E h) Hok Out tt) as ([] & HE).
      done.
    + destruct V as [FE|DE|P]; try done. apply Z.ltb_ge in Hm.
      cbn [HT.EmitChain EmitKeyDataLength EmitKey EmitData
           FileEntryPTHEntryInfo_Info HT.key HT.data HT.hash].
      unfold FileEntryPTHEntryInfo.EmitKeyDataLength.
      rewrite (u32_small (strlen _ + 1 + 1)) by lia.
      rewrite Emit16_ok by (rewrite u32_small; lia).
      cbn [mbind Res_bind fst snd].
      unfold FileEntryPTHEntryInfo.EmitData.
      cbn [getFile KeyVariant_EmitData].
      rewrite Emit16_fail by done. done.
  - cbn [HT.EmitChain EmitKeyDataLength EmitKey EmitData
         FileEntryPTHEntryInfo_Info HT.key HT.data HT.hash].
    unfold FileEntryPTHEntryInfo.EmitKeyDataLength.
    rewrite (u32_small (strlen _ + 1 + 1)) by lia.
    rewrite Emit16_fail by (rewrite u32_small; lia). done.
Qed.


(** * The token stream of a file *)

Lemma Backpatch_fst St index St' :
  Backpatch St index = Ok St' →
  (PPCond St').*1 = (PPCond St).*1 ∧
  ParsingPreprocessorDirective St' = ParsingPreprocessorDirective St.
Proof.
  unfold Backpatch. destruct (PPStartCond St) as [|back stack]; [done|].
  destruct (back <? _); cbn [assert mbind Res_bind]; [|done].
  destruct (PPCond St !! Z.to_nat back) as [[h second]|] eqn:Hl; [|done].
  destruct (second =? 0); cbn [assert mbind Res_bind]; [|done].
  intros [= <-]. cbn [PPCond ParsingPreprocessorDirective]. split; [|done].
  rewrite list_fmap_insert. cbn [fst]. apply list_insert_id.
  by rewrite list_lookup_fmap, Hl.
Qed.

Section Stream.
Variable PP : Preprocessor.

Lemma EmitToken_tell T W W' :
  EmitToken PP T W = Ok W' →
  tell (Out W') = tell (Out W) + 12 ∧ PM W' = PM W ∧
  ∃ bytes, Out W' = Out W ++ bytes ∧ length bytes = 12%nat.
Proof.
  intros H. destruct (EmitToken_total PP T W) as (W1 & H1 & HO & HPM & _).
  rewrite H in H1. injection H1 as <-. split_and!; [|done|].
  - unfold tell. rewrite HO, !length_app, !length_le32. lia.
  - eexists. split; [exact HO|]. by rewrite !length_app, !length_le32.
Qed.

Lemma EmitTokens_nil W : EmitTokens PP [] W = Ok W.
Proof. done. Qed.

Lemma EmitTokens_cons_intro T Ts W W1 W' :
  EmitToken PP T W = Ok W1 → EmitTokens PP Ts W1 = Ok W' →
  EmitTokens PP (T :: Ts) W = Ok W'.
Proof. intros H1 H2. cbn [EmitTokens]. by rewrite H1. Qed.

Lemma EmitTokens_app Ts1 : ∀ Ts2 W W1 W',
  EmitTokens PP Ts1 W = Ok W1 → EmitTokens PP Ts2 W1 = Ok W' →
  EmitTokens PP (Ts1 ++ Ts2) W = Ok W'.
Proof.
  induction Ts1 as [|T Ts1 IH]; intros Ts2 W W1 W' H1 H2; cbn in *.
  - by injection H1 as ->.
  - destruct (EmitToken PP T W) as [W0|]; [|done]. cbn in *. eauto.
Qed.

Lemma EmitTokens_tell Ts : ∀ W W',
  EmitTokens PP Ts W = Ok W' →
  tell (Out W') = tell (Out W) + 12 * Z.of_nat (length Ts) ∧
  PM W' = PM W ∧
  ∃ bytes, Out W' = Out W ++ bytes ∧
           Z.of_nat (length bytes) = 12 * Z.of_nat (length Ts).
Proof.
  induction Ts as [|T Ts IH]; intros W W' H; cbn [EmitTokens] in H.
  - injection H as <-. split_and!; [cbn; lia|done|].
    exists []. by rewrite app_nil_r.
  - destruct (EmitToken PP T W) as [W1|] eqn:H1; [|done].
    cbn [mbind Res_bind] in H.
    destruct (EmitToken_tell _ _ _ H1) as (Ht1 & HP1 & b1 & HO1 & Hl1).
    destruct (IH _ _ H) as (Ht & HP & b & HO & Hl).
    split_and!; [cbn [length]; lia|congruence|].
    exists (b1 ++ b). rewrite HO, HO1, <- app_assoc. split; [done|].
    rewrite length_app. cbn [length]. lia.
Qed.

Lemma stretch_nil W St : stretch PP [] [] W St W St.
Proof.
  split_and!; [done| |done|constructor]. cbn. by rewrite app_nil_r.
Qed.

Lemma stretch_app Ts1 js1 Ts2 js2 W St W1 St1 W' St' :
  stretch PP Ts1 js1 W St W1 St1 →
  stretch PP Ts2 js2 W1 St1 W' St' →
  stretch PP (Ts1 ++ Ts2) (js1 ++ ((λ j, length Ts1 + j)%nat <$> js2))
          W St W' St'.
Proof.
  intros (HE1 & HP1 & HF1 & HS1) (HE2 & HP2 & HF2 & HS2).
  destruct (EmitTokens_tell _ _ _ HE1) as (Ht1 & _).
  split_and!.
  - by eapply EmitTokens_app.
  - rewrite HP2, HP1, fmap_app, <- app_assoc. do 2 f_equal.
    rewrite <- list_fmap_compose. apply list_fmap_ext. intros i j _.
    cbn. rewrite Ht1. f_equal. lia.
  - apply Forall_app. split.
    + eapply Forall_impl; [exact HF1|]. intros j (T & Hj & HT).
      exists T. split; [|done]. by apply lookup_app_l_Some.
    + apply Forall_fmap. eapply Forall_impl; [exact HF2|].
      intros j (T & Hj & HT). exists T. split; [|done]. cbn.
      by rewrite lookup_app_r, Nat.add_sub' by lia.
  - apply StronglySorted_app_2; [|done|].
    + intros x1 x2 Hx1 Hx2.
      rewrite Forall_forall in HF1. destruct (HF1 _ Hx1) as (T & Hj & _).
      apply lookup_lt_Some in Hj.
      apply list_elem_of_fmap in Hx2 as (y & -> & _). unfold Nat.lt. lia.
    + eapply StronglySorted_fmap; [|exact HS2].
      intros x y. unfold Nat.lt. lia.
Qed.

Ltac emit_keep H :=
  match type of H with
  | context [EmitToken PP ?T ?W] =>
      let W' := fresh "W" in
      let E := fresh "E" in
      destruct (EmitToken PP T W) as [W'|] eqn:E;
      cbn [mbind Res_bind] in H; [|discriminate H]
  | context [assert ?b] =>
      destruct b eqn:?; cbn [assert mbind Res_bind] in H; [|discriminate H]
  | context [Backpatch ?St ?i] =>
      let HB := fresh "HB" in
      destruct (Backpatch St i) eqn:HB;
      cbn [mbind Res_bind] in H; [|discriminate H]
  end.

Ltac solve_emits :=
  repeat (eapply EmitTokens_cons_intro; [eassumption|]);
  apply EmitTokens_nil.

Lemma InsertEOM_stretch Tok St W St1 W1 :
  InsertEOM PP Tok St W = Ok (St1, W1) →
  ∃ Tse, stretch PP Tse [] W St W1 St1 ∧
    PPStartCond St1 = PPStartCond St ∧
    Forall (λ T, Kind T = tok_eom) Tse.
Proof.
  unfold InsertEOM. intros H.
  destruct ((isAtStartOfLine PP Tok || Tok_is Tok tok_eof)
            && ParsingPreprocessorDirective St).
  - emit_keep H. injection H as <- <-. eexists.
    split; [split_and!; [solve_emits| |done|constructor]|].
    + cbn. by rewrite app_nil_r.
    + split; [done|]. by repeat constructor.
  - injection H as <- <-. exists []. split; [apply stretch_nil|done].
Qed.

Ltac plain_stretch H :=
  injection H as <- <- <-;
  eexists _, []; split;
  [split_and!; [solve_emits|cbn; by rewrite app_nil_r|done|constructor]
  |try done].

Ltac cond_stretch H Hh :=
  injection H as <- <- <-;
  eexists _, [0%nat]; split;
  [split_and!;
   [solve_emits
   |cbn [PPCond]; rewrite fmap_app; cbn [fmap list_fmap fst];
    rewrite ?Z.add_0_r;
    repeat match goal with
           | HB : Backpatch _ _ = Ok _ |- _ =>
               rewrite (proj1 (Backpatch_fst _ _ _ HB)); clear HB
           end;
    cbn [PPCond]; try done
   |repeat constructor; eexists; split; [reflexivity|exact Hh]
   |repeat constructor]
  |try done].

Lemma LexBody_emits Tok L St W next St' W' :
  LexBody PP Tok L St W = Ok (next, (St', W')) →
  ∃ Ts js, stretch PP Ts js W St W' St' ∧
    match next with
    | LoopCondition Tok' _ => last Ts = Some Tok'
    | GotoNextToken _ _ => Ts ≠ []
    end.
Proof.
  intros H. unfold LexBody in H.
  destruct (InsertEOM PP Tok St W) as [[St1 W1]|] eqn:HI; [|done].
  cbn [mbind Res_bind] in H.
  destruct (InsertEOM_stretch _ _ _ _ _ HI) as (Tse & Hse & _).
  cut (∃ Ts js, stretch PP Ts js W1 St1 W' St' ∧
         match next with
         | LoopCondition Tok' _ => last Ts = Some Tok'
         | GotoNextToken _ _ => Ts ≠ []
         end).
  { intros (Ts & js & Hs & Hn).
    eexists _, _. split; [eapply stretch_app; [exact Hse|exact Hs]|].
    destruct next.
    - by destruct Tse, Ts.
    - apply last_Some in Hn as (l' & ->). rewrite app_assoc.
      by rewrite last_snoc. }
  clear HI Hse.
  destruct (Tok_is Tok tok_identifier) eqn:Hid.
  { emit_keep H. plain_stretch H. }
  destruct (Tok_is Tok tok_hash && isAtStartOfLine PP Tok) eqn:Hh.
  2:{ emit_keep H. plain_stretch H. }
  apply andb_prop in Hh.
  do 2 emit_keep H.
  destruct (LexFromRawLexer L) as [Tok2 L2] eqn:HL2.
  emit_keep H.
  destruct (Tok_is Tok2 tok_identifier) eqn:Hid2; cbn [negb] in H.
  2:{ emit_keep H. plain_stretch H. }
  emit_keep H.
  destruct (getPPKeywordID PP (LookUpIdentifierInfo PP Tok2)) eqn:HK;
    repeat emit_keep H.
  all: try (plain_stretch H; fail).
  all: try (cond_stretch H Hh; fail).
  - destruct (skip_to_line_start _ _) as [[Tok3 rest]|]; cond_stretch H Hh.
  - destruct (LexIncludeFilename L2) as [Tok3 L3].
    repeat emit_keep H. plain_stretch H.
  - destruct (LexIncludeFilename L2) as [Tok3 L3].
    repeat emit_keep H. plain_stretch H.
  - destruct (LexIncludeFilename L2) as [Tok3 L3].
    repeat emit_keep H. plain_stretch H.
Qed.

Lemma LexLoop_emits fuel : ∀ Tok L St W St' W',
  LexLoop PP fuel Tok L St W = Ok (St', W') →
  ∃ Ts T js, stretch PP (Ts ++ [T]) js W St W' St' ∧
             Tok_is T tok_eof = true.
Proof.
  induction fuel as [|fuel IH]; intros Tok L St W St' W' H; [done|].
  cbn [LexLoop] in H.
  destruct (LexBody PP Tok L St W) as [[next [St1 W1]]|] eqn:HB; [|done].
  cbn [mbind Res_bind] in H.
  destruct (LexBody_emits _ _ _ _ _ _ _ HB) as (Ts1 & js1 & Hs1 & Hn).
  destruct next as [Tok' L'|Tok' L'].
  - destruct (IH _ _ _ _ _ _ H) as (Ts2 & T & js2 & Hs2 & HT).
    eexists (Ts1 ++ Ts2), T, _. split; [|done].
    rewrite <- app_assoc. by eapply stretch_app.
  - unfold Tok_isNot in H. destruct (Tok_is Tok' tok_eof) eqn:He; cbn in H.
    + injection H as <- <-. apply last_Some in Hn as (l' & ->).
      by eexists _, _, _.
    + destruct (LexFromRawLexer L') as [Tok2 L2].
      destruct (IH _ _ _ _ _ _ H) as (Ts2 & T & js2 & Hs2 & HT).
      eexists (Ts1 ++ Ts2), T, _. split; [|done].
      rewrite <- app_assoc. by eapply stretch_app.
Qed.

Lemma EmitPPCond_tell tbl : ∀ W off i W',
  EmitPPCond W off i tbl = Ok W' →
  tell (Out W') = tell (Out W) + 8 * Z.of_nat (length tbl) ∧
  PM W' = PM W ∧ IM W' = IM W ∧ idcount W' = idcount W ∧
  CachedStrs W' = CachedStrs W ∧ CurStrOffset W' = CurStrOffset W ∧
  StrEntries W' = StrEntries W ∧
  Forall (λ e, e.2 ≠ 0) tbl.
Proof.
  induction tbl as [|[first second] tbl IH]; intros W off i W' H;
    cbn [EmitPPCond] in H.
  - injection H as <-. split_and!; try done. cbn. lia.
  - destruct (Z.eqb_spec second 0); cbn [negb assert mbind Res_bind] in H;
      [done|].
    apply IH in H as (Ht & HPM & HIM & Hid & HCS & HCO & HSE & HF).
    split_and!; try done.
    + rewrite Ht. unfold tell. rewrite !W_Emit32_Out, !length_app, !length_le32.
      cbn [length]. lia.
    + by constructor.
Qed.

Lemma EmitPPCond_Out tbl W off W' :
  EmitPPCond W off 0 tbl = Ok W' →
  Z.of_nat (length tbl) < 2 ^ 32 →
  Out W' = Out W ++ concat (imap (PPCond_entry_bytes off) tbl).
Proof.
  intros H Hb.
  destruct (EmitPPCond_tell _ _ _ _ _ H) as (_ & _ & _ & _ & _ & _ & _ & HF).
  destruct (EmitPPCond_ok tbl W off 0) as (W1 & H1 & HO); [|done|].
  { intros j e Hj. rewrite Forall_forall in HF. apply HF.
    by eapply list_elem_of_lookup_2. }
  change (Z.of_nat 0) with 0 in H1. rewrite H in H1. injection H1 as <-.
  done.
Qed.

Lemma LexTokens_inv L W E W' :
  LexTokens PP L W = Ok (E, W') →
  ∃ (pad : nat) Ts T js W1 St,
    (pad < 4)%nat ∧ (tell (Out W) + Z.of_nat pad) mod 4 = 0 ∧
    stretch PP (Ts ++ [T]) js (set_Out W (Out W ++ replicate pad 0))
            (mkLexState [] [] false) W1 St ∧
    Tok_is T tok_eof = true ∧ PPStartCond St = [] ∧
    E = mkPTHEntry (u32 (tell (Out W) + Z.of_nat pad)) (u32 (tell (Out W1))) ∧
    EmitPPCond (W_Emit32 W1 (Z.of_nat (length (PPCond St))))
               (u32 (tell (Out W) + Z.of_nat pad)) 0 (PPCond St) = Ok W'.
Proof.
  unfold LexTokens. intros H.
  destruct (Pad4 (Out W)) as (pad & Hpad & HP & Hmod). rewrite HP in H.
  assert (Ht : tell (Out (set_Out W (Out W ++ replicate pad 0)))
               = tell (Out W) + Z.of_nat pad).
  { unfold tell. cbn [Out set_Out]. rewrite length_app, length_replicate. lia. }
  rewrite Ht in H.
  destruct (LexFromRawLexer L) as [Tok L'].
  destruct (LexLoop PP _ Tok L' _ _) as [[St W1]|] eqn:HL; [|done].
  cbn [mbind Res_bind] in H.
  destruct (bool_decide (PPStartCond St = [])) eqn:Hst;
    cbn [assert mbind Res_bind] in H; [|done].
  apply bool_decide_eq_true in Hst.
  destruct (EmitPPCond _ _ _ _) as [W2|] eqn:HE; [|done].
  cbn [mbind Res_bind] in H. injection H as <- <-.
  destruct (LexLoop_emits _ _ _ _ _ _ _ HL) as (Ts & T & js & Hs & HT).
  by eexists pad, Ts, T, js, W1, St.
Qed.

(** X8.  When [LexTokens] returns, it has only appended to the stream:
    zero bytes up to a multiple of 4, where the token data start; then a
    whole number of 12-byte records, at least one, the last being that
    of the [eof] token; then, where the table starts, the count of its
    entries and 8 bytes an entry.  The file map is left as it was. *)
Theorem LexTokens_stream (L : Lexer) (W : PTHWriter) (E : PTHEntry)
    (W' : PTHWriter) :
  LexTokens PP L W = Ok (E, W') → tell (Out W') < 2 ^ 32 →
  ∃ (pad : nat) Ts T W1 recs tbl,
    (pad < 4)%nat ∧
    EmitTokens PP (Ts ++ [T]) (set_Out W (Out W ++ replicate pad 0)) = Ok W1 ∧
    Tok_is T tok_eof = true ∧
    Out W1 = Out W ++ replicate pad 0 ++ recs ∧
    Z.of_nat (length recs) = 12 * (Z.of_nat (length Ts) + 1) ∧
    Out W' = Out W1 ++ PPCond_bytes (TokenData E) tbl ∧
    TokenData E = tell (Out W) + Z.of_nat pad ∧
    TokenData E mod 4 = 0 ∧
    PPCondData E = TokenData E + 12 * (Z.of_nat (length Ts) + 1) ∧
    tell (Out W') = PPCondData E + 4 + 8 * Z.of_nat (length tbl) ∧
    PM W' = PM W.
Proof.
  intros H Hb.
  destruct (LexTokens_inv _ _ _ _ H)
    as (pad & Ts & T & js & W1 & St & Hpad & Hmod & Hs & HT & _ & -> & HE).
  destruct Hs as (HET & _).
  destruct (EmitTokens_tell _ _ _ HET) as (Ht1 & HPM1 & recs & HO1 & Hl1).
  destruct (EmitPPCond_tell _ _ _ _ _ HE) as (Ht2 & HPM2 & _).
  cbn [Out set_Out PM] in *.
  assert (Htp : tell (Out W ++ replicate pad 0) = tell (Out W) + Z.of_nat pad).
  { unfold tell. rewrite length_app, length_replicate. lia. }
  rewrite Htp, length_app in *. cbn [length] in *.
  assert (Htw : tell (Out (W_Emit32 W1 (Z.of_nat (length (PPCond St)))))
                = tell (Out W1) + 4).
  { unfold tell. rewrite W_Emit32_Out, length_app, length_le32. lia. }
  rewrite Htw in Ht2.
  assert (H0 : 0 ≤ tell (Out W)) by (unfold tell; lia).
  rewrite (u32_small (tell (Out W) + Z.of_nat pad)) in * by lia.
  rewrite (u32_small (tell (Out W1))) by lia.
  eexists pad, Ts, T, W1, recs, (PPCond St). cbn [TokenData PPCondData].
  split_and!; try done; try lia.
  - by rewrite HO1, <- app_assoc.
  - rewrite (EmitPPCond_Out _ _ _ _ HE) by lia.
    by rewrite W_Emit32_Out, <- app_assoc.
  - by rewrite HPM2.
Qed.

Lemma le32_congr a b : u32 a = u32 b → le32 a = le32 b.
Proof. intros H. unfold le32, Emit32. by rewrite H. Qed.

Lemma PPCond_bytes_shape off tbl : ∀ js (i0 : nat),
  tbl.*1 = (λ j : nat, u32 (off + 12 * Z.of_nat j)) <$> js →
  concat (imap (λ i, PPCond_entry_bytes (u32 off) (i0 + i)) tbl)
  = concat (zip_with (λ (j : nat) t, le32 (12 * Z.of_nat j) ++ le32 t) js
              (imap (λ i e, if e.2 =? Z.of_nat (i0 + i) then 0 else e.2)
                    tbl)).
Proof.
  induction tbl as [|[first second] tbl IH]; intros [|j js] i0 Hf;
    try done.
  cbn [fmap list_fmap fst] in Hf. injection Hf as -> Hf.
  rewrite !imap_cons. cbn [zip_with concat]. f_equal.
  - unfold PPCond_entry_bytes. cbn [fst snd]. f_equal.
    apply le32_congr. unfold u32.
    rewrite <- Zminus_mod. f_equal. lia.
  - etrans; [|etrans; [exact (IH js (S i0) Hf)|]].
    + f_equal. apply imap_ext. intros i e _. cbn.
      by replace (i0 + S i)%nat with (S (i0 + i)) by lia.
    + do 2 f_equal. apply imap_ext. intros i e _. cbn.
      by replace (i0 + S i)%nat with (S (i0 + i)) by lia.
Qed.

(** X9.  When [LexTokens] returns, the table it has written after the
    records is the count of its entries, then for each entry the offset
    of a record, relative to the start of the token data, and a target.
    The offsets are [12 j] for increasing record numbers [j], each the
    record of a [#] token that starts a line. *)
Theorem PPCond_entries_point_at_hash (L : Lexer) (W : PTHWriter)
    (E : PTHEntry) (W' : PTHWriter) :
  LexTokens PP L W = Ok (E, W') → tell (Out W') < 2 ^ 32 →
  ∃ (pad : nat) Ts W1 js targets,
    EmitTokens PP Ts (set_Out W (Out W ++ replicate pad 0)) = Ok W1 ∧
    TokenData E = tell (Out W) + Z.of_nat pad ∧
    PPCondData E = tell (Out W1) ∧
    length targets = length js ∧
    StronglySorted Nat.lt js ∧
    Forall (λ j, ∃ T, Ts !! j = Some T ∧ Tok_is T tok_hash = true ∧
                      isAtStartOfLine PP T = true ∧
                      TokenData E + 12 * Z.of_nat j + 12 ≤ PPCondData E) js ∧
    Out W' = Out W1 ++ le32 (Z.of_nat (length js))
             ++ concat (zip_with (λ (j : nat) t,
                                    le32 (12 * Z.of_nat j) ++ le32 t)
                                 js targets).
Proof.
  intros H Hb.
  destruct (LexTokens_inv _ _ _ _ H)
    as (pad & Ts & T & js & W1 & St & Hpad & Hmod & Hs & HT & _ & -> & HE).
  destruct Hs as (HET & Hfst & HF & Hsort).
  destruct (EmitTokens_tell _ _ _ HET) as (Ht1 & _).
  destruct (EmitPPCond_tell _ _ _ _ _ HE) as (Ht2 & _).
  cbn [Out set_Out PM PPCond fmap list_fmap app] in *.
  assert (Htp : tell (Out W ++ replicate pad 0) = tell (Out W) + Z.of_nat pad).
  { unfold tell. rewrite length_app, length_replicate. lia. }
  rewrite Htp in *.
  assert (Htw : tell (Out (W_Emit32 W1 (Z.of_nat (length (PPCond St)))))
                = tell (Out W1) + 4).
  { unfold tell. rewrite W_Emit32_Out, length_app, length_le32. lia. }
  rewrite Htw in Ht2.
  assert (H0 : 0 ≤ tell (Out W)) by (unfold tell; lia).
  assert (Hlen : length (PPCond St) = length js).
  { by rewrite <- (length_fmap fst), Hfst, length_fmap. }
  eexists pad, (Ts ++ [T]), W1, js,
    (imap (λ i e, if e.2 =? Z.of_nat i then 0 else e.2) (PPCond St)).
  cbn [TokenData PPCondData].
  rewrite (u32_small (tell (Out W) + Z.of_nat pad)) by lia.
  rewrite (u32_small (tell (Out W1))) by lia.
  split_and!; try done.
  - by rewrite length_imap.
  - eapply Forall_impl; [exact HF|]. intros j (T' & Hj & Hh & Hsol).
    exists T'. split_and!; try done. apply lookup_lt_Some in Hj. lia.
  - rewrite (EmitPPCond_Out _ _ _ _ HE) by lia.
    rewrite W_Emit32_Out, <- app_assoc, Hlen. do 2 f_equal.
    apply (PPCond_bytes_shape (tell (Out W) + Z.of_nat pad) (PPCond St) js 0).
    exact Hfst.
Qed.

End Stream.


(** * Conditionals that are not balanced *)

Lemma unbalanced_step d depth rest :
  balanced_from depth (option_list d ++ rest) = false →
  (∃ K, d = Some K ∧ (K = pp_endif ∨ K = pp_elif ∨ K = pp_else) ∧
        depth = 0%nat) ∨
  ((∀ K, d = Some K → K = pp_endif ∨ K = pp_elif ∨ K = pp_else →
         depth ≠ 0%nat) ∧
   balanced_from (depth_after d depth) rest = false).
Proof.
  destruct d as [K|]; cbn [option_list app].
  2:{ intros H. right. done. }
  intros Hbal.
  destruct depth as [|depth].
  - destruct K; cbn in Hbal |- *;
      try (right; split; [by intros K' [= <-] [?|[?|?]]|done]).
    all: left; eexists; split; [done|]; split; [tauto|done].
  - right. split; [done|]. by destruct K.
Qed.

Section Unbalanced.
Variable PP : Preprocessor.

Ltac emit_goal :=
  match goal with
  | |- context [EmitToken PP ?T ?W] =>
      let W' := fresh "W" in
      destruct (EmitToken_total PP T W) as (W' & -> & _);
      cbn [mbind Res_bind]
  end.

Lemma LexBody_underflow Tok L St W next K :
  ScanBody PP Tok L = Ok (next, Some K) →
  K = pp_endif ∨ K = pp_elif ∨ K = pp_else →
  PPStartCond St = [] →
  LexBody PP Tok L St W = Err AssertionFailed.
Proof.
  intros HS HK Hst.
  destruct (InsertEOM_cases PP Tok St W) as (St1 & W1 & HI & HP1 & HS1 & HPD).
  unfold LexBody. rewrite HI. cbn [mbind Res_bind]. unfold ScanBody in HS.
  rewrite <- HS1 in Hst. clear HI HP1 HS1.
  destruct (Tok_is Tok tok_identifier); [done|].
  destruct (Tok_is Tok tok_hash && isAtStartOfLine PP Tok) eqn:Hh; [|done].
  apply andb_prop in Hh as [_ Hsol]. rewrite (HPD Hsol).
  cbn [negb assert mbind Res_bind]. emit_goal.
  destruct (LexFromRawLexer L) as [Tok2 L2].
  destruct (isAtStartOfLine PP Tok2); cbn [negb assert mbind Res_bind] in *;
    [done|].
  destruct (Tok_is Tok2 tok_identifier); cbn [negb] in *; [|done].
  destruct (getPPKeywordID PP (LookUpIdentifierInfo PP Tok2)) eqn:HK2;
    rewrite ?bool_decide_eq_false_2, ?bool_decide_eq_true_2 in HS |- * by done;
    cbn [negb assert mbind Res_bind] in HS |- *;
    try discriminate HS.
  all: try (destruct (LexIncludeFilename L2) as [Tok3 L3];
            destruct (isAtStartOfLine PP Tok3);
            cbn [negb assert mbind Res_bind] in HS; discriminate HS).
  all: try (injection HS as <- <-; destruct HK as [?|[?|?]]; discriminate).
  all: unfold Backpatch; cbn [PPStartCond]; rewrite Hst; done.
Qed.

Lemma LexLoop_unbalanced fuel : ∀ Tok L St W p ds,
  ScanLoop PP fuel Tok L = Ok ds →
  ppcond_inv p St →
  Z.of_nat (length p) + Z.of_nat (length ds) + 1 < 2 ^ 32 →
  balanced_from (length (PPStartCond St)) ds = false →
  LexLoop PP fuel Tok L St W = Err AssertionFailed ∨
  ∃ St' W', LexLoop PP fuel Tok L St W = Ok (St', W') ∧
            PPStartCond St' ≠ [].
Proof.
  induction fuel as [|fuel IH]; intros Tok L St W p ds HS Hinv Hb Hbal;
    [done|].
  cbn [ScanLoop] in HS.
  destruct (ScanBody PP Tok L) as [[next d]|] eqn:HB; [|done].
  cbn [mbind Res_bind] in HS.
  match type of HS with
  | mbind _ ?r = _ => destruct r as [rest|] eqn:Hrest; [|done]
  end.
  cbn [mbind Res_bind] in HS. injection HS as <-.
  rewrite length_app in Hb.
  destruct (unbalanced_step _ _ _ Hbal) as [(K & -> & HK & Hd)|(Hal & Hbal')].
  { left. cbn [LexLoop].
    rewrite (LexBody_underflow Tok L St W next K HB HK); [done|].
    by apply length_zero_iff_nil. }
  destruct (LexBody_scan PP Tok L St W next d p HB Hinv)
    as (St1 & W1 & HL & Hinv1 & Hlen1).
  { lia. }
  { intros K HK Hc Hnil. eapply Hal; eauto. by rewrite Hnil. }
  rewrite <- Hlen1 in Hbal'.
  cbn [LexLoop]. rewrite HL. cbn [mbind Res_bind].
  assert (Hb1 : Z.of_nat (length (p ++ option_list d))
                + Z.of_nat (length rest) + 1 < 2 ^ 32).
  { rewrite length_app. lia. }
  destruct next as [Tok' L'|Tok' L'].
  - by eapply IH.
  - destruct (Tok_isNot Tok' tok_eof).
    + destruct (LexFromRawLexer L') as [Tok2 L2]. by eapply IH.
    + injection Hrest as <-. right. eexists _, _. split; [done|].
      cbn in Hbal'. apply bool_decide_eq_false in Hbal'.
      intros Hnil. apply Hbal'. by rewrite Hnil.
Qed.

(** X10.  On a file whose conditional directives are not balanced, an
    [#endif], [#elif] or [#else] without an open conditional or a
    conditional left open at the end of the file, [LexTokens] fails by
    one of its assertions. *)
Theorem LexTokens_unbalanced (L : Lexer) (W : PTHWriter)
    (ds : list PPKeywordKind) :
  PPDirectives PP L = Ok ds → balanced ds = false →
  Z.of_nat (length ds) + 1 < 2 ^ 32 →
  LexTokens PP L W = Err AssertionFailed.
Proof.
  intros HD Hbal Hb. unfold PPDirectives in HD. unfold LexTokens.
  destruct (LexFromRawLexer L) as [Tok L'].
  destruct (LexLoop_unbalanced (LexTokens_fuel L) Tok L'
              (mkLexState [] [] false) (set_Out W (Pad (Out W) 4)) [] ds
              HD ppcond_inv_nil) as [->|(St & W1 & -> & Hst)].
  { cbn [length]. lia. }
  { exact Hbal. }
  - done.
  - cbn [mbind Res_bind]. rewrite bool_decide_eq_false_2 by done. done.
Qed.

End Unbalanced.


(** * Files without directives *)

Section Plain.
Variable PP : Preprocessor.

Lemma LexBody_plain Tok L St W :
  ParsingPreprocessorDirective St = false →
  (Tok_is Tok tok_hash && isAtStartOfLine PP Tok) = false →
  ∃ W1, EmitToken PP (looked_up PP Tok) W = Ok W1 ∧
    LexBody PP Tok L St W = Ok (LoopCondition (looked_up PP Tok) L, (St, W1)).
Proof.
  intros HPD Hh. unfold LexBody, looked_up.
  rewrite InsertEOM_skip by (rewrite HPD; apply andb_false_r).
  cbn [mbind Res_bind].
  destruct (Tok_is Tok tok_identifier).
  - destruct (EmitToken_total PP
                (setIdentifierInfo Tok (LookUpIdentifierInfo PP Tok)) W)
      as (W1 & HE & _).
    exists W1. rewrite HE. done.
  - rewrite Hh. destruct (EmitToken_total PP Tok W) as (W1 & HE & _).
    exists W1. rewrite HE. done.
Qed.

Lemma looked_up_eof T : Tok_is (looked_up PP T) tok_eof = Tok_is T tok_eof.
Proof. unfold looked_up. by destruct (Tok_is T tok_identifier). Qed.

Lemma LexLoop_plain toks : ∀ fuel bend St W Tok,
  ParsingPreprocessorDirective St = false →
  Forall (λ T, plain_token PP T = true) (Tok :: toks) →
  (length toks + 2 ≤ fuel)%nat →
  ∃ W1,
    EmitTokens PP ((looked_up PP <$> Tok :: toks)
                   ++ [eof_token (mkLexer toks bend)]) W = Ok W1 ∧
    LexLoop PP fuel Tok (mkLexer toks bend) St W = Ok (St, W1).
Proof.
  induction toks as [|T toks IH]; intros fuel bend St W Tok HPD HF Hf.
  - destruct fuel as [|[|fuel]]; cbn [length] in Hf; try lia.
    apply Forall_cons in HF as [HT _]. unfold plain_token in HT.
    apply andb_prop in HT as [He Hh]. apply negb_true_iff in He, Hh.
    destruct (LexBody_plain Tok (mkLexer [] bend) St W HPD Hh)
      as (W1 & HE1 & HB1).
    destruct (LexBody_plain (eof_token (mkLexer [] bend)) (mkLexer [] bend)
                St W1 HPD eq_refl) as (W2 & HE2 & HB2).
    exists W2. split.
    + cbn [fmap list_fmap app EmitTokens]. rewrite HE1. cbn [mbind Res_bind].
      change (looked_up PP (eof_token (mkLexer [] bend)))
        with (eof_token (mkLexer [] bend)) in HE2.
      rewrite HE2. done.
    + cbn [LexLoop]. rewrite HB1. cbn [mbind Res_bind].
      unfold Tok_isNot. rewrite looked_up_eof, He. cbn [negb].
      cbn [LexFromRawLexer Pending]. rewrite HB2. cbn [mbind Res_bind]. done.
  - destruct fuel as [|fuel]; cbn [length] in Hf; [lia|].
    apply Forall_cons in HF as [HT HF]. unfold plain_token in HT.
    apply andb_prop in HT as [He Hh]. apply negb_true_iff in He, Hh.
    destruct (LexBody_plain Tok (mkLexer (T :: toks) bend) St W HPD Hh)
      as (W1 & HE1 & HB1).
    destruct (IH fuel bend St W1 T HPD HF) as (W2 & HE2 & HL2); [lia|].
    exists W2. split.
    + rewrite fmap_cons. cbn [app EmitTokens]. rewrite HE1.
      cbn [mbind Res_bind]. exact HE2.
    + cbn [LexLoop]. rewrite HB1. cbn [mbind Res_bind].
      unfold Tok_isNot. rewrite looked_up_eof, He. cbn [negb].
      cbn [LexFromRawLexer Pending BufferEnd]. exact HL2.
Qed.

(** X11.  On a file none of whose tokens is a [#] at the start of a
    line, [LexTokens] writes, from an offset that is a multiple of 4,
    the records of the tokens of the file in their order, identifiers
    with their table entry looked up, then the record of the [eof]
    token, then an empty table: the count 0. *)
Theorem LexTokens_plain (L : Lexer) (W : PTHWriter) :
  Forall (λ T, plain_token PP T = true) (Pending L) →
  let W0 := set_Out W (Pad (Out W) 4) in
  ∃ W1,
    EmitTokens PP ((looked_up PP <$> Pending L) ++ [eof_token L]) W0
    = Ok W1 ∧
    LexTokens PP L W
    = Ok (mkPTHEntry (u32 (tell (Out W0))) (u32 (tell (Out W1))),
          W_Emit32 W1 0).
Proof.
  intros HF W0. unfold LexTokens. fold W0.
  destruct L as [toks bend]. cbn [Pending] in HF.
  unfold LexTokens_fuel. cbn [Pending LexFromRawLexer].
  destruct toks as [|T toks].
  - destruct (LexBody_plain (eof_token (mkLexer [] bend)) (mkLexer [] bend)
                (mkLexState [] [] false) W0 eq_refl eq_refl)
      as (W1 & HE & HB).
    change (looked_up PP (eof_token (mkLexer [] bend)))
      with (eof_token (mkLexer [] bend)) in *.
    exists W1. split.
    + cbn [fmap list_fmap app EmitTokens]. by rewrite HE.
    + unfold LexFromRawLexer. cbn [Pending LexLoop length]. rewrite HB.
      cbn [mbind Res_bind]. done.
  - destruct (LexLoop_plain toks (S (S (length (T :: toks)))) bend
                (mkLexState [] [] false) W0 T eq_refl HF)
      as (W1 & HE & HL); [cbn [length]; lia|].
    exists W1. split; [exact HE|].
    unfold LexFromRawLexer. cbn [Pending BufferEnd]. rewrite HL.
    cbn [mbind Res_bind]. done.
Qed.

End Plain.


(** * Directives *)

Lemma skip_to_line_start_spec sol toks :
  match skip_to_line_start sol toks with
  | Some (T, rest) =>
      ∃ junk, toks = junk ++ T :: rest ∧
        Forall (λ T', Tok_is T' tok_eof = false ∧ sol T' = false) junk ∧
        (Tok_is T tok_eof = true ∨ sol T = true)
  | None =>
      Forall (λ T', Tok_is T' tok_eof = false ∧ sol T' = false) toks
  end.
Proof.
  induction toks as [|T toks IH]; cbn [skip_to_line_start]; [done|].
  destruct (Tok_is T tok_eof) eqn:He; cbn [negb andb].
  { exists []. split_and!; [done|done|by left]. }
  destruct (sol T) eqn:Hs; cbn [negb].
  { exists []. split_and!; [done|done|by right]. }
  destruct (skip_to_line_start sol toks) as [[T' rest]|].
  - destruct IH as (junk & -> & HF & HT). exists (T :: junk).
    split_and!; [done| |done]. by constructor.
  - by constructor.
Qed.

Section Directives.
Variable PP : Preprocessor.

Ltac emit_keep H :=
  match type of H with
  | context [EmitToken PP ?T ?W] =>
      let W' := fresh "W" in
      let E := fresh "E" in
      destruct (EmitToken PP T W) as [W'|] eqn:E;
      cbn [mbind Res_bind] in H; [|discriminate H]
  | context [assert ?b] =>
      destruct b eqn:?; cbn [assert mbind Res_bind] in H; [|discriminate H]
  | context [Backpatch ?St ?i] =>
      let HB := fresh "HB" in
      let Stb := fresh "Stb" in
      destruct (Backpatch St i) as [Stb|] eqn:HB;
      cbn [mbind Res_bind] in H; [|discriminate H]
  end.

Lemma hash_not_PPD Tok St W St1 W1 :
  isAtStartOfLine PP Tok = true →
  InsertEOM PP Tok St W = Ok (St1, W1) →
  ParsingPreprocessorDirective St1 = false.
Proof.
  intros Hsol HI.
  destruct (InsertEOM_cases PP Tok St W) as (St1' & W1' & HI' & _ & _ & HPD).
  rewrite HI in HI'. injection HI' as <- <-. by apply HPD.
Qed.

Lemma hash_not_identifier Tok :
  Tok_is Tok tok_hash = true → Tok_is Tok tok_identifier = false.
Proof.
  unfold Tok_is. intros H%bool_decide_eq_true.
  apply bool_decide_eq_false. by rewrite H.
Qed.

(** X12.  A [#] that starts a line and is followed by a token that
    starts a line too, or by a name that is no directive, makes the
    loop body fail by assertion.  Followed on its line by a token that
    is no identifier it is written, the token after it is written, and
    the loop goes on outside of any directive. *)
Theorem malformed_directive (Tok : Token) (L : Lexer) (St : LexState)
    (W : PTHWriter) :
  Tok_is Tok tok_hash = true → isAtStartOfLine PP Tok = true →
  let Tok2 := (LexFromRawLexer L).1 in
  let L2 := (LexFromRawLexer L).2 in
  if isAtStartOfLine PP Tok2 then
    LexBody PP Tok L St W = Err AssertionFailed
  else if Tok_is Tok2 tok_identifier then
    getPPKeywordID PP (LookUpIdentifierInfo PP Tok2) = pp_not_keyword →
    LexBody PP Tok L St W = Err AssertionFailed
  else
    ∃ St1 W1 W',
      InsertEOM PP Tok St W = Ok (St1, W1) ∧
      EmitTokens PP [Tok; Tok2] W1 = Ok W' ∧
      LexBody PP Tok L St W = Ok (LoopCondition Tok2 L2, (St1, W')) ∧
      ParsingPreprocessorDirective St1 = false.
Proof.
  intros Hh Hsol Tok2 L2.
  destruct (InsertEOM PP Tok St W) as [[St1 W1]|] eqn:HI.
  2:{ destruct (InsertEOM_cases PP Tok St W) as (? & ? & HI' & _).
      congruence. }
  pose proof (hash_not_PPD _ _ _ _ _ Hsol HI) as HPD.
  unfold LexBody. rewrite HI. cbn [mbind Res_bind].
  rewrite (hash_not_identifier _ Hh), Hh, Hsol, HPD.
  cbn [andb negb assert mbind Res_bind].
  destruct (EmitToken_total PP Tok W1) as (W2 & HE2 & _). rewrite HE2.
  cbn [mbind Res_bind].
  subst Tok2 L2. destruct (LexFromRawLexer L) as [Tok2 L2]. cbn [fst snd].
  destruct (isAtStartOfLine PP Tok2); cbn [negb assert mbind Res_bind];
    [done|].
  destruct (Tok_is Tok2 tok_identifier); cbn [negb].
  - intros ->. rewrite bool_decide_eq_true_2 by done. done.
  - destruct (EmitToken_total PP Tok2 W2) as (W3 & HE3 & _). rewrite HE3.
    cbn [mbind Res_bind]. exists St1, W1, W3. split_and!; try done.
    cbn [EmitTokens]. rewrite HE2. cbn [mbind Res_bind]. by rewrite HE3.
Qed.

(** X13.  For [#include], [#import] and [#include_next] the loop body
    writes three records, those of the [#], of the directive name and of
    the header name, lexed as one token and looked up when it is an
    identifier; it enters directive mode and leaves the table and the
    stack of conditionals as they were.  A header name that starts a
    line makes it fail by assertion. *)
Theorem include_directive (Tok : Token) (L : Lexer) (St : LexState)
    (W : PTHWriter) :
  Tok_is Tok tok_hash = true → isAtStartOfLine PP Tok = true →
  let Tok2 := (LexFromRawLexer L).1 in
  let L2 := (LexFromRawLexer L).2 in
  let Tok3 := (LexIncludeFilename L2).1 in
  let L3 := (LexIncludeFilename L2).2 in
  let K := getPPKeywordID PP (LookUpIdentifierInfo PP Tok2) in
  isAtStartOfLine PP Tok2 = false → Tok_is Tok2 tok_identifier = true →
  K = pp_include ∨ K = pp_import ∨ K = pp_include_next →
  if isAtStartOfLine PP Tok3 then
    LexBody PP Tok L St W = Err AssertionFailed
  else
    ∃ St1 W1 W',
      InsertEOM PP Tok St W = Ok (St1, W1) ∧
      EmitTokens PP [Tok; looked_up PP Tok2; looked_up PP Tok3] W1 = Ok W' ∧
      LexBody PP Tok L St W
      = Ok (LoopCondition (looked_up PP Tok3) L3,
            (mkLexState (PPCond St1) (PPStartCond St1) true, W')) ∧
      PPCond St1 = PPCond St ∧ PPStartCond St1 = PPStartCond St.
Proof.
  intros Hh Hsol Tok2 L2 Tok3 L3 K Hsol2 Hid2 HK.
  destruct (InsertEOM_cases PP Tok St W) as (St1 & W1 & HI & HP1 & HS1 & HPD).
  specialize (HPD Hsol).
  unfold LexBody. rewrite HI. cbn [mbind Res_bind].
  rewrite (hash_not_identifier _ Hh), Hh, Hsol, HPD.
  cbn [andb negb assert mbind Res_bind].
  destruct (EmitToken_total PP Tok W1) as (W2 & HE2 & _). rewrite HE2.
  cbn [mbind Res_bind].
  subst Tok2 L2 Tok3 L3 K.
  destruct (LexFromRawLexer L) as [Tok2 L2]. cbn [fst snd] in *.
  rewrite Hsol2, Hid2. cbn [negb assert mbind Res_bind].
  assert (Hnk : bool_decide (getPPKeywordID PP (LookUpIdentifierInfo PP Tok2)
                             = pp_not_keyword) = false).
  { apply bool_decide_eq_false. destruct HK as [->|[->| ->]]; done. }
  rewrite Hnk. cbn [negb assert mbind Res_bind].
  destruct (EmitToken_total PP
              (setIdentifierInfo Tok2 (LookUpIdentifierInfo PP Tok2)) W2)
    as (W3 & HE3 & _).
  destruct (LexIncludeFilename L2) as [Tok3 L3] eqn:HL3. cbn [fst snd].
  destruct (EmitToken_total PP (looked_up PP Tok3) W3) as (W4 & HE4 & _).
  destruct (isAtStartOfLine PP Tok3) eqn:Hsol3.
  - destruct HK as [->|[->| ->]]; rewrite HE3; done.
  - exists St1, W1, W4. split_and!; try done.
    + assert (Hl2 : looked_up PP Tok2
                    = setIdentifierInfo Tok2 (LookUpIdentifierInfo PP Tok2))
        by (unfold looked_up; by rewrite Hid2).
      cbn [EmitTokens]. rewrite HE2. cbn [mbind Res_bind].
      rewrite Hl2, HE3. cbn [mbind Res_bind]. by rewrite HE4.
    + unfold looked_up in HE4 |- *.
      destruct HK as [->|[->| ->]]; rewrite HE3;
        cbn [negb assert mbind Res_bind]; rewrite HE4; done.
Qed.

(** X17.  For a directive that is neither an inclusion nor a
    conditional, [#define] or [#pragma] say, the loop body writes the
    records of the [#] and of the directive name, enters directive mode
    and leaves the table and the stack of conditionals as they were; the
    tokens of the line are left to the turns of the loop that follow. *)
Theorem other_directive (Tok : Token) (L : Lexer) (St : LexState)
    (W : PTHWriter) :
  Tok_is Tok tok_hash = true → isAtStartOfLine PP Tok = true →
  let Tok2 := (LexFromRawLexer L).1 in
  let L2 := (LexFromRawLexer L).2 in
  let K := getPPKeywordID PP (LookUpIdentifierInfo PP Tok2) in
  isAtStartOfLine PP Tok2 = false → Tok_is Tok2 tok_identifier = true →
  plain_directive K = true →
  ∃ St1 W1 W',
    InsertEOM PP Tok St W = Ok (St1, W1) ∧
    EmitTokens PP [Tok; looked_up PP Tok2] W1 = Ok W' ∧
    LexBody PP Tok L St W
    = Ok (LoopCondition (looked_up PP Tok2) L2,
          (mkLexState (PPCond St1) (PPStartCond St1) true, W')) ∧
    PPCond St1 = PPCond St ∧ PPStartCond St1 = PPStartCond St.
Proof.
  intros Hh Hsol Tok2 L2 K Hsol2 Hid2 HK.
  destruct (InsertEOM_cases PP Tok St W) as (St1 & W1 & HI & HP1 & HS1 & HPD).
  specialize (HPD Hsol).
  unfold LexBody. rewrite HI. cbn [mbind Res_bind].
  rewrite (hash_not_identifier _ Hh), Hh, Hsol, HPD.
  cbn [andb negb assert mbind Res_bind].
  destruct (EmitToken_total PP Tok W1) as (W2 & HE2 & _). rewrite HE2.
  cbn [mbind Res_bind].
  subst Tok2 L2 K.
  destruct (LexFromRawLexer L) as [Tok2 L2]. cbn [fst snd] in *.
  rewrite Hsol2, Hid2. cbn [negb assert mbind Res_bind].
  assert (Hl2 : looked_up PP Tok2
                = setIdentifierInfo Tok2 (LookUpIdentifierInfo PP Tok2))
    by (unfold looked_up; by rewrite Hid2).
  destruct (EmitToken_total PP
              (setIdentifierInfo Tok2 (LookUpIdentifierInfo PP Tok2)) W2)
    as (W3 & HE3 & _).
  exists St1, W1, W3. split_and!; try done.
  - cbn [EmitTokens]. rewrite HE2. cbn [mbind Res_bind].
    rewrite Hl2, HE3. done.
  - rewrite Hl2.
    destruct (getPPKeywordID PP (LookUpIdentifierInfo PP Tok2));
      try discriminate HK;
      cbn [bool_decide decide_rel negb assert mbind Res_bind];
      rewrite ?bool_decide_eq_false_2 by discriminate;
      cbn [negb assert mbind Res_bind]; rewrite HE3; done.
Qed.

(** X14.  After [#endif] the rest of the line is dropped: when the loop
    body returns, it has written the records of the [#] and of [endif]
    and no other, and it hands over, without lexing again, the first
    token after them that is the end of the file or starts a line; the
    tokens in between get no record. *)
Theorem endif_discards_line (Tok : Token) (L : Lexer) (St : LexState)
    (W : PTHWriter) (next : Next) (St' : LexState) (W' : PTHWriter) :
  Tok_is Tok tok_hash = true → isAtStartOfLine PP Tok = true →
  let Tok2 := (LexFromRawLexer L).1 in
  let L2 := (LexFromRawLexer L).2 in
  isAtStartOfLine PP Tok2 = false → Tok_is Tok2 tok_identifier = true →
  getPPKeywordID PP (LookUpIdentifierInfo PP Tok2) = pp_endif →
  LexBody PP Tok L St W = Ok (next, (St', W')) →
  ∃ St1 W1 junk T rest,
    InsertEOM PP Tok St W = Ok (St1, W1) ∧
    EmitTokens PP [Tok; looked_up PP Tok2] W1 = Ok W' ∧
    next = GotoNextToken T (mkLexer rest (BufferEnd L2)) ∧
    Forall (λ T', Tok_is T' tok_eof = false ∧
                  isAtStartOfLine PP T' = false) junk ∧
    ((Pending L2 = junk ++ T :: rest ∧
      (Tok_is T tok_eof = true ∨ isAtStartOfLine PP T = true)) ∨
     (Pending L2 = junk ∧ T = eof_token L2 ∧ rest = [])) ∧
    length (PPCond St') = S (length (PPCond St)).
Proof.
  intros Hh Hsol Tok2 L2 Hsol2 Hid2 HK H.
  destruct (InsertEOM_cases PP Tok St W) as (St1 & W1 & HI & HP1 & HS1 & HPD).
  specialize (HPD Hsol).
  unfold LexBody in H. rewrite HI in H. cbn [mbind Res_bind] in H.
  rewrite (hash_not_identifier _ Hh), Hh, Hsol, HPD in H.
  cbn [andb negb assert mbind Res_bind] in H.
  emit_keep H. subst Tok2 L2.
  destruct (LexFromRawLexer L) as [Tok2 L2]. cbn [fst snd] in *.
  rewrite Hsol2, Hid2, HK in H. cbn [negb] in H.
  rewrite bool_decide_eq_false_2 in H by done.
  cbn [negb assert mbind Res_bind] in H.
  do 2 emit_keep H.
  assert (HE' : EmitTokens PP [Tok; looked_up PP Tok2] W1 = Ok W2).
  { cbn [EmitTokens]. rewrite E. cbn [mbind Res_bind].
    unfold looked_up. rewrite Hid2, E0. done. }
  assert (Hlen : length (PPCond Stb ++ [(u32 (tell (Out W1)),
                   u32 (Z.of_nat (length (PPCond St1))))])
                 = S (length (PPCond St))).
  { rewrite length_app, <- (length_fmap fst (PPCond Stb)).
    rewrite (proj1 (Backpatch_fst _ _ _ HB)). cbn [PPCond length].
    rewrite length_fmap, HP1. lia. }
  pose proof (skip_to_line_start_spec (isAtStartOfLine PP) (Pending L2))
    as Hskip.
  destruct (skip_to_line_start _ _) as [[T rest]|].
  - destruct Hskip as (junk & HP & HF & HT).
    injection H as <- <- <-.
    exists St1, W1, junk, T, rest. split_and!; try done. by left.
  - injection H as <- <- <-.
    exists St1, W1, (Pending L2), (eof_token L2), [].
    split_and!; try done. by right.
Qed.

End Directives.


(** * The conditional directives and their table entries *)

Section Conditionals.
Variable PP : Preprocessor.

Lemma Tok_is_other T K K' :
  Tok_is T K = true → K ≠ K' → Tok_is T K' = false.
Proof.
  unfold Tok_is. intros H%bool_decide_eq_true Hne.
  apply bool_decide_eq_false. congruence.
Qed.

Lemma file_conditionals_skip T rest :
  Tok_is T tok_eof = false →
  Tok_is T tok_hash && isAtStartOfLine PP T = false →
  file_conditionals PP (T :: rest) = file_conditionals PP rest.
Proof. intros He Hh. cbn [file_conditionals]. by rewrite He, Hh. Qed.

Lemma file_conditionals_eof T rest :
  Tok_is T tok_eof = true → file_conditionals PP (T :: rest) = [].
Proof. intros He. cbn [file_conditionals]. by rewrite He. Qed.

Lemma file_conditionals_junk junk rest :
  Forall (λ T, Tok_is T tok_eof = false ∧ isAtStartOfLine PP T = false) junk →
  file_conditionals PP (junk ++ rest) = file_conditionals PP rest.
Proof.
  induction 1 as [|T junk [He Hs] _ IH]; [done|].
  cbn [app]. rewrite file_conditionals_skip; [done|done|].
  by rewrite Hs, andb_false_r.
Qed.

Lemma file_conditionals_lex L Tok L' :
  LexFromRawLexer L = (Tok, L') →
  file_conditionals PP (Tok :: Pending L') = file_conditionals PP (Pending L) ∧
  (Pending L = Tok :: Pending L' ∨
   (Pending L = [] ∧ Tok = eof_token L ∧ L' = L)).
Proof.
  unfold LexFromRawLexer. destruct (Pending L) as [|T r] eqn:HP.
  - intros [= <- <-]. rewrite HP. split; [done|]. by right.
  - intros [= <- <-]. split; [done|]. by left.
Qed.

(** What one turn of the scan contributes. *)
Lemma ScanBody_conditionals Tok L next d :
  ScanBody PP Tok L = Ok (next, d) →
  file_conditionals PP (Tok :: Pending L)
  = option_list d
    ++ match next with
       | LoopCondition Tok' L' =>
           if Tok_is Tok' tok_eof then []
           else file_conditionals PP (Pending L')
       | GotoNextToken Tok' L' => file_conditionals PP (Tok' :: Pending L')
       end.
Proof.
  unfold ScanBody. intros H.
  destruct (Tok_is Tok tok_identifier) eqn:Hid.
  { injection H as <- <-. cbn [option_list app].
    assert (He : Tok_is Tok tok_eof = false)
      by (by apply (Tok_is_other _ _ _ Hid)).
    assert (Hh : Tok_is Tok tok_hash = false)
      by (by apply (Tok_is_other _ _ _ Hid)).
    change (Tok_is (setIdentifierInfo Tok _) tok_eof) with (Tok_is Tok tok_eof).
    rewrite He. apply file_conditionals_skip; [done|by rewrite Hh]. }
  destruct (Tok_is Tok tok_hash && isAtStartOfLine PP Tok) eqn:Hh.
  2:{ injection H as <- <-. cbn [option_list app].
      destruct (Tok_is Tok tok_eof) eqn:He.
      - by apply file_conditionals_eof.
      - by apply file_conditionals_skip. }
  pose proof Hh as Hh'. apply andb_prop in Hh' as [Hhash Hsol].
  assert (He : Tok_is Tok tok_eof = false)
    by (by apply (Tok_is_other _ _ _ Hhash)).
  destruct (LexFromRawLexer L) as [Tok2 L2] eqn:HL2.
  destruct (file_conditionals_lex _ _ _ HL2) as (Hfc2 & Hcase2).
  destruct (isAtStartOfLine PP Tok2) eqn:Hsol2;
    cbn [negb assert mbind Res_bind] in H; [done|].
  assert (Hskip2 : ∀ r, file_conditionals PP (Tok2 :: r)
                        = if Tok_is Tok2 tok_eof then []
                          else file_conditionals PP r).
  { intros r. destruct (Tok_is Tok2 tok_eof) eqn:He2.
    - by apply file_conditionals_eof.
    - apply file_conditionals_skip; [done|]. by rewrite Hsol2, andb_false_r. }
  destruct (Tok_is Tok2 tok_identifier) eqn:Hid2; cbn [negb] in H.
  2:{ injection H as <- <-. cbn [option_list app].
      destruct Hcase2 as [HP|(HP & -> & ->)]; rewrite HP.
      - cbn [file_conditionals]. rewrite He, Hh, Hid2. cbn [andb app].
        apply Hskip2.
      - cbn [file_conditionals]. rewrite He, Hh. done. }
  assert (He2 : Tok_is Tok2 tok_eof = false)
    by (by apply (Tok_is_other _ _ _ Hid2)).
  destruct Hcase2 as [HP|(HP & HT2 & _)].
  2:{ rewrite HT2 in Hid2. done. }
  assert (Hfc : file_conditionals PP (Tok :: Pending L)
                = (if IsPPConditional
                        (getPPKeywordID PP (LookUpIdentifierInfo PP Tok2))
                   then [getPPKeywordID PP (LookUpIdentifierInfo PP Tok2)]
                   else [])
                  ++ file_conditionals PP (Pending L2)).
  { rewrite HP. cbn [file_conditionals].
    rewrite He, Hh, Hid2, Hsol2, He2, andb_false_r. cbn [andb negb app].
    done. }
  rewrite Hfc. clear Hfc.
  destruct (bool_decide (getPPKeywordID PP (LookUpIdentifierInfo PP Tok2)
                         = pp_not_keyword)) eqn:Hnk;
    cbn [negb assert mbind Res_bind] in H; [done|].
  destruct (getPPKeywordID PP (LookUpIdentifierInfo PP Tok2)) eqn:HK;
    cbn [IsPPConditional app].
  all: try (injection H as <- <-; cbn [option_list app];
            change (Tok_is (setIdentifierInfo Tok2 _) tok_eof)
              with (Tok_is Tok2 tok_eof);
            by rewrite He2).
  - (* endif *)
    pose proof (skip_to_line_start_spec (isAtStartOfLine PP) (Pending L2))
      as Hskip.
    destruct (skip_to_line_start _ _) as [[Tok3 rest]|].
    + injection H as <- <-. cbn [option_list app Pending]. f_equal.
      destruct Hskip as (junk & -> & HF & _).
      by apply file_conditionals_junk.
    + injection H as <- <-. cbn [option_list app Pending]. f_equal.
      rewrite <- (app_nil_r (Pending L2)).
      rewrite (file_conditionals_junk _ [] Hskip). done.
  - (* include *)
    destruct (LexIncludeFilename L2) as [Tok3 L3] eqn:HL3.
    destruct (file_conditionals_lex _ _ _ HL3) as (_ & Hcase3).
    destruct (isAtStartOfLine PP Tok3) eqn:Hsol3;
      cbn [negb assert mbind Res_bind] in H; [done|].
    injection H as <- <-. cbn [option_list app].
    assert (Heq : Tok_is (if Tok_is Tok3 tok_identifier
                          then setIdentifierInfo Tok3
                                 (LookUpIdentifierInfo PP Tok3)
                          else Tok3) tok_eof = Tok_is Tok3 tok_eof)
      by (by destruct (Tok_is Tok3 tok_identifier)).
    rewrite Heq.
    destruct Hcase3 as [HP3|(HP3 & -> & ->)]; rewrite HP3.
    + destruct (Tok_is Tok3 tok_eof) eqn:He3.
      * by apply file_conditionals_eof.
      * apply file_conditionals_skip; [done|]. by rewrite Hsol3, andb_false_r.
    + done.
  - destruct (LexIncludeFilename L2) as [Tok3 L3] eqn:HL3.
    destruct (file_conditionals_lex _ _ _ HL3) as (_ & Hcase3).
    destruct (isAtStartOfLine PP Tok3) eqn:Hsol3;
      cbn [negb assert mbind Res_bind] in H; [done|].
    injection H as <- <-. cbn [option_list app].
    assert (Heq : Tok_is (if Tok_is Tok3 tok_identifier
                          then setIdentifierInfo Tok3
                                 (LookUpIdentifierInfo PP Tok3)
                          else Tok3) tok_eof = Tok_is Tok3 tok_eof)
      by (by destruct (Tok_is Tok3 tok_identifier)).
    rewrite Heq.
    destruct Hcase3 as [HP3|(HP3 & -> & ->)]; rewrite HP3.
    + destruct (Tok_is Tok3 tok_eof) eqn:He3.
      * by apply file_conditionals_eof.
      * apply file_conditionals_skip; [done|]. by rewrite Hsol3, andb_false_r.
    + done.
  - destruct (LexIncludeFilename L2) as [Tok3 L3] eqn:HL3.
    destruct (file_conditionals_lex _ _ _ HL3) as (_ & Hcase3).
    destruct (isAtStartOfLine PP Tok3) eqn:Hsol3;
      cbn [negb assert mbind Res_bind] in H; [done|].
    injection H as <- <-. cbn [option_list app].
    assert (Heq : Tok_is (if Tok_is Tok3 tok_identifier
                          then setIdentifierInfo Tok3
                                 (LookUpIdentifierInfo PP Tok3)
                          else Tok3) tok_eof = Tok_is Tok3 tok_eof)
      by (by destruct (Tok_is Tok3 tok_identifier)).
    rewrite Heq.
    destruct Hcase3 as [HP3|(HP3 & -> & ->)]; rewrite HP3.
    + destruct (Tok_is Tok3 tok_eof) eqn:He3.
      * by apply file_conditionals_eof.
      * apply file_conditionals_skip; [done|]. by rewrite Hsol3, andb_false_r.
    + done.
Qed.

Lemma ScanLoop_conditionals fuel : ∀ Tok L ds,
  ScanLoop PP fuel Tok L = Ok ds →
  ds = file_conditionals PP (Tok :: Pending L).
Proof.
  induction fuel as [|fuel IH]; intros Tok L ds H; [done|].
  cbn [ScanLoop] in H.
  destruct (ScanBody PP Tok L) as [[next d]|] eqn:HB;
    cbn [mbind Res_bind] in H; [|done].
  rewrite (ScanBody_conditionals _ _ _ _ HB).
  destruct next as [Tok' L'|Tok' L'].
  - destruct (ScanLoop PP fuel Tok' L') as [rest|] eqn:HS;
      cbn [mbind Res_bind] in H; [|done].
    injection H as <-. by rewrite (IH _ _ _ HS).
  - unfold Tok_isNot in H. destruct (Tok_is Tok' tok_eof) eqn:He;
      cbn [negb] in H.
    + cbn [mbind Res_bind] in H. by injection H as <-.
    + destruct (LexFromRawLexer L') as [Tok2 L2] eqn:HL2.
      destruct (ScanLoop PP fuel Tok2 L2) as [rest|] eqn:HS;
        cbn [mbind Res_bind] in H; [|done].
      injection H as <-. rewrite (IH _ _ _ HS).
      by rewrite (proj1 (file_conditionals_lex _ _ _ HL2)).
Qed.

(** The directives [LexTokens] meets on a file it does not stop on are
    the conditionals of the file. *)
Lemma PPDirectives_conditionals L ds :
  PPDirectives PP L = Ok ds → ds = file_conditionals PP (Pending L).
Proof.
  unfold PPDirectives. intros H.
  destruct (LexFromRawLexer L) as [Tok L'] eqn:HL.
  rewrite (ScanLoop_conditionals _ _ _ _ H).
  apply (file_conditionals_lex _ _ _ HL).
Qed.

End Conditionals.

Section Directives.
Variable PP : Preprocessor.

Lemma directive_stretch_plain Ts W St W' St' :
  stretch PP Ts [] W St W' St' → directive_stretch PP Ts [] W St W' St'.
Proof.
  intros (HE & HP & _ & _). split_and!; [done|done|constructor|constructor].
Qed.

Lemma directive_stretch_app Ts1 jks1 Ts2 jks2 W St W1 St1 W' St' :
  directive_stretch PP Ts1 jks1 W St W1 St1 →
  directive_stretch PP Ts2 jks2 W1 St1 W' St' →
  directive_stretch PP (Ts1 ++ Ts2)
    (jks1 ++ ((λ jk : nat * PPKeywordKind, ((length Ts1 + jk.1)%nat, jk.2))
              <$> jks2))
    W St W' St'.
Proof.
  intros (HE1 & HP1 & HF1 & HS1) (HE2 & HP2 & HF2 & HS2).
  destruct (EmitTokens_tell _ _ _ _ HE1) as (Ht1 & _).
  split_and!.
  - by eapply EmitTokens_app.
  - rewrite HP2, HP1, fmap_app, <- app_assoc. do 2 f_equal.
    rewrite <- list_fmap_compose. apply list_fmap_ext. intros i jk _.
    cbn. rewrite Ht1. f_equal. lia.
  - apply Forall_app. split.
    + eapply Forall_impl; [exact HF1|].
      intros jk (T & T2 & Hj & Hh & Hs & Hj2 & HT2 & HK).
      exists T, T2. split_and!; try done; by apply lookup_app_l_Some.
    + apply Forall_fmap. eapply Forall_impl; [exact HF2|].
      intros jk (T & T2 & Hj & Hh & Hs & Hj2 & HT2 & HK).
      exists T, T2. cbn [fst snd]. split_and!; try done.
      * by rewrite lookup_app_r, Nat.add_sub' by lia.
      * replace (S (length Ts1 + jk.1)) with (length Ts1 + S jk.1)%nat by lia.
        by rewrite lookup_app_r, Nat.add_sub' by lia.
  - rewrite fmap_app, <- list_fmap_compose.
    apply StronglySorted_app_2; [|done|].
    + intros x1 x2 Hx1 Hx2.
      apply list_elem_of_fmap in Hx1 as (jk1 & -> & Hjk1).
      rewrite Forall_forall in HF1.
      destruct (HF1 _ Hjk1) as (T & _ & Hj & _).
      apply lookup_lt_Some in Hj.
      apply list_elem_of_fmap in Hx2 as (y & -> & _). cbn. unfold Nat.lt. lia.
    + change (fst ∘ (λ jk : nat * PPKeywordKind,
                       ((length Ts1 + jk.1)%nat, jk.2)))
        with ((λ j, (length Ts1 + j)%nat) ∘ (fst : nat * PPKeywordKind → nat)).
      rewrite list_fmap_compose.
      eapply StronglySorted_fmap; [|exact HS2].
      intros x y. unfold Nat.lt. lia.
Qed.

Ltac emit_both H :=
  match type of H with
  | context [EmitToken PP ?T ?W] =>
      let W' := fresh "W" in
      let E := fresh "E" in
      destruct (EmitToken PP T W) as [W'|] eqn:E;
      cbn [mbind Res_bind] in H; [|discriminate H]
  | context [assert ?b] =>
      destruct b eqn:?; cbn [assert mbind Res_bind] in H; [|discriminate H]
  | context [Backpatch ?St ?i] =>
      let HB := fresh "HB" in
      destruct (Backpatch St i) eqn:HB;
      cbn [mbind Res_bind] in H; [|discriminate H]
  end.

Ltac emits_done :=
  repeat (eapply EmitTokens_cons_intro; [eassumption|]);
  apply EmitTokens_nil.

Ltac plain_turn H :=
  injection H as <- <- <-;
  eexists None, _, []; split_and!;
  [reflexivity
  |split_and!; [emits_done|cbn; by rewrite app_nil_r|constructor|constructor]
  |done].

Ltac cond_turn H Hhash Hsol Hid2 HK :=
  injection H as <- <- <-;
  eexists (Some _), _, [(0%nat, _)]; split_and!;
  [reflexivity
  |split_and!;
   [emits_done
   |cbn [PPCond]; rewrite fmap_app; cbn [fmap list_fmap fst];
    rewrite ?Z.add_0_r;
    repeat match goal with
           | HB : Backpatch _ _ = Ok _ |- _ =>
               rewrite (proj1 (Backpatch_fst _ _ _ HB)); clear HB
           end;
    cbn [PPCond]; try done
   |repeat constructor; eexists _, _; cbn [fst snd];
    split_and!; [reflexivity|exact Hhash|exact Hsol|reflexivity
                |exact Hid2|exact HK]
   |repeat constructor]
  |done].

(** One turn of the loop, beside the scan of the same turn. *)
Lemma LexBody_directive Tok L St W next St' W' :
  LexBody PP Tok L St W = Ok (next, (St', W')) →
  ∃ d Ts jks,
    ScanBody PP Tok L = Ok (next, d) ∧
    directive_stretch PP Ts jks W St W' St' ∧
    jks.*2 = option_list d.
Proof.
  intros H. unfold LexBody in H.
  destruct (InsertEOM PP Tok St W) as [[St1 W1]|] eqn:HI; [|done].
  cbn [mbind Res_bind] in H.
  destruct (InsertEOM_stretch _ _ _ _ _ _ HI) as (Tse & Hse & _).
  apply directive_stretch_plain in Hse.
  cut (∃ d Ts jks,
         ScanBody PP Tok L = Ok (next, d) ∧
         directive_stretch PP Ts jks W1 St1 W' St' ∧
         jks.*2 = option_list d).
  { intros (d & Ts & jks & HS & Hs & Hd).
    eexists d, _, _. split; [exact HS|]. split.
    - eapply directive_stretch_app; [exact Hse|exact Hs].
    - cbn [app]. rewrite <- list_fmap_compose. exact Hd. }
  clear HI Hse. unfold ScanBody.
  destruct (Tok_is Tok tok_identifier) eqn:Hid.
  { emit_both H. plain_turn H. }
  destruct (Tok_is Tok tok_hash && isAtStartOfLine PP Tok) eqn:Hh.
  2:{ emit_both H. plain_turn H. }
  apply andb_prop in Hh as [Hhash Hsol].
  do 2 emit_both H.
  destruct (LexFromRawLexer L) as [Tok2 L2] eqn:HL2.
  emit_both H.
  destruct (Tok_is Tok2 tok_identifier) eqn:Hid2; cbn [negb] in H |- *.
  2:{ emit_both H. plain_turn H. }
  emit_both H.
  assert (Hid2' : Tok_is (setIdentifierInfo Tok2 (LookUpIdentifierInfo PP Tok2))
                         tok_identifier = true) by exact Hid2.
  destruct (getPPKeywordID PP (LookUpIdentifierInfo PP Tok2)) eqn:HK;
    repeat emit_both H.
  all: try (plain_turn H; fail).
  all: try (cond_turn H Hhash Hsol Hid2' HK; fail).
  - destruct (skip_to_line_start _ _) as [[Tok3 rest]|];
      cond_turn H Hhash Hsol Hid2' HK.
  - destruct (LexIncludeFilename L2) as [Tok3 L3].
    repeat emit_both H. plain_turn H.
  - destruct (LexIncludeFilename L2) as [Tok3 L3].
    repeat emit_both H. plain_turn H.
  - destruct (LexIncludeFilename L2) as [Tok3 L3].
    repeat emit_both H. plain_turn H.
Qed.

Lemma LexLoop_directives fuel : ∀ Tok L St W St' W',
  LexLoop PP fuel Tok L St W = Ok (St', W') →
  ∃ ds Ts jks,
    ScanLoop PP fuel Tok L = Ok ds ∧
    directive_stretch PP Ts jks W St W' St' ∧
    jks.*2 = ds.
Proof.
  induction fuel as [|fuel IH]; intros Tok L St W St' W' H; [done|].
  cbn [LexLoop] in H.
  destruct (LexBody PP Tok L St W) as [[next [St1 W1]]|] eqn:HB; [|done].
  cbn [mbind Res_bind] in H.
  destruct (LexBody_directive _ _ _ _ _ _ _ HB)
    as (d & Ts1 & jks1 & HS1 & Hs1 & Hd1).
  cbn [ScanLoop]. rewrite HS1. cbn [mbind Res_bind].
  assert (Hcomb : ∀ Ts2 jks2 W2 St2,
            directive_stretch PP Ts2 jks2 W1 St1 W2 St2 →
            directive_stretch PP (Ts1 ++ Ts2)
              (jks1 ++ ((λ jk : nat * PPKeywordKind,
                           ((length Ts1 + jk.1)%nat, jk.2)) <$> jks2))
              W St W2 St2 ∧
            (jks1 ++ ((λ jk : nat * PPKeywordKind,
                         ((length Ts1 + jk.1)%nat, jk.2)) <$> jks2)).*2
            = option_list d ++ jks2.*2).
  { intros Ts2 jks2 W2 St2 Hs2. split.
    - by eapply directive_stretch_app.
    - rewrite fmap_app, Hd1, <- list_fmap_compose. done. }
  destruct next as [Tok' L'|Tok' L'].
  - destruct (IH _ _ _ _ _ _ H) as (ds2 & Ts2 & jks2 & HS2 & Hs2 & Hd2).
    rewrite HS2. cbn [mbind Res_bind].
    destruct (Hcomb _ _ _ _ Hs2) as (Hs & Hd).
    eexists _, _, _. split; [reflexivity|]. split; [exact Hs|].
    by rewrite Hd, Hd2.
  - unfold Tok_isNot in H |- *. destruct (Tok_is Tok' tok_eof) eqn:He;
      cbn [negb] in H |- *.
    + injection H as <- <-. cbn [mbind Res_bind].
      eexists _, _, _. split; [reflexivity|]. split; [exact Hs1|].
      by rewrite app_nil_r.
    + destruct (LexFromRawLexer L') as [Tok2 L2].
      destruct (IH _ _ _ _ _ _ H) as (ds2 & Ts2 & jks2 & HS2 & Hs2 & Hd2).
      rewrite HS2. cbn [mbind Res_bind].
      destruct (Hcomb _ _ _ _ Hs2) as (Hs & Hd).
      eexists _, _, _. split; [reflexivity|]. split; [exact Hs|].
      by rewrite Hd, Hd2.
Qed.

End Directives.

Lemma u32_offset_diff off d : u32 (u32 (off + d) - u32 off) = u32 d.
Proof.
  unfold u32. rewrite <- Zminus_mod. f_equal. lia.
Qed.

(** Against claim C1 as first stated: the file [#if A], [#foo],
    [#endif] has balanced conditionals, an [#if] closed by its
    [#endif], and [LexTokens] builds no table for it: the run stops at
    the assertion that the name after a [#] is a directive. *)
Lemma balanced_file_aborts :
  file_conditionals (sample_PP stray_src) (Pending stray_example)
    = [pp_if; pp_endif] ∧
  balanced (file_conditionals (sample_PP stray_src) (Pending stray_example))
    = true ∧
  LexTokens (sample_PP stray_src) stray_example (new_PTHWriter [])
    = Err AssertionFailed.
Proof.
  split_and!.
  - vm_compute. reflexivity.
  - vm_compute. reflexivity.
  - vm_compute. reflexivity.
Qed.

(** Claim C1, amended.  Take a file on which none of the assertions of
    [LexTokens] on the shape of a directive fails, so that the scan of
    its directives returns the list [ds], and let [ds] be balanced.
    Then [ds] is the list of the conditional directives of the file,
    [LexTokens] returns, the start-stack is empty at the end and the
    table has one entry per directive.  The entry of the [i]-th
    directive holds the offset of the record of its [#], a [#] at the
    start of a line followed by the directive's name, and the records
    of the directives follow each other in the stream.  The entry of an
    [#endif] has its own index as target, the entry of an [#if],
    [#ifdef], [#ifndef], [#elif] or [#else] has the index of its next
    peer, a later entry.  The table is written after the tokens as its
    length, then for each entry the offset of the [#] relative to the
    start of the token stream and the target, an [#endif] being written
    with target 0.  The file [#if A], [#if B], [#endif], [#endif] gives
    4 entries with the targets 3, 2, 0, 0 on disk. *)
Theorem PPCond_table (PP : Preprocessor) (L : Lexer) (W : PTHWriter)
    (ds : list PPKeywordKind) :
  PPDirectives PP L = Ok ds → balanced ds = true →
  Z.of_nat (length ds) + 1 < 2 ^ 32 →
  let W0 := set_Out W (Pad (Out W) 4) in
  ds = file_conditionals PP (Pending L) ∧
  (∃ St W1 E W' Ts js,
    LexLoop PP (LexTokens_fuel L) (LexFromRawLexer L).1 (LexFromRawLexer L).2
            (mkLexState [] [] false) W0 = Ok (St, W1) ∧
    PPStartCond St = [] ∧
    length (PPCond St) = length ds ∧
    EmitTokens PP Ts W0 = Ok W1 ∧
    length js = length ds ∧
    StronglySorted Nat.lt js ∧
    (∀ (i : nat) K, ds !! i = Some K →
       ∃ (j : nat) T T2 h t,
         js !! i = Some j ∧
         Ts !! j = Some T ∧ Tok_is T tok_hash = true ∧
         isAtStartOfLine PP T = true ∧
         Ts !! S j = Some T2 ∧ Tok_is T2 tok_identifier = true ∧
         getPPKeywordID PP (IdentInfo T2) = K ∧
         h = u32 (tell (Out W0) + 12 * Z.of_nat j) ∧
         PPCond St !! i = Some (h, t) ∧
         (K = pp_endif → t = Z.of_nat i) ∧
         (K ≠ pp_endif →
            next_peer ds i = Some t ∧
            Z.of_nat i < t < Z.of_nat (length ds)) ∧
         PPCond_entry_bytes (TokenData E) i (h, t)
         = le32 (h - TokenData E)
           ++ le32 (if decide (K = pp_endif) then 0 else t) ∧
         le32 (h - TokenData E) = le32 (12 * Z.of_nat j)) ∧
    LexTokens PP L W = Ok (E, W') ∧
    TokenData E = u32 (tell (Out W0)) ∧
    PPCondData E = u32 (tell (Out W1)) ∧
    Out W' = Out W1 ++ PPCond_bytes (TokenData E) (PPCond St)) ∧
  (∃ E W',
    PPDirectives (sample_PP nested_src) nested_example
      = Ok [pp_if; pp_if; pp_endif; pp_endif] ∧
    LexTokens (sample_PP nested_src) nested_example (new_PTHWriter [])
      = Ok (E, W') ∧
    drop (Z.to_nat (PPCondData E)) (Out W')
      = le32 4 ++ le32 0 ++ le32 3 ++ le32 48 ++ le32 2
              ++ le32 96 ++ le32 0 ++ le32 132 ++ le32 0).
Proof.
  intros HD Hbal Hb W0.
  destruct (LexTokens_table_run PP L W ds HD Hbal Hb)
    as [(St & W1 & E & W' & HL & Hstk & Hlen & Hent & HLT & HTD & HPD & HO)
        Hsample].
  fold W0 in HL, HTD.
  split; [by apply PPDirectives_conditionals|]. split; [|exact Hsample].
  destruct (LexLoop_directives PP _ _ _ _ _ _ _ HL)
    as (ds' & Ts & jks & HS & (HE & HP & HF & Hsort) & Hjk).
  assert (ds' = ds) as ->.
  { unfold PPDirectives in HD.
    destruct (LexFromRawLexer L) as [Tok L'].
    cbn [fst snd] in HS. congruence. }
  exists St, W1, E, W', Ts, jks.*1.
  split_and!; try done.
  { by rewrite <- Hjk, !length_fmap. }
  intros i K Hi.
  destruct (Hent i K Hi) as (h & t & Hht & Hend & Hopen & Hbytes).
  rewrite <- Hjk, list_lookup_fmap in Hi.
  destruct (jks !! i) as [[j K']|] eqn:Hjki; [|done].
  cbn in Hi. injection Hi as ->.
  rewrite Forall_forall in HF.
  destruct (HF (j, K)) as (T & T2 & HT & Hh & Hsol & HT2 & Hid & HK).
  { by eapply list_elem_of_lookup_2. }
  cbn [fst snd] in *.
  assert (Hh' : h = u32 (tell (Out W0) + 12 * Z.of_nat j)).
  { assert (Hfst : (PPCond St).*1 !! i = Some h)
      by (by rewrite list_lookup_fmap, Hht).
    rewrite HP in Hfst. cbn [PPCond fmap list_fmap app] in Hfst.
    rewrite list_lookup_fmap, Hjki in Hfst. cbn in Hfst.
    by injection Hfst as <-. }
  exists j, T, T2, h, t.
  split_and!; try done.
  - by rewrite list_lookup_fmap, Hjki.
  - rewrite Hh', HTD. apply le32_congr, u32_offset_diff.
Qed.


(** * The identifier table *)

(** ** Emission through a trait that writes to memory *)

Section EmitInv.
Context {key_type data_type Mem : Type} `{!Info key_type data_type Mem}.
Implicit Types (bs : list (@HT.Bucket key_type data_type)).
Implicit Types (E : @HT.Item key_type data_type).
Implicit Types (ib : @HT.Item key_type data_type → list Z).

Variable J : list (@HT.Item key_type data_type) → raw_ostream → Mem → Prop.
Variable ib : @HT.Item key_type data_type → list Z.

Hypothesis J_mono : ∀ d Out m x, J d Out m → J d (Out ++ x) m.

Lemma EmitChain_inv chain : ∀ d Out m,
  (∀ E, E ∈ chain → ∀ d Out m, J d Out m →
     ∃ m', HT.EmitChain Out m [E] = Ok (Out ++ ib E, m') ∧
           J (d ++ [E]) (Out ++ ib E) m') →
  J d Out m →
  ∃ m', HT.EmitChain Out m chain = Ok (Out ++ concat (ib <$> chain), m') ∧
        J (d ++ chain) (Out ++ concat (ib <$> chain)) m'.
Proof.
  induction chain as [|E next IH]; intros d Out m Hp HJ.
  - exists m. cbn. by rewrite !app_nil_r.
  - destruct (Hp E (list_elem_of_here _ _) d Out m HJ) as (m1 & H1 & HJ1).
    destruct (IH (d ++ [E]) (Out ++ ib E) m1) as (m' & H' & HJ'); [|done|].
    { intros E' HE'. apply Hp. by apply list_elem_of_further. }
    exists m'. rewrite EmitChain_cons, H1. cbn [mbind Res_bind].
    rewrite H'. cbn [fmap list_fmap concat].
    rewrite <- !app_assoc in *. done.
Qed.

Lemma EmitPayload_inv bs : ∀ d Out m,
  (∀ E, E ∈ all_items bs → ∀ d Out m, J d Out m →
     ∃ m', HT.EmitChain Out m [E] = Ok (Out ++ ib E, m') ∧
           J (d ++ [E]) (Out ++ ib E) m') →
  (∀ (i : nat) B, bs !! i = Some B → u32 (HT.B_length B) < 65536) →
  J d Out m →
  ∃ bs' m',
    HT.EmitPayload Out m bs = Ok (bs', (Out ++ payload_bytes ib bs, m')) ∧
    J (d ++ all_items bs) (Out ++ payload_bytes ib bs) m' ∧
    length bs' = length bs ∧
    ∀ (i : nat) B, bs !! i = Some B →
      bs' !! i = Some (emitted_bucket
              (tell Out + Z.of_nat (length (payload_bytes ib (take i bs)))) B).
Proof.
  induction bs as [|B bs IH]; intros d Out m Hp Hl HJ.
  - exists [], m. cbn. rewrite !app_nil_r. done.
  - assert (Hp' : ∀ E, E ∈ all_items bs → ∀ d Out m, J d Out m →
       ∃ m', HT.EmitChain Out m [E] = Ok (Out ++ ib E, m') ∧
             J (d ++ [E]) (Out ++ ib E) m').
    { intros E HE. apply Hp. unfold all_items. cbn.
      apply elem_of_app. by right. }
    assert (Hl' : ∀ (i : nat) B, bs !! i = Some B → u32 (HT.B_length B) < 65536).
    { intros i B' Hi. by apply (Hl (S i)). }
    cbn [HT.EmitPayload]. rewrite payload_bytes_cons.
    unfold bucket_bytes at 1 2.
    assert (Hall : all_items (B :: bs) = HT.B_head B ++ all_items bs) by done.
    rewrite Hall.
    destruct (HT.B_head B) as [|E chain] eqn:Hh.
    + destruct (IH d Out m Hp' Hl' HJ) as (bs' & m' & HE & HJ' & Hlen & Hlk).
      rewrite HE. cbn. exists (B :: bs'), m'. split_and!; try done.
      * cbn. by rewrite Hlen.
      * intros [|i] B' Hi.
        -- injection Hi as <-. cbn. unfold emitted_bucket. by rewrite Hh.
        -- change ((B :: bs') !! S i) with (bs' !! i).
           change ((B :: bs) !! S i) with (bs !! i) in Hi.
           rewrite (Hlk i B' Hi). cbn [take]. rewrite payload_bytes_cons.
           unfold bucket_bytes at 1. rewrite Hh. reflexivity.
    + cbn zeta. cbn [HT.B_length HT.B_head].
      rewrite Emit16_ok by (by apply (Hl 0%nat B)). cbn [mbind Res_bind].
      destruct (EmitChain_inv (E :: chain) d (Out ++ le16 (HT.B_length B)) m)
        as (m1 & H1 & HJ1).
      { intros E' HE'. apply Hp. unfold all_items. cbn. rewrite Hh.
        apply elem_of_app. by left. }
      { by apply J_mono. }
      rewrite H1. cbn [mbind Res_bind].
      destruct (IH (d ++ E :: chain)
                  ((Out ++ le16 (HT.B_length B)) ++ concat (ib <$> E :: chain))
                  m1 Hp' Hl' HJ1) as (bs' & m' & HE & HJ' & Hlen & Hlk).
      rewrite HE. cbn [mbind Res_bind].
      eexists _, m'. split_and!.
      * rewrite <- !app_assoc. done.
      * repeat rewrite <- app_assoc in HJ'. repeat rewrite <- app_assoc.
        done.
      * cbn. by rewrite Hlen.
      * intros [|i] B' Hi.
        -- injection Hi as <-. cbn. unfold emitted_bucket. rewrite Hh.
           by rewrite Z.add_0_r.
        -- change ((?x :: bs') !! S i) with (bs' !! i).
           change ((B :: bs) !! S i) with (bs !! i) in Hi.
           rewrite (Hlk i B' Hi). cbn [take]. rewrite payload_bytes_cons.
           unfold bucket_bytes.
           rewrite Hh. unfold tell. rewrite !length_app.
           do 2 f_equal. lia.
Qed.

Lemma Emit_inv Out m (T : @HT.Table key_type data_type) :
  (∀ E, E ∈ all_items (HT.Buckets T) → ∀ d Out m, J d Out m →
     ∃ m', HT.EmitChain Out m [E] = Ok (Out ++ ib E, m') ∧
           J (d ++ [E]) (Out ++ ib E) m') →
  (∀ (i : nat) B, HT.Buckets T !! i = Some B → u32 (HT.B_length B) < 65536) →
  J [] Out m →
  ∃ bs' m' (k : nat),
    let payload := payload_bytes ib (HT.Buckets T) in
    HT.Emit Out m T
    = Ok (u32 (tell (Out ++ payload ++ replicate k 0)),
          (HT.mkTable (HT.NumBuckets T) (HT.NumEntries T) bs',
           (Out ++ payload ++ replicate k 0
                ++ le32 (HT.NumBuckets T) ++ le32 (HT.NumEntries T)
                ++ concat ((λ B, le32 (HT.B_off B)) <$> bs'), m'))) ∧
    J (all_items (HT.Buckets T))
      (Out ++ payload ++ replicate k 0
           ++ le32 (HT.NumBuckets T) ++ le32 (HT.NumEntries T)
           ++ concat ((λ B, le32 (HT.B_off B)) <$> bs')) m' ∧
    (k < 4)%nat ∧
    tell (Out ++ payload ++ replicate k 0) mod 4 = 0 ∧
    length bs' = length (HT.Buckets T) ∧
    ∀ (i : nat) B, HT.Buckets T !! i = Some B →
      bs' !! i = Some (emitted_bucket
        (tell Out + Z.of_nat (length (payload_bytes ib (take i (HT.Buckets T)))))
        B).
Proof.
  intros Hp Hl HJ.
  destruct (EmitPayload_inv (HT.Buckets T) [] Out m Hp Hl HJ)
    as (bs' & m' & HE & HJ' & Hlen & Hlk).
  destruct (Pad4 (Out ++ payload_bytes ib (HT.Buckets T))) as (k & Hk & HP & Hal).
  exists bs', m', k. cbn zeta. unfold HT.Emit. rewrite HE. cbn [mbind Res_bind].
  rewrite HP, EmitOffsets_app, !Emit32_le32.
  split_and!; try done.
  - rewrite <- !app_assoc. done.
  - cbn [app] in HJ'.
    apply (J_mono _ _ _ (replicate k 0 ++ le32 (HT.NumBuckets T)
             ++ le32 (HT.NumEntries T)
             ++ concat ((λ B, le32 (HT.B_off B)) <$> bs'))) in HJ'.
    rewrite <- !app_assoc in HJ'. done.
  - unfold tell in *. rewrite !length_app, length_replicate in *.
    rewrite <- Hal. f_equal. lia.
Qed.

End EmitInv.

(** ** The trait of the identifier table *)

Lemma bytes_at_app Out x o n s :
  bytes_at Out o n = s → length s = n → bytes_at (Out ++ x) o n = s.
Proof.
  unfold bytes_at. intros <- Hl. destruct n as [|n]; [done|].
  rewrite length_take, length_drop in Hl.
  rewrite drop_app_le by lia. rewrite take_app_le; [done|].
  rewrite length_drop. lia.
Qed.

Lemma bytes_at_end Out s x :
  bytes_at (Out ++ s ++ x) (tell Out) (length s) = s.
Proof.
  unfold bytes_at, tell. rewrite Nat2Z.id, drop_app_length.
  by rewrite take_app_length.
Qed.

(** Slot [i] of a table of 32-bit offsets. *)
Lemma bytes_at_slot (A : list Z) (offs : list Z) (i : nat) o :
  offs !! i = Some o →
  bytes_at (A ++ concat (le32 <$> offs)) (tell A + 4 * Z.of_nat i) 4 = le32 o.
Proof.
  intros Hi.
  rewrite <- (take_drop_middle _ _ _ Hi), fmap_app, fmap_cons, concat_app.
  cbn [concat]. rewrite app_assoc.
  replace (tell A + 4 * Z.of_nat i)
    with (tell (A ++ concat (le32 <$> take i offs))).
  2:{ unfold tell. rewrite length_app, length_concat, <- list_fmap_compose.
      rewrite (sum_list_fmap_const _ 4%nat) by (intros; apply length_le32).
      rewrite length_take. apply lookup_lt_Some in Hi. lia. }
  change 4%nat with (length (le32 o)). apply bytes_at_end.
Qed.

(** ** Looking a key up in an emitted table *)

Section Lookup.
Context {key_type data_type : Type}.
Variable ib : @HT.Item key_type data_type → list Z.

Lemma payload_bytes_app (bs1 bs2 : list (@HT.Bucket key_type data_type)) :
  payload_bytes ib (bs1 ++ bs2)
  = payload_bytes ib bs1 ++ payload_bytes ib bs2.
Proof. unfold payload_bytes. by rewrite fmap_app, concat_app. Qed.

(** What [Emit] has written can be searched by hash: the slot of the
    bucket a hash selects holds the offset of the bucket's payload,
    which is the length of the chain and the items of the chain. *)
Lemma emitted_lookup Out (T : @HT.Table key_type data_type) n
    (bs' : list (@HT.Bucket key_type data_type)) (k : nat) out :
  table_inv n T → buckets_fresh (HT.Buckets T) →
  length bs' = length (HT.Buckets T) →
  (∀ (i : nat) B, HT.Buckets T !! i = Some B →
     bs' !! i = Some (emitted_bucket
       (tell Out + Z.of_nat (length (payload_bytes ib (take i (HT.Buckets T)))))
       B)) →
  out = Out ++ payload_bytes ib (HT.Buckets T) ++ replicate k 0
        ++ le32 (HT.NumBuckets T) ++ le32 (HT.NumEntries T)
        ++ concat ((λ B, le32 (HT.B_off B)) <$> bs') →
  tell out < 2 ^ 32 →
  let off := tell (Out ++ payload_bytes ib (HT.Buckets T) ++ replicate k 0) in
  tell Out ≤ off ∧ off + 8 + 4 * HT.NumBuckets T = tell out ∧
  bytes_at out off 4 = le32 (HT.NumBuckets T) ∧
  ∀ E, E ∈ all_items (HT.Buckets T) →
    ∃ p chain,
      bytes_at out
        (off + 8 + 4 * Z.land (HT.hash E) (HT.NumBuckets T - 1)) 4
      = le32 p ∧
      tell Out ≤ p ∧
      p + 2 + Z.of_nat (length (concat (ib <$> chain))) ≤ off ∧
      bytes_at out p (2 + length (concat (ib <$> chain)))
      = le16 (Z.of_nat (length chain)) ++ concat (ib <$> chain) ∧
      E ∈ chain ∧
      (∀ E', E' ∈ chain → E' ∈ all_items (HT.Buckets T)) ∧
      Forall (λ E', Z.land (HT.hash E') (HT.NumBuckets T - 1)
                    = Z.land (HT.hash E) (HT.NumBuckets T - 1)) chain.
Proof.
  intros Hinv Hfresh Hlbs Hbs' -> Hb.
  destruct Hinv as (_ & HlB & (e & He & HNB) & _ & _ & Hre).
  set (bs := HT.Buckets T) in *.
  set (NB := HT.NumBuckets T) in *.
  set (payload := payload_bytes ib bs) in *.
  set (slots := concat ((λ B, le32 (HT.B_off B)) <$> bs')) in *.
  assert (HNB0 : 0 < NB) by (rewrite HNB; apply Z.pow_pos_nonneg; lia).
  assert (Hls : Z.of_nat (length slots) = 4 * NB).
  { unfold slots. rewrite length_concat, <- list_fmap_compose.
    rewrite (sum_list_fmap_const _ 4%nat) by (intros; apply length_le32).
    rewrite Hlbs, HlB. lia. }
  assert (Hlen : ∀ a b : list Z, tell (a ++ b) = tell a + Z.of_nat (length b)).
  { intros a b. unfold tell. rewrite length_app. lia. }
  assert (H0 : 0 ≤ tell Out) by (unfold tell; lia).
  set (P := Out ++ payload ++ replicate k 0) in *.
  assert (TP : tell P = tell Out + Z.of_nat (length payload) + Z.of_nat k).
  { unfold P. rewrite Hlen, length_app, length_replicate. lia. }
  assert (Hout : Out ++ payload ++ replicate k 0 ++ le32 NB
                 ++ le32 (HT.NumEntries T) ++ slots
                 = P ++ le32 NB ++ le32 (HT.NumEntries T) ++ slots).
  { unfold P. by rewrite <- !app_assoc. }
  rewrite Hout in Hb |- *. clear Hout.
  assert (Tout : tell (P ++ le32 NB ++ le32 (HT.NumEntries T) ++ slots)
                 = tell P + 8 + 4 * NB).
  { rewrite Hlen, !length_app, !length_le32. lia. }
  rewrite Tout in Hb |- *. cbn zeta.
  split_and!; [lia|lia| |].
  { change 4%nat with (length (le32 NB)). apply bytes_at_end. }
  intros E HE. unfold all_items in HE.
  apply list_elem_of_In, in_concat in HE as (chain & Hc & HEc).
  apply list_elem_of_In in Hc, HEc.
  apply list_elem_of_fmap in Hc as (B & -> & HB).
  apply list_elem_of_lookup in HB as (i & Hi).
  pose proof (Hre i B E Hi HEc) as Hsel.
  pose proof (Hbs' i B Hi) as Hi'.
  set (pos := tell Out + Z.of_nat (length (payload_bytes ib (take i bs)))) in *.
  assert (Hne : HT.B_head B ≠ []) by (intros Hn; rewrite Hn in HEc; inversion HEc).
  assert (Hbb : bucket_bytes ib B
                = le16 (Z.of_nat (length (HT.B_head B)))
                  ++ concat (ib <$> HT.B_head B)).
  { unfold bucket_bytes. destruct (Hfresh i B Hi) as (_ & Hl).
    destruct (HT.B_head B) as [|E0 ch] eqn:Hh; [done|].
    rewrite Hl. unfold le16. by rewrite u32_idem. }
  assert (Hpay : payload = payload_bytes ib (take i bs) ++ bucket_bytes ib B
                           ++ payload_bytes ib (drop (S i) bs)).
  { unfold payload. rewrite <- (take_drop_middle _ _ _ Hi) at 1.
    by rewrite payload_bytes_app, payload_bytes_cons. }
  assert (Hlp : Z.of_nat (length payload)
                = Z.of_nat (length (payload_bytes ib (take i bs)))
                  + Z.of_nat (length (bucket_bytes ib B))
                  + Z.of_nat (length (payload_bytes ib (drop (S i) bs)))).
  { rewrite Hpay, !length_app. lia. }
  assert (Hlbb : Z.of_nat (length (bucket_bytes ib B))
                 = 2 + Z.of_nat (length (concat (ib <$> HT.B_head B)))).
  { rewrite Hbb, length_app. cbn [length le16]. lia. }
  assert (Hem : emitted_bucket pos B
                = HT.mkBucket (u32 pos) (HT.B_head B) (HT.B_length B)).
  { unfold emitted_bucket. by destruct (HT.B_head B). }
  rewrite Hem in Hi'.
  exists pos, (HT.B_head B). rewrite Hsel. split_and!.
  - assert (Hsl : slots = concat (le32 <$> (HT.B_off <$> bs'))).
    { unfold slots. by rewrite <- list_fmap_compose. }
    rewrite Hsl.
    set (A := P ++ le32 NB ++ le32 (HT.NumEntries T)).
    assert (HA : P ++ le32 NB ++ le32 (HT.NumEntries T)
                 ++ concat (le32 <$> (HT.B_off <$> bs'))
                 = A ++ concat (le32 <$> (HT.B_off <$> bs'))).
    { unfold A. by rewrite <- !app_assoc. }
    rewrite HA.
    replace (tell P + 8 + 4 * Z.of_nat i) with (tell A + 4 * Z.of_nat i).
    2:{ unfold A. rewrite Hlen, !length_app, !length_le32. lia. }
    rewrite <- (u32_small pos) by (unfold pos; lia).
    apply bytes_at_slot. rewrite list_lookup_fmap, Hi'. done.
  - unfold pos. lia.
  - unfold pos. lia.
  - unfold P. rewrite Hpay, <- Hbb.
    replace (2 + length (concat (ib <$> HT.B_head B)))%nat
      with (length (bucket_bytes ib B)) by lia.
    set (A := Out ++ payload_bytes ib (take i bs)).
    replace pos with (tell A) by (unfold A; by rewrite Hlen).
    assert (HA : (Out ++ (payload_bytes ib (take i bs) ++ bucket_bytes ib B
                          ++ payload_bytes ib (drop (S i) bs))
                      ++ replicate k 0)
                 ++ le32 NB ++ le32 (HT.NumEntries T) ++ slots
                 = A ++ bucket_bytes ib B
                   ++ (payload_bytes ib (drop (S i) bs) ++ replicate k 0
                       ++ le32 NB ++ le32 (HT.NumEntries T) ++ slots)).
    { unfold A. by rewrite <- !app_assoc. }
    rewrite HA. apply bytes_at_end.
  - done.
  - intros E' HE'. unfold all_items.
    apply list_elem_of_In, in_concat. exists (HT.B_head B).
    split; apply list_elem_of_In; [|done].
    apply list_elem_of_fmap. exists B. split; [done|].
    by apply list_elem_of_lookup_2 with i.
  - apply Forall_forall. intros E' HE'. by apply (Hre i B E' Hi).
Qed.

End Lookup.

Lemma length_name_bytes name :
  Z.of_nat (length (name_bytes name)) = strlen (c_str name) + 1.
Proof.
  unfold name_bytes. pose proof (strlen_c_str_lt name).
  pose proof (strlen_bounds (c_str name)). rewrite length_take. lia.
Qed.

Section IdTrait.
Variable PP : Preprocessor.

Lemma id_item_step (m : list PTHIdKey) (k : nat) (pID h : Z)
    (Out : raw_ostream) :
  (k < length m)%nat →
  let name := getName PP (IdKey_II (m !!! k)) in
  strlen (c_str name) + 1 < 65536 →
  @HT.EmitChain nat Z (list PTHIdKey) (PTHIdentifierTableTrait PP) Out m [HT.mkItem k pID h]
  = Ok (Out ++ id_item_bytes name pID h,
        <[k := mkPTHIdKey (IdKey_II (m !!! k)) (u32 (tell Out + 6))]> m).
Proof.
  intros Hk name Hn.
  pose proof (strlen_bounds (c_str name)) as Hs.
  cbn [HT.EmitChain EmitKeyDataLength EmitKey EmitData
       PTHIdentifierTableTrait HT.key HT.data HT.hash].
  unfold PTHIdentifierTableTrait_EmitKeyDataLength, PTHIdKey_name.
  fold name.
  rewrite (u32_small (strlen (c_str name) + 1))
    by (change (2 ^ 32) with 4294967296; lia).
  rewrite Emit16_ok by (rewrite u32_small;
                        [lia|change (2 ^ 32) with 4294967296; lia]).
  cbn [mbind Res_bind fst snd].
  unfold PTHIdentifierTableTrait_EmitKey, PTHIdentifierTableTrait_EmitData,
    PTHIdKey_name, write.
  fold name. cbn [mbind Res_bind]. do 2 f_equal.
  - unfold id_item_bytes, name_bytes. rewrite !Emit32_le32.
    by rewrite <- !app_assoc.
  - do 3 f_equal. unfold tell. rewrite Emit32_le32, !length_app, length_le32.
    cbn [length le16]. lia.
Qed.

(** X15.  An item of the identifier table is written as its hash, the
    key length [strlen(name) + 1] on 16 bits, the characters of the name
    and the NUL that ends them, and the persistent ID on 32 bits.  The
    offset of the first character is stored in the key, and no other key
    is touched.  When the key length does not fit 16 bits the assertion
    of [Emit16] fails. *)
Theorem identifier_item_emission (m : list PTHIdKey) (k : nat) (pID h : Z)
    (Out : raw_ostream) :
  (k < length m)%nat →
  let II := IdKey_II (m !!! k) in
  let name := getName PP II in
  let len := strlen (c_str name) in
  len + 1 < 2 ^ 32 →
  @HT.EmitChain nat Z (list PTHIdKey) (PTHIdentifierTableTrait PP)
     Out m [HT.mkItem k pID h]
  = (if len + 1 <? 65536 then
       Ok (Out ++ le32 h ++ le16 (len + 1) ++ name_bytes name ++ le32 pID,
           <[k := mkPTHIdKey II (u32 (tell Out + 6))]> m)
     else Err AssertionFailed) ∧
  name_bytes name = take (Z.to_nat len) (c_str name) ++ [0] ∧
  Forall (λ c, c ≠ 0) (take (Z.to_nat len) (c_str name)) ∧
  (Forall (λ c, c ≠ 0) name → name_bytes name = name ++ [0]) ∧
  bytes_at (Out ++ le32 h ++ le16 (len + 1) ++ name_bytes name ++ le32 pID)
           (tell Out + 6) (length (name_bytes name))
  = name_bytes name.
Proof.
  intros Hk II name len Hn.
  pose proof (strlen_bounds (c_str name)) as Hs. fold len in Hs.
  split_and!.
  - destruct (Z.ltb_spec (len + 1) 65536) as [Hlt|Hge].
    + by rewrite (id_item_step m k pID h Out Hk Hlt).
    + cbn [HT.EmitChain EmitKeyDataLength EmitKey EmitData
           PTHIdentifierTableTrait HT.key HT.data HT.hash].
      unfold PTHIdentifierTableTrait_EmitKeyDataLength, PTHIdKey_name.
      fold II name len. rewrite (u32_small (len + 1)) by lia.
      rewrite Emit16_fail by (rewrite u32_small; lia). done.
  - apply strlen_c_str.
  - apply strlen_prefix.
  - intros Hnf. unfold name_bytes. rewrite strlen_nul_free by done.
    unfold c_str. replace (Z.to_nat (Z.of_nat (length name) + 1))
      with (length (name ++ [0])) by (rewrite length_app; cbn; lia).
    by rewrite firstn_all.
  - replace (tell Out + 6)
      with (tell (Out ++ le32 h ++ le16 (len + 1))).
    2:{ unfold tell. rewrite !length_app, length_le32. cbn [length le16]. lia. }
    replace (Out ++ le32 h ++ le16 (len + 1) ++ name_bytes name ++ le32 pID)
      with ((Out ++ le32 h ++ le16 (len + 1)) ++ name_bytes name ++ le32 pID)
      by (by rewrite <- !app_assoc).
    apply bytes_at_end.
Qed.

Lemma FillIdentifierMaps_ok entries :
  ∀ (m : list PTHIdKey) (T : @HT.Table nat Z) n,
  NoDup entries.*2 →
  (∀ e, e ∈ entries → 1 ≤ e.2 ≤ Z.of_nat (length m)) →
  Z.of_nat (length m) < 2 ^ 32 →
  table_inv n T → buckets_fresh (HT.Buckets T) → 0 ≤ n →
  n + Z.of_nat (length entries) ≤ 805306368 →
  ∃ m' T',
    FillIdentifierMaps PP entries (Z.of_nat (length m)) m T = Ok (m', T') ∧
    length m' = length m ∧
    (∀ e, e ∈ entries → IdKey_II (m' !!! Z.to_nat (e.2 - 1)) = e.1) ∧
    (∀ k : nat, (∀ e, e ∈ entries → Z.to_nat (e.2 - 1) ≠ k) →
                m' !! k = m !! k) ∧
    table_inv (n + Z.of_nat (length entries)) T' ∧
    buckets_fresh (HT.Buckets T') ∧
    all_items (HT.Buckets T')
    ≡ₚ (id_item PP <$> entries) ++ all_items (HT.Buckets T).
Proof.
  induction entries as [|[II id] entries IH];
    intros m T n Hnd Hr Hm Hinv Hfresh Hn Hb.
  - exists m, T. cbn [FillIdentifierMaps length fmap list_fmap app].
    rewrite Z.add_0_r. split_and!; try done. intros e He. inversion He.
  - cbn [fmap list_fmap snd] in Hnd. apply NoDup_cons in Hnd as [Hnin Hnd].
    pose proof (Hr (II, id) (list_elem_of_here _ _)) as Hid. cbn [snd] in Hid.
    cbn [FillIdentifierMaps length] in *.
    assert (H0 : (0 <? id) = true) by (apply Z.ltb_lt; lia).
    rewrite H0. cbn [assert mbind Res_bind].
    rewrite (u32_small (id - 1)) by lia.
    assert (H1 : (id - 1 <? Z.of_nat (length m)) = true)
      by (apply Z.ltb_lt; lia).
    rewrite H1. cbn [assert mbind Res_bind].
    destruct (lookup_lt_is_Some_2 m (Z.to_nat (id - 1))) as [k0 Hk0]; [lia|].
    rewrite Hk0.
    set (m1 := <[Z.to_nat (id - 1) := mkPTHIdKey II (IdKey_FileOffset k0)]> m).
    assert (Hlm1 : length m1 = length m) by apply length_insert.
    destruct (@insert_ok _ _ _ (PTHIdentifierTableTrait PP) m1
                (Z.to_nat (id - 1)) id T n Hinv)
      as (T1 & HT1 & Hinv1 & _ & Hperm1 & _); [lia|].
    rewrite HT1. cbn [mbind Res_bind].
    pose proof (@insert_fresh _ _ _ (PTHIdentifierTableTrait PP) _ _ _ _ _
                  HT1 Hfresh) as Hfresh1.
    assert (Hitem : @HT.new_Item _ _ _ (PTHIdentifierTableTrait PP) m1
                      (Z.to_nat (id - 1)) id = id_item PP (II, id)).
    { unfold HT.new_Item, id_item. cbn [fst snd]. f_equal.
      cbn [ComputeHash PTHIdentifierTableTrait].
      unfold PTHIdentifierTableTrait_ComputeHash, PTHIdKey_name, m1.
      rewrite list_lookup_total_insert_eq by lia. done. }
    rewrite Hitem in Hperm1.
    destruct (IH m1 T1 (n + 1)) as (m' & T' & HF & Hlm' & HII & Hun & Hinv' & Hfresh' & Hperm');
      try done; try lia.
    { intros e He. rewrite Hlm1. apply Hr. by apply list_elem_of_further. }
    rewrite <- Hlm1. exists m', T'. split_and!.
    + exact HF.
    + congruence.
    + intros e He. apply elem_of_cons in He as [->|He]; [|by apply HII].
      cbn [fst snd].
      assert (Hk : m' !! Z.to_nat (id - 1) = m1 !! Z.to_nat (id - 1)).
      { apply Hun. intros [II' id'] He' Heq. cbn [snd] in Heq.
        apply Hnin. apply list_elem_of_fmap. exists (II', id'). split; [|done].
        cbn [snd].
        pose proof (Hr (II', id') (list_elem_of_further _ _ _ He')) as Hid'.
        cbn [snd] in Hid'. lia. }
      rewrite (list_lookup_total_correct m' _
                 (mkPTHIdKey II (IdKey_FileOffset k0))); [done|].
      rewrite Hk. unfold m1. apply list_lookup_insert_eq. lia.
    + intros k Hk. rewrite Hun.
      * unfold m1. apply list_lookup_insert_ne.
        apply (Hk (II, id)). apply list_elem_of_here.
      * intros e He. apply Hk. by apply list_elem_of_further.
    + replace (n + Z.of_nat (S (length entries)))
        with (n + 1 + Z.of_nat (length entries)) by lia. done.
    + done.
    + rewrite Hperm', Hperm1. cbn [fmap list_fmap app].
      symmetry. apply Permutation_middle.
Qed.

Lemma EmitFileOffsets_Out m : ∀ W,
  Out (EmitFileOffsets W m)
  = Out W ++ concat (le32 <$> (IdKey_FileOffset <$> m)) ∧
  IM (EmitFileOffsets W m) = IM W ∧
  idcount (EmitFileOffsets W m) = idcount W ∧
  PM (EmitFileOffsets W m) = PM W ∧
  CachedStrs (EmitFileOffsets W m) = CachedStrs W ∧
  CurStrOffset (EmitFileOffsets W m) = CurStrOffset W ∧
  StrEntries (EmitFileOffsets W m) = StrEntries W.
Proof.
  induction m as [|k m IH]; intros W; cbn [EmitFileOffsets].
  - cbn. by rewrite app_nil_r.
  - destruct (IH (W_Emit32 W (IdKey_FileOffset k)))
      as (HO & ? & ? & ? & ? & ? & ?).
    rewrite HO, W_Emit32_Out. cbn [fmap list_fmap concat].
    rewrite <- app_assoc. done.
Qed.

End IdTrait.

Section IdTable.
Variable PP : Preprocessor.

Lemma IM_entries (W : PTHWriter) :
  interner_inv W →
  NoDup (map_to_list (IM W)).*2 ∧
  (∀ e, e ∈ map_to_list (IM W) → 1 ≤ e.2 ≤ idcount W) ∧
  Z.of_nat (length (map_to_list (IM W))) = idcount W.
Proof.
  intros (Hr & Hinj & Hsz). split_and!.
  - apply NoDup_fmap_2_strong; [|apply NoDup_map_to_list].
    intros [II id] [II' id'] He He' Heq. cbn [snd] in Heq. subst id'.
    apply elem_of_map_to_list in He, He'. f_equal. by eapply Hinj.
  - intros [II id] He. apply elem_of_map_to_list in He.
    by apply Hr in He as [_ ?].
  - by rewrite length_map_to_list.
Qed.

(** The table [FillIdentifierMaps] leaves: its chains hold one item for
    each entry of [IM], and no bucket has been written yet. *)
Lemma Fill_chains_fresh (W : PTHWriter) m T :
  interner_inv W → idcount W ≤ 805306368 →
  FillIdentifierMaps PP (map_to_list (IM W)) (idcount W)
    (replicate (Z.to_nat (idcount W)) (mkPTHIdKey 0%N 0)) HT.empty_table
  = Ok (m, T) →
  buckets_fresh (HT.Buckets T) ∧
  all_items (HT.Buckets T) ≡ₚ id_item PP <$> map_to_list (IM W).
Proof.
  intros Hinv Hc HF.
  destruct (IM_entries W Hinv) as (Hnd & Hr & Hlen).
  assert (Hc0 : 0 ≤ idcount W) by lia.
  set (m0 := replicate (Z.to_nat (idcount W)) (mkPTHIdKey 0%N 0)) in *.
  assert (Hlm0 : Z.of_nat (length m0) = idcount W).
  { unfold m0. rewrite length_replicate. lia. }
  destruct (FillIdentifierMaps_ok PP (map_to_list (IM W)) m0
              HT.empty_table 0)
    as (m1 & T1 & HF1 & _ & _ & _ & _ & Hfresh & Hperm); try done.
  { intros e He. rewrite Hlm0. by apply Hr. }
  { rewrite Hlm0. change (2 ^ 32) with 4294967296. lia. }
  { apply table_inv_empty. }
  { apply calloc_fresh. }
  { lia. }
  rewrite Hlm0, HF in HF1. injection HF1 as <- <-.
  assert (Hnil : all_items (HT.Buckets (HT.empty_table : @HT.Table nat Z)) = [])
    by apply all_items_calloc.
  rewrite Hnil, app_nil_r in Hperm. done.
Qed.

Lemma EmitIdentifierTable_core (W : PTHWriter) :
  interner_inv W → idcount W ≤ 805306368 →
  (∀ m T,
     FillIdentifierMaps PP (map_to_list (IM W)) (idcount W)
       (replicate (Z.to_nat (idcount W)) (mkPTHIdKey 0%N 0)) HT.empty_table
     = Ok (m, T) →
     ∀ (i : nat) B, HT.Buckets T !! i = Some B →
                    u32 (HT.B_length B) < 65536) →
  (∀ II id, IM W !! II = Some id →
            strlen (c_str (getName PP II)) + 1 < 65536) →
  ∃ IDOff STO W' payload (pad : nat) NB slots offs,
    EmitIdentifierTable PP W = Ok ((IDOff, STO), W') ∧
    Out W' = Out W ++ payload ++ replicate pad 0
             ++ le32 NB ++ le32 (idcount W) ++ slots
             ++ le32 (idcount W) ++ concat (le32 <$> offs) ∧
    load_factor_law (idcount W) NB ∧
    Z.of_nat (length slots) = 4 * NB ∧
    Z.of_nat (length offs) = idcount W ∧
    (pad < 4)%nat ∧
    tell (Out W ++ payload ++ replicate pad 0) mod 4 = 0 ∧
    STO = u32 (tell (Out W ++ payload ++ replicate pad 0)) ∧
    IDOff = u32 (tell (Out W ++ payload ++ replicate pad 0) + 8 + 4 * NB) ∧
    IM W' = IM W ∧ idcount W' = idcount W ∧ PM W' = PM W ∧
    CachedStrs W' = CachedStrs W ∧ CurStrOffset W' = CurStrOffset W ∧
    StrEntries W' = StrEntries W ∧
    (tell (Out W') < 2 ^ 32 →
     ∀ II id, IM W !! II = Some id →
       ∃ o, offs !! Z.to_nat (id - 1) = Some o ∧
            tell (Out W) ≤ o ∧
            bytes_at (Out W') o (length (name_bytes (getName PP II)))
            = name_bytes (getName PP II)) ∧
    (tell (Out W') < 2 ^ 32 →
     bytes_at (Out W') STO 4 = le32 NB ∧
     ∀ II id, IM W !! II = Some id →
       ∃ p es,
         bytes_at (Out W')
           (STO + 8 + 4 * Z.land (HT.hash (id_item PP (II, id))) (NB - 1)) 4
         = le32 p ∧
         tell (Out W) ≤ p ∧
         p + 2 + Z.of_nat (length (concat (id_entry_bytes PP <$> es))) ≤ STO ∧
         bytes_at (Out W') p (2 + length (concat (id_entry_bytes PP <$> es)))
         = le16 (Z.of_nat (length es)) ++ concat (id_entry_bytes PP <$> es) ∧
         (II, id) ∈ es ∧
         Forall (λ e, IM W !! e.1 = Some e.2) es).
Proof.
  intros Hinv Hc Hchains Hnames.
  destruct (IM_entries W Hinv) as (Hnd & Hr & Hlen).
  set (entries := map_to_list (IM W)) in *.
  assert (Hc0 : 0 ≤ idcount W) by lia.
  set (m0 := replicate (Z.to_nat (idcount W)) (mkPTHIdKey 0%N 0)).
  assert (Hlm0 : Z.of_nat (length m0) = idcount W).
  { unfold m0. rewrite length_replicate. lia. }
  destruct (FillIdentifierMaps_ok PP entries m0 HT.empty_table 0)
    as (m1 & T & HF & Hlm1 & HII & _ & HinvT & Hfresh & Hperm); try done.
  { intros e He. rewrite Hlm0. by apply Hr. }
  { rewrite Hlm0. change (2 ^ 32) with 4294967296. lia. }
  { apply table_inv_empty. }
  { apply calloc_fresh. }
  { lia. }
  rewrite Hlm0 in HF.
  assert (Hnil : all_items (HT.Buckets (HT.empty_table : @HT.Table nat Z)) = [])
    by apply all_items_calloc.
  rewrite Hnil, app_nil_r in Hperm.
  rewrite Z.add_0_l, Hlen in HinvT.
  set (IIs := IdKey_II <$> m1).
  assert (HlI : length IIs = length m1) by apply length_fmap.
  set (nm := λ k : nat, getName PP (IIs !!! k)).
  set (lo := tell (Out W)).
  set (J := λ (d : list (@HT.Item nat Z)) (out : raw_ostream)
              (m : list PTHIdKey),
     IdKey_II <$> m = IIs ∧ lo ≤ tell out ∧
     (tell out < 2 ^ 32 → ∀ E, E ∈ d →
        lo ≤ IdKey_FileOffset (m !!! HT.key E) ∧
        bytes_at out (IdKey_FileOffset (m !!! HT.key E))
                 (length (name_bytes (nm (HT.key E))))
        = name_bytes (nm (HT.key E)))).
  set (ib := λ E : @HT.Item nat Z,
     id_item_bytes (nm (HT.key E)) (HT.data E) (HT.hash E)).
  assert (Hitems : ∀ E, E ∈ all_items (HT.Buckets T) →
     ∃ II id, IM W !! II = Some id ∧ E = id_item PP (II, id) ∧
              (HT.key E < length m1)%nat ∧ IIs !!! HT.key E = II).
  { intros E HE. rewrite Hperm in HE.
    apply list_elem_of_fmap in HE as ([II id] & -> & He).
    exists II, id. pose proof (Hr _ He) as Hid. cbn [snd] in Hid.
    split_and!; [by apply elem_of_map_to_list|done|cbn; lia|].
    unfold IIs. rewrite (list_lookup_total_fmap IdKey_II m1) by (cbn; lia).
    by apply (HII (II, id)). }
  assert (Hmono : ∀ d Out m x, J d Out m → J d (Out ++ x) m).
  { intros d Out m x (HJ1 & Hlo & HJ2). split; [done|].
    split; [unfold tell in *; rewrite length_app; lia|]. intros Hb E HE.
    assert (Hb' : tell Out < 2 ^ 32).
    { unfold tell in *. rewrite length_app in Hb. lia. }
    destruct (HJ2 Hb' E HE) as (Hlo' & Hby). split; [done|].
    by apply bytes_at_app. }
  assert (Hstep : ∀ E, E ∈ all_items (HT.Buckets T) → ∀ d Out m, J d Out m →
     ∃ m', @HT.EmitChain _ _ _ (PTHIdentifierTableTrait PP) Out m [E]
           = Ok (Out ++ ib E, m') ∧ J (d ++ [E]) (Out ++ ib E) m').
  { intros E HE d Out m (HJ1 & Hlo & HJ2).
    destruct (Hitems E HE) as (II & id & HIM & -> & Hk & HIIk).
    set (k := Z.to_nat (id - 1)) in *.
    set (h := u32 (BernsteinHash (c_str (getName PP II)))).
    change (id_item PP (II, id)) with (@HT.mkItem nat Z k id h) in *.
    cbn [HT.key] in Hk, HIIk.
    assert (Hlm : length m = length m1).
    { by rewrite <- (length_fmap IdKey_II m), HJ1. }
    assert (HIm : IdKey_II (m !!! k) = II).
    { rewrite <- HIIk, <- HJ1, (list_lookup_total_fmap IdKey_II m) by lia.
      done. }
    assert (Hib : ib (HT.mkItem k id h) = id_item_bytes (getName PP II) id h).
    { unfold ib, nm. cbn [HT.key HT.data HT.hash]. by rewrite HIIk. }
    eexists. split.
    { rewrite (id_item_step PP m k) by (rewrite ?HIm; eauto with lia).
      rewrite HIm, Hib. done. }
    split.
    { rewrite list_fmap_insert. cbn [IdKey_II]. rewrite <- HJ1.
      apply list_insert_id. rewrite list_lookup_fmap.
      rewrite (list_lookup_lookup_total_lt m k) by lia. cbn.
      by rewrite HIm. }
    split; [unfold tell in *; rewrite length_app; lia|].
    intros Hb E' HE'.
    assert (Hb' : tell Out < 2 ^ 32).
    { unfold tell in *. rewrite length_app in Hb. lia. }
    destruct (decide (HT.key E' = k)) as [Hkk|Hkk].
    - rewrite Hkk, list_lookup_total_insert_eq by lia. cbn [IdKey_FileOffset].
      assert (H0 : 0 ≤ tell Out) by (unfold tell; lia).
      assert (H6 : tell Out + 6 < 2 ^ 32).
      { rewrite Hib in Hb. unfold tell, id_item_bytes in Hb |- *.
        rewrite !length_app, !length_le32 in Hb. cbn [length le16] in Hb.
        lia. }
      rewrite u32_small by lia. split; [lia|].
      rewrite Hib. unfold nm. rewrite HIIk. unfold id_item_bytes.
      replace (tell Out + 6)
        with (tell (Out ++ le32 h
                        ++ le16 (strlen (c_str (getName PP II)) + 1))).
      2:{ unfold tell. rewrite !length_app, length_le32. cbn [length le16]. lia. }
      set (pre := Out ++ le32 h
                      ++ le16 (strlen (c_str (getName PP II)) + 1)).
      assert (Hpre : Out ++ le32 h
                     ++ le16 (strlen (c_str (getName PP II)) + 1)
                     ++ name_bytes (getName PP II) ++ le32 id
                     = pre ++ name_bytes (getName PP II) ++ le32 id).
      { unfold pre. by rewrite <- !app_assoc. }
      rewrite Hpre. apply bytes_at_end.
    - rewrite list_lookup_total_insert_ne by done.
      apply elem_of_app in HE' as [HE'|HE'].
      + destruct (HJ2 Hb' E' HE') as (Hlo' & Hby). split; [done|].
        by apply bytes_at_app.
      + apply list_elem_of_singleton in HE'. by subst E'. }
  assert (Hshort : ∀ (i : nat) B, HT.Buckets T !! i = Some B →
                     u32 (HT.B_length B) < 65536)
    by exact (Hchains m1 T HF).
  destruct (@Emit_inv _ _ _ (PTHIdentifierTableTrait PP) J ib Hmono
              (Out W) m1 T Hstep Hshort)
    as (bs' & m2 & pad & HE & HJ & Hpad & Hal & Hlbs & Hlk).
  { split; [done|]. split; [unfold lo; lia|]. intros _ E HE. inversion HE. }
  cbn zeta in HE.
  pose proof (emitted_lookup ib (Out W) T _ bs' pad _ HinvT Hfresh Hlbs Hlk
                eq_refl) as Hlook.
  cbn zeta in Hlook.
  pose proof (table_inv_law _ _ HinvT) as Hlaw.
  destruct HinvT as (HNE & HlB & HNBk & _).
  unfold EmitIdentifierTable. fold m0 entries. rewrite HF.
  cbn [mbind Res_bind]. rewrite HE. cbn [mbind Res_bind].
  rewrite HNE in *.
  set (payload := payload_bytes ib (HT.Buckets T)) in *.
  set (slots := concat ((λ B, le32 (HT.B_off B)) <$> bs')) in *.
  set (Oe := Out W ++ payload ++ replicate pad 0
             ++ le32 (HT.NumBuckets T) ++ le32 (idcount W) ++ slots) in *.
  destruct (EmitFileOffsets_Out m2
              (W_Emit32 (set_Out W Oe) (idcount (set_Out W Oe))))
    as (HO & HIM & Hid & HPM & HCS & HCO & HSE).
  assert (Hls : Z.of_nat (length slots) = 4 * HT.NumBuckets T).
  { unfold slots. rewrite length_concat, <- list_fmap_compose.
    rewrite (sum_list_fmap_const _ 4%nat) by (intros; apply length_le32).
    destruct HNBk as (k & Hk & HNB). rewrite Hlbs, HlB.
    assert (0 < HT.NumBuckets T) by (rewrite HNB; apply Z.pow_pos_nonneg; lia).
    lia. }
  assert (Hlm2 : length m2 = length m1).
  { destruct HJ as (HJ1 & _). by rewrite <- (length_fmap IdKey_II m2), HJ1. }
  eexists _, _, _, payload, pad, (HT.NumBuckets T), slots,
    (IdKey_FileOffset <$> m2).
  split; [reflexivity|].
  rewrite HO, HIM, Hid, HPM, HCS, HCO, HSE, W_Emit32_Out.
  cbn [Out set_Out idcount IM PM CachedStrs CurStrOffset StrEntries W_Emit32].
  clear HO HIM Hid HPM HCS HCO HSE.
  split_and!; try done.
  - unfold Oe. by rewrite <- !app_assoc.
  - rewrite length_fmap, Hlm2, Hlm1. done.
  - cbn [Out set_Out]. f_equal. unfold Oe, tell.
    rewrite !length_app, !length_le32 in *. lia.
  - intros Hb II id HIM'.
    assert (HEin : id_item PP (II, id) ∈ all_items (HT.Buckets T)).
    { rewrite Hperm. apply list_elem_of_fmap_2.
      by apply elem_of_map_to_list. }
    destruct (Hitems _ HEin) as (II' & id' & _ & _ & Hk & HIIk).
    unfold id_item in Hk, HIIk. cbn [HT.key fst snd] in Hk, HIIk.
    destruct HJ as (HJ1 & _ & HJ2).
    assert (Hbe : tell Oe < 2 ^ 32).
    { unfold tell in *. rewrite !length_app in Hb. lia. }
    specialize (HJ2 Hbe _ HEin).
    unfold id_item in HJ2. cbn [HT.key fst snd] in HJ2.
    unfold nm in HJ2. rewrite HIIk in HJ2.
    assert (HII' : II' = II).
    { rewrite <- HIIk. unfold IIs.
      rewrite (list_lookup_total_fmap IdKey_II m1) by lia.
      by apply (HII (II, id)), elem_of_map_to_list. }
    rewrite HII' in HJ2. destruct HJ2 as (Hlo2 & HJ2).
    exists (IdKey_FileOffset (m2 !!! Z.to_nat (id - 1))). split_and!.
    + rewrite list_lookup_fmap.
      rewrite (list_lookup_lookup_total_lt m2) by lia. done.
    + done.
    + rewrite <- app_assoc. by apply bytes_at_app.
  - intros Hb.
    assert (Hbe : tell Oe < 2 ^ 32).
    { unfold tell in *. rewrite !length_app in Hb. lia. }
    destruct (Hlook Hbe) as (Hlo & Hhi & Hnb & Hlk').
    assert (HNB0 : 0 < HT.NumBuckets T).
    { destruct HNBk as (k & Hk & ->). apply Z.pow_pos_nonneg; lia. }
    assert (H0 : 0 ≤ tell (Out W)) by (unfold tell; lia).
    rewrite (u32_small (tell (Out W ++ payload ++ replicate pad 0))) by lia.
    split.
    { rewrite <- app_assoc. by apply bytes_at_app. }
    intros II id HIM'.
    assert (HEin : id_item PP (II, id) ∈ all_items (HT.Buckets T)).
    { rewrite Hperm. apply list_elem_of_fmap_2.
      by apply elem_of_map_to_list. }
    destruct (Hlk' _ HEin)
      as (p & chain & Hslot & Hp & Hpe & Hch & Hin & Hsub & _).
    set (g := λ E : @HT.Item nat Z, (IIs !!! HT.key E, HT.data E)).
    assert (Hconv : ∀ E', E' ∈ chain →
              IM W !! (g E').1 = Some (g E').2 ∧
              E' = id_item PP (g E') ∧
              id_entry_bytes PP (g E') = ib E').
    { intros E' HE'.
      destruct (Hitems E' (Hsub E' HE')) as (II' & id' & HIM2 & -> & _ & HIIk).
      unfold g. rewrite HIIk. unfold id_entry_bytes, ib, nm. rewrite HIIk.
      done. }
    exists p, (g <$> chain).
    assert (Hbytes : id_entry_bytes PP <$> (g <$> chain) = ib <$> chain).
    { rewrite <- list_fmap_compose. apply list_fmap_ext. intros i E' Hi.
      apply Hconv. by eapply list_elem_of_lookup_2. }
    rewrite Hbytes, length_fmap. split_and!.
    + rewrite <- app_assoc. by apply bytes_at_app.
    + done.
    + done.
    + rewrite <- app_assoc. apply bytes_at_app; [done|].
      by rewrite length_app.
    + apply list_elem_of_fmap. exists (id_item PP (II, id)). split; [|done].
      destruct (Hconv _ Hin) as (HIMg & Heq & _).
      destruct (g (id_item PP (II, id))) as [II' id'] eqn:Hg.
      assert (Hid' : id' = id).
      { unfold g in Hg. cbn [id_item HT.data snd] in Hg. congruence. }
      subst id'. cbn [fst snd] in HIMg. f_equal.
      destruct Hinv as (_ & Hinj & _). by apply (Hinj II II' id).
    + apply Forall_fmap, Forall_forall. intros E' HE'. by apply Hconv.
Qed.

(** X16.  For fewer than [2^16] identifiers with names shorter than
    [2^16 - 1], [EmitIdentifierTable] succeeds and only appends to the
    stream: the payload of a hash table with the number of buckets of
    the load-factor law, padding to a multiple of 4, the table's header
    and bucket offsets, then the number of identifiers and one 32-bit
    offset per persistent ID.  The offset in slot [id - 1] is where the
    name of the identifier with that ID stands in what was appended,
    followed by a NUL; and the slot of the bucket the hash of the name
    selects holds the offset of a chain that holds the item of the
    identifier.  The interner, the file map and the pool are left as
    they were. *)
Theorem EmitIdentifierTable_inverse (W : PTHWriter) :
  interner_inv W → idcount W < 65536 →
  (∀ II id, IM W !! II = Some id →
            strlen (c_str (getName PP II)) + 1 < 65536) →
  ∃ IDOff STO W' payload (pad : nat) NB slots offs,
    EmitIdentifierTable PP W = Ok ((IDOff, STO), W') ∧
    Out W' = Out W ++ payload ++ replicate pad 0
             ++ le32 NB ++ le32 (idcount W) ++ slots
             ++ le32 (idcount W) ++ concat (le32 <$> offs) ∧
    load_factor_law (idcount W) NB ∧
    Z.of_nat (length slots) = 4 * NB ∧
    Z.of_nat (length offs) = idcount W ∧
    (pad < 4)%nat ∧
    tell (Out W ++ payload ++ replicate pad 0) mod 4 = 0 ∧
    STO = u32 (tell (Out W ++ payload ++ replicate pad 0)) ∧
    IDOff = u32 (tell (Out W ++ payload ++ replicate pad 0) + 8 + 4 * NB) ∧
    IM W' = IM W ∧ idcount W' = idcount W ∧ PM W' = PM W ∧
    CachedStrs W' = CachedStrs W ∧ CurStrOffset W' = CurStrOffset W ∧
    StrEntries W' = StrEntries W ∧
    (tell (Out W') < 2 ^ 32 →
     ∀ II id, IM W !! II = Some id →
       ∃ o, offs !! Z.to_nat (id - 1) = Some o ∧
            tell (Out W) ≤ o ∧
            bytes_at (Out W') o (length (name_bytes (getName PP II)))
            = name_bytes (getName PP II)) ∧
    (tell (Out W') < 2 ^ 32 →
     bytes_at (Out W') STO 4 = le32 NB ∧
     ∀ II id, IM W !! II = Some id →
       ∃ p es,
         bytes_at (Out W')
           (STO + 8 + 4 * Z.land (HT.hash (id_item PP (II, id))) (NB - 1)) 4
         = le32 p ∧
         tell (Out W) ≤ p ∧
         p + 2 + Z.of_nat (length (concat (id_entry_bytes PP <$> es))) ≤ STO ∧
         bytes_at (Out W') p (2 + length (concat (id_entry_bytes PP <$> es)))
         = le16 (Z.of_nat (length es)) ++ concat (id_entry_bytes PP <$> es) ∧
         (II, id) ∈ es ∧
         Forall (λ e, IM W !! e.1 = Some e.2) es).
Proof.
  intros Hinv Hc Hnames. apply EmitIdentifierTable_core; try done; [lia|].
  intros m T HF i B Hi.
  destruct (Fill_chains_fresh W m T Hinv) as (Hfresh & Hperm); [lia|done|].
  destruct (IM_entries W Hinv) as (_ & _ & Hlen).
  destruct (Hfresh i B Hi) as (_ & ->). rewrite u32_idem.
  assert (Hsub : (length (HT.B_head B) ≤ length (all_items (HT.Buckets T)))%nat).
  { unfold all_items.
    rewrite <- (take_drop_middle _ _ _ Hi), fmap_app, fmap_cons.
    rewrite concat_app, length_app. cbn [concat]. rewrite length_app. lia. }
  rewrite Hperm, length_fmap in Hsub.
  rewrite u32_small by (change (2 ^ 32) with 4294967296; lia). lia.
Qed.

End IdTable.


(** * The assembly of the file *)

Lemma Emit16_inv Out V Out' :
  Emit16 Out V = Ok Out' → Out' = Out ++ le16 V ∧ u32 V < 65536.
Proof.
  intros H. destruct (Z_lt_le_dec (u32 V) 65536) as [Hlt|Hge].
  - rewrite Emit16_ok in H by done. by injection H as <-.
  - by rewrite Emit16_fail in H.
Qed.

Section Shape.
Context {key_type data_type Mem : Type} `{!Info key_type data_type Mem}.
Implicit Types (bs : list (@HT.Bucket key_type data_type)).

Hypothesis item_appends : ∀ Out m (E : @HT.Item key_type data_type) Out' m',
  HT.EmitChain Out m [E] = Ok (Out', m') → ∃ x, Out' = Out ++ x.

Lemma EmitChain_appends chain : ∀ Out m Out' m',
  HT.EmitChain Out m chain = Ok (Out', m') → ∃ x, Out' = Out ++ x.
Proof.
  induction chain as [|E chain IH]; intros Out m Out' m' H.
  - injection H as <- <-. exists []. by rewrite app_nil_r.
  - rewrite EmitChain_cons in H.
    destruct (HT.EmitChain Out m [E]) as [[Out1 m1]|] eqn:H1; [|done].
    cbn [mbind Res_bind] in H.
    apply item_appends in H1 as (x1 & ->).
    apply IH in H as (x & ->). exists (x1 ++ x). by rewrite app_assoc.
Qed.

Lemma EmitPayload_appends bs : ∀ Out m bs' Out' m',
  HT.EmitPayload Out m bs = Ok (bs', (Out', m')) →
  (∃ x, Out' = Out ++ x) ∧ length bs' = length bs.
Proof.
  induction bs as [|B bs IH]; intros Out m bs' Out' m' H;
    cbn [HT.EmitPayload] in H.
  - injection H as <- <- <-. split; [|done]. exists []. by rewrite app_nil_r.
  - destruct (HT.B_head B) as [|E chain].
    + destruct (HT.EmitPayload Out m bs) as [[bs1 [Out1 m1]]|] eqn:H1;
        [|done].
      cbn [mbind Res_bind] in H. injection H as <- <- <-.
      apply IH in H1 as (Hx & Hl). split; [done|]. cbn. by rewrite Hl.
    + cbn zeta in H.
      destruct (Emit16 Out _) as [Out1|] eqn:H16; [|done].
      cbn [mbind Res_bind] in H. apply Emit16_inv in H16 as (-> & _).
      destruct (HT.EmitChain _ m _) as [[Out2 m2]|] eqn:HC; [|done].
      cbn [mbind Res_bind] in H. apply EmitChain_appends in HC as (x2 & ->).
      destruct (HT.EmitPayload _ m2 bs) as [[bs1 [Out3 m3]]|] eqn:H1;
        [|done].
      cbn [mbind Res_bind] in H. injection H as <- <- <-.
      apply IH in H1 as ((x3 & ->) & Hl). split; [|cbn; by rewrite Hl].
      eexists. by rewrite <- !app_assoc.
Qed.

Lemma Emit_shape Out m (T : @HT.Table key_type data_type) off T' Out' m' :
  HT.Emit Out m T = Ok (off, (T', (Out', m'))) →
  ∃ payload (pad : nat) slots,
    Out' = Out ++ payload ++ replicate pad 0 ++ le32 (HT.NumBuckets T)
           ++ le32 (HT.NumEntries T) ++ slots ∧
    (pad < 4)%nat ∧
    tell (Out ++ payload ++ replicate pad 0) mod 4 = 0 ∧
    off = u32 (tell (Out ++ payload ++ replicate pad 0)) ∧
    length slots = (4 * length (HT.Buckets T))%nat ∧
    HT.NumBuckets T' = HT.NumBuckets T ∧ HT.NumEntries T' = HT.NumEntries T.
Proof.
  unfold HT.Emit. intros H.
  destruct (HT.EmitPayload Out m (HT.Buckets T)) as [[bs' [Out1 m1]]|] eqn:HP;
    [|done].
  cbn [mbind Res_bind] in H.
  apply EmitPayload_appends in HP as ((payload & ->) & Hl).
  destruct (Pad4 (Out ++ payload)) as (pad & Hpad & HPad & Hal).
  rewrite HPad, EmitOffsets_app, !Emit32_le32 in H.
  injection H as <- <- <- <-.
  exists payload, pad, (concat ((λ B, le32 (HT.B_off B)) <$> bs')).
  split_and!; try done.
  - by rewrite <- !app_assoc.
  - unfold tell in *. rewrite !length_app, length_replicate in *.
    rewrite <- Hal. f_equal. lia.
  - by rewrite <- !app_assoc.
  - rewrite length_concat, <- list_fmap_compose.
    rewrite (sum_list_fmap_const _ 4%nat) by (intros; apply length_le32).
    lia.
Qed.

End Shape.

Lemma file_item_appends Out m (E : @HT.Item PTHEntryKeyVariant PTHEntry)
    Out' m' :
  HT.EmitChain Out m [E] = Ok (Out', m') → ∃ x, Out' = Out ++ x.
Proof.
  cbn [HT.EmitChain EmitKeyDataLength EmitKey EmitData
       FileEntryPTHEntryInfo_Info].
  unfold FileEntryPTHEntryInfo.EmitKeyDataLength. intros H.
  destruct (Emit16 _ _) as [Out1|] eqn:H16; [|done].
  cbn [mbind Res_bind fst snd] in H. apply Emit16_inv in H16 as (-> & _).
  unfold FileEntryPTHEntryInfo.EmitData, FileEntryPTHEntryInfo.EmitKey,
    write, Emit8 in H.
  destruct (HT.key E) as [FE|DE|P]; cbn [getFile KeyVariant_EmitData] in H.
  - destruct (Emit16 _ _) as [Out2|] eqn:H16'; [|done].
    cbn [mbind Res_bind] in H. apply Emit16_inv in H16' as (-> & _).
    injection H as <- <-. rewrite !Emit32_le32. unfold Emit64.
    eexists. by rewrite <- !app_assoc.
  - injection H as <- <-. rewrite !Emit32_le32.
    eexists. by rewrite <- !app_assoc.
  - injection H as <- <-. rewrite !Emit32_le32.
    eexists. by rewrite <- !app_assoc.
Qed.

Lemma id_item_appends PP Out m (E : @HT.Item nat Z) Out' m' :
  @HT.EmitChain _ _ _ (PTHIdentifierTableTrait PP) Out m [E] = Ok (Out', m') →
  ∃ x, Out' = Out ++ x.
Proof.
  cbn [HT.EmitChain EmitKeyDataLength EmitKey EmitData
       PTHIdentifierTableTrait].
  unfold PTHIdentifierTableTrait_EmitKeyDataLength. intros H.
  destruct (Emit16 _ _) as [Out1|] eqn:H16; [|done].
  cbn [mbind Res_bind fst snd] in H. apply Emit16_inv in H16 as (-> & _).
  unfold PTHIdentifierTableTrait_EmitKey, PTHIdentifierTableTrait_EmitData,
    write in H.
  cbn [mbind Res_bind] in H. injection H as <- <-. rewrite !Emit32_le32.
  eexists. by rewrite <- !app_assoc.
Qed.

Lemma seek_write_middle pre old rest bytes :
  length old = length bytes →
  seek_write (pre ++ old ++ rest) (tell pre) bytes = pre ++ bytes ++ rest.
Proof.
  intros Hl. unfold seek_write, tell. rewrite Nat2Z.id.
  rewrite take_app_length. f_equal. f_equal.
  rewrite drop_app_ge by lia.
  replace (length pre + length bytes - length pre)%nat with (length old) by lia.
  by rewrite drop_app_length.
Qed.

Lemma EmitSpellings_PM entries : ∀ W,
  PM (EmitSpellings W entries) = PM W.
Proof. induction entries as [|s entries IH]; intros W; cbn; [done|]. by rewrite IH. Qed.

Section Assembly.
Variable PP : Preprocessor.

Lemma EmitPPCond_appends tbl : ∀ W off i W',
  EmitPPCond W off i tbl = Ok W' → ∃ x, Out W' = Out W ++ x.
Proof.
  induction tbl as [|[first second] tbl IH]; intros W off i W' H;
    cbn [EmitPPCond] in H.
  - injection H as <-. exists []. by rewrite app_nil_r.
  - destruct (negb (second =? 0)); cbn [assert mbind Res_bind] in H; [|done].
    apply IH in H as (x & ->). rewrite !W_Emit32_Out.
    eexists. by rewrite <- !app_assoc.
Qed.

Lemma LexTokens_offsets L W E W' :
  LexTokens PP L W = Ok (E, W') →
  (∃ x, Out W' = Out W ++ x) ∧ PM W' = PM W ∧
  tell (Out W) + 16 ≤ tell (Out W') ∧
  (tell (Out W') < 2 ^ 32 →
   TokenData E mod 4 = 0 ∧ tell (Out W) ≤ TokenData E ∧
   TokenData E + 12 ≤ PPCondData E ∧ PPCondData E + 4 ≤ tell (Out W')).
Proof.
  intros H.
  destruct (LexTokens_inv _ _ _ _ _ H)
    as (pad & Ts & T & js & W1 & St & Hpad & Hmod & Hs & HT & _ & -> & HE).
  destruct Hs as (HET & _).
  destruct (EmitTokens_tell _ _ _ _ HET) as (Ht1 & HPM1 & recs & HO1 & Hl1).
  destruct (EmitPPCond_tell _ _ _ _ _ HE) as (Ht2 & HPM2 & _).
  destruct (EmitPPCond_appends _ _ _ _ _ HE) as (x & HO2).
  cbn [Out set_Out PM] in *.
  assert (Htp : tell (Out W ++ replicate pad 0) = tell (Out W) + Z.of_nat pad).
  { unfold tell. rewrite length_app, length_replicate. lia. }
  rewrite Htp, length_app in *. cbn [length] in *.
  assert (Htw : tell (Out (W_Emit32 W1 (Z.of_nat (length (PPCond St)))))
                = tell (Out W1) + 4).
  { unfold tell. rewrite W_Emit32_Out, length_app, length_le32. lia. }
  rewrite Htw in Ht2.
  assert (H0 : 0 ≤ tell (Out W)) by (unfold tell; lia).
  split_and!.
  - rewrite HO2, W_Emit32_Out, HO1. eexists. by rewrite <- !app_assoc.
  - by rewrite HPM2.
  - lia.
  - intros Hb. cbn [TokenData PPCondData].
    rewrite (u32_small (tell (Out W) + Z.of_nat pad)) by lia.
    rewrite (u32_small (tell (Out W1))) by lia.
    split_and!; [done|lia..].
Qed.

Lemma CacheFiles_appends SM : ∀ W W',
  CacheFiles PP SM W = Ok W' → ∃ x, Out W' = Out W ++ x.
Proof.
  induction SM as [|C SM IH]; intros W W' H; cbn [CacheFiles] in H.
  - injection H as <-. exists []. by rewrite app_nil_r.
  - destruct (negb (isAbsolute PP _)); [by apply IH|].
    destruct (getBuffer C) as [L|]; [|by apply IH].
    destruct (LexTokens PP L W) as [[E W1]|] eqn:HL; [|done].
    cbn [mbind Res_bind] in H.
    destruct (HT.insert _ _ _ _) as [pm|]; [|done].
    cbn [mbind Res_bind] in H.
    apply IH in H as (x & ->). cbn [Out set_PM].
    apply LexTokens_offsets in HL as ((x1 & ->) & _).
    eexists. by rewrite <- app_assoc.
Qed.

Lemma tell_app_le (a x : list Z) : tell a ≤ tell (a ++ x).
Proof. unfold tell. rewrite length_app. lia. Qed.

Lemma CacheFiles_inv SM : ∀ W W' n,
  CacheFiles PP SM W = Ok W' →
  table_inv n (PM W) → 0 ≤ n → 16 * n ≤ tell (Out W) →
  tell (Out W') < 2 ^ 32 →
  ∃ Es,
    length Es = length (filter (cached_file PP) SM) ∧
    all_items (HT.Buckets (PM W'))
    ≡ₚ zip_with (λ C E, HT.new_Item tt (IsFE (Entry C)) E)
                (filter (cached_file PP) SM) Es
       ++ all_items (HT.Buckets (PM W)) ∧
    table_inv (n + Z.of_nat (length Es)) (PM W') ∧
    Forall (λ E, TokenData E mod 4 = 0 ∧ tell (Out W) ≤ TokenData E ∧
                 TokenData E + 12 ≤ PPCondData E ∧
                 PPCondData E + 4 ≤ tell (Out W')) Es ∧
    lexed_files PP SM W Es W'.
Proof.
  induction SM as [|C SM IH]; intros W W' n H Hinv Hn H16 Hb.
  - injection H as <-. exists []. cbn. rewrite Z.add_0_r.
    split_and!; try done. constructor.
  - rewrite filter_cons. destruct (decide (cached_file PP C)) as [Hc|Hc].
    2:{ apply Is_true_false in Hc. pose proof H as H'.
        rewrite CacheFiles_skip in H' by done.
        destruct (IH _ _ _ H' Hinv Hn H16 Hb)
          as (Es & Hlen & Hperm & HinvT & HF & Hlex).
        exists Es. split_and!; try done. by apply lexed_files_skip. }
    apply Is_true_true in Hc. pose proof Hc as Hc'. unfold cached_file in Hc'.
    apply andb_prop in Hc' as [Ha Hbuf].
    destruct (getBuffer C) as [L|] eqn:HL; [|done].
    rewrite (CacheFiles_cached PP C L) in H by done.
    destruct (LexTokens PP L W) as [[E W1]|] eqn:HLT; [|done].
    cbn [mbind Res_bind] in H.
    destruct (LexTokens_offsets _ _ _ _ HLT) as ((x1 & HO1) & HPM1 & Ht1 & HE).
    destruct (HT.insert _ _ _ _) as [pm|] eqn:Hins; [|done].
    cbn [mbind Res_bind] in H.
    destruct (CacheFiles_appends _ _ _ H) as (x2 & HO2).
    cbn [Out set_PM] in HO2.
    pose proof (tell_app_le (Out W1) x2) as Hle. rewrite <- HO2 in Hle.
    rewrite <- HPM1 in Hinv.
    destruct (insert_ok tt (IsFE (Entry C)) E (PM W1) n Hinv)
      as (T1 & HT1 & Hinv1 & _ & Hperm1 & _);
      [change (2 ^ 32) with 4294967296 in Hb; lia|].
    rewrite Hins in HT1. injection HT1 as <-.
    destruct (IH (set_PM W1 pm) W' (n + 1) H)
      as (Es & Hlen & Hperm & HinvT & HF & Hlex);
      [done|lia|cbn [Out set_PM]; lia|done|].
    assert (Hlex' : lexed_files PP (C :: SM) W (E :: Es) W')
      by (eapply lexed_files_cons; eauto).
    cbn [Out PM set_PM] in *.
    exists (E :: Es). cbn [length zip_with]. split_and!; [| | | |exact Hlex'].
    + by rewrite Hlen.
    + rewrite Hperm, Hperm1, HPM1. cbn [app]. symmetry.
      apply Permutation_middle.
    + replace (n + Z.of_nat (S (length Es)))
        with (n + 1 + Z.of_nat (length Es)) by lia. done.
    + constructor.
      * destruct HE as (? & ? & ? & ?); [lia|]. split_and!; try done. lia.
      * eapply Forall_impl; [exact HF|]. intros E' (? & ? & ? & ?).
        split_and!; try done. lia.
Qed.

(** What [lexed_files] says of one file: its pair is the result of
    [LexTokens] on the file's buffer, run on the writer as the files
    before it have left it. *)
Lemma lexed_files_lookup SM W Es W' :
  lexed_files PP SM W Es W' →
  (∃ x, Out W' = Out W ++ x) ∧
  ∀ (k : nat) C E,
    filter (cached_file PP) SM !! k = Some C → Es !! k = Some E →
    ∃ L Wk Wk',
      getBuffer C = Some L ∧ LexTokens PP L Wk = Ok (E, Wk') ∧
      (∃ x, Out Wk = Out W ++ x) ∧ (∃ y, Out W' = Out Wk' ++ y).
Proof.
  induction 1 as [W|C files W Es W' Hc Hlex IH
                 |C L files W E W1 pm Es W' Hc HL HLT Hins Hlex IH].
  - split; [exists []; by rewrite app_nil_r|]. intros k C E Hk. done.
  - rewrite filter_cons_False by (by apply Is_true_false). exact IH.
  - destruct IH as ((x & Hx) & IH). cbn [Out set_PM] in Hx.
    destruct (LexTokens_offsets _ _ _ _ HLT) as ((x1 & HO1) & _).
    split; [exists (x1 ++ x); by rewrite Hx, HO1, app_assoc|].
    rewrite filter_cons_True by (by apply Is_true_true).
    intros [|k] C' E' Hk HE.
    + injection Hk as <-. injection HE as <-.
      exists L, W, W1. split_and!; try done.
      * exists []. by rewrite app_nil_r.
      * by exists x.
    + cbn in Hk, HE.
      destruct (IH k C' E' Hk HE) as (L' & Wk & Wk' & Hb' & HLT' & (y1 & Hy1) & Hy2).
      exists L', Wk, Wk'. split_and!; try done.
      cbn [Out set_PM] in Hy1. exists (x1 ++ y1).
      by rewrite Hy1, HO1, app_assoc.
Qed.

(** X18.  When the loop of [GeneratePTH] over the files returns, having
    started with an empty file map and ended below [2^32] bytes, the
    file map holds one item for each file with an absolute path and a
    buffer, and no other: the key is the file's entry, the data the pair
    of offsets [LexTokens] returned for it.  The pairs [Es] are those of
    the run of the loop, file after file ([lexed_files]): the pair of a
    file is the result of [LexTokens] on its buffer, on the writer as
    the files before it have left it, and the file map then gains the
    item.  Each pair lies in what the loop has appended, and token data
    start at a multiple of 4. *)
Theorem CacheFiles_file_map (SM : list ContentCache) (W W' : PTHWriter) :
  CacheFiles PP SM W = Ok W' → PM W = HT.empty_table →
  tell (Out W') < 2 ^ 32 →
  ∃ Es,
    length Es = length (filter (cached_file PP) SM) ∧
    all_items (HT.Buckets (PM W'))
    ≡ₚ zip_with (λ C E, HT.new_Item tt (IsFE (Entry C)) E)
                (filter (cached_file PP) SM) Es ∧
    HT.NumEntries (PM W') = Z.of_nat (length (filter (cached_file PP) SM)) ∧
    load_factor_law (HT.NumEntries (PM W')) (HT.NumBuckets (PM W')) ∧
    (∃ x, Out W' = Out W ++ x) ∧
    Forall (λ E, TokenData E mod 4 = 0 ∧ tell (Out W) ≤ TokenData E ∧
                 TokenData E + 12 ≤ PPCondData E ∧
                 PPCondData E + 4 ≤ tell (Out W')) Es ∧
    lexed_files PP SM W Es W' ∧
    (∀ (k : nat) C E,
       filter (cached_file PP) SM !! k = Some C → Es !! k = Some E →
       ∃ L Wk Wk',
         getBuffer C = Some L ∧ LexTokens PP L Wk = Ok (E, Wk') ∧
         (∃ x, Out Wk = Out W ++ x) ∧ (∃ y, Out W' = Out Wk' ++ y)).
Proof.
  intros H HPM Hb.
  destruct (CacheFiles_inv SM W W' 0 H)
    as (Es & Hlen & Hperm & Hinv & HF & Hlex);
    try done.
  { rewrite HPM. apply table_inv_empty. }
  { unfold tell. lia. }
  rewrite HPM in Hperm.
  assert (Hnil : all_items (HT.Buckets (HT.empty_table
                   : @HT.Table PTHEntryKeyVariant PTHEntry)) = [])
    by apply all_items_calloc.
  rewrite Hnil, app_nil_r in Hperm.
  pose proof (table_inv_law _ _ Hinv) as Hlaw.
  destruct Hinv as (HNE & _).
  exists Es. split_and!; try done.
  - rewrite HNE. lia.
  - by rewrite HNE.
  - by eapply CacheFiles_appends.
  - by apply lexed_files_lookup.
Qed.

Lemma EmitIdentifierTable_shape W r W' :
  EmitIdentifierTable PP W = Ok (r, W') →
  ∃ payload (pad : nat) hdr tl,
    Out W' = Out W ++ payload ++ replicate pad 0 ++ hdr ++ tl ∧
    tell (Out W ++ payload ++ replicate pad 0) mod 4 = 0 ∧
    r.2 = u32 (tell (Out W ++ payload ++ replicate pad 0)) ∧
    r.1 = u32 (tell (Out W ++ payload ++ replicate pad 0 ++ hdr)) ∧
    8 ≤ Z.of_nat (length hdr) ∧ Z.of_nat (length hdr) mod 4 = 0 ∧
    4 ≤ Z.of_nat (length tl) ∧
    PM W' = PM W ∧ StrEntries W' = StrEntries W.
Proof.
  unfold EmitIdentifierTable. intros H.
  destruct (FillIdentifierMaps _ _ _ _ _) as [[m T]|]; [|done].
  cbn [mbind Res_bind] in H.
  destruct (HT.Emit (Out W) m T) as [[STO [T' [out m']]]|] eqn:HE; [|done].
  cbn [mbind Res_bind] in H. injection H as <- <-.
  apply (Emit_shape (id_item_appends PP)) in HE
    as (payload & pad & slots & -> & Hpad & Hal & -> & Hls & _).
  destruct (EmitFileOffsets_Out m'
              (W_Emit32 (set_Out W (Out W ++ payload ++ replicate pad 0
                  ++ le32 (HT.NumBuckets T) ++ le32 (HT.NumEntries T) ++ slots))
                 (idcount W)))
    as (HO & _ & _ & HPM & _ & _ & HSE).
  exists payload, pad,
    (le32 (HT.NumBuckets T) ++ le32 (HT.NumEntries T) ++ slots),
    (le32 (idcount W) ++ concat (le32 <$> (IdKey_FileOffset <$> m'))).
  cbn [fst snd]. rewrite HO, HPM, HSE, W_Emit32_Out.
  cbn [Out set_Out PM StrEntries idcount W_Emit32].
  rewrite !length_app, !length_le32, Hls.
  split_and!; try done.
  all: try (by rewrite <- ?app_assoc).
  all: try lia.
  all: Z.div_mod_to_equations; lia.
Qed.

(** X19.  When [GeneratePTH] returns on a fresh stream, the file is the
    text [cfe-pth], the version, four 32-bit offsets and the body.  For
    a file below [2^32] bytes the offsets are, in this order, those of
    the table of identifier offsets, of the identifier hash table, of
    the file table and of the spellings; the sections lie in the body in
    the order identifier hash table, identifier offsets, spellings, file
    table; the offsets of the two hash tables and of the identifier
    offsets are multiples of 4; and the second word of the file table
    is the number of files with an absolute path and a buffer. *)
Theorem GeneratePTH_layout (SM : list ContentCache) (W' : PTHWriter) :
  GeneratePTH PP SM (new_PTHWriter []) = Ok W' →
  ∃ IDOff STO FTO SO body,
    Out W' = cfe_pth ++ le32 (Version PP) ++ le32 IDOff ++ le32 STO
             ++ le32 FTO ++ le32 SO ++ body ∧
    (tell (Out W') < 2 ^ 32 →
     27 ≤ STO ∧ STO mod 4 = 0 ∧
     STO + 8 ≤ IDOff ∧ IDOff mod 4 = 0 ∧
     IDOff + 4 ≤ SO ∧ SO ≤ FTO ∧ FTO mod 4 = 0 ∧
     FTO + 8 ≤ tell (Out W') ∧
     bytes_at (Out W') (FTO + 4) 4
     = le32 (Z.of_nat (length (filter (cached_file PP) SM)))).
Proof.
  set (pre := cfe_pth ++ le32 (Version PP)).
  set (W3 := mkPTHWriter ∅ (pre ++ replicate 16 0) 0 HT.empty_table ∅ 0 []).
  assert (HG : GeneratePTH PP SM (new_PTHWriter [])
    = (W ← CacheFiles PP SM W3;
       '(IdTableOff, W) ← EmitIdentifierTable PP W;
       let '(SpellingOff, W) := EmitCachedSpellings W in
       '(FileTableOff, W) ← EmitFileTable W;
       Ok (set_Out W (seek_write (Out W) (tell pre)
             (le32 IdTableOff.1 ++ le32 IdTableOff.2
              ++ le32 FileTableOff ++ le32 SpellingOff))))) by reflexivity.
  rewrite HG. clear HG. intros H.
  assert (HO3 : Out W3 = pre ++ replicate 16 0) by done.
  assert (HPM3 : PM W3 = HT.empty_table) by done.
  clearbody W3.
  destruct (CacheFiles PP SM W3) as [W4|] eqn:HC; [|done].
  cbn [mbind Res_bind] in H.
  destruct (EmitIdentifierTable PP W4) as [[ids W5]|] eqn:HI; [|done].
  cbn [mbind Res_bind] in H.
  destruct (EmitIdentifierTable_shape _ _ _ HI)
    as (p5 & pad5 & hdr5 & tl5 & HO5 & Hal5 & HSTO & HIDO & Hh8 & Hh4 & Ht4
        & HPM5 & HSE5).
  unfold EmitCachedSpellings in H.
  destruct (EmitSpellings_Out (StrEntries W5) W5) as (HO6 & _).
  pose proof (EmitSpellings_PM (StrEntries W5) W5) as HPM6.
  set (W6 := EmitSpellings W5 (StrEntries W5)) in *. clearbody W6.
  unfold EmitFileTable in H.
  destruct (HT.Emit (Out W6) tt (PM W6)) as [[FTO [pm [out u]]]|] eqn:HE;
    [|done].
  cbn [mbind Res_bind] in H.
  match type of H with
  | Ok ?t = _ => assert (HW : W' = t) by congruence
  end.
  clear H. subst W'.
  apply (Emit_shape file_item_appends) in HE
    as (p7 & pad7 & slots & -> & Hpad7 & Hal7 & -> & Hls & _).
  destruct (CacheFiles_appends _ _ _ HC) as (x4 & HO4).
  cbn [Out set_Out set_PM].
  set (pool := pool_image (StrEntries W5)) in *.
  assert (Hout : Out W6 ++ p7 ++ replicate pad7 0 ++ le32 (HT.NumBuckets (PM W6))
                 ++ le32 (HT.NumEntries (PM W6)) ++ slots
                 = pre ++ replicate 16 0
                   ++ (x4 ++ p5 ++ replicate pad5 0 ++ hdr5 ++ tl5 ++ pool
                       ++ p7 ++ replicate pad7 0
                       ++ le32 (HT.NumBuckets (PM W6))
                       ++ le32 (HT.NumEntries (PM W6)) ++ slots)).
  { rewrite HO6, HO5, HO4, HO3. by rewrite <- !app_assoc. }
  rewrite Hout, seek_write_middle
    by (rewrite !length_app, !length_le32, length_replicate; done).
  clear Hout.
  set (FTO := u32 (tell (Out W6 ++ p7 ++ replicate pad7 0))) in *.
  set (SO := u32 (tell (Out W5))) in *.
  set (NB := HT.NumBuckets (PM W6)) in *.
  set (NE := HT.NumEntries (PM W6)) in *.
  exists (ids.1), (ids.2), FTO, SO,
    (x4 ++ p5 ++ replicate pad5 0 ++ hdr5 ++ tl5 ++ pool
     ++ p7 ++ replicate pad7 0 ++ le32 NB ++ le32 NE ++ slots).
  split.
  { unfold pre. by rewrite <- !app_assoc. }
  assert (Hlen : ∀ a b : list Z, tell (a ++ b) = tell a + Z.of_nat (length b)).
  { intros a b. unfold tell. rewrite length_app. lia. }
  assert (Hpre : tell pre = 11).
  { unfold tell, pre. by rewrite length_app, length_le32. }
  assert (T4 : tell (Out W4) = 27 + Z.of_nat (length x4)).
  { rewrite HO4, HO3, !Hlen, length_replicate. lia. }
  assert (T5 : tell (Out W4 ++ p5 ++ replicate pad5 0)
               = tell (Out W4) + Z.of_nat (length p5) + Z.of_nat pad5).
  { rewrite !Hlen, length_app, length_replicate. lia. }
  assert (T5h : tell (Out W4 ++ p5 ++ replicate pad5 0 ++ hdr5)
                = tell (Out W4) + Z.of_nat (length p5) + Z.of_nat pad5
                  + Z.of_nat (length hdr5)).
  { rewrite !Hlen, !length_app, length_replicate. lia. }
  assert (TW5 : tell (Out W5)
                = tell (Out W4) + Z.of_nat (length p5) + Z.of_nat pad5
                  + Z.of_nat (length hdr5) + Z.of_nat (length tl5)).
  { rewrite HO5, !Hlen, !length_app, length_replicate. lia. }
  assert (T7 : tell (Out W6 ++ p7 ++ replicate pad7 0)
               = tell (Out W5) + Z.of_nat (length pool)
                 + Z.of_nat (length p7) + Z.of_nat pad7).
  { rewrite HO6, !Hlen, !length_app, length_replicate. lia. }
  set (final := pre ++ _).
  assert (Tfin : tell final
                 = tell (Out W6 ++ p7 ++ replicate pad7 0) + 8
                   + Z.of_nat (length slots)).
  { unfold final. rewrite T7, TW5, T4, !Hlen, !length_app, !length_le32,
      !length_replicate. lia. }
  intros Hb. rewrite Tfin in Hb.
  unfold FTO, SO. rewrite HSTO, HIDO. rewrite T5, T5h in *.
  rewrite T7, TW5, T4 in *.
  rewrite !u32_small by lia.
  destruct (CacheFiles_inv SM W3 W4 0 HC) as (Es & HlE & _ & HinvT & _).
  { rewrite HPM3. apply table_inv_empty. }
  { lia. }
  { unfold tell. lia. }
  { rewrite T4. lia. }
  destruct HinvT as (HNE & _).
  split_and!; try lia.
  - Z.div_mod_to_equations. lia.
  - set (A := pre ++ (le32 ids.1 ++ le32 ids.2 ++ le32 FTO ++ le32 SO)
               ++ x4 ++ p5 ++ replicate pad5 0 ++ hdr5 ++ tl5 ++ pool
               ++ p7 ++ replicate pad7 0 ++ le32 NB).
    assert (HA : final = A ++ le32 NE ++ slots).
    { unfold final, A. by rewrite <- !app_assoc. }
    assert (TA : tell A = 27 + Z.of_nat (length x4) + Z.of_nat (length p5)
                   + Z.of_nat pad5 + Z.of_nat (length hdr5)
                   + Z.of_nat (length tl5) + Z.of_nat (length pool)
                   + Z.of_nat (length p7) + Z.of_nat pad7 + 4).
    { unfold A. rewrite !Hlen, !length_app, !length_le32, !length_replicate.
      lia. }
    rewrite HA, <- TA. unfold NE. rewrite HPM6, HPM5, HNE, Z.add_0_l, HlE.
    apply (bytes_at_end A (le32 _) slots).
Qed.

End Assembly.


(** * Records and tables *)

Lemma pool_size_prefix (l x : list (list Z)) :
  pool_size l ≤ pool_size (l ++ x).
Proof. rewrite pool_size_app. pose proof (pool_size_nonneg x). lia. Qed.

Lemma interner_inv_ext W W' :
  IM W' = IM W → idcount W' = idcount W → interner_inv W → interner_inv W'.
Proof. unfold interner_inv. by intros -> ->. Qed.

Lemma pool_inv_ext W W' :
  CachedStrs W' = CachedStrs W → CurStrOffset W' = CurStrOffset W →
  StrEntries W' = StrEntries W → pool_inv W → pool_inv W'.
Proof. unfold pool_inv. by intros -> -> ->. Qed.

Section Records.
Variable PP : Preprocessor.

Lemma EmitToken_entries T W W1 :
  EmitToken PP T W = Ok W1 → pool_inv W →
  (StrEntries W1 = StrEntries W ∧ CachedStrs W1 = CachedStrs W ∧
   CurStrOffset W1 = CurStrOffset W) ∨
  (isLiteral T = true ∧ CachedStrs W !! getSpelling PP T = None ∧
   StrEntries W1 = StrEntries W ++ [getSpelling PP T]).
Proof.
  intros HE Hinv. destruct (isLiteral T) eqn:Hlit.
  - pose proof (EmitToken_literal PP T W W1 Hlit Hinv HE) as Hl.
    cbn zeta in Hl.
    destruct (CachedStrs W !! getSpelling PP T) as [v|].
    + left. tauto.
    + right. tauto.
  - destruct (EmitToken_total PP T W) as (W2 & HE2 & _ & _ & _ & Hnl).
    rewrite HE in HE2. injection HE2 as <-. left.
    destruct (Hnl Hlit) as (? & ? & ? & _). done.
Qed.

Lemma EmitToken_step T W W1 :
  EmitToken PP T W = Ok W1 →
  interner_inv W → pool_inv W →
  idcount W + 1 < 2 ^ 32 → pool_size (StrEntries W1) < 2 ^ 32 →
  interner_inv W1 ∧ pool_inv W1 ∧ IM W ⊆ IM W1 ∧
  (∀ s v, CachedStrs W !! s = Some v → CachedStrs W1 !! s = Some v) ∧
  idcount W1 ≤ idcount W + 1 ∧
  (∃ x, StrEntries W1 = StrEntries W ++ x) ∧
  Out W1 = Out W ++ token_record PP W1 T.
Proof.
  intros HE HI HP Hid Hps.
  destruct (EmitToken_total PP T W) as (W2 & HE2 & HO & _ & Hlit & Hnl).
  rewrite HE in HE2. injection HE2 as <-.
  assert (Hpool : pool_inv W1 ∧
            (∀ s v, CachedStrs W !! s = Some v → CachedStrs W1 !! s = Some v) ∧
            (∃ x, StrEntries W1 = StrEntries W ++ x)).
  { destruct (EmitToken_entries T W W1 HE HP) as [(HSE & HCS & HCO)|(Hl & Hn & HSE)].
    - split_and!.
      + by eapply pool_inv_ext.
      + by rewrite HCS.
      + exists []. by rewrite app_nil_r.
    - destruct (EmitToken_pool_inv PP T W W1 HP HE) as (HP1 & Hm & _).
      { rewrite Hl. destruct HP as (-> & _).
        rewrite HSE, pool_size_app in Hps. cbn in Hps. lia. }
      split_and!; [done|done|by eexists]. }
  destruct Hpool as (HP1 & Hmono & Hx).
  destruct (isLiteral T) eqn:Hl.
  - destruct (Hlit eq_refl) as (HIM & Hidc & HCS).
    split_and!; try done.
    + by eapply interner_inv_ext.
    + by rewrite HIM.
    + lia.
    + rewrite HO. unfold token_record, table_word1. by rewrite Hl, HCS.
  - destruct (Hnl eq_refl) as (_ & _ & _ & HIM & Hidc).
    pose proof (ResolveID_step (IdentInfo T) W HI Hid) as Hr. cbn zeta in Hr.
    destruct Hr as (HI1 & Hsub & _ & Hz & Hnz & _ & Hle).
    split_and!; try done.
    + by eapply interner_inv_ext.
    + by rewrite HIM.
    + lia.
    + rewrite HO. unfold token_record, table_word1, word1_of. rewrite Hl.
      destruct (N.eqb_spec (IdentInfo T) 0) as [H0|H0].
      * by rewrite (Hz H0).
      * by rewrite HIM, (Hnz H0).
Qed.

Lemma known_token_mono W W' T :
  IM W ⊆ IM W' →
  (∀ s v, CachedStrs W !! s = Some v → CachedStrs W' !! s = Some v) →
  known_token PP W T →
  known_token PP W' T ∧ token_record PP W' T = token_record PP W T.
Proof.
  intros HIM HCS. unfold known_token, token_record, table_word1.
  destruct (isLiteral T).
  - intros [v Hv]. by rewrite Hv, (HCS _ _ Hv).
  - destruct (N.eqb_spec (IdentInfo T) 0) as [H0|H0]; [done|].
    intros Hk. destruct (Hk H0) as [id Hid].
    rewrite Hid, (lookup_weaken _ _ _ _ Hid HIM). split; [|done].
    by intros _.
Qed.

Lemma EmitToken_known T W W1 :
  EmitToken PP T W = Ok W1 → known_token PP W1 T.
Proof.
  intros HE. unfold known_token.
  destruct (EmitToken_total PP T W) as (W2 & HE2 & _ & _ & Hlit & Hnl).
  rewrite HE in HE2. injection HE2 as <-.
  destruct (isLiteral T).
  - destruct (Hlit eq_refl) as (_ & _ & ->). done.
  - intros H0. destruct (Hnl eq_refl) as (_ & _ & _ & -> & _).
    unfold ResolveID. destruct (N.eqb_spec (IdentInfo T) 0); [done|].
    destruct (IM W !! IdentInfo T) eqn:Hid; cbn [snd IM]; [by rewrite Hid|].
    by rewrite lookup_insert_eq.
Qed.

Lemma EmitToken_StrEntries T W W1 :
  EmitToken PP T W = Ok W1 → ∃ x, StrEntries W1 = StrEntries W ++ x.
Proof.
  unfold EmitToken. intros H. destruct (isLiteral T).
  - unfold GetOrCreateValue in H.
    destruct (CachedStrs (W_Emit32 W _) !! getSpelling PP T) as [[[] o]|];
      cbn in H; injection H as <-; cbn; eexists;
      first [reflexivity | by rewrite app_nil_r].
  - destruct (ResolveID (IdentInfo T) (W_Emit32 W _)) as [id W2] eqn:HR.
    cbn in H. injection H as <-. cbn. unfold ResolveID in HR.
    destruct (IdentInfo T =? 0)%N.
    + injection HR as <- <-. exists []. by rewrite app_nil_r.
    + destruct (IM (W_Emit32 W _) !! IdentInfo T); injection HR as <- <-;
        exists []; by rewrite app_nil_r.
Qed.

Lemma EmitTokens_StrEntries Ts : ∀ W W',
  EmitTokens PP Ts W = Ok W' → ∃ x, StrEntries W' = StrEntries W ++ x.
Proof.
  induction Ts as [|T Ts IH]; intros W W' H; cbn [EmitTokens] in H.
  - injection H as <-. exists []. by rewrite app_nil_r.
  - destruct (EmitToken PP T W) as [W1|] eqn:H1; [|done].
    cbn [mbind Res_bind] in H.
    apply EmitToken_StrEntries in H1 as (x1 & H1).
    apply IH in H as (x & ->). rewrite H1. eexists. by rewrite <- app_assoc.
Qed.

Lemma length_token_record W T : length (token_record PP W T) = 12%nat.
Proof. unfold token_record. by rewrite !length_app, !length_le32. Qed.

Lemma length_token_records W Ts :
  length (concat (token_record PP W <$> Ts)) = (12 * length Ts)%nat.
Proof.
  induction Ts as [|T Ts IH]; [done|].
  cbn [fmap list_fmap concat length]. rewrite length_app, length_token_record.
  fold (fmap (token_record PP W) Ts). rewrite IH. lia.
Qed.

Lemma EmitTokens_records Ts : ∀ W W',
  EmitTokens PP Ts W = Ok W' →
  interner_inv W → pool_inv W → 12 * idcount W ≤ tell (Out W) →
  tell (Out W') < 2 ^ 32 → pool_size (StrEntries W') < 2 ^ 32 →
  interner_inv W' ∧ pool_inv W' ∧ IM W ⊆ IM W' ∧
  (∀ s v, CachedStrs W !! s = Some v → CachedStrs W' !! s = Some v) ∧
  12 * idcount W' ≤ tell (Out W') ∧
  Forall (known_token PP W') Ts ∧
  Out W' = Out W ++ concat (token_record PP W' <$> Ts).
Proof.
  induction Ts as [|T Ts IH]; intros W W' H HI HP H12 Hb Hps;
    cbn [EmitTokens] in H.
  - injection H as <-. split_and!; try done. cbn. by rewrite app_nil_r.
  - destruct (EmitToken PP T W) as [W1|] eqn:H1; [|done].
    cbn [mbind Res_bind] in H.
    destruct (EmitTokens_tell PP _ _ _ H) as (Ht & _).
    destruct (EmitTokens_StrEntries _ _ _ H) as (x & Hx).
    destruct (EmitToken_tell PP _ _ _ H1) as (Ht1 & _).
    destruct (EmitToken_step T W W1 H1 HI HP)
      as (HI1 & HP1 & HIM1 & HCS1 & Hid1 & _ & HO1).
    { change (2 ^ 32) with 4294967296 in *. lia. }
    { pose proof (pool_size_prefix (StrEntries W1) x). rewrite <- Hx in *.
      lia. }
    destruct (IH W1 W' H HI1 HP1)
      as (HI' & HP' & HIM' & HCS' & H12' & HK' & HO');
      [lia|done|done|].
    destruct (known_token_mono W1 W' T HIM' HCS' (EmitToken_known T W W1 H1))
      as (HkT & HrT).
    split_and!; try done.
    + by etrans.
    + intros s v Hs. by apply HCS', HCS1.
    + by constructor.
    + rewrite HO', HO1. cbn [fmap list_fmap concat].
      rewrite <- app_assoc. by rewrite HrT.
Qed.

Lemma known_token_ext W W' T :
  IM W' = IM W → CachedStrs W' = CachedStrs W →
  (known_token PP W' T ↔ known_token PP W T) ∧
  token_record PP W' T = token_record PP W T.
Proof.
  intros HIM HCS. unfold known_token, token_record, table_word1.
  by rewrite HIM, HCS.
Qed.

Lemma LexTokens_keeps_tables L W E W' :
  LexTokens PP L W = Ok (E, W') →
  interner_inv W → pool_inv W → 12 * idcount W ≤ tell (Out W) →
  tell (Out W') < 2 ^ 32 → pool_size (StrEntries W') < 2 ^ 32 →
  interner_inv W' ∧ pool_inv W' ∧ 12 * idcount W' ≤ tell (Out W') ∧
  IM W ⊆ IM W' ∧
  (∀ s v, CachedStrs W !! s = Some v → CachedStrs W' !! s = Some v) ∧
  ∃ Ts,
    PPCondData E = TokenData E + 12 * Z.of_nat (length Ts) ∧
    Forall (known_token PP W') Ts ∧
    bytes_at (Out W') (TokenData E) (12 * length Ts)
    = concat (token_record PP W' <$> Ts).
Proof.
  intros H HI HP H12 Hb Hps.
  destruct (LexTokens_inv _ _ _ _ _ H)
    as (pad & Ts & T & js & W1 & St & Hpad & Hmod & Hs & HT & _ & -> & HE).
  destruct Hs as (HET & _).
  destruct (EmitPPCond_tell _ _ _ _ _ HE)
    as (Ht2 & _ & HIM2 & Hid2 & HCS2 & HCO2 & HSE2 & _).
  destruct (EmitPPCond_appends _ _ _ _ _ HE) as (x & HO2).
  cbn [IM idcount CachedStrs CurStrOffset StrEntries W_Emit32 set_Out] in *.
  assert (Htw : tell (Out (W_Emit32 W1 (Z.of_nat (length (PPCond St)))))
                = tell (Out W1) + 4).
  { unfold tell. rewrite W_Emit32_Out, length_app, length_le32. lia. }
  rewrite Htw in Ht2.
  set (W0 := set_Out W (Out W ++ replicate pad 0)) in *.
  assert (Htp : tell (Out W0) = tell (Out W) + Z.of_nat pad).
  { unfold tell. cbn [Out W0 set_Out]. rewrite length_app, length_replicate.
    lia. }
  destruct (EmitTokens_tell _ _ _ _ HET) as (Ht1 & _).
  assert (H0 : 0 ≤ tell (Out W)) by (unfold tell; lia).
  assert (HI0 : interner_inv W0) by exact HI.
  assert (HP0 : pool_inv W0) by exact HP.
  assert (H120 : 12 * idcount W0 ≤ tell (Out W0)).
  { change (idcount W0) with (idcount W). lia. }
  assert (Hb1 : tell (Out W1) < 2 ^ 32) by lia.
  assert (Hps1 : pool_size (StrEntries W1) < 2 ^ 32) by (by rewrite <- HSE2).
  destruct (EmitTokens_records _ W0 W1 HET HI0 HP0 H120 Hb1 Hps1)
    as (HI1 & HP1 & HIM1 & HCS1 & H121 & HK1 & HO1).
  split_and!.
  - by eapply interner_inv_ext.
  - by eapply pool_inv_ext.
  - rewrite Hid2. lia.
  - by rewrite HIM2.
  - intros s v Hs. rewrite HCS2. by apply HCS1.
  - exists (Ts ++ [T]). cbn [TokenData PPCondData].
    rewrite (u32_small (tell (Out W) + Z.of_nat pad)) by lia.
    rewrite (u32_small (tell (Out W1))) by lia.
    split_and!; [lia| |].
    + eapply Forall_impl; [exact HK1|]. intros T' HT'.
      by apply (known_token_ext W1 W' T' HIM2 HCS2).
    + rewrite HO2, W_Emit32_Out, HO1, <- Htp.
      rewrite (list_fmap_ext _ (token_record PP W1) _
                 (λ _ T' _, proj2 (known_token_ext W1 W' T' HIM2 HCS2))).
      rewrite <- (length_token_records W1), <- !app_assoc.
      apply bytes_at_end.
Qed.

(** X20.  Let [LexTokens] return from a writer whose interner and pool
    are consistent and which has given out no more IDs than it has
    written records, with the stream and the pool below [2^32] bytes.
    Then the same holds of the writer it leaves, IDs and pool offsets
    given out before are kept, and the token data, which start at a
    multiple of 4 in what was appended, are the records of a sequence of
    tokens, each of 12 bytes: the packed first word, then for a literal
    the offset the pool now holds for its spelling and otherwise the ID
    the interner now holds for its identifier, 0 for none, then the file
    offset of the token. *)
Theorem LexTokens_records (L : Lexer) (W : PTHWriter) (E : PTHEntry)
    (W' : PTHWriter) :
  LexTokens PP L W = Ok (E, W') →
  interner_inv W → pool_inv W → 12 * idcount W ≤ tell (Out W) →
  tell (Out W') < 2 ^ 32 → pool_size (StrEntries W') < 2 ^ 32 →
  interner_inv W' ∧ pool_inv W' ∧ 12 * idcount W' ≤ tell (Out W') ∧
  IM W ⊆ IM W' ∧
  (∀ s v, CachedStrs W !! s = Some v → CachedStrs W' !! s = Some v) ∧
  ∃ Ts,
    TokenData E mod 4 = 0 ∧ tell (Out W) ≤ TokenData E ∧
    PPCondData E = TokenData E + 12 * Z.of_nat (length Ts) ∧
    PPCondData E + 4 ≤ tell (Out W') ∧
    Forall (known_token PP W') Ts ∧
    bytes_at (Out W') (TokenData E) (12 * length Ts)
    = concat (token_record PP W' <$> Ts).
Proof.
  intros H HI HP H12 Hb Hps.
  destruct (LexTokens_keeps_tables _ _ _ _ H HI HP H12 Hb Hps)
    as (HI' & HP' & H12' & Hsub & HCS & Ts & HPPC & HK & Hby).
  destruct (LexTokens_offsets PP _ _ _ _ H) as (_ & _ & _ & HE).
  destruct (HE Hb) as (Hal & Hlo & _ & Hhi).
  split_and!; try done. exists Ts. split_and!; done.
Qed.

End Records.


(** * From the records to the tables of the file *)

(** Bytes behind a stretch that is overwritten in place are kept. *)
Lemma bytes_at_patch (pre old new rest : list Z) o n :
  length old = length new →
  tell pre + Z.of_nat (length old) ≤ o →
  bytes_at (pre ++ new ++ rest) o n = bytes_at (pre ++ old ++ rest) o n.
Proof.
  intros Hl Ho. unfold bytes_at, tell in *. f_equal.
  rewrite !app_assoc.
  rewrite !(drop_app_ge (_ ++ _)) by (rewrite length_app; lia).
  by rewrite !length_app, Hl.
Qed.

Section Heads.
Context {key_type data_type Mem : Type} `{!Info key_type data_type Mem}.

(** What the payload loop does to the buckets when it succeeds: the
    chains are kept, and the length of every chain it has written fits
    16 bits. *)
Lemma EmitPayload_ok bs : ∀ Out m bs' r,
  HT.EmitPayload Out m bs = Ok (bs', r) →
  HT.B_head <$> bs' = HT.B_head <$> bs ∧
  ∀ (i : nat) B, bs !! i = Some B → HT.B_head B ≠ [] →
                 u32 (HT.B_length B) < 65536.
Proof.
  induction bs as [|B bs IH]; intros Out m bs' r H; cbn [HT.EmitPayload] in H.
  - injection H as <- <-. split; [done|]. intros i B Hi. inversion Hi.
  - destruct (HT.B_head B) as [|E chain] eqn:Hh; cbv beta iota zeta in H;
      cbn [HT.B_length HT.B_head] in H.
    + destruct (HT.EmitPayload Out m bs) as [[bs1 Outm]|] eqn:HP;
        cbn [mbind Res_bind] in H; [|done]. injection H as <- <-.
      destruct (IH _ _ _ _ HP) as (Hhd & Hsh). split.
      { cbn [fmap list_fmap]. f_equal. exact Hhd. }
      intros [|i] B' Hi Hne; cbn in Hi.
      * injection Hi as <-. by rewrite Hh in Hne.
      * by eapply Hsh.
    + destruct (Emit16 Out (HT.B_length B)) as [Out1|] eqn:H16;
        cbn [mbind Res_bind] in H; [|done].
      destruct (HT.EmitChain Out1 m (E :: chain)) as [[Out2 m2]|] eqn:HC;
        cbn [mbind Res_bind] in H; [|done].
      destruct (HT.EmitPayload Out2 m2 bs) as [[bs1 Outm]|] eqn:HP;
        cbn [mbind Res_bind] in H; [|done]. injection H as <- <-.
      destruct (IH _ _ _ _ HP) as (Hhd & Hsh). split.
      { cbn [fmap list_fmap HT.B_head]. rewrite Hh. f_equal. exact Hhd. }
      intros [|i] B' Hi Hne; cbn in Hi.
      * injection Hi as <-. by apply Emit16_inv in H16 as [_ ?].
      * by eapply Hsh.
Qed.

Lemma Emit_ok Out m (T : @HT.Table key_type data_type) off T' r :
  HT.Emit Out m T = Ok (off, (T', r)) →
  all_items (HT.Buckets T') = all_items (HT.Buckets T) ∧
  ∀ (i : nat) B, HT.Buckets T !! i = Some B → HT.B_head B ≠ [] →
                 u32 (HT.B_length B) < 65536.
Proof.
  unfold HT.Emit. intros H.
  destruct (HT.EmitPayload Out m (HT.Buckets T)) as [[bs [Out1 m1]]|] eqn:HP;
    cbn [mbind Res_bind] in H; [|done].
  destruct (EmitPayload_ok _ _ _ _ _ HP) as (Hhd & Hsh).
  split; [|exact Hsh].
  match type of H with
  | Ok (_, (?t, _)) = _ => assert (HT' : T' = t) by congruence
  end.
  rewrite HT'. unfold all_items. cbn [HT.Buckets]. by rewrite Hhd.
Qed.

End Heads.

Section RoundTrip.
Variable PP : Preprocessor.

Lemma LexTokens_StrEntries L W E W' :
  LexTokens PP L W = Ok (E, W') → ∃ x, StrEntries W' = StrEntries W ++ x.
Proof.
  intros H.
  destruct (LexTokens_inv _ _ _ _ _ H)
    as (pad & Ts & T & js & W1 & St & _ & _ & Hs & _ & _ & _ & HE).
  destruct Hs as (HET & _).
  destruct (EmitPPCond_tell _ _ _ _ _ HE) as (_ & _ & _ & _ & _ & _ & HSE & _).
  destruct (EmitTokens_StrEntries _ _ _ _ HET) as (x & Hx).
  exists x. rewrite HSE. exact Hx.
Qed.

Lemma CacheFiles_StrEntries SM : ∀ W W',
  CacheFiles PP SM W = Ok W' → ∃ x, StrEntries W' = StrEntries W ++ x.
Proof.
  induction SM as [|C SM IH]; intros W W' H; cbn [CacheFiles] in H.
  - injection H as <-. exists []. by rewrite app_nil_r.
  - destruct (negb (isAbsolute PP _)); [by apply IH|].
    destruct (getBuffer C) as [L|]; [|by apply IH].
    destruct (LexTokens PP L W) as [[E W1]|] eqn:HL; [|done].
    cbn [mbind Res_bind] in H.
    destruct (HT.insert _ _ _ _) as [pm|]; [|done].
    cbn [mbind Res_bind] in H.
    apply IH in H as (x & ->). cbn [StrEntries set_PM].
    apply LexTokens_StrEntries in HL as (x1 & ->).
    eexists. by rewrite <- app_assoc.
Qed.

(** The loop over the files: what [LexTokens] leaves for one file is
    kept by the files after it. *)
Lemma CacheFiles_records SM : ∀ W W' n,
  CacheFiles PP SM W = Ok W' →
  table_inv n (PM W) → 0 ≤ n → 16 * n ≤ tell (Out W) →
  interner_inv W → pool_inv W → 12 * idcount W ≤ tell (Out W) →
  tell (Out W') < 2 ^ 32 → pool_size (StrEntries W') < 2 ^ 32 →
  interner_inv W' ∧ pool_inv W' ∧ 12 * idcount W' ≤ tell (Out W') ∧
  IM W ⊆ IM W' ∧
  (∀ s v, CachedStrs W !! s = Some v → CachedStrs W' !! s = Some v) ∧
  ∃ Es Tss,
    all_items (HT.Buckets (PM W'))
    ≡ₚ zip_with (λ C E, HT.new_Item tt (IsFE (Entry C)) E)
                (filter (cached_file PP) SM) Es
       ++ all_items (HT.Buckets (PM W)) ∧
    length Es = length (filter (cached_file PP) SM) ∧
    Forall2 (λ E Ts,
       tell (Out W) ≤ TokenData E ∧
       PPCondData E = TokenData E + 12 * Z.of_nat (length Ts) ∧
       Forall (known_token PP W') Ts ∧
       bytes_at (Out W') (TokenData E) (12 * length Ts)
       = concat (token_record PP W' <$> Ts)) Es Tss.
Proof.
  induction SM as [|C SM IH]; intros W W' n H Hinv Hn H16 HI HP H12 Hb Hps.
  - injection H as <-. split_and!; try done. exists [], []. cbn.
    split_and!; done.
  - rewrite filter_cons. destruct (decide (cached_file PP C)) as [Hc|Hc].
    2:{ apply Is_true_false in Hc. rewrite CacheFiles_skip in H by done.
        by apply (IH W W' n). }
    apply Is_true_true in Hc. pose proof Hc as Hc'. unfold cached_file in Hc'.
    apply andb_prop in Hc' as [Ha Hbuf].
    destruct (getBuffer C) as [L|] eqn:HL; [|done].
    rewrite (CacheFiles_cached PP C L) in H by done.
    destruct (LexTokens PP L W) as [[E W1]|] eqn:HLT; [|done].
    cbn [mbind Res_bind] in H.
    destruct (LexTokens_offsets _ _ _ _ _ HLT) as ((x1 & HO1) & HPM1 & Ht1 & HE).
    destruct (HT.insert _ _ _ _) as [pm|] eqn:Hins; [|done].
    cbn [mbind Res_bind] in H.
    destruct (CacheFiles_appends _ _ _ _ H) as (x2 & HO2).
    destruct (CacheFiles_StrEntries _ _ _ H) as (y2 & HS2).
    cbn [Out StrEntries set_PM] in HO2, HS2.
    pose proof (tell_app_le (Out W1) x2) as Hle. rewrite <- HO2 in Hle.
    pose proof (pool_size_prefix (StrEntries W1) y2) as Hpl.
    rewrite <- HS2 in Hpl.
    assert (Hb1 : tell (Out W1) < 2 ^ 32) by lia.
    assert (Hps1 : pool_size (StrEntries W1) < 2 ^ 32) by lia.
    destruct (LexTokens_keeps_tables PP _ _ _ _ HLT HI HP H12 Hb1 Hps1)
      as (HI1 & HP1 & H121 & Hsub1 & HCS1 & Ts & HPPC & HK & Hby).
    rewrite <- HPM1 in Hinv.
    destruct (insert_ok tt (IsFE (Entry C)) E (PM W1) n Hinv)
      as (T1 & HT1 & Hinv1 & _ & Hperm1 & _);
      [change (2 ^ 32) with 4294967296 in Hb; lia|].
    rewrite Hins in HT1. injection HT1 as <-.
    destruct (IH (set_PM W1 pm) W' (n + 1) H)
      as (HI' & HP' & H12' & Hsub' & HCS' & Es & Tss & Hperm & Hlen & HF);
      [done|lia|cbn [Out set_PM]; lia|exact HI1|exact HP1|exact H121|done|done|].
    cbn [Out PM IM CachedStrs set_PM] in *.
    split_and!; try done.
    + by etrans.
    + intros s v Hs. by apply HCS', HCS1.
    + exists (E :: Es), (Ts :: Tss). cbn [length zip_with]. split_and!.
      * rewrite Hperm, Hperm1, HPM1. cbn [app]. symmetry.
        apply Permutation_middle.
      * by rewrite Hlen.
      * constructor.
        -- destruct HE as (_ & HE & _); [lia|].
           assert (Hrec : token_record PP W' <$> Ts
                          = token_record PP W1 <$> Ts).
           { apply list_fmap_ext. intros i T Hi.
             apply (known_token_mono PP W1 W' T Hsub' HCS').
             by eapply Forall_lookup_1 in HK. }
           split_and!; try done.
           ++ eapply Forall_impl; [exact HK|]. intros T HT.
              by apply (known_token_mono PP W1 W' T Hsub' HCS').
           ++ rewrite HO2, Hrec. apply bytes_at_app; [exact Hby|].
              apply length_token_records.
        -- eapply Forall2_impl; [exact HF|].
           intros E' Ts' (? & ? & ? & ?). split_and!; try done. lia.
Qed.

Lemma EmitSpellings_IM entries : ∀ W,
  IM (EmitSpellings W entries) = IM W ∧
  idcount (EmitSpellings W entries) = idcount W.
Proof.
  induction entries as [|s entries IH]; intros W; cbn; [done|].
  destruct (IH (W_Emit8 (EmitBuf W s) 0)) as (-> & ->). done.
Qed.

Lemma EmitIdentifierTable_tables W r W' :
  EmitIdentifierTable PP W = Ok (r, W') →
  IM W' = IM W ∧ idcount W' = idcount W ∧ CachedStrs W' = CachedStrs W.
Proof.
  unfold EmitIdentifierTable. intros H.
  destruct (FillIdentifierMaps _ _ _ _ _) as [[m T]|]; [|done].
  cbn [mbind Res_bind] in H.
  destruct (HT.Emit (Out W) m T) as [[STO [T' [out m']]]|] eqn:HE; [|done].
  cbn [mbind Res_bind] in H. injection H as _ <-.
  match goal with
  | |- IM (EmitFileOffsets ?w ?m) = _ ∧ _ =>
      destruct (EmitFileOffsets_Out m w) as (_ & HIM & Hid & _ & HCS & _)
  end.
  rewrite HIM, Hid, HCS. done.
Qed.

(** When [EmitIdentifierTable] returns, slot [id] behind the offset it
    returns first holds the offset of the name of the identifier with
    the persistent ID [id]. *)
Lemma EmitIdentifierTable_names W r W' :
  EmitIdentifierTable PP W = Ok (r, W') →
  interner_inv W → idcount W ≤ 805306368 →
  (∀ II id, IM W !! II = Some id →
            strlen (c_str (getName PP II)) + 1 < 65536) →
  tell (Out W') < 2 ^ 32 →
  IM W' = IM W ∧ CachedStrs W' = CachedStrs W ∧
  CurStrOffset W' = CurStrOffset W ∧ StrEntries W' = StrEntries W ∧
  tell (Out W) ≤ r.1 ∧
  (∀ II id, IM W !! II = Some id →
    ∃ o, bytes_at (Out W') (r.1 + 4 * id) 4 = le32 o ∧
         tell (Out W) ≤ o ∧
         bytes_at (Out W') o (length (name_bytes (getName PP II)))
         = name_bytes (getName PP II)) ∧
  ∃ NB,
    load_factor_law (idcount W) NB ∧ tell (Out W) ≤ r.2 ∧
    bytes_at (Out W') r.2 4 = le32 NB ∧
    ∀ II id, IM W !! II = Some id →
      ∃ p es,
        bytes_at (Out W')
          (r.2 + 8 + 4 * Z.land (HT.hash (id_item PP (II, id))) (NB - 1)) 4
        = le32 p ∧
        tell (Out W) ≤ p ∧
        p + 2 + Z.of_nat (length (concat (id_entry_bytes PP <$> es))) ≤ r.2 ∧
        bytes_at (Out W') p (2 + length (concat (id_entry_bytes PP <$> es)))
        = le16 (Z.of_nat (length es)) ++ concat (id_entry_bytes PP <$> es) ∧
        (II, id) ∈ es ∧
        Forall (λ e, IM W !! e.1 = Some e.2) es.
Proof.
  intros H Hinv Hc Hnames Hb.
  destruct (EmitIdentifierTable_core PP W Hinv Hc)
    as (IDOff & STO & W1 & payload & pad & NB & slots & offs & HE & HO & Hlaw
        & Hls & Hlo & _ & _ & HSTO & HID & HIM & _ & _ & HCS & HCO & HSE
        & Hres & Hlook);
    [|exact Hnames|].
  { intros m T HF i B Hi.
    unfold EmitIdentifierTable in H. rewrite HF in H.
    cbn [mbind Res_bind] in H.
    destruct (HT.Emit (Out W) m T) as [[off [T' om]]|] eqn:HEm;
      cbn [mbind Res_bind] in H; [|done].
    destruct (@Emit_ok _ _ _ (PTHIdentifierTableTrait PP) _ _ _ _ _ _ HEm)
      as (_ & Hsh).
    destruct (Fill_chains_fresh PP W m T Hinv Hc HF) as (Hfresh & _).
    destruct (HT.B_head B) as [|E chain] eqn:Hh.
    - destruct (Hfresh i B Hi) as (_ & ->). by rewrite Hh.
    - apply (Hsh i B Hi). by rewrite Hh. }
  rewrite H in HE.
  assert (Hr : r = (IDOff, STO)) by congruence.
  assert (HW : W' = W1) by congruence.
  subst r W1. clear HE. cbn [fst snd].
  assert (H0 : 0 ≤ tell (Out W)) by (unfold tell; lia).
  set (A := Out W ++ payload ++ replicate pad 0 ++ le32 NB
            ++ le32 (idcount W) ++ slots ++ le32 (idcount W)).
  assert (HOA : Out W' = A ++ concat (le32 <$> offs)).
  { rewrite HO. unfold A. by rewrite <- !app_assoc. }
  assert (TA : tell A = tell (Out W ++ payload ++ replicate pad 0) + 8
                        + 4 * NB + 4).
  { unfold A, tell. rewrite !length_app, !length_le32, !length_replicate.
    lia. }
  assert (Tp : tell (Out W) ≤ tell (Out W ++ payload ++ replicate pad 0))
    by apply tell_app_le.
  assert (TW : tell A ≤ tell (Out W')) by (rewrite HOA; apply tell_app_le).
  assert (HIDs : IDOff = tell A - 4).
  { rewrite HID, u32_small; lia. }
  split_and!; try done; [lia| |].
  - intros II id Hid.
    destruct (Hres Hb II id Hid) as (o & Hoffs & Hlo' & Hby).
    destruct Hinv as (Hrange & _). destruct (Hrange _ _ Hid) as (_ & Hid1).
    exists o. split_and!; try done.
    replace (IDOff + 4 * id) with (tell A + 4 * Z.of_nat (Z.to_nat (id - 1)))
      by lia.
    rewrite HOA. by apply bytes_at_slot.
  - destruct (Hlook Hb) as (Hnb & Hlk). exists NB. split_and!; try done.
    rewrite HSTO, u32_small; lia.
Qed.

(** The tables of the file [GeneratePTH] leaves: records, identifier
    offsets, spellings and the identifier hash table. *)
Lemma GeneratePTH_tables (SM : list ContentCache) (W' : PTHWriter) :
  GeneratePTH PP SM (new_PTHWriter []) = Ok W' →
  tell (Out W') < 2 ^ 32 →
  (∀ II id, IM W' !! II = Some id →
            strlen (c_str (getName PP II)) + 1 < 65536) →
  ∃ IDOff STO SO NB Es Tss,
    interner_inv W' ∧
    bytes_at (Out W') 15 4 = le32 STO ∧
    bytes_at (Out W') STO 4 = le32 NB ∧
    load_factor_law (idcount W') NB ∧
    (∀ II id, IM W' !! II = Some id →
      ∃ p es,
        bytes_at (Out W')
          (STO + 8 + 4 * Z.land (HT.hash (id_item PP (II, id))) (NB - 1)) 4
        = le32 p ∧
        27 ≤ p ∧
        p + 2 + Z.of_nat (length (concat (id_entry_bytes PP <$> es))) ≤ STO ∧
        bytes_at (Out W') p (2 + length (concat (id_entry_bytes PP <$> es)))
        = le16 (Z.of_nat (length es)) ++ concat (id_entry_bytes PP <$> es) ∧
        (II, id) ∈ es ∧
        Forall (λ e, IM W' !! e.1 = Some e.2) es) ∧
    bytes_at (Out W') 11 4 = le32 IDOff ∧
    bytes_at (Out W') 23 4 = le32 SO ∧
    all_items (HT.Buckets (PM W'))
    ≡ₚ zip_with (λ C E, HT.new_Item tt (IsFE (Entry C)) E)
                (filter (cached_file PP) SM) Es ∧
    length Es = length (filter (cached_file PP) SM) ∧
    Forall2 (λ E Ts,
       PPCondData E = TokenData E + 12 * Z.of_nat (length Ts) ∧
       bytes_at (Out W') (TokenData E) (12 * length Ts)
       = concat (token_record PP W' <$> Ts) ∧
       Forall (λ T, resolves PP (Out W') IDOff SO T (table_word1 PP W' T)) Ts)
      Es Tss.
Proof.
  set (pre := cfe_pth ++ le32 (Version PP)).
  set (W3 := mkPTHWriter ∅ (pre ++ replicate 16 0) 0 HT.empty_table ∅ 0 []).
  assert (HG : GeneratePTH PP SM (new_PTHWriter [])
    = (W ← CacheFiles PP SM W3;
       '(IdTableOff, W) ← EmitIdentifierTable PP W;
       let '(SpellingOff, W) := EmitCachedSpellings W in
       '(FileTableOff, W) ← EmitFileTable W;
       Ok (set_Out W (seek_write (Out W) (tell pre)
             (le32 IdTableOff.1 ++ le32 IdTableOff.2
              ++ le32 FileTableOff ++ le32 SpellingOff))))) by reflexivity.
  rewrite HG. clear HG. intros H.
  assert (HO3 : Out W3 = pre ++ replicate 16 0) by done.
  assert (HPM3 : PM W3 = HT.empty_table) by done.
  assert (HI3 : interner_inv W3)
    by apply (interner_inv_new (pre ++ replicate 16 0)).
  assert (HP3 : pool_inv W3) by apply (pool_inv_new (pre ++ replicate 16 0)).
  assert (Hid3 : idcount W3 = 0) by done.
  clearbody W3.
  destruct (CacheFiles PP SM W3) as [W4|] eqn:HC;
    cbn [mbind Res_bind] in H; [|done].
  destruct (EmitIdentifierTable PP W4) as [[ids W5]|] eqn:HI;
    cbn [mbind Res_bind] in H; [|done].
  destruct (EmitIdentifierTable_shape _ _ _ _ HI)
    as (p5 & pad5 & hdr5 & tl5 & HO5 & _ & _ & _ & _ & _ & _ & HPM5 & HSE5).
  unfold EmitCachedSpellings in H.
  pose proof (EmitCachedSpellings_bytes W5) as Hsp.
  unfold EmitCachedSpellings in Hsp. cbn [fst snd] in Hsp.
  destruct (EmitSpellings_Out (StrEntries W5) W5) as (HO6 & HCS6 & _).
  pose proof (EmitSpellings_PM (StrEntries W5) W5) as HPM6.
  destruct (EmitSpellings_IM (StrEntries W5) W5) as (HIM6 & Hid6).
  set (W6 := EmitSpellings W5 (StrEntries W5)) in *. clearbody W6.
  unfold EmitFileTable in H.
  destruct (HT.Emit (Out W6) tt (PM W6)) as [[FTO [pm [out u]]]|] eqn:HE;
    cbn [mbind Res_bind] in H; [|done].
  destruct (Emit_ok _ _ _ _ _ _ HE) as (Hitems7 & _).
  apply (Emit_shape file_item_appends) in HE
    as (p7 & pad7 & slots & -> & _).
  destruct (CacheFiles_appends _ _ _ _ HC) as (x4 & HO4).
  cbn [Out set_Out set_PM] in H.
  set (pool := pool_image (StrEntries W5)) in *.
  set (x5 := p5 ++ replicate pad5 0 ++ hdr5 ++ tl5) in *.
  set (x7 := p7 ++ replicate pad7 0 ++ le32 (HT.NumBuckets (PM W6))
             ++ le32 (HT.NumEntries (PM W6)) ++ slots) in *.
  set (rest := x4 ++ x5 ++ pool ++ x7).
  set (SO := u32 (tell (Out W5))) in *.
  set (prologue := le32 ids.1 ++ le32 ids.2 ++ le32 FTO ++ le32 SO) in *.
  assert (Hfull6 : Out W6 ++ x7 = pre ++ replicate 16 0 ++ rest).
  { rewrite HO6, HO5, HO4, HO3. unfold rest, x5. by rewrite <- !app_assoc. }
  assert (Hfull5 : Out W5 ++ pool ++ x7 = pre ++ replicate 16 0 ++ rest).
  { rewrite <- Hfull6, HO6. by rewrite <- !app_assoc. }
  assert (Hfull4 : Out W4 ++ x5 ++ pool ++ x7
                   = pre ++ replicate 16 0 ++ rest).
  { rewrite <- Hfull5, HO5. unfold x5. by rewrite <- !app_assoc. }
  rewrite Hfull6, seek_write_middle in H by done.
  set (Wf := set_Out _ _) in H.
  assert (HOf : Out Wf = pre ++ prologue ++ rest) by done.
  assert (HPMf : PM Wf = pm) by done.
  assert (HIMf : IM Wf = IM W6) by done.
  assert (Hidf : idcount Wf = idcount W6) by done.
  assert (HCSf : CachedStrs Wf = CachedStrs W6) by done.
  clearbody Wf. assert (HW : W' = Wf) by congruence. clear H. subst W'.
  intros Hb Hnames.
  assert (Hlen : ∀ a b : list Z, tell (a ++ b) = tell a + Z.of_nat (length b)).
  { intros a b. unfold tell. rewrite length_app. lia. }
  assert (Hpre : tell pre = 11) by done.
  assert (Hlp : length prologue = 16%nat) by done.
  assert (Tf : tell (Out Wf) = 27 + Z.of_nat (length rest)).
  { rewrite HOf, Hlen, length_app, Hlp. lia. }
  assert (T4 : tell (Out W4) = 27 + Z.of_nat (length x4)).
  { rewrite HO4, HO3, !Hlen, length_replicate. lia. }
  assert (T5 : tell (Out W5) = tell (Out W4) + Z.of_nat (length x5)).
  { rewrite HO5. fold x5. by rewrite Hlen. }
  assert (T6 : tell (Out W6) = tell (Out W5) + Z.of_nat (length pool)).
  { by rewrite HO6, Hlen. }
  assert (Tr : Z.of_nat (length rest)
               = Z.of_nat (length x4) + Z.of_nat (length x5)
                 + Z.of_nat (length pool) + Z.of_nat (length x7)).
  { unfold rest. rewrite !length_app. lia. }
  assert (Hpool : pool_size (StrEntries W4) = Z.of_nat (length pool)).
  { unfold pool. by rewrite length_pool_image, HSE5. }
  destruct (CacheFiles_records SM W3 W4 0 HC)
    as (HI4 & HP4 & H124 & _ & _ & Es & Tss & Hperm & HlE & HF).
  { rewrite HPM3. apply table_inv_empty. }
  { lia. }
  { unfold tell. lia. }
  { exact HI3. }
  { exact HP3. }
  { rewrite Hid3. unfold tell. lia. }
  { lia. }
  { lia. }
  rewrite HIMf, HIM6 in Hnames.
  destruct (EmitIdentifierTable_tables _ _ _ HI) as (HIM5' & Hid5 & _).
  rewrite HIM5' in Hnames.
  destruct (EmitIdentifierTable_names W4 ids W5 HI HI4)
    as (HIM5 & HCS5 & HCO5 & _ & Hlo5 & Hres & NB & Hlaw & HloS & HnbS
        & Hlook); [lia|exact Hnames|lia|].
  assert (HP5 : pool_inv W5) by (by apply (pool_inv_ext W4 W5)).
  destruct (Hsp HP5) as (_ & _ & Hsp'); [lia|]. clear Hsp.
  rewrite HIM6, HIM5 in HIMf. rewrite HCS6, HCS5 in HCSf.
  assert (HSO : SO = tell (Out W5)).
  { unfold SO. apply u32_small. unfold tell in *. lia. }
  assert (Htr : ∀ o n s, 27 ≤ o → length s = n →
            bytes_at (pre ++ replicate 16 0 ++ rest) o n = s →
            bytes_at (Out Wf) o n = s).
  { intros o n s Ho Hl Hby. rewrite HOf.
    rewrite (bytes_at_patch pre (replicate 16 0)); [done|done|].
    rewrite Hpre, length_replicate. lia. }
  exists ids.1, ids.2, SO, NB, Es, Tss. split_and!.
  - apply (interner_inv_ext W4 Wf); [done| |done].
    by rewrite Hidf, Hid6, Hid5.
  - rewrite HOf. unfold prologue.
    set (A := pre ++ le32 ids.1).
    assert (HA : pre ++ (le32 ids.1 ++ le32 ids.2 ++ le32 FTO ++ le32 SO)
                 ++ rest = A ++ le32 ids.2 ++ le32 FTO ++ le32 SO ++ rest).
    { unfold A. by rewrite <- !app_assoc. }
    rewrite HA. change 15 with (tell A).
    change 4%nat with (length (le32 ids.2)). apply bytes_at_end.
  - apply Htr; [lia|done|]. rewrite <- Hfull5. by apply bytes_at_app.
  - by rewrite Hidf, Hid6, Hid5.
  - intros II id Hid. rewrite HIMf in Hid.
    destruct (Hlook _ _ Hid) as (p & es & Hslot & Hp & Hpe & Hch & Hin & Hall).
    assert (H0 : 0 ≤ Z.land (HT.hash (id_item PP (II, id))) (NB - 1)).
    { apply Z.land_nonneg. right. destruct Hlaw as (_ & ? & _). lia. }
    exists p, es. split_and!; try done; try lia.
    + apply Htr; [lia|done|]. rewrite <- Hfull5. by apply bytes_at_app.
    + apply Htr; [lia|by rewrite length_app|]. rewrite <- Hfull5.
      apply bytes_at_app; [done|by rewrite length_app].
    + eapply Forall_impl; [exact Hall|]. intros e He. by rewrite HIMf.
  - rewrite HOf. unfold prologue. rewrite <- Hpre.
    change 4%nat with (length (le32 ids.1)). rewrite <- !app_assoc.
    apply bytes_at_end.
  - rewrite HOf. unfold prologue.
    set (A := pre ++ le32 ids.1 ++ le32 ids.2 ++ le32 FTO).
    assert (HA : pre ++ (le32 ids.1 ++ le32 ids.2 ++ le32 FTO ++ le32 SO)
                 ++ rest = A ++ le32 SO ++ rest).
    { unfold A. by rewrite <- !app_assoc. }
    rewrite HA. change 23 with (tell A).
    change 4%nat with (length (le32 SO)). apply bytes_at_end.
  - rewrite HPMf, Hitems7, HPM6, HPM5, Hperm, HPM3.
    unfold HT.empty_table. cbn [HT.Buckets].
    by rewrite all_items_calloc, app_nil_r.
  - exact HlE.
  - eapply Forall2_impl; [exact HF|].
    intros E Ts (HloE & HPPC & HK & Hby).
    rewrite HO3, !Hlen, length_replicate, Hpre in HloE.
    split_and!; [done| |].
    + rewrite (list_fmap_ext _ (token_record PP W4) _
                 (λ _ T _, proj2 (known_token_ext PP W4 Wf T HIMf HCSf))).
      apply Htr; [lia|apply length_token_records|].
      rewrite <- Hfull4. apply bytes_at_app; [exact Hby|].
      apply length_token_records.
    + eapply Forall_impl; [exact HK|]. intros T HT.
      unfold resolves, table_word1. unfold known_token in HT.
      rewrite HIMf, HCSf.
      destruct (isLiteral T).
      * destruct HT as [v Hv]. rewrite Hv.
        destruct HP4 as (_ & HP4). destruct (HP4 _ _ Hv) as (_ & j & _ & Hoff).
        pose proof (pool_size_nonneg (take j (StrEntries W4))) as Hnn.
        apply Htr; [lia|by rewrite length_app|].
        rewrite <- Hfull6. apply bytes_at_app;
          [|by rewrite length_app].
        unfold bytes_at. apply Hsp'. by rewrite HCS5.
      * destruct (IdentInfo T =? 0)%N eqn:H0; [done|].
        apply N.eqb_neq in H0. destruct (HT H0) as [pid Hid]. rewrite Hid.
        cbn [default from_option id].
        destruct (Hres _ _ Hid) as (o & Hslot & Hlo & Hname).
        destruct HI4 as (Hrange & _). destruct (Hrange _ _ Hid) as (_ & Hid1).
        split; [lia|]. exists o. split.
        -- apply Htr; [lia|done|]. rewrite <- Hfull5.
           by apply bytes_at_app.
        -- apply Htr; [lia|done|]. rewrite <- Hfull5.
           by apply bytes_at_app.
Qed.

(** X21.  When [GeneratePTH] returns with a
    file below [2^32] bytes and no identifier has a name of [2^16 - 1]
    characters or more, then the first and the fourth offset of the
    prologue, [IDOff] and [SO], resolve every record of every file: the
    file table holds for each cached file a pair of offsets, the bytes
    between them are the 12-byte records of a token sequence, and the
    second word [w] of each record is, for a literal, the offset behind
    [SO] where the spelling and a NUL stand; for a token with an
    identifier its persistent ID, at least 1, and the 32-bit word at
    [IDOff + 4 w] is the offset where the name of the identifier and a
    NUL stand; and 0 otherwise. *)
Theorem GeneratePTH_round_trip (SM : list ContentCache) (W' : PTHWriter) :
  GeneratePTH PP SM (new_PTHWriter []) = Ok W' →
  tell (Out W') < 2 ^ 32 →
  (∀ II id, IM W' !! II = Some id →
            strlen (c_str (getName PP II)) + 1 < 65536) →
  ∃ IDOff SO Es Tss,
    bytes_at (Out W') 11 4 = le32 IDOff ∧
    bytes_at (Out W') 23 4 = le32 SO ∧
    all_items (HT.Buckets (PM W'))
    ≡ₚ zip_with (λ C E, HT.new_Item tt (IsFE (Entry C)) E)
                (filter (cached_file PP) SM) Es ∧
    length Es = length (filter (cached_file PP) SM) ∧
    Forall2 (λ E Ts,
       PPCondData E = TokenData E + 12 * Z.of_nat (length Ts) ∧
       bytes_at (Out W') (TokenData E) (12 * length Ts)
       = concat (token_record PP W' <$> Ts) ∧
       Forall (λ T, resolves PP (Out W') IDOff SO T (table_word1 PP W' T)) Ts)
      Es Tss.
Proof.
  intros H Hb Hnames.
  destruct (GeneratePTH_tables SM W' H Hb Hnames)
    as (IDOff & STO & SO & NB & Es & Tss & _ & _ & _ & _ & _
        & H1 & H2 & H3 & H4 & H5).
  exists IDOff, SO, Es, Tss. split_and!; done.
Qed.

(** X23.  The identifier hash table of the file [GeneratePTH] leaves
    can be searched by name.  With [STO] the second offset of the
    prologue, the word at [STO] is the number of buckets [NB], which
    follows the load-factor law for the number of identifiers; and for
    every identifier with a persistent ID the slot
    [STO + 8 + 4 (hash & (NB - 1))], the hash being that of its name,
    holds an offset [p] before the table, at which stand the length of a
    chain on 16 bits and the items of the chain in full: hash, key
    length, name with its NUL and persistent ID of identifiers of the
    interner, the identifier and its own ID among them.  No two
    identifiers share an ID.  This holds for a file below [2^32] bytes
    whose identifiers have names shorter than [2^16 - 1]. *)
Theorem GeneratePTH_identifier_lookup (SM : list ContentCache)
    (W' : PTHWriter) :
  GeneratePTH PP SM (new_PTHWriter []) = Ok W' →
  tell (Out W') < 2 ^ 32 →
  (∀ II id, IM W' !! II = Some id →
            strlen (c_str (getName PP II)) + 1 < 65536) →
  ∃ STO NB,
    bytes_at (Out W') 15 4 = le32 STO ∧
    bytes_at (Out W') STO 4 = le32 NB ∧
    load_factor_law (idcount W') NB ∧
    (∀ II II' id, IM W' !! II = Some id → IM W' !! II' = Some id → II = II') ∧
    ∀ II id, IM W' !! II = Some id →
      ∃ p es,
        bytes_at (Out W')
          (STO + 8 + 4 * Z.land (HT.hash (id_item PP (II, id))) (NB - 1)) 4
        = le32 p ∧
        27 ≤ p ∧
        p + 2 + Z.of_nat (length (concat (id_entry_bytes PP <$> es))) ≤ STO ∧
        bytes_at (Out W') p (2 + length (concat (id_entry_bytes PP <$> es)))
        = le16 (Z.of_nat (length es)) ++ concat (id_entry_bytes PP <$> es) ∧
        (II, id) ∈ es ∧
        Forall (λ e, IM W' !! e.1 = Some e.2) es.
Proof.
  intros H Hb Hnames.
  destruct (GeneratePTH_tables SM W' H Hb Hnames)
    as (IDOff & STO & SO & NB & Es & Tss & HI & H1 & H2 & H3 & H4 & _).
  destruct HI as (_ & Hinj & _).
  exists STO, NB. split_and!; done.
Qed.

End RoundTrip.


(** * Looking a key up in an emitted table *)

Section Lookup.
Context {key_type data_type Mem : Type} `{!Info key_type data_type Mem}.
Variable ib : @HT.Item key_type data_type → list Z.

(** What [Emit] writes can be searched by hash: the slot of the bucket
    a hash selects holds the offset of the bucket's payload, which is
    the length of the chain and the items of the chain. *)
Lemma Emit_lookup Out m (T : @HT.Table key_type data_type) n :
  (∀ E, E ∈ all_items (HT.Buckets T) →
     ∀ Out m, ∃ m', HT.EmitChain Out m [E] = Ok (Out ++ ib E, m')) →
  (∀ (i : nat) B, HT.Buckets T !! i = Some B → u32 (HT.B_length B) < 65536) →
  table_inv n T → buckets_fresh (HT.Buckets T) →
  ∃ off T' out m',
    HT.Emit Out m T = Ok (off, (T', (out, m'))) ∧
    (tell out < 2 ^ 32 →
     tell Out ≤ off ∧ off + 8 + 4 * HT.NumBuckets T = tell out ∧
     bytes_at out off 4 = le32 (HT.NumBuckets T) ∧
     ∀ E, E ∈ all_items (HT.Buckets T) →
       ∃ p chain,
         bytes_at out
           (off + 8 + 4 * Z.land (HT.hash E) (HT.NumBuckets T - 1)) 4
         = le32 p ∧
         tell Out ≤ p ∧
         p + 2 + Z.of_nat (length (concat (ib <$> chain))) ≤ off ∧
         bytes_at out p (2 + length (concat (ib <$> chain)))
         = le16 (Z.of_nat (length chain)) ++ concat (ib <$> chain) ∧
         E ∈ chain ∧
         Forall (λ E', Z.land (HT.hash E') (HT.NumBuckets T - 1)
                       = Z.land (HT.hash E) (HT.NumBuckets T - 1)) chain).
Proof.
  intros Hpure Hshort Hinv Hfresh.
  destruct (Emit_pure ib Out m T Hpure Hshort)
    as (bs' & m' & k & HE & Hk & Hal & Hlbs & Hbs').
  cbn zeta in HE. eexists _, _, _, _. split; [exact HE|]. clear HE.
  intros Hb.
  destruct (emitted_lookup ib Out T n bs' k _ Hinv Hfresh Hlbs Hbs' eq_refl Hb)
    as (Hlo & Hhi & Hnb & Hlk).
  assert (H0 : 0 ≤ tell Out) by (unfold tell; lia).
  assert (HNB0 : 0 < HT.NumBuckets T).
  { destruct Hinv as (_ & _ & (e & He & ->) & _). apply Z.pow_pos_nonneg; lia. }
  rewrite u32_small by lia. split_and!; try done.
  intros E HE. destruct (Hlk E HE)
    as (p & chain & H1 & H2 & H3 & H4 & H5 & _ & H6).
  exists p, chain. split_and!; done.
Qed.

End Lookup.

Section FileLookup.
Variable PP : Preprocessor.

Lemma CacheFiles_fresh SM : ∀ W W',
  CacheFiles PP SM W = Ok W' →
  buckets_fresh (HT.Buckets (PM W)) → buckets_fresh (HT.Buckets (PM W')).
Proof.
  induction SM as [|C SM IH]; intros W W' H Hf; cbn [CacheFiles] in H.
  - by injection H as <-.
  - destruct (negb (isAbsolute PP _)); [by apply (IH W)|].
    destruct (getBuffer C) as [L|]; [|by apply (IH W)].
    destruct (LexTokens PP L W) as [[E W1]|] eqn:HL; [|done].
    cbn [mbind Res_bind] in H.
    destruct (HT.insert _ _ _ _) as [pm|] eqn:Hins; [|done].
    cbn [mbind Res_bind] in H.
    apply (IH _ _ H). cbn [PM set_PM].
    apply LexTokens_offsets in HL as (_ & HPM & _). rewrite <- HPM in Hf.
    by eapply insert_fresh.
Qed.

(** X22.  The file table of the file [GeneratePTH] leaves can be
    searched by hash.  With [FTO] the third offset of the prologue, the
    word at [FTO] is the number of buckets [NB], which follows the
    load-factor law for the number of cached files; and for every item
    of the file map the slot [FTO + 8 + 4 (hash & (NB - 1))] holds an
    offset [p] before the table, at which stand the length of a chain on
    16 bits and the items of the chain in full, the item among them.
    This holds for a file below [2^32] bytes whose cached files have
    paths and modes that fit 16 bits. *)
Theorem GeneratePTH_file_lookup (SM : list ContentCache) (W' : PTHWriter) :
  GeneratePTH PP SM (new_PTHWriter []) = Ok W' →
  tell (Out W') < 2 ^ 32 →
  (∀ C, C ∈ SM → cached_file PP C = true → file_key_ok (IsFE (Entry C))) →
  ∃ FTO NB,
    bytes_at (Out W') 19 4 = le32 FTO ∧
    bytes_at (Out W') FTO 4 = le32 NB ∧
    load_factor_law (Z.of_nat (length (filter (cached_file PP) SM))) NB ∧
    ∀ It, It ∈ all_items (HT.Buckets (PM W')) →
      ∃ p chain,
        bytes_at (Out W') (FTO + 8 + 4 * Z.land (HT.hash It) (NB - 1)) 4
        = le32 p ∧
        27 ≤ p ∧
        p + 2 + Z.of_nat (length (concat (file_item_bytes <$> chain))) ≤ FTO ∧
        bytes_at (Out W') p (2 + length (concat (file_item_bytes <$> chain)))
        = le16 (Z.of_nat (length chain)) ++ concat (file_item_bytes <$> chain) ∧
        It ∈ chain ∧
        Forall (λ E, Z.land (HT.hash E) (NB - 1)
                     = Z.land (HT.hash It) (NB - 1)) chain.
Proof.
  set (pre := cfe_pth ++ le32 (Version PP)).
  set (W3 := mkPTHWriter ∅ (pre ++ replicate 16 0) 0 HT.empty_table ∅ 0 []).
  assert (HG : GeneratePTH PP SM (new_PTHWriter [])
    = (W ← CacheFiles PP SM W3;
       '(IdTableOff, W) ← EmitIdentifierTable PP W;
       let '(SpellingOff, W) := EmitCachedSpellings W in
       '(FileTableOff, W) ← EmitFileTable W;
       Ok (set_Out W (seek_write (Out W) (tell pre)
             (le32 IdTableOff.1 ++ le32 IdTableOff.2
              ++ le32 FileTableOff ++ le32 SpellingOff))))) by reflexivity.
  rewrite HG. clear HG. intros H.
  assert (HO3 : Out W3 = pre ++ replicate 16 0) by done.
  assert (HPM3 : PM W3 = HT.empty_table) by done.
  clearbody W3.
  destruct (CacheFiles PP SM W3) as [W4|] eqn:HC;
    cbn [mbind Res_bind] in H; [|done].
  destruct (EmitIdentifierTable PP W4) as [[ids W5]|] eqn:HI;
    cbn [mbind Res_bind] in H; [|done].
  destruct (EmitIdentifierTable_shape _ _ _ _ HI)
    as (p5 & pad5 & hdr5 & tl5 & HO5 & _ & _ & _ & _ & _ & _ & HPM5 & _).
  unfold EmitCachedSpellings in H.
  destruct (EmitSpellings_Out (StrEntries W5) W5) as (HO6 & _).
  pose proof (EmitSpellings_PM (StrEntries W5) W5) as HPM6.
  set (W6 := EmitSpellings W5 (StrEntries W5)) in *. clearbody W6.
  unfold EmitFileTable in H.
  destruct (HT.Emit (Out W6) tt (PM W6)) as [[FTO [pm [out u]]]|] eqn:HE;
    cbn [mbind Res_bind] in H; [|done].
  destruct (Emit_ok _ _ _ _ _ _ HE) as (Hitems7 & Hsh).
  destruct (Emit_shape file_item_appends _ _ _ _ _ _ _ HE)
    as (p7 & pad7 & slots & Hout & _).
  destruct (CacheFiles_appends _ _ _ _ HC) as (x4 & HO4).
  cbn [Out set_Out set_PM] in H.
  set (pool := pool_image (StrEntries W5)) in *.
  set (x5 := p5 ++ replicate pad5 0 ++ hdr5 ++ tl5) in *.
  set (x7 := p7 ++ replicate pad7 0 ++ le32 (HT.NumBuckets (PM W6))
             ++ le32 (HT.NumEntries (PM W6)) ++ slots) in *.
  set (rest := x4 ++ x5 ++ pool ++ x7).
  set (prologue := le32 ids.1 ++ le32 ids.2 ++ le32 FTO
                   ++ le32 (u32 (tell (Out W5)))) in *.
  assert (Hfull : out = pre ++ replicate 16 0 ++ rest).
  { rewrite Hout, HO6, HO5, HO4, HO3. unfold rest, x5.
    by rewrite <- !app_assoc. }
  rewrite Hfull, seek_write_middle in H by done.
  set (Wf := set_Out _ _) in H.
  assert (HOf : Out Wf = pre ++ prologue ++ rest) by done.
  assert (HPMf : PM Wf = pm) by done.
  clearbody Wf. assert (HW : W' = Wf) by congruence. clear H. subst W'.
  intros Hb Hkeys.
  assert (Hlen : ∀ a b : list Z, tell (a ++ b) = tell a + Z.of_nat (length b)).
  { intros a b. unfold tell. rewrite length_app. lia. }
  assert (Hpre : tell pre = 11) by done.
  assert (Hlp : length prologue = 16%nat) by done.
  assert (Tf : tell (Out Wf) = 27 + Z.of_nat (length rest)).
  { rewrite HOf, Hlen, length_app, Hlp. lia. }
  assert (To : tell out = 27 + Z.of_nat (length rest)).
  { rewrite Hfull, Hlen, length_app, length_replicate. lia. }
  assert (T6 : 27 ≤ tell (Out W6)).
  { rewrite HO6, HO5, HO4, HO3, !Hlen, length_replicate. lia. }
  assert (T4 : tell (Out W4) ≤ tell out).
  { rewrite Hout, HO6, HO5. fold x5. rewrite !Hlen. lia. }
  destruct (CacheFiles_inv PP SM W3 W4 0 HC)
    as (Es & HlE & Hperm & HinvT & _).
  { rewrite HPM3. apply table_inv_empty. }
  { lia. }
  { unfold tell. lia. }
  { lia. }
  rewrite HPM3 in Hperm. unfold HT.empty_table in Hperm.
  cbn [HT.Buckets] in Hperm. rewrite all_items_calloc, app_nil_r in Hperm.
  rewrite Z.add_0_l in HinvT.
  assert (Hfresh : buckets_fresh (HT.Buckets (PM W4))).
  { apply (CacheFiles_fresh SM W3 W4 HC). rewrite HPM3. apply calloc_fresh. }
  rewrite <- HPM5, <- HPM6 in Hperm, HinvT, Hfresh.
  assert (Hpure : ∀ E, E ∈ all_items (HT.Buckets (PM W6)) →
            ∀ Out m, ∃ m', HT.EmitChain Out m [E]
                           = Ok (Out ++ file_item_bytes E, m')).
  { intros E HE'. apply file_item_pure. rewrite Hperm in HE'.
    apply elem_of_zip_with in HE' as (C & E0 & -> & HC' & _).
    apply list_elem_of_filter in HC' as (Hc & HC').
    cbn [HT.new_Item HT.key]. apply Hkeys; [done|].
    by apply Is_true_true. }
  assert (Hshort : ∀ (i : nat) B, HT.Buckets (PM W6) !! i = Some B →
                                  u32 (HT.B_length B) < 65536).
  { intros i B Hi. destruct (HT.B_head B) as [|E0 ch] eqn:Hh.
    - destruct (Hfresh i B Hi) as (_ & ->). by rewrite Hh.
    - apply (Hsh i B Hi). by rewrite Hh. }
  pose proof (table_inv_law _ _ HinvT) as Hlaw.
  destruct (Emit_lookup file_item_bytes (Out W6) tt (PM W6) _
              Hpure Hshort HinvT Hfresh)
    as (off & T' & out' & m' & HE' & Hlk).
  rewrite HE in HE'.
  assert (Hoff : off = FTO) by congruence.
  assert (Hout' : out' = out) by congruence.
  subst off out'. clear HE'.
  destruct Hlk as (Hlo & Hhi & Hnb & Hlk); [lia|].
  assert (Htr : ∀ o n s, 27 ≤ o → bytes_at out o n = s →
                         bytes_at (Out Wf) o n = s).
  { intros o n s Ho Hby. rewrite HOf, <- Hby, Hfull.
    apply (bytes_at_patch pre (replicate 16 0)); [done|].
    rewrite Hpre, length_replicate. lia. }
  exists FTO, (HT.NumBuckets (PM W6)). split_and!.
  - rewrite HOf. unfold prologue.
    set (A := pre ++ le32 ids.1 ++ le32 ids.2).
    assert (HA : pre ++ (le32 ids.1 ++ le32 ids.2 ++ le32 FTO
                         ++ le32 (u32 (tell (Out W5)))) ++ rest
                 = A ++ le32 FTO ++ le32 (u32 (tell (Out W5))) ++ rest).
    { unfold A. by rewrite <- !app_assoc. }
    rewrite HA. change 19 with (tell A).
    change 4%nat with (length (le32 FTO)). apply bytes_at_end.
  - apply Htr; [lia|done].
  - by rewrite <- HlE.
  - intros It HIt. rewrite HPMf, Hitems7 in HIt.
    destruct (Hlk It HIt) as (p & chain & Hslot & Hp & Hpe & Hch & Hin & Hall).
    assert (H0 : 0 ≤ Z.land (HT.hash It) (HT.NumBuckets (PM W6) - 1)).
    { apply Z.land_nonneg. right. destruct Hlaw as (_ & ? & _). lia. }
    exists p, chain. split_and!; try done; try lia.
    + apply Htr; [lia|done].
    + apply Htr; [lia|done].
Qed.

End FileLookup.


(** * The further properties at sample inputs *)

Lemma PPCond_table_witness :
  PPDirectives (sample_PP nested_src) nested_example
    = Ok [pp_if; pp_if; pp_endif; pp_endif] ∧
  balanced [pp_if; pp_if; pp_endif; pp_endif] = true ∧
  Z.of_nat (length [pp_if; pp_if; pp_endif; pp_endif]) + 1 < 2 ^ 32 ∧
  [pp_if; pp_if; pp_endif; pp_endif]
    = file_conditionals (sample_PP nested_src) (Pending nested_example) ∧
  ∃ St E W' (js : list nat),
    PPStartCond St = [] ∧ length (PPCond St) = 4%nat ∧
    length js = 4%nat ∧
    LexTokens (sample_PP nested_src) nested_example (new_PTHWriter [])
      = Ok (E, W').
Proof.
  split; [vm_compute; reflexivity|].
  split; [reflexivity|].
  split; [vm_compute; reflexivity|].
  destruct (PPCond_table (sample_PP nested_src) nested_example
              (new_PTHWriter []) [pp_if; pp_if; pp_endif; pp_endif])
    as (Hfc & (St & W1 & E & W' & Ts & js & _ & Hs & Hl & _ & Hjs & _ & _
               & HL & _) & _).
  - vm_compute; reflexivity.
  - reflexivity.
  - vm_compute; reflexivity.
  - split; [exact Hfc|].
    exists St, E, W', js. split; [exact Hs|]. split; [exact Hl|].
    split; [exact Hjs|exact HL].
Defined.

Lemma Pad_aligns_witness :
  0 ≤ 2 ≤ 31 ∧ tell [1; 2; 3] + 2 ^ 2 ≤ 2 ^ 32 ∧
  tell (Pad [1; 2; 3] (2 ^ 2)) mod 2 ^ 2 = 0.
Proof.
  assert (H1 : 0 ≤ 2 ≤ 31) by lia.
  assert (H2 : tell [1; 2; 3] + 2 ^ 2 ≤ 2 ^ 32) by (vm_compute; discriminate).
  split; [exact H1|]. split; [exact H2|].
  destruct (Pad_aligns [1; 2; 3] 2 H1 H2) as (n & _ & _ & _ & H).
  exact H.
Defined.

Lemma BernsteinHash_value_witness :
  Forall (λ c, c ≠ 0) [47; 97] ∧
  BernsteinHash ([47; 97] ++ 0 :: [5]) = BernsteinHash (c_str [47; 97]).
Proof.
  assert (H : Forall (λ c, c ≠ 0) [47; 97]) by (repeat constructor; discriminate).
  split; [exact H|].
  exact (proj1 (proj2 (BernsteinHash_value [47; 97] [5] H))).
Defined.

Lemma insert_all_table_witness :
  Z.of_nat (length (sample_entries 3)) < 805306368 ∧
  ∃ T, HT.insert_all tt (sample_entries 3) HT.empty_table = Ok T ∧
       HT.NumEntries T = Z.of_nat (length (sample_entries 3)).
Proof.
  assert (H : Z.of_nat (length (sample_entries 3)) < 805306368)
    by (vm_compute; reflexivity).
  split; [exact H|].
  destruct (insert_all_table tt (sample_entries 3) H) as (T & H1 & H2 & _).
  exists T. split; [exact H1|exact H2].
Defined.

Lemma resize_order_witness :
  0 ≤ 7 ≤ 31 ∧
  ∃ T', HT.resize (2 ^ 7) (HT.empty_table : @HT.Table PTHEntryKeyVariant PTHEntry)
        = Ok T' ∧
        HT.NumBuckets T' = 2 ^ 7.
Proof.
  assert (H : 0 ≤ 7 ≤ 31) by lia.
  split; [exact H|].
  destruct (resize_order (HT.empty_table : @HT.Table PTHEntryKeyVariant PTHEntry)
              7 H) as (T' & H1 & H2 & _).
  exists T'. split; [exact H1|exact H2].
Defined.

Lemma file_item_assert_witness :
  strlen (getCString (IsFE (sample_file 0))) + 2 < 2 ^ 32 ∧
  HT.EmitChain [] tt [HT.mkItem (IsFE (sample_file 0)) (mkPTHEntry 28 100) 7]
  = Ok ([] ++ file_item_bytes
                (HT.mkItem (IsFE (sample_file 0)) (mkPTHEntry 28 100) 7), tt).
Proof.
  assert (H : strlen (getCString (IsFE (sample_file 0))) + 2 < 2 ^ 32)
    by (vm_compute; reflexivity).
  split; [exact H|].
  exact (file_item_assert (IsFE (sample_file 0)) (mkPTHEntry 28 100) 7 [] H).
Defined.

Lemma LexTokens_stream_witness :
  LexTokens (sample_PP nested_src) nested_example (new_PTHWriter [])
  = Ok (nested_lexed.1, nested_lexed.2) ∧
  tell (Out nested_lexed.2) < 2 ^ 32 ∧
  TokenData nested_lexed.1 mod 4 = 0.
Proof.
  assert (H1 : LexTokens (sample_PP nested_src) nested_example (new_PTHWriter [])
               = Ok (nested_lexed.1, nested_lexed.2))
    by (vm_compute; reflexivity).
  assert (H2 : tell (Out nested_lexed.2) < 2 ^ 32) by (vm_compute; reflexivity).
  split; [exact H1|]. split; [exact H2|].
  destruct (LexTokens_stream _ _ _ _ _ H1 H2)
    as (pad & Ts & T & W1 & recs & tbl & _ & _ & _ & _ & _ & _ & _ & H & _).
  exact H.
Defined.

Lemma PPCond_entries_point_at_hash_witness :
  LexTokens (sample_PP nested_src) nested_example (new_PTHWriter [])
  = Ok (nested_lexed.1, nested_lexed.2) ∧
  tell (Out nested_lexed.2) < 2 ^ 32 ∧
  ∃ (pad : nat) W1,
    TokenData nested_lexed.1 = tell (Out (new_PTHWriter [])) + Z.of_nat pad ∧
    PPCondData nested_lexed.1 = tell (Out W1).
Proof.
  assert (H1 : LexTokens (sample_PP nested_src) nested_example (new_PTHWriter [])
               = Ok (nested_lexed.1, nested_lexed.2))
    by (vm_compute; reflexivity).
  assert (H2 : tell (Out nested_lexed.2) < 2 ^ 32) by (vm_compute; reflexivity).
  split; [exact H1|]. split; [exact H2|].
  destruct (PPCond_entries_point_at_hash _ _ _ _ _ H1 H2)
    as (pad & Ts & W1 & js & targets & _ & Ha & Hb & _).
  exists pad, W1. split; [exact Ha|exact Hb].
Defined.

Lemma LexTokens_unbalanced_witness :
  PPDirectives (sample_PP lone_endif_src) lone_endif = Ok [pp_endif] ∧
  balanced [pp_endif] = false ∧
  Z.of_nat (length [pp_endif]) + 1 < 2 ^ 32 ∧
  LexTokens (sample_PP lone_endif_src) lone_endif (new_PTHWriter [])
  = Err AssertionFailed.
Proof.
  assert (H1 : PPDirectives (sample_PP lone_endif_src) lone_endif
               = Ok [pp_endif]) by (vm_compute; reflexivity).
  assert (H2 : balanced [pp_endif] = false) by reflexivity.
  assert (H3 : Z.of_nat (length [pp_endif]) + 1 < 2 ^ 32)
    by (vm_compute; reflexivity).
  split; [exact H1|]. split; [exact H2|]. split; [exact H3|].
  exact (LexTokens_unbalanced _ _ (new_PTHWriter []) _ H1 H2 H3).
Defined.

Lemma LexTokens_plain_witness :
  Forall (λ T, plain_token (sample_PP plain_src) T = true)
         (Pending plain_example) ∧
  ∃ E W', LexTokens (sample_PP plain_src) plain_example (new_PTHWriter [])
          = Ok (E, W').
Proof.
  assert (H : Forall (λ T, plain_token (sample_PP plain_src) T = true)
                     (Pending plain_example))
    by (repeat constructor).
  split; [exact H|].
  destruct (LexTokens_plain (sample_PP plain_src) plain_example
              (new_PTHWriter []) H) as (W1 & _ & HL).
  eexists _, _. exact HL.
Defined.

Lemma malformed_directive_witness :
  let PP := sample_PP [] in
  let Tok := mkToken tok_hash 1 1 0%N 0 in
  let L := mkLexer [mkToken tok_hash 1 1 0%N 2] 3 in
  Tok_is Tok tok_hash = true ∧ isAtStartOfLine PP Tok = true ∧
  LexBody PP Tok L (mkLexState [] [] false) (new_PTHWriter [])
  = Err AssertionFailed.
Proof.
  intros PP Tok L. split; [reflexivity|]. split; [reflexivity|].
  exact (malformed_directive PP Tok L (mkLexState [] [] false)
           (new_PTHWriter []) eq_refl eq_refl).
Defined.

Lemma include_directive_witness :
  let PP := sample_PP [(1, [105; 110; 99; 108; 117; 100; 101])] in
  let Tok := mkToken tok_hash 1 1 0%N 0 in
  let L := mkLexer [mkToken tok_identifier 0 7 0%N 1;
                    mkToken tok_angle_string_literal 2 5 0%N 9] 14 in
  Tok_is Tok tok_hash = true ∧ isAtStartOfLine PP Tok = true ∧
  isAtStartOfLine PP (LexFromRawLexer L).1 = false ∧
  Tok_is (LexFromRawLexer L).1 tok_identifier = true ∧
  getPPKeywordID PP (LookUpIdentifierInfo PP (LexFromRawLexer L).1)
  = pp_include ∧
  ∃ next W', LexBody PP Tok L (mkLexState [] [] false) (new_PTHWriter [])
             = Ok (next, (mkLexState [] [] true, W')).
Proof.
  intros PP Tok L.
  split; [reflexivity|]. split; [reflexivity|]. split; [reflexivity|].
  split; [reflexivity|]. split; [reflexivity|].
  destruct (include_directive PP Tok L (mkLexState [] [] false)
              (new_PTHWriter []) eq_refl eq_refl eq_refl eq_refl
              (or_introl eq_refl))
    as (St1 & W1 & W' & _ & _ & HB & Hc & Hs).
  exists (LoopCondition
            (looked_up PP (LexIncludeFilename (LexFromRawLexer L).2).1)
            (LexIncludeFilename (LexFromRawLexer L).2).2), W'.
  rewrite HB. cbn [PPCond PPStartCond] in Hc, Hs. rewrite Hc, Hs. reflexivity.
Defined.

Lemma endif_discards_line_witness :
  let PP := sample_PP endif_src in
  let Tok := mkToken tok_hash 1 1 0%N 0 in
  let St := mkLexState [(0, 0)] [0] false in
  Tok_is Tok tok_hash = true ∧ isAtStartOfLine PP Tok = true ∧
  isAtStartOfLine PP (LexFromRawLexer endif_rest).1 = false ∧
  Tok_is (LexFromRawLexer endif_rest).1 tok_identifier = true ∧
  getPPKeywordID PP (LookUpIdentifierInfo PP (LexFromRawLexer endif_rest).1)
  = pp_endif ∧
  LexBody PP Tok endif_rest St (new_PTHWriter [])
  = Ok (endif_step.1, (endif_step.2.1, endif_step.2.2)) ∧
  length (PPCond endif_step.2.1) = S (length (PPCond St)).
Proof.
  intros PP Tok St.
  assert (HB : LexBody PP Tok endif_rest St (new_PTHWriter [])
               = Ok (endif_step.1, (endif_step.2.1, endif_step.2.2)))
    by (vm_compute; reflexivity).
  split; [reflexivity|]. split; [reflexivity|]. split; [reflexivity|].
  split; [reflexivity|]. split; [reflexivity|]. split; [exact HB|].
  destruct (endif_discards_line PP Tok endif_rest St (new_PTHWriter [])
              _ _ _ eq_refl eq_refl eq_refl eq_refl eq_refl HB)
    as (St1 & W1 & junk & T & rest & _ & _ & _ & _ & _ & H).
  exact H.
Defined.

Lemma identifier_item_emission_witness :
  let PP := sample_PP [] in
  let m := [mkPTHIdKey 7%N 0] in
  (0 < length m)%nat ∧
  strlen (c_str (getName PP (IdKey_II (m !!! 0%nat)))) + 1 < 2 ^ 32 ∧
  @HT.EmitChain nat Z (list PTHIdKey) (PTHIdentifierTableTrait PP)
     [] m [HT.mkItem 0%nat 1 9]
  = Ok ([9; 0; 0; 0; 4; 0; 102; 111; 111; 0; 1; 0; 0; 0],
        [mkPTHIdKey 7%N 6]).
Proof.
  intros PP m.
  assert (H1 : (0 < length m)%nat) by (cbn; lia).
  assert (H2 : strlen (c_str (getName PP (IdKey_II (m !!! 0%nat)))) + 1
               < 2 ^ 32) by (vm_compute; reflexivity).
  split; [exact H1|]. split; [exact H2|].
  exact (proj1 (identifier_item_emission PP m 0 1 9 [] H1 H2)).
Defined.

Lemma sample_names_short src II :
  strlen (c_str (getName (sample_PP src) II)) + 1 < 65536.
Proof.
  cbn [getName sample_PP]. unfold sample_entry.
  generalize (Init.Nat.pred (N.to_nat II)). intros n.
  do 9 (destruct n as [|n]; [vm_compute; reflexivity|]).
  vm_compute; reflexivity.
Qed.

Lemma EmitIdentifierTable_inverse_witness :
  let PP := sample_PP [] in
  let W := (ResolveAll [7%N; 5%N] (new_PTHWriter [])).2 in
  interner_inv W ∧ idcount W < 65536 ∧
  (∀ II id, IM W !! II = Some id →
            strlen (c_str (getName PP II)) + 1 < 65536) ∧
  ∃ r, EmitIdentifierTable PP W = Ok r.
Proof.
  intros PP W.
  assert (H1 : interner_inv W).
  { apply (ResolveAll_run [7%N; 5%N] (new_PTHWriter []));
      [apply interner_inv_new|vm_compute; reflexivity]. }
  assert (H2 : idcount W < 65536) by (vm_compute; reflexivity).
  assert (H3 : ∀ II id, IM W !! II = Some id →
                        strlen (c_str (getName PP II)) + 1 < 65536)
    by (intros II id _; apply sample_names_short).
  split; [exact H1|]. split; [exact H2|]. split; [exact H3|].
  destruct (EmitIdentifierTable_inverse PP W H1 H2 H3)
    as (IDOff & STO & W' & payload & pad & NB & slots & offs & HE & _).
  eexists. exact HE.
Defined.

Lemma CacheFiles_file_map_witness :
  let PP := sample_PP nested_src in
  CacheFiles PP nested_SM (new_PTHWriter []) = Ok nested_cached ∧
  PM (new_PTHWriter []) = HT.empty_table ∧
  tell (Out nested_cached) < 2 ^ 32 ∧
  HT.NumEntries (PM nested_cached)
  = Z.of_nat (length (filter (cached_file PP) nested_SM)).
Proof.
  intros PP.
  assert (H1 : CacheFiles PP nested_SM (new_PTHWriter []) = Ok nested_cached)
    by (vm_compute; reflexivity).
  assert (H2 : tell (Out nested_cached) < 2 ^ 32) by (vm_compute; reflexivity).
  split; [exact H1|]. split; [reflexivity|]. split; [exact H2|].
  destruct (CacheFiles_file_map PP nested_SM _ _ H1 eq_refl H2)
    as (Es & _ & _ & H & _).
  exact H.
Defined.

Lemma GeneratePTH_layout_witness :
  let PP := sample_PP nested_src in
  GeneratePTH PP nested_SM (new_PTHWriter []) = Ok nested_generated ∧
  ∃ body, Out nested_generated = cfe_pth ++ le32 (Version PP) ++ body.
Proof.
  intros PP.
  assert (H1 : GeneratePTH PP nested_SM (new_PTHWriter []) = Ok nested_generated)
    by (vm_compute; reflexivity).
  split; [exact H1|].
  destruct (GeneratePTH_layout PP nested_SM _ H1)
    as (IDOff & STO & FTO & SO & body & H & _).
  eexists. exact H.
Defined.

Lemma LexTokens_records_witness :
  let PP := sample_PP nested_src in
  LexTokens PP nested_example (new_PTHWriter [])
  = Ok (nested_lexed.1, nested_lexed.2) ∧
  interner_inv (new_PTHWriter []) ∧ pool_inv (new_PTHWriter []) ∧
  12 * idcount (new_PTHWriter []) ≤ tell (Out (new_PTHWriter [])) ∧
  tell (Out nested_lexed.2) < 2 ^ 32 ∧
  pool_size (StrEntries nested_lexed.2) < 2 ^ 32 ∧
  interner_inv nested_lexed.2.
Proof.
  intros PP.
  assert (H1 : LexTokens PP nested_example (new_PTHWriter [])
               = Ok (nested_lexed.1, nested_lexed.2))
    by (vm_compute; reflexivity).
  assert (H2 : 12 * idcount (new_PTHWriter []) ≤ tell (Out (new_PTHWriter [])))
    by (vm_compute; discriminate).
  assert (H3 : tell (Out nested_lexed.2) < 2 ^ 32) by (vm_compute; reflexivity).
  assert (H4 : pool_size (StrEntries nested_lexed.2) < 2 ^ 32)
    by (vm_compute; reflexivity).
  split; [exact H1|]. split; [apply interner_inv_new|].
  split; [apply pool_inv_new|]. split; [exact H2|]. split; [exact H3|].
  split; [exact H4|].
  exact (proj1 (LexTokens_records PP _ _ _ _ H1 (interner_inv_new [])
                  (pool_inv_new []) H2 H3 H4)).
Defined.

Lemma other_directive_witness :
  let Tok := mkToken tok_hash 1 1 0%N 0 in
  Tok_is Tok tok_hash = true ∧ isAtStartOfLine define_PP Tok = true ∧
  isAtStartOfLine define_PP (LexFromRawLexer define_rest).1 = false ∧
  Tok_is (LexFromRawLexer define_rest).1 tok_identifier = true ∧
  plain_directive
    (getPPKeywordID define_PP
       (LookUpIdentifierInfo define_PP (LexFromRawLexer define_rest).1))
  = true ∧
  ∃ next W', LexBody define_PP Tok define_rest (mkLexState [] [] false)
                     (new_PTHWriter [])
             = Ok (next, (mkLexState [] [] true, W')).
Proof.
  intros Tok.
  split; [reflexivity|]. split; [reflexivity|]. split; [reflexivity|].
  split; [reflexivity|]. split; [reflexivity|].
  destruct (other_directive define_PP Tok define_rest (mkLexState [] [] false)
              (new_PTHWriter []) eq_refl eq_refl eq_refl eq_refl eq_refl)
    as (St1 & W1 & W' & _ & _ & HB & Hc & Hs).
  exists (LoopCondition (looked_up define_PP (LexFromRawLexer define_rest).1)
                        (LexFromRawLexer define_rest).2), W'.
  rewrite HB. cbn [PPCond PPStartCond] in Hc, Hs. rewrite Hc, Hs. reflexivity.
Defined.

Lemma GeneratePTH_round_trip_witness :
  let PP := sample_PP nested_src in
  GeneratePTH PP nested_SM (new_PTHWriter []) = Ok nested_generated ∧
  tell (Out nested_generated) < 2 ^ 32 ∧
  (∀ II id, IM nested_generated !! II = Some id →
            strlen (c_str (getName PP II)) + 1 < 65536) ∧
  ∃ IDOff SO,
    bytes_at (Out nested_generated) 11 4 = le32 IDOff ∧
    bytes_at (Out nested_generated) 23 4 = le32 SO.
Proof.
  intros PP.
  assert (H1 : GeneratePTH PP nested_SM (new_PTHWriter []) = Ok nested_generated)
    by (vm_compute; reflexivity).
  assert (H2 : tell (Out nested_generated) < 2 ^ 32)
    by (vm_compute; reflexivity).
  assert (H3 : ∀ II id, IM nested_generated !! II = Some id →
                        strlen (c_str (getName PP II)) + 1 < 65536)
    by (intros II id _; apply sample_names_short).
  split; [exact H1|]. split; [exact H2|]. split; [exact H3|].
  destruct (GeneratePTH_round_trip PP nested_SM _ H1 H2 H3)
    as (IDOff & SO & Es & Tss & Ha & Hb & _).
  exists IDOff, SO. split; [exact Ha|exact Hb].
Defined.

Lemma GeneratePTH_file_lookup_witness :
  let PP := sample_PP nested_src in
  GeneratePTH PP nested_SM (new_PTHWriter []) = Ok nested_generated ∧
  tell (Out nested_generated) < 2 ^ 32 ∧
  (∀ C, C ∈ nested_SM → cached_file PP C = true →
        file_key_ok (IsFE (Entry C))) ∧
  ∃ FTO NB,
    bytes_at (Out nested_generated) 19 4 = le32 FTO ∧
    bytes_at (Out nested_generated) FTO 4 = le32 NB.
Proof.
  intros PP.
  assert (H1 : GeneratePTH PP nested_SM (new_PTHWriter []) = Ok nested_generated)
    by (vm_compute; reflexivity).
  assert (H2 : tell (Out nested_generated) < 2 ^ 32)
    by (vm_compute; reflexivity).
  assert (H3 : ∀ C, C ∈ nested_SM → cached_file PP C = true →
                    file_key_ok (IsFE (Entry C))).
  { intros C HC _. apply list_elem_of_singleton in HC as ->.
    split; vm_compute; reflexivity. }
  split; [exact H1|]. split; [exact H2|]. split; [exact H3|].
  destruct (GeneratePTH_file_lookup PP nested_SM _ H1 H2 H3)
    as (FTO & NB & Ha & Hb & _).
  exists FTO, NB. split; [exact Ha|exact Hb].
Defined.

Lemma GeneratePTH_identifier_lookup_witness :
  let PP := sample_PP nested_src in
  GeneratePTH PP nested_SM (new_PTHWriter []) = Ok nested_generated ∧
  tell (Out nested_generated) < 2 ^ 32 ∧
  (∀ II id, IM nested_generated !! II = Some id →
            strlen (c_str (getName PP II)) + 1 < 65536) ∧
  ∃ STO NB,
    bytes_at (Out nested_generated) 15 4 = le32 STO ∧
    bytes_at (Out nested_generated) STO 4 = le32 NB.
Proof.
  intros PP.
  assert (H1 : GeneratePTH PP nested_SM (new_PTHWriter []) = Ok nested_generated)
    by (vm_compute; reflexivity).
  assert (H2 : tell (Out nested_generated) < 2 ^ 32)
    by (vm_compute; reflexivity).
  assert (H3 : ∀ II id, IM nested_generated !! II = Some id →
                        strlen (c_str (getName PP II)) + 1 < 65536)
    by (intros II id _; apply sample_names_short).
  split; [exact H1|]. split; [exact H2|]. split; [exact H3|].
  destruct (GeneratePTH_identifier_lookup PP nested_SM _ H1 H2 H3)
    as (STO & NB & Ha & Hb & _).
  exists STO, NB. split; [exact Ha|exact Hb].
Defined.
